(** * Wotan: the path-enumeration / probability-analysis driver

    A shallow embedding of [analysis_main.cxx] of the Wotan FPGA
    routability analyser, together with the properties of it that the
    specification states.

    Conventions of the embedding.
    - A C++ [int] is a [Z]; signed overflow is undefined in C++, so the
      model describes the executions in which no intermediate result
      leaves the range of [int].
    - An index into a [vector] is a [nat]; reading or writing outside the
      vector (undefined behaviour in C++) is the exception
      [Ex_out_of_bounds] of the model.
    - [WTHROW(EX_PATH_ENUM, ...)] is a [Throw]; every function that can
      throw returns a [result].
    - A [float] that carries a probability or a demand is a rational
      [Q] wherever the statements made about it are the code's own
      operations in the code's own order, or bounds that rounding to
      nearest keeps.  Where the outcome depends on what a [float] is bit
      for bit, it is an IEEE-754 value, a [spec_float] of the Standard
      Library with the arithmetic of [Module Binary32]: the estimate of
      a probability model, which may be a NaN, and the demand adjusted
      for the path history, whose tolerance test sits at the rounding
      error.  The places where the code converts a [double] product back
      to an [int] are modelled bit for bit in [Module Binary64]. *)

From Stdlib Require Import ZArith QArith Qpower Qminmax Lia Bool List Permutation.
From Stdlib Require Import Floats Uint63.
From stdpp Require Import base option list.

Local Open Scope Z_scope.

(** ** Exceptions and results *)

(** One constructor for each [WTHROW] of the code that the model reaches
    (and for the failing [push] of the bounded queue), and two of the
    model's own: [Ex_out_of_bounds] for an access outside a vector, and
    [Ex_out_of_fuel] for a loop that is cut off, which the loops of the
    model never are ([set_node_distances_terminates],
    [set_node_hops_terminates]). *)
Inductive wotan_exception : Type :=
| Ex_destination_not_single_tile
| Ex_node_spans_both_directions
| Ex_distance_mismatch (min_dist_source min_dist_sink : Z)
| Ex_pq_weight_above_bound
| Ex_pq_empty
| Ex_probability_above_one
| Ex_probability_below_zero
| Ex_negative_connection_probability
| Ex_reliability_needs_node_demand
| Ex_modifier_larger_than_demand
| Ex_unexpected_pin_type
| Ex_unexpected_node_type
| Ex_expected_sink
| Ex_expected_source
| Ex_pin_probabilities_differ
| Ex_out_of_bounds
| Ex_out_of_fuel.

Inductive result (A : Type) : Type :=
| Ok (a : A)
| Throw (e : wotan_exception).

Arguments Ok {A} a.
Arguments Throw {A} e.

#[global] Instance result_ret : MRet result := fun A a => Ok a.
#[global] Instance result_bind : MBind result :=
  fun A B f r => match r with Ok a => f a | Throw e => Throw e end.

(** [v[i]] on a [vector]. *)
Definition at_index {A} (v : list A) (i : nat) : result A :=
  match v !! i with Some a => Ok a | None => Throw Ex_out_of_bounds end.

(** [v[i] = a] on a [vector]. *)
Definition set_index {A} (v : list A) (i : nat) (a : A) : result (list A) :=
  if decide (i < length v)%nat then Ok (<[i := a]> v) else Throw Ex_out_of_bounds.

(** ** Constants of the translation unit *)

(** The sentinel of [wotan_types.h], which is not part of the sources at
    hand.  The code's own remarks ("got source_sink_hops of -1??", a
    negative probability being the error case) fix it to -1. *)
Definition UNDEFINED : Z := -1.

Definition CORE_OFFSET : Z := 3.

(** ** The routing-resource graph *)

Inductive e_rr_type : Type := SOURCE | SINK | IPIN | OPIN | CHANX | CHANY.

#[global] Instance e_rr_type_eq_dec : EqDecision e_rr_type.
Proof. solve_decision. Defined.

Inductive e_traversal_dir : Type := FORWARD_TRAVERSAL | BACKWARD_TRAVERSAL.

Inductive e_topological_mode : Type := ENUMERATE | PROBABILITY.

Inductive e_probability_mode : Type :=
| PROPAGATE | CUTLINE | CUTLINE_SIMPLE | CUTLINE_RECURSIVE | RELIABILITY_POLYNOMIAL.

(** The fields of [RR_Node] that the analysis driver reads. *)
Record RR_Node : Type := mk_RR_Node {
  rr_type : e_rr_type;
  xlow : Z; xhigh : Z; ylow : Z; yhigh : Z;
  weight : Z;
  ptc_num : nat;
  out_edges : list nat;
  in_edges : list nat;
}.

Abbreviation t_rr_node := (list RR_Node) (only parsing).

(** ** Per-node distance state

    Modelled from the spec: class [SS_Distances] ([wotan_types.h]) is not
    among the sources.  Section 3 gives it four distance fields, four
    visited flags, "clearing resets all fields", and
    [is_legal(node_weight, W)] as
    [source_distance + sink_distance - node_weight <= W] with both
    distance flags set. *)
Record SS_Distances : Type := mk_SS_Distances {
  source_distance : Z;
  sink_distance : Z;
  source_hops : Z;
  sink_hops : Z;
  visited_from_source : bool;
  visited_from_sink : bool;
  visited_from_source_hops : bool;
  visited_from_sink_hops : bool;
}.

(** Modelled from the spec: the state of a freshly constructed or cleared
    [SS_Distances]. *)
Definition SS_Distances_clear : SS_Distances :=
  mk_SS_Distances UNDEFINED UNDEFINED UNDEFINED UNDEFINED false false false false.

Definition set_source_distance (d : Z) (s : SS_Distances) : SS_Distances :=
  mk_SS_Distances d (sink_distance s) (source_hops s) (sink_hops s)
    (visited_from_source s) (visited_from_sink s)
    (visited_from_source_hops s) (visited_from_sink_hops s).

Definition set_sink_distance (d : Z) (s : SS_Distances) : SS_Distances :=
  mk_SS_Distances (source_distance s) d (source_hops s) (sink_hops s)
    (visited_from_source s) (visited_from_sink s)
    (visited_from_source_hops s) (visited_from_sink_hops s).

Definition set_source_hops (h : Z) (s : SS_Distances) : SS_Distances :=
  mk_SS_Distances (source_distance s) (sink_distance s) h (sink_hops s)
    (visited_from_source s) (visited_from_sink s)
    (visited_from_source_hops s) (visited_from_sink_hops s).

Definition set_sink_hops (h : Z) (s : SS_Distances) : SS_Distances :=
  mk_SS_Distances (source_distance s) (sink_distance s) (source_hops s) h
    (visited_from_source s) (visited_from_sink s)
    (visited_from_source_hops s) (visited_from_sink_hops s).

Definition set_visited_from_source (b : bool) (s : SS_Distances) : SS_Distances :=
  mk_SS_Distances (source_distance s) (sink_distance s) (source_hops s) (sink_hops s)
    b (visited_from_sink s)
    (visited_from_source_hops s) (visited_from_sink_hops s).

Definition set_visited_from_sink (b : bool) (s : SS_Distances) : SS_Distances :=
  mk_SS_Distances (source_distance s) (sink_distance s) (source_hops s) (sink_hops s)
    (visited_from_source s) b
    (visited_from_source_hops s) (visited_from_sink_hops s).

Definition set_visited_from_source_hops (b : bool) (s : SS_Distances) : SS_Distances :=
  mk_SS_Distances (source_distance s) (sink_distance s) (source_hops s) (sink_hops s)
    (visited_from_source s) (visited_from_sink s)
    b (visited_from_sink_hops s).

Definition set_visited_from_sink_hops (b : bool) (s : SS_Distances) : SS_Distances :=
  mk_SS_Distances (source_distance s) (sink_distance s) (source_hops s) (sink_hops s)
    (visited_from_source s) (visited_from_sink s)
    (visited_from_source_hops s) b.

(** Modelled from the spec: [SS_Distances::is_legal]. *)
Definition is_legal (s : SS_Distances) (node_weight max_path_weight : Z) : bool :=
  (source_distance s + sink_distance s - node_weight <=? max_path_weight)
  && visited_from_source s && visited_from_sink s.

Abbreviation t_ss_distances := (list SS_Distances) (only parsing).
Abbreviation t_nodes_visited := (list nat) (only parsing).

(** ** The bounded priority queue

    Modelled from the spec: [My_Bounded_Priority_Queue] ([wotan_util.h])
    is not among the sources.  Section 4.1: a min-queue keyed by a small
    integer weight, [push] fails when the weight exceeds the bound, and
    the order among items of equal weight is unspecified but
    deterministic.  Here the entries are kept sorted by weight and a new
    entry goes behind the entries of its own weight. *)
Record My_Bounded_Priority_Queue : Type := mk_PQ {
  pq_max_weight : Z;
  pq_entries : list (nat * Z);
}.

Definition pq_new (max_weight : Z) : My_Bounded_Priority_Queue :=
  mk_PQ max_weight [].

Fixpoint pq_insert (item : nat) (w : Z) (es : list (nat * Z)) : list (nat * Z) :=
  match es with
  | [] => [(item, w)]
  | (i, w') :: rest =>
      if w <? w' then (item, w) :: es else (i, w') :: pq_insert item w rest
  end.

Definition pq_push (item : nat) (w : Z) (pq : My_Bounded_Priority_Queue)
  : result My_Bounded_Priority_Queue :=
  if w >? pq_max_weight pq then Throw Ex_pq_weight_above_bound
  else Ok (mk_PQ (pq_max_weight pq) (pq_insert item w (pq_entries pq))).

Definition pq_size (pq : My_Bounded_Priority_Queue) : nat := length (pq_entries pq).

(** [top], [top_weight] and [pop] in one step, as the traversal uses them. *)
Definition pq_take (pq : My_Bounded_Priority_Queue)
  : result (nat * Z * My_Bounded_Priority_Queue) :=
  match pq_entries pq with
  | [] => Throw Ex_pq_empty
  | (i, w) :: rest => Ok (i, w, mk_PQ (pq_max_weight pq) rest)
  end.

(** ** IEEE-754 binary64 products of an [int] and a literal

    [PATH_FLEXIBILITY_FACTOR] (1.3) and [WORST_ROUTABILITY_PERCENTILE]
    (0.10) are [double] literals.  In [n * 1.3] the [int] is converted to
    [double] (exactly, it has at most 31 significant bits), the product is
    rounded to nearest, ties to even, at 53 significant bits, and the
    result is passed to [ceil] or truncated by the conversion to [int]. *)
Module Binary64.

(** A literal, as [significand * 2^(-scale)]. *)
Record literal : Type := mk_literal { significand : Z; scale : Z }.

(** 1.3 is 0x3FF4CCCCCCCCCCCD. *)
Definition lit_1_3 : literal := mk_literal 5854679515581645 52.

(** 0.10 is 0x3FB999999999999A. *)
Definition lit_0_10 : literal := mk_literal 3602879701896397 55.

(** Round the non-negative integer [N] to the nearest integer with at most
    53 significant bits, ties to even. *)
Definition round_to_prec (N : Z) : Z :=
  let t := Z.log2 N + 1 - 53 in
  if t <=? 0 then N
  else
    let q := N / 2 ^ t in
    let r := N mod 2 ^ t in
    let q' := if (2 * r >? 2 ^ t) || ((2 * r =? 2 ^ t) && Z.odd q) then q + 1 else q in
    q' * 2 ^ t.

(** [R] is [N] rounded at [t] low bits: exact, down or up (a tie may go
    either way, by the parity of the quotient). *)
Inductive rounds (N : Z) (t : Z) (R : Z) : Prop :=
| rounds_exact : t <= 0 -> R = N -> rounds N t R
| rounds_down (q r : Z) :
    0 < t -> N = q * 2 ^ t + r -> 0 <= r -> 2 * r <= 2 ^ t -> R = q * 2 ^ t -> rounds N t R
| rounds_up (q r : Z) :
    0 < t -> N = q * 2 ^ t + r -> r < 2 ^ t -> 2 ^ t <= 2 * r -> R = (q + 1) * 2 ^ t ->
    rounds N t R.

(** The magnitude of [(double)k * c], in units of [2^(-scale c)]. *)
Definition mul_magnitude (k : Z) (c : literal) : Z :=
  round_to_prec (Z.abs k * significand c).

(** [(int)ceil(k * c)]. *)
Definition ceil_mul (k : Z) (c : literal) : Z :=
  if k <? 0 then - (mul_magnitude k c / 2 ^ scale c)
  else - ((- mul_magnitude k c) / 2 ^ scale c).

(** [(int)(k * c)]: the conversion truncates towards zero. *)
Definition trunc_mul (k : Z) (c : literal) : Z :=
  Z.sgn k * (mul_magnitude k c / 2 ^ scale c).

(** The same product by the kernel's own binary64 arithmetic, to check
    [mul_magnitude] against; [c] is the literal as a primitive float. *)
Definition kernel_product (k : Z) (c : float) : spec_float :=
  Prim2SF (PrimFloat.mul (PrimFloat.of_uint63 (Uint63.of_Z (Z.abs k))) c).

Definition agrees_with_kernel (lit : literal) (c : float) (k : Z) : bool :=
  match kernel_product k c with
  | S754_zero _ => mul_magnitude k lit =? 0
  | S754_finite false m e =>
      mul_magnitude k lit * 2 ^ Z.max 0 (- (e + scale lit))
      =? Z.pos m * 2 ^ Z.max 0 (e + scale lit)
  | _ => false
  end.

Definition double_1_3 : float := 0x1.4cccccccccccdp+0%float.
Definition double_0_10 : float := 0x1.999999999999ap-4%float.

End Binary64.

(** ** IEEE-754 binary32 values

    A [float] of the code as a [spec_float]: a zero, an infinity, a NaN
    or [(-1)^s * m * 2^e].  The arithmetic is the Standard Library's
    specification of IEEE-754 ([SpecFloat], which the kernel's own
    floats are specified by) at 24 significant bits, rounding to
    nearest, ties to even; [double] arithmetic is the same at 53 bits.
    The comparisons compare the values and are false on a NaN. *)
Module Binary32.

Definition prec : Z := 24.
Definition emax : Z := 128.

Definition zero : spec_float := S754_zero false.

(** 1.0f is 0x3F800000. *)
Definition one : spec_float := S754_finite false 8388608 (-23).

(** [(float)n] *)
Definition of_int (n : Z) : spec_float := binary_normalize prec emax n 0 false.

Definition add : spec_float -> spec_float -> spec_float := SFadd prec emax.
Definition sub : spec_float -> spec_float -> spec_float := SFsub prec emax.
Definition mul : spec_float -> spec_float -> spec_float := SFmul prec emax.
Definition div : spec_float -> spec_float -> spec_float := SFdiv prec emax.

(** The value of a number; an infinity and a NaN have none, and get 0. *)
Definition value (x : spec_float) : Q :=
  match x with
  | S754_finite s m e => (inject_Z (cond_Zopp s (Z.pos m)) * 2 ^ e)%Q
  | _ => 0%Q
  end.

Arguments value : simpl never.

(** The comparison of IEEE-754: no answer when one side is a NaN.  It
    goes by the values; on the numbers of a format it is [SFcompare] of
    the Standard Library ([Binary32_compare_SFcompare]). *)
Definition compare (x y : spec_float) : option comparison :=
  match x, y with
  | S754_nan, _ | _, S754_nan => None
  | S754_infinity sx, S754_infinity sy =>
      Some (match sx, sy with
            | true, true | false, false => Eq
            | true, false => Lt
            | false, true => Gt
            end)
  | S754_infinity s, _ => Some (if s then Lt else Gt)
  | _, S754_infinity s => Some (if s then Gt else Lt)
  | _, _ => Some (value x ?= value y)%Q
  end.

(** [x] is a value of the format: an infinity, a NaN, a zero, or a
    number whose significand and exponent are those of its binary32
    encoding. *)
Definition valid (x : spec_float) : bool := SpecFloat.valid_binary prec emax x.

(** [x < y], [x <= y] *)
Definition ltb (x y : spec_float) : bool :=
  match compare x y with Some Lt => true | _ => false end.

Definition leb (x y : spec_float) : bool :=
  match compare x y with Some (Lt | Eq) => true | _ => false end.

(** [std::max(a, b)], which is [(a < b) ? b : a]. *)
Definition max (a b : spec_float) : spec_float := if ltb a b then b else a.

(** [0 <= p <= 1] *)
Definition in_unit_interval (p : spec_float) : Prop :=
  leb zero p = true /\ leb p one = true.

(** The conversion of a [float] to [double], which is exact, the sum of
    two [double]s, and the [double] literal 0.00001, which is
    0x3EE4F8B588E368F1. *)
Definition to_double (x : spec_float) : spec_float :=
  match x with
  | S754_finite s m e => binary_round 53 1024 s m e
  | _ => x
  end.

Definition double_add : spec_float -> spec_float -> spec_float := SFadd 53 1024.

Definition double_0_00001 : spec_float := S754_finite false 5902958103587057 (-69).

(** The literal as a primitive float, to check the significand against. *)
Definition kernel_0_00001 : float := 0x1.4f8b588e368f1p-17%float.

End Binary32.

(** The range of a C++ [int]. *)
Definition in_int_range (z : Z) : Prop := - 2 ^ 31 <= z < 2 ^ 31.

(** ** The distance pass *)

(** Returns whether the node, which ends a path of weight
    [node_path_weight], can still reach the destination tile within
    [max_path_weight]. *)
Definition node_has_chance_to_reach_destination (node_ind : nat)
    (destx desty node_path_weight max_path_weight : Z) (rr_node : t_rr_node)
  : result bool :=
  node ← at_index rr_node node_ind;
  let node_xlow := xlow node in
  let node_xhigh := xhigh node in
  let node_ylow := ylow node in
  let node_yhigh := yhigh node in
  '(x_diff, y_diff) ←
    (if node_xlow =? node_xhigh then
       (* node spans in y-direction *)
       if (desty <=? node_yhigh) && (desty >=? node_ylow) then
         Ok (Z.abs (destx - node_xlow), 0)
       else if desty >? node_yhigh then
         Ok (Z.abs (destx - node_xlow), desty - node_yhigh)
       else
         Ok (Z.abs (destx - node_xlow), node_ylow - desty)
     else if node_ylow =? node_yhigh then
       (* node spans in x-direction *)
       if (destx <=? node_xhigh) && (destx >=? node_xlow) then
         Ok (0, Z.abs (desty - node_ylow) - 1)
       else if destx >? node_xhigh then
         Ok (destx - node_xhigh, Z.abs (desty - node_ylow))
       else
         Ok (node_xlow - destx, Z.abs (desty - node_ylow))
     else Throw Ex_node_spans_both_directions);
  let remaining_lower_bound := Z.max (x_diff + y_diff - 1) 0 in
  Ok (node_path_weight + remaining_lower_bound <=? max_path_weight).

Definition visited_in (dir : e_traversal_dir) (s : SS_Distances) : bool :=
  match dir with
  | FORWARD_TRAVERSAL => visited_from_source s
  | BACKWARD_TRAVERSAL => visited_from_sink s
  end.

(** One iteration of the loop over the edge list in
    [put_children_on_pq_and_set_ss_distance]; a [continue] returns the
    state as it is at that point. *)
Definition relax_child (base_weight : Z) (max_path_weight : Z)
    (traversal_dir : e_traversal_dir) (rr_node : t_rr_node) (destx desty : Z)
    (st : t_ss_distances * My_Bounded_Priority_Queue) (node_ind : nat)
  : result (t_ss_distances * My_Bounded_Priority_Queue) :=
  let '(ss_distances, PQ) := st in
  s ← at_index ss_distances node_ind;
  if visited_in traversal_dir s then Ok (ss_distances, PQ)
  else
    node ← at_index rr_node node_ind;
    let node_weight := weight node in
    let path_weight := base_weight + node_weight in
    match traversal_dir with
    | FORWARD_TRAVERSAL =>
        chance ← node_has_chance_to_reach_destination node_ind destx desty
                   path_weight max_path_weight rr_node;
        if negb chance then Ok (ss_distances, PQ)
        else
          let s' := set_visited_from_source true (set_source_distance path_weight s) in
          PQ' ← pq_push node_ind path_weight PQ;
          Ok (<[node_ind := s']> ss_distances, PQ')
    | BACKWARD_TRAVERSAL =>
        let s' := set_visited_from_sink true (set_sink_distance path_weight s) in
        if negb (is_legal s' node_weight max_path_weight) then
          let s'' := set_visited_from_sink false (set_sink_distance UNDEFINED s') in
          Ok (<[node_ind := s'']> ss_distances, PQ)
        else
          PQ' ← pq_push node_ind path_weight PQ;
          Ok (<[node_ind := s']> ss_distances, PQ')
    end.

Fixpoint relax_children (base_weight : Z) (max_path_weight : Z)
    (traversal_dir : e_traversal_dir) (rr_node : t_rr_node) (destx desty : Z)
    (edge_list : list nat) (st : t_ss_distances * My_Bounded_Priority_Queue)
  : result (t_ss_distances * My_Bounded_Priority_Queue) :=
  match edge_list with
  | [] => Ok st
  | node_ind :: rest =>
      st' ← relax_child base_weight max_path_weight traversal_dir rr_node destx desty
              st node_ind;
      relax_children base_weight max_path_weight traversal_dir rr_node destx desty rest st'
  end.

(** Enqueues the nodes of the edge list whose path may still matter. *)
Definition put_children_on_pq_and_set_ss_distance (edge_list : list nat)
    (base_weight : Z) (ss_distances : t_ss_distances) (max_path_weight : Z)
    (traversal_dir : e_traversal_dir) (rr_node : t_rr_node) (to_node_ind : nat)
    (PQ : My_Bounded_Priority_Queue)
  : result (t_ss_distances * My_Bounded_Priority_Queue) :=
  to_node ← at_index rr_node to_node_ind;
  if negb (xlow to_node =? xhigh to_node) || negb (ylow to_node =? yhigh to_node) then
    Throw Ex_destination_not_single_tile
  else
    relax_children base_weight max_path_weight traversal_dir rr_node
      (xlow to_node) (ylow to_node) edge_list (ss_distances, PQ).

Definition edges_in (dir : e_traversal_dir) (node : RR_Node) : list nat :=
  match dir with
  | FORWARD_TRAVERSAL => out_edges node
  | BACKWARD_TRAVERSAL => in_edges node
  end.

(** The [while (PQ.size() != 0)] loop of [set_node_distances]. *)
Fixpoint distance_loop (fuel : nat) (to_node_ind : nat) (rr_node : t_rr_node)
    (max_path_weight : Z) (traversal_dir : e_traversal_dir)
    (ss_distances : t_ss_distances) (PQ : My_Bounded_Priority_Queue)
    (nodes_visited : t_nodes_visited)
  : result (t_ss_distances * t_nodes_visited) :=
  match fuel with
  | O => Throw Ex_out_of_fuel
  | S fuel' =>
      if decide (pq_size PQ = 0%nat) then Ok (ss_distances, nodes_visited)
      else
        '(node_ind, node_path_weight, PQ1) ← pq_take PQ;
        node ← at_index rr_node node_ind;
        '(ss', PQ') ← put_children_on_pq_and_set_ss_distance
                        (edges_in traversal_dir node) node_path_weight ss_distances
                        max_path_weight traversal_dir rr_node to_node_ind PQ1;
        distance_loop fuel' to_node_ind rr_node max_path_weight traversal_dir
          ss' PQ' (nodes_visited ++ [node_ind])
  end.

(** Bounded Dijkstra from [from_node_ind].  Every pass of the loop removes
    one queue entry and every entry added marks a node that was not
    marked, so [length ss_distances + 2] passes are never used up (lemma
    [set_node_distances_terminates]). *)
Definition set_node_distances (from_node_ind to_node_ind : nat) (rr_node : t_rr_node)
    (ss_distances : t_ss_distances) (max_path_weight : Z)
    (traversal_dir : e_traversal_dir) (nodes_visited : t_nodes_visited)
  : result (t_ss_distances * t_nodes_visited) :=
  PQ ← pq_push from_node_ind 0 (pq_new max_path_weight);
  s ← at_index ss_distances from_node_ind;
  let s' :=
    match traversal_dir with
    | FORWARD_TRAVERSAL => set_visited_from_source true (set_source_distance 0 s)
    | BACKWARD_TRAVERSAL => set_visited_from_sink true (set_sink_distance 0 s)
    end in
  distance_loop (length ss_distances + 2) to_node_ind rr_node max_path_weight
    traversal_dir (<[from_node_ind := s']> ss_distances) PQ nodes_visited.

(** Runs both distance passes and tightens the maximum path weight to
    [ceil(distance * PATH_FLEXIBILITY_FACTOR)].  The result carries the
    two out-parameters [adjusted_max_path_weight] and [source_sink_dist]. *)
Definition get_ss_distances_and_adjust_max_path_weight (source_node_ind sink_node_ind : nat)
    (rr_node : t_rr_node) (ss_distances : t_ss_distances) (max_path_weight : Z)
    (nodes_visited : t_nodes_visited)
  : result (t_ss_distances * t_nodes_visited * Z * Z) :=
  '(ss1, nv1) ← set_node_distances source_node_ind sink_node_ind rr_node ss_distances
                  max_path_weight FORWARD_TRAVERSAL nodes_visited;
  '(ss2, nv2) ← set_node_distances sink_node_ind source_node_ind rr_node ss1
                  max_path_weight BACKWARD_TRAVERSAL nv1;
  sink_s ← at_index ss2 sink_node_ind;
  source_s ← at_index ss2 source_node_ind;
  let min_dist_sink := source_distance sink_s in
  let min_dist_source := sink_distance source_s in
  if negb (min_dist_sink =? min_dist_source) then
    Throw (Ex_distance_mismatch min_dist_source min_dist_sink)
  else
    let max_path_weight' :=
      Z.min (Binary64.ceil_mul min_dist_sink Binary64.lit_1_3) max_path_weight in
    Ok (ss2, nv2, max_path_weight', min_dist_sink).

(** ** The hops pass *)

Definition visited_hops_in (dir : e_traversal_dir) (s : SS_Distances) : bool :=
  match dir with
  | FORWARD_TRAVERSAL => visited_from_source_hops s
  | BACKWARD_TRAVERSAL => visited_from_sink_hops s
  end.

Definition hops_in (dir : e_traversal_dir) (s : SS_Distances) : Z :=
  match dir with
  | FORWARD_TRAVERSAL => source_hops s
  | BACKWARD_TRAVERSAL => sink_hops s
  end.

(** One iteration of the loop over the edges in [set_node_hops]. *)
Definition hop_child (node_hops : Z) (max_path_weight : Z) (traversal_dir : e_traversal_dir)
    (rr_node : t_rr_node) (st : t_ss_distances * list nat) (child_ind : nat)
  : result (t_ss_distances * list nat) :=
  let '(ss_distances, Q) := st in
  child ← at_index rr_node child_ind;
  s ← at_index ss_distances child_ind;
  if negb (is_legal s (weight child) max_path_weight) then Ok (ss_distances, Q)
  else if visited_hops_in traversal_dir s then Ok (ss_distances, Q)
  else
    let s' :=
      match traversal_dir with
      | FORWARD_TRAVERSAL =>
          set_source_hops (node_hops + 1) (set_visited_from_source_hops true s)
      | BACKWARD_TRAVERSAL =>
          set_visited_from_sink_hops true (set_sink_hops (node_hops + 1) s)
      end in
    Ok (<[child_ind := s']> ss_distances, Q ++ [child_ind]).

Fixpoint hop_children (node_hops : Z) (max_path_weight : Z) (traversal_dir : e_traversal_dir)
    (rr_node : t_rr_node) (edge_list : list nat) (st : t_ss_distances * list nat)
  : result (t_ss_distances * list nat) :=
  match edge_list with
  | [] => Ok st
  | child_ind :: rest =>
      st' ← hop_child node_hops max_path_weight traversal_dir rr_node st child_ind;
      hop_children node_hops max_path_weight traversal_dir rr_node rest st'
  end.

(** The [while (!Q.empty())] loop of [set_node_hops]. *)
Fixpoint hops_loop (fuel : nat) (rr_node : t_rr_node) (max_path_weight : Z)
    (traversal_dir : e_traversal_dir) (ss_distances : t_ss_distances) (Q : list nat)
  : result t_ss_distances :=
  match fuel with
  | O => Throw Ex_out_of_fuel
  | S fuel' =>
      match Q with
      | [] => Ok ss_distances
      | node_ind :: Q1 =>
          node ← at_index rr_node node_ind;
          s ← at_index ss_distances node_ind;
          let s' :=
            match traversal_dir with
            | FORWARD_TRAVERSAL => set_visited_from_source_hops true s
            | BACKWARD_TRAVERSAL => set_visited_from_sink_hops true s
            end in
          '(ss', Q') ← hop_children (hops_in traversal_dir s') max_path_weight traversal_dir
                         rr_node (edges_in traversal_dir node)
                         (<[node_ind := s']> ss_distances, Q1);
          hops_loop fuel' rr_node max_path_weight traversal_dir ss' Q'
      end
  end.

(** Breadth-first hop count over the legal subgraph.  Every pass of the
    loop removes one queue entry and every entry added marks a node that
    was not marked, so the passes allowed are never used up (lemma
    [set_node_hops_terminates]). *)
Definition set_node_hops (from_node_ind to_node_ind : nat) (rr_node : t_rr_node)
    (ss_distances : t_ss_distances) (max_path_weight : Z) (traversal_dir : e_traversal_dir)
  : result t_ss_distances :=
  s ← at_index ss_distances from_node_ind;
  let s' :=
    match traversal_dir with
    | FORWARD_TRAVERSAL => set_source_hops 0 s
    | BACKWARD_TRAVERSAL => set_sink_hops 0 s
    end in
  hops_loop (length ss_distances + 2) rr_node max_path_weight traversal_dir
    (<[from_node_ind := s']> ss_distances) [from_node_ind].

(** ** Architecture description *)

(** [OPEN] stands for any pin type that is neither a driver nor a
    receiver (the branch that throws "Unexpected pin type"). *)
Inductive e_pin_type : Type := DRIVER | RECEIVER | OPEN.

Record Pin_Class : Type := mk_Pin_Class {
  pin_type : e_pin_type;
  pinlist : list nat;
}.

Definition get_num_pins (c : Pin_Class) : Z := Z.of_nat (length (pinlist c)).

Record Physical_Type_Descriptor : Type := mk_Physical_Type_Descriptor {
  class_inf : list Pin_Class;
  is_global_pin : list bool;
}.

Record Grid_Tile : Type := mk_Grid_Tile {
  type_index : Z;
  width_offset : Z;
  height_offset : Z;
}.

Record Coordinate : Type := mk_Coordinate { coord_x : Z; coord_y : Z }.

Record Arch_Structs : Type := mk_Arch_Structs {
  grid : list (list Grid_Tile);
  block_type : list Physical_Type_Descriptor;
  fill_type_index : Z;
}.

(** [get_grid_size]: the grid is rectangular, [grid[x][y]]. *)
Definition grid_size_x (a : Arch_Structs) : Z := Z.of_nat (length (grid a)).
Definition grid_size_y (a : Arch_Structs) : Z :=
  match grid a with [] => 0 | col :: _ => Z.of_nat (length col) end.

(** [v[i]] with an [int] index. *)
Definition at_int {A} (v : list A) (i : Z) : result A :=
  if i <? 0 then Throw Ex_out_of_bounds else at_index v (Z.to_nat i).

Definition grid_at (a : Arch_Structs) (x y : Z) : result Grid_Tile :=
  col ← at_int (grid a) x; at_int col y.

(** ** Per-node topological state

    Modelled from the spec: [Node_Topological_Info] and [Node_Buckets]
    ([wotan_types.h]) are not among the sources.  Section 3: two parallel
    arrays of floats, a level, a "was visited" flag.  Section 4.11:
    clearing zeroes the used bucket entries; as every entry that was never
    used is zero already, all entries are zero afterwards. *)
Record Node_Topological_Info : Type := mk_Node_Topological_Info {
  source_buckets : list Q;
  sink_buckets : list Q;
  level : Z;
  was_visited : bool;
}.

Abbreviation t_node_topo_inf := (list Node_Topological_Info) (only parsing).

(** Modelled from the spec: [Node_Topological_Info::clear]. *)
Definition Node_Topological_Info_clear (t : Node_Topological_Info) : Node_Topological_Info :=
  mk_Node_Topological_Info
    (map (fun _ => 0%Q) (source_buckets t)) (map (fun _ => 0%Q) (sink_buckets t))
    UNDEFINED false.

Definition set_level (l : Z) (t : Node_Topological_Info) : Node_Topological_Info :=
  mk_Node_Topological_Info (source_buckets t) (sink_buckets t) l (was_visited t).

(** [buckets.source_buckets[k] = v] *)
Definition set_source_bucket (k : nat) (v : Q) (t : Node_Topological_Info)
  : result Node_Topological_Info :=
  b ← set_index (source_buckets t) k v;
  Ok (mk_Node_Topological_Info b (sink_buckets t) (level t) (was_visited t)).

(** [buckets.sink_buckets[k] = v] *)
Definition set_sink_bucket (k : nat) (v : Q) (t : Node_Topological_Info)
  : result Node_Topological_Info :=
  b ← set_index (sink_buckets t) k v;
  Ok (mk_Node_Topological_Info (source_buckets t) b (level t) (was_visited t)).

(** ** Cleaning up after a connection *)

Fixpoint clean_ss_distances (ss_distances : t_ss_distances) (nodes_visited : t_nodes_visited)
  : result t_ss_distances :=
  match nodes_visited with
  | [] => Ok ss_distances
  | node_ind :: rest =>
      s ← at_index ss_distances node_ind;
      if visited_from_source s || visited_from_sink s then
        clean_ss_distances (<[node_ind := SS_Distances_clear]> ss_distances) rest
      else clean_ss_distances ss_distances rest
  end.

Fixpoint clean_node_topo_inf (node_topo_inf : t_node_topo_inf)
    (nodes_visited : t_nodes_visited) (max_path_weight : Z)
  : result t_node_topo_inf :=
  match nodes_visited with
  | [] => Ok node_topo_inf
  | node_ind :: rest =>
      t ← at_index node_topo_inf node_ind;
      if was_visited t then
        clean_node_topo_inf (<[node_ind := Node_Topological_Info_clear t]> node_topo_inf)
          rest max_path_weight
      else clean_node_topo_inf node_topo_inf rest max_path_weight
  end.

(** Returns the three structures as the call leaves them:
    [ss_distances], [node_topo_inf] and the emptied [nodes_visited]. *)
Definition clean_node_data_structs (nodes_visited : t_nodes_visited)
    (ss_distances : t_ss_distances) (node_topo_inf : t_node_topo_inf) (max_path_weight : Z)
  : result (t_nodes_visited * t_ss_distances * t_node_topo_inf) :=
  ss' ← clean_ss_distances ss_distances nodes_visited;
  topo' ← clean_node_topo_inf node_topo_inf nodes_visited max_path_weight;
  Ok ([], ss', topo').

(** ** The fixed-size priority queue

    Modelled from the spec: [My_Fixed_Size_PQ] ([wotan_util.h]) is not
    among the sources.  Section 4.2: "[push(x)]: if size < k, insert; else
    compare against the current extreme; retain the k elements that are
    smallest under the comparator".  The entries are kept with the extreme
    (the largest under the comparator, what [top] returns) in front.  The
    spec does not say what a queue does whose capacity was never set; the
    model leaves such a queue as it is. *)
Record My_Fixed_Size_PQ (A : Type) : Type := mk_Fixed_PQ {
  fs_max_size : option Z;
  fs_entries : list A;
}.

Arguments mk_Fixed_PQ {A} _ _.
Arguments fs_max_size {A} _.
Arguments fs_entries {A} _.

Section Fixed_Size_PQ.
Context {A : Type}.
Variable comp : A -> A -> bool.

Definition fs_default : My_Fixed_Size_PQ A := mk_Fixed_PQ None [].

Definition fs_set_properties (n : Z) (pq : My_Fixed_Size_PQ A) : My_Fixed_Size_PQ A :=
  mk_Fixed_PQ (Some n) (fs_entries pq).

(** Insert below the entries that are larger under the comparator. *)
Fixpoint fs_insert (x : A) (es : list A) : list A :=
  match es with
  | [] => [x]
  | e :: rest => if comp x e then e :: fs_insert x rest else x :: es
  end.

Definition fs_push (x : A) (pq : My_Fixed_Size_PQ A) : My_Fixed_Size_PQ A :=
  match fs_max_size pq with
  | None => pq
  | Some k =>
      if Z.of_nat (length (fs_entries pq)) <? k then
        mk_Fixed_PQ (Some k) (fs_insert x (fs_entries pq))
      else
        match fs_entries pq with
        | [] => pq
        | extreme :: rest =>
            if comp x extreme then mk_Fixed_PQ (Some k) (fs_insert x rest) else pq
        end
  end.

Definition fs_push_all (xs : list A) (pq : My_Fixed_Size_PQ A) : My_Fixed_Size_PQ A :=
  fold_left (fun q x => fs_push x q) xs pq.

Definition fs_size (pq : My_Fixed_Size_PQ A) : Z := Z.of_nat (length (fs_entries pq)).

Definition fs_top (pq : My_Fixed_Size_PQ A) : option A := head (fs_entries pq).

Definition fs_pop (pq : My_Fixed_Size_PQ A) : My_Fixed_Size_PQ A :=
  mk_Fixed_PQ (fs_max_size pq) (tail (fs_entries pq)).

(** What it means that [retained] are smallest among [pushed]: the rest
    of what was pushed can be set apart so that no dropped entry is below
    a retained one under the comparator. *)
Definition retains_smallest (pushed retained : list A) : Prop :=
  exists dropped : list A,
    pushed ≡ₚ retained ++ dropped /\
    forall a b, a ∈ retained -> b ∈ dropped -> comp b a = false.

(** No entry is below an entry behind it. *)
Fixpoint extreme_first (es : list A) : Prop :=
  match es with
  | [] => True
  | e :: rest => (forall a, a ∈ rest -> comp e a = false) /\ extreme_first rest
  end.

(** What the queue holds after [seen] was pushed: the [k] smallest, or
    all of it while fewer than [k] were pushed. *)
Definition fs_holds (k : Z) (seen : list A) (pq : My_Fixed_Size_PQ A) : Prop :=
  fs_max_size pq = Some k
  /\ extreme_first (fs_entries pq)
  /\ length (fs_entries pq) = Nat.min (Z.to_nat k) (length seen)
  /\ retains_smallest seen (fs_entries pq).

End Fixed_Size_PQ.

(** [less<float>] *)
Definition less (a b : Q) : bool := negb (Qle_bool b a).

Abbreviation t_lowest_probs_pq := (My_Fixed_Size_PQ Q) (only parsing).

(** ** Analysis results (the file-scope [f_analysis_results]) *)

Record Analysis_Results : Type := mk_Analysis_Results {
  max_possible_total_prob : Q;
  total_prob : Q;
  lowest_probs_pqs : list t_lowest_probs_pq;
  desired_conns : Z;
  num_conns : Z;
}.

(** The constructor of [Analysis_Results]. *)
Definition Analysis_Results_init : Analysis_Results :=
  mk_Analysis_Results 0 0 [] 0 0.

(** [int entries_limit = conns_at_length[ilen] * WORST_ROUTABILITY_PERCENTILE] *)
Definition entries_limit (conns : Z) : Z :=
  Binary64.trunc_mul conns Binary64.lit_0_10.

(** The loop of [analyze_fpga_architecture] over [ilen], from [ilen] on,
    with [todo] lengths to go. *)
Fixpoint set_lowest_probs_pqs (todo : nat) (ilen : nat) (conns_at_length : list Z)
    (pqs : list t_lowest_probs_pq) : result (list t_lowest_probs_pq) :=
  match todo with
  | O => Ok pqs
  | S todo' =>
      conns ← at_index conns_at_length ilen;
      if conns =? 0 then set_lowest_probs_pqs todo' (S ilen) conns_at_length pqs
      else
        pq ← at_index pqs ilen;
        set_lowest_probs_pqs todo' (S ilen) conns_at_length
          (<[ilen := fs_set_properties (entries_limit conns) pq]> pqs)
  end.

(** The part of [analyze_fpga_architecture] that creates the queues of
    the lowest probabilities; [conns_at_length] is what
    [get_conn_length_stats] returned. *)
Definition create_lowest_probs_pqs (max_connection_length : Z) (conns_at_length : list Z)
  : result (list t_lowest_probs_pq) :=
  let n := Z.to_nat (max_connection_length + 1) in
  set_lowest_probs_pqs n 0 conns_at_length (replicate n fs_default).

(** [increment_probability_metric] *)
Definition increment_probability_metric (probability_increment : Q)
    (connection_length : nat) (num_subsources num_subsinks : Z) (r : Analysis_Results)
  : result Analysis_Results :=
  let div_factor := num_subsources * num_subsinks in
  let push_value := (probability_increment / inject_Z div_factor)%Q in
  if div_factor <=? 0 then
    Ok (mk_Analysis_Results (max_possible_total_prob r)
          (total_prob r + probability_increment)%Q (lowest_probs_pqs r)
          (desired_conns r) (num_conns r))
  else
    pq ← at_index (lowest_probs_pqs r) connection_length;
    let pq' := fs_push_all less (replicate (Z.to_nat div_factor) push_value) pq in
    Ok (mk_Analysis_Results (max_possible_total_prob r)
          (total_prob r + probability_increment)%Q
          (<[connection_length := pq']> (lowest_probs_pqs r))
          (desired_conns r) (num_conns r)).

(** ** One connection

    The topological traversal driver, the callbacks of the enumeration
    and probability models, [Node_Buckets::get_num_paths],
    [Analysis_Settings::get_max_path_weight], [PROBS_EQUAL] and the
    reliability polynomial live in other translation units.  They are
    collaborators of this one and are taken as parameters.  What a run
    does with them is observable in the model: every call of the driver
    that returns is recorded, with the bucket state it started from. *)

Inductive e_enumerate_mode : Type := BY_PATH_WEIGHT | BY_PATH_HOPS.

Inductive e_callbacks : Type :=
| Enumerate_callbacks (mode : e_enumerate_mode)
| Cutline_callbacks
| Cutline_simple_callbacks
| Cutline_recursive_callbacks
| Propagate_callbacks.

Record traversal_call : Type := mk_traversal_call {
  tc_from : nat;
  tc_to : nat;
  tc_dir : e_traversal_dir;
  tc_max_path_weight : Z;
  tc_callbacks : e_callbacks;
  tc_node_topo_inf : t_node_topo_inf;
}.

Section Connection.
Context {Demands : Type}.

(** What one thread works on: its private arenas, the demand and
    path-count history that the nodes carry ([Demands], opaque here), and
    the record of the calls of the traversal driver. *)
Record world : Type := mk_world {
  w_ss_distances : t_ss_distances;
  w_node_topo_inf : t_node_topo_inf;
  w_nodes_visited : t_nodes_visited;
  w_demands : Demands;
  w_calls : list traversal_call;
}.

Record Collaborators : Type := mk_Collaborators {
  PROBABILITY_MODE : e_probability_mode;
  get_max_path_weight : Z -> Z;
  use_routing_node_demand : Q;
  PROBS_EQUAL : Q -> Q -> bool;
  get_num_paths : Node_Topological_Info -> Z -> Z -> Z -> Q;
  (* [do_topological_traversal] with the enumerate callbacks; returns
     [num_routing_nodes_in_subgraph] *)
  enumerate_traversal :
    nat -> nat -> e_traversal_dir -> Z -> e_enumerate_mode -> world -> result (Z * world);
  (* [do_topological_traversal] with the callbacks of a probability model;
     the [Z] is the hop count the model's structure is sized with, where
     it has one; returns [prob_routable], a [float] that the model is
     free to make a NaN or an infinity *)
  probability_traversal :
    e_callbacks -> nat -> nat -> Z -> Z -> option Physical_Type_Descriptor -> world ->
    result (spec_float * world);
  analyze_reliability_polynomial : Z -> list Q -> Z -> Z -> Q -> spec_float;
}.

Variable env : Collaborators.

(** The record of calls is the model's own: a collaborator gets the
    world and returns one, and the record is kept from before its call. *)
Definition record_call (from to : nat) (dir : e_traversal_dir) (max_path_weight : Z)
    (cb : e_callbacks) (before after : world) : world :=
  mk_world (w_ss_distances after) (w_node_topo_inf after) (w_nodes_visited after)
    (w_demands after)
    (w_calls before
     ++ [mk_traversal_call from to dir max_path_weight cb (w_node_topo_inf before)]).

Definition do_enumerate_traversal (from to : nat) (dir : e_traversal_dir)
    (max_path_weight : Z) (mode : e_enumerate_mode) (w : world) : result (Z * world) :=
  '(num_routing_nodes_in_subgraph, w') ←
    enumerate_traversal env from to dir max_path_weight mode w;
  Ok (num_routing_nodes_in_subgraph,
      record_call from to dir max_path_weight (Enumerate_callbacks mode) w w').

Definition do_probability_traversal (cb : e_callbacks) (from to : nat)
    (max_path_weight hops : Z) (fill_type : option Physical_Type_Descriptor) (w : world)
  : result (spec_float * world) :=
  '(prob_routable, w') ←
    probability_traversal env cb from to max_path_weight hops fill_type w;
  Ok (prob_routable, record_call from to FORWARD_TRAVERSAL max_path_weight cb w w').

Definition with_distances (ss : t_ss_distances) (nv : t_nodes_visited) (w : world) : world :=
  mk_world ss (w_node_topo_inf w) nv (w_demands w) (w_calls w).

Definition with_ss_distances (ss : t_ss_distances) (w : world) : world :=
  mk_world ss (w_node_topo_inf w) (w_nodes_visited w) (w_demands w) (w_calls w).

(** [node_topo_inf[i]] updated by [f]. *)
Definition update_topo (i : nat) (f : Node_Topological_Info -> result Node_Topological_Info)
    (w : world) : result world :=
  t ← at_index (w_node_topo_inf w) i;
  t' ← f t;
  Ok (mk_world (w_ss_distances w) (<[i := t']> (w_node_topo_inf w)) (w_nodes_visited w)
        (w_demands w) (w_calls w)).

(** Both hops passes, as three of the probability models start. *)
Definition set_node_hops_both (source_node_ind sink_node_ind : nat) (rr_node : t_rr_node)
    (max_path_weight : Z) (w : world) : result world :=
  ss1 ← set_node_hops source_node_ind sink_node_ind rr_node (w_ss_distances w)
          max_path_weight FORWARD_TRAVERSAL;
  ss2 ← set_node_hops sink_node_ind source_node_ind rr_node ss1
          max_path_weight BACKWARD_TRAVERSAL;
  Ok (with_ss_distances ss2 w).

(** The body of [if (max_path_weight > 0 && min_dist > 0)] up to the range
    check: the model selected by [PROBABILITY_MODE]. *)
Definition run_probability_model (source_node_ind sink_node_ind : nat)
    (rr_node : t_rr_node) (max_path_weight : Z)
    (fill_type : option Physical_Type_Descriptor) (w : world)
  : result (spec_float * world) :=
  match PROBABILITY_MODE env with
  | CUTLINE =>
      w1 ← update_topo source_node_ind (fun t => Ok (set_level 0 t)) w;
      do_probability_traversal Cutline_callbacks source_node_ind sink_node_ind
        max_path_weight 0 fill_type w1
  | CUTLINE_SIMPLE =>
      w1 ← set_node_hops_both source_node_ind sink_node_ind rr_node max_path_weight w;
      source_s ← at_index (w_ss_distances w1) source_node_ind;
      let source_sink_hops := sink_hops source_s in
      do_probability_traversal Cutline_simple_callbacks source_node_ind sink_node_ind
        max_path_weight (source_sink_hops - 1) fill_type w1
  | CUTLINE_RECURSIVE =>
      w1 ← set_node_hops_both source_node_ind sink_node_ind rr_node max_path_weight w;
      sink_s ← at_index (w_ss_distances w1) sink_node_ind;
      let source_hops := source_hops sink_s in
      do_probability_traversal Cutline_recursive_callbacks source_node_ind sink_node_ind
        max_path_weight source_hops fill_type w1
  | PROPAGATE =>
      w1 ← update_topo source_node_ind (set_source_bucket 0 1) w;
      do_probability_traversal Propagate_callbacks source_node_ind sink_node_ind
        max_path_weight 0 fill_type w1
  | RELIABILITY_POLYNOMIAL =>
      if Qeq_bool (use_routing_node_demand env) (inject_Z UNDEFINED) then
        Throw Ex_reliability_needs_node_demand
      else
        w1 ← set_node_hops_both source_node_ind sink_node_ind rr_node max_path_weight w;
        w2 ← update_topo source_node_ind (set_source_bucket 0 1) w1;
        '(num_routing_nodes_in_subgraph, w3) ←
          do_enumerate_traversal source_node_ind sink_node_ind FORWARD_TRAVERSAL
            max_path_weight BY_PATH_HOPS w2;
        sink_s ← at_index (w_ss_distances w3) sink_node_ind;
        let source_sink_hops := source_hops sink_s in
        sink_t ← at_index (w_node_topo_inf w3) sink_node_ind;
        let source_buckets := source_buckets sink_t in
        let num_source_buckets := Z.of_nat (length source_buckets) in
        Ok (analyze_reliability_polynomial env source_sink_hops source_buckets
              num_source_buckets num_routing_nodes_in_subgraph
              (1 - use_routing_node_demand env)%Q, w3)
  end.

(** The fill type, or [None] for the NULL pointer of a simple graph. *)
Definition get_fill_type (arch_structs : Arch_Structs)
  : result (option Physical_Type_Descriptor) :=
  if fill_type_index arch_structs =? UNDEFINED then Ok None
  else
    ft ← at_int (block_type arch_structs) (fill_type_index arch_structs);
    Ok (Some ft).

(** Estimates the likelihood that the connection can be routed.  The two
    tests of the result are comparisons of [float]s, which are both false
    on a NaN. *)
Definition estimate_connection_probability (source_node_ind sink_node_ind : nat)
    (arch_structs : Arch_Structs) (rr_node : t_rr_node) (conn_length : Z) (w : world)
  : result (spec_float * world) :=
  let probability_sink_reachable := Binary32.zero in
  let max_path_weight := get_max_path_weight env conn_length in
  '(ss, nv, max_path_weight, min_dist) ←
    get_ss_distances_and_adjust_max_path_weight source_node_ind sink_node_ind rr_node
      (w_ss_distances w) max_path_weight (w_nodes_visited w);
  let w := with_distances ss nv w in
  fill_type ← get_fill_type arch_structs;
  if (max_path_weight >? 0) && (min_dist >? 0) then
    '(probability_sink_reachable, w') ←
      run_probability_model source_node_ind sink_node_ind rr_node max_path_weight
        fill_type w;
    if Binary32.ltb Binary32.one probability_sink_reachable then
      Throw Ex_probability_above_one
    else if Binary32.ltb probability_sink_reachable Binary32.zero then
      Throw Ex_probability_below_zero
    else Ok (probability_sink_reachable, w')
  else Ok (probability_sink_reachable, w).

(** The value that [enumerate_connection_paths] puts into bucket 0 of the
    source before the forward traversal. *)
Definition scaled_starting_source_paths (scaling_factor_for_enumerate num_enumerated : Q)
  : Q :=
  if less 0 num_enumerated then
    if negb (Qeq_bool scaling_factor_for_enumerate (inject_Z UNDEFINED)) then
      (scaling_factor_for_enumerate / num_enumerated)%Q
    else 1%Q
  else 0%Q.

(** Enumerates the paths between source and sink. *)
Definition enumerate_connection_paths (source_node_ind sink_node_ind : nat)
    (rr_node : t_rr_node) (conn_length : Z) (scaling_factor_for_enumerate : Q) (w : world)
  : result world :=
  let max_path_weight := get_max_path_weight env conn_length in
  '(ss1, nv1) ← set_node_distances source_node_ind sink_node_ind rr_node
                  (w_ss_distances w) max_path_weight FORWARD_TRAVERSAL (w_nodes_visited w);
  '(ss2, nv2) ← set_node_distances sink_node_ind source_node_ind rr_node ss1
                  max_path_weight BACKWARD_TRAVERSAL nv1;
  '(ss, nv, max_path_weight, min_dist) ←
    get_ss_distances_and_adjust_max_path_weight source_node_ind sink_node_ind rr_node
      ss2 max_path_weight nv2;
  let w := with_distances ss nv w in
  if (max_path_weight >? 0) && (min_dist >? 0) then
    (* enumerate paths from sink *)
    w1 ← update_topo sink_node_ind (set_sink_bucket 0 1) w;
    '(_, w2) ← do_enumerate_traversal sink_node_ind source_node_ind BACKWARD_TRAVERSAL
                 max_path_weight BY_PATH_WEIGHT w1;
    (* the number of paths to be enumerated from the source *)
    source_node ← at_index rr_node source_node_ind;
    let source_node_weight := weight source_node in
    w3 ← update_topo source_node_ind (set_source_bucket 0 1) w2;
    source_t ← at_index (w_node_topo_inf w3) source_node_ind;
    let num_enumerated := get_num_paths env source_t source_node_weight 0 max_path_weight in
    (* enumerate paths from source *)
    w4 ← update_topo source_node_ind
           (set_source_bucket 0
              (scaled_starting_source_paths scaling_factor_for_enumerate num_enumerated)) w3;
    '(_, w5) ← do_enumerate_traversal source_node_ind sink_node_ind FORWARD_TRAVERSAL
                 max_path_weight BY_PATH_WEIGHT w4;
    Ok w5
  else Ok w.

Record Analysis_Settings : Type := mk_Analysis_Settings {
  length_probabilities : list Q;
  pin_probabilities : list Q;
}.

(** The loop of [get_sum_of_source_probabilities] over the pins of the
    class; the state is [(this_pin_prob, sum_probabilities)]. *)
Fixpoint sum_pin_probabilities (pin_probs : list Q) (pins : list nat) (st : Q * Q)
  : result (Q * Q) :=
  match pins with
  | [] => Ok st
  | pin :: rest =>
      let '(this_pin_prob, sum_probabilities) := st in
      p ← at_index pin_probs pin;
      if Qeq_bool this_pin_prob (inject_Z UNDEFINED) then
        sum_pin_probabilities pin_probs rest (p, (sum_probabilities + p)%Q)
      else if negb (PROBS_EQUAL env this_pin_prob p) then Throw Ex_pin_probabilities_differ
      else
        sum_pin_probabilities pin_probs rest
          (this_pin_prob, (sum_probabilities + this_pin_prob)%Q)
  end.

(** Returns [(sum_probabilities, one_pin_prob)]. *)
Definition get_sum_of_source_probabilities (source_node_ind : nat) (rr_node : t_rr_node)
    (pin_probs : list Q) (fill_block_type : Physical_Type_Descriptor) : result (Q * Q) :=
  node ← at_index rr_node source_node_ind;
  match rr_type node with
  | SOURCE =>
      pin_class ← at_index (class_inf fill_block_type) (ptc_num node);
      '(this_pin_prob, sum_probabilities) ←
        sum_pin_probabilities pin_probs (pinlist pin_class) (inject_Z UNDEFINED, 0%Q);
      Ok (sum_probabilities, this_pin_prob)
  | IPIN =>
      p ← at_index pin_probs (ptc_num node);
      Ok (p, p)
  | _ => Throw Ex_unexpected_node_type
  end.

Definition get_num_sinks (sink_node_ind : nat) (rr_node : t_rr_node)
    (fill_block_type : Physical_Type_Descriptor) : result Z :=
  node ← at_index rr_node sink_node_ind;
  if negb (bool_decide (rr_type node = SINK)) then Throw Ex_expected_sink
  else
    pin_class ← at_index (class_inf fill_block_type) (ptc_num node);
    Ok (get_num_pins pin_class).

Definition get_num_sources (source_node_ind : nat) (rr_node : t_rr_node)
    (fill_block_type : Physical_Type_Descriptor) : result Z :=
  node ← at_index rr_node source_node_ind;
  if negb (bool_decide (rr_type node = SOURCE)) then Throw Ex_expected_source
  else
    pin_class ← at_index (class_inf fill_block_type) (ptc_num node);
    Ok (get_num_pins pin_class).

(** [(float)sinks * probability * length_prob / (float)number_conns_at_length] *)
Definition scaling_factor_for_enumerate (sinks : Z) (probability length_prob : Q)
    (number_conns_at_length : Z) : Q :=
  (inject_Z sinks * probability * length_prob / inject_Z number_conns_at_length)%Q.

Definition incr_num_conns (r : Analysis_Results) : Analysis_Results :=
  mk_Analysis_Results (max_possible_total_prob r) (total_prob r) (lowest_probs_pqs r)
    (desired_conns r) (num_conns r + 1).

Definition incr_desired_conns (r : Analysis_Results) : Analysis_Results :=
  mk_Analysis_Results (max_possible_total_prob r) (total_prob r) (lowest_probs_pqs r)
    (desired_conns r + 1) (num_conns r).

Definition add_max_possible_total_prob (q : Q) (r : Analysis_Results) : Analysis_Results :=
  mk_Analysis_Results (max_possible_total_prob r + q)%Q (total_prob r) (lowest_probs_pqs r)
    (desired_conns r) (num_conns r).

(** Analyzes one connection and updates the shared results.  (The index
    of the synthetic source of an IPIN is computed by the code but only
    handed to [increment_probability_metric], which does not use it.)
    The test [probability_connection_routable >= 0] is a comparison of
    [float]s; an estimate that passes it, having passed the tests of
    [estimate_connection_probability], is a number, and the increments
    are formed from its value. *)
Definition analyze_connection (source_node_ind sink_node_ind : nat)
    (analysis_settings : Analysis_Settings) (arch_structs : Arch_Structs)
    (rr_node : t_rr_node) (conn_length : Z) (number_conns_at_length : Z)
    (topological_mode : e_topological_mode) (r : Analysis_Results) (w : world)
  : result (Analysis_Results * world) :=
  length_prob ← at_int (length_probabilities analysis_settings) conn_length;
  let pin_probs := pin_probabilities analysis_settings in
  fill_block_type ← at_int (block_type arch_structs) (fill_type_index arch_structs);
  _ ← at_index rr_node source_node_ind;
  '(sum_of_source_probabilities, one_pin_prob) ←
    get_sum_of_source_probabilities source_node_ind rr_node pin_probs fill_block_type;
  num_sinks ← get_num_sinks sink_node_ind rr_node fill_block_type;
  num_sources ← get_num_sources source_node_ind rr_node fill_block_type;
  let '(sinks, probability) :=
    match topological_mode with
    | ENUMERATE => (num_sinks, sum_of_source_probabilities)
    | PROBABILITY => (1, one_pin_prob)
    end in
  '(r', w') ←
    match topological_mode with
    | ENUMERATE =>
        w' ← enumerate_connection_paths source_node_ind sink_node_ind rr_node conn_length
               (scaling_factor_for_enumerate sinks probability length_prob
                  number_conns_at_length) w;
        Ok (incr_num_conns r, w')
    | PROBABILITY =>
        '(probability_connection_routable, w') ←
          estimate_connection_probability source_node_ind sink_node_ind arch_structs
            rr_node conn_length w;
        if Binary32.leb Binary32.zero probability_connection_routable then
          let scaling_factor :=
            (inject_Z num_sinks * inject_Z num_sources * length_prob
             / inject_Z number_conns_at_length)%Q in
          let probability_increment :=
            (scaling_factor * Binary32.value probability_connection_routable)%Q in
          r1 ← increment_probability_metric probability_increment (Z.to_nat conn_length)
                 num_sources num_sinks r;
          Ok (add_max_possible_total_prob (scaling_factor * 1)%Q r1, w')
        else Throw Ex_negative_connection_probability
    end;
  '(nv, ss, topo) ← clean_node_data_structs (w_nodes_visited w') (w_ss_distances w')
                      (w_node_topo_inf w') (get_max_path_weight env conn_length);
  Ok (r', mk_world ss topo nv (w_demands w') (w_calls w')).

(** The innermost statements of [enumerate_paths_from_source]: analyze
    the connection, then count it as desired. *)
Definition dispatch_connection (source_node_ind sink_node_ind : nat)
    (analysis_settings : Analysis_Settings) (arch_structs : Arch_Structs)
    (rr_node : t_rr_node) (ilen : Z) (num_conns : Z)
    (topological_mode : e_topological_mode) (r : Analysis_Results) (w : world)
  : result (Analysis_Results * world) :=
  '(r', w') ← analyze_connection source_node_ind sink_node_ind analysis_settings
                arch_structs rr_node ilen num_conns topological_mode r w;
  Ok (incr_desired_conns r', w').

End Connection.

Arguments world : clear implicits.
Arguments Collaborators : clear implicits.

(** ** Demand adjusted for the path history

    [RR_Node::get_demand] and [RR_Node::get_path_count_history] are not
    among the sources; [demand] is what the former returns for the node,
    [history_source] and [history_sink] what the latter returns for the
    source and the sink, [float]s all three.  The function is modelled
    bit for bit: the quotients and the difference are rounded to
    binary32, and the test against the tolerance is made in [double], as
    the literal 0.00001 is one. *)
Definition get_node_demand_adjusted_for_path_history (demand : spec_float)
    (history_source history_sink : spec_float) (rr_node : t_rr_node)
    (source_ind sink_ind : nat) (fill_type : option Physical_Type_Descriptor)
  : result spec_float :=
  let adjusted_node_demand := demand in
  match fill_type with
  | Some fill_type =>
      source_node ← at_index rr_node source_ind;
      source_class ← at_index (class_inf fill_type) (ptc_num source_node);
      let num_source_pins := get_num_pins source_class in
      sink_node ← at_index rr_node sink_ind;
      sink_class ← at_index (class_inf fill_type) (ptc_num sink_node);
      let num_sink_pins := get_num_pins sink_class in
      let source_contribution :=
        Binary32.div history_source (Binary32.of_int num_source_pins) in
      let sink_contribution :=
        Binary32.div history_sink (Binary32.of_int num_sink_pins) in
      let modifier :=
        Binary32.max Binary32.zero (Binary32.max source_contribution sink_contribution) in
      if Binary32.ltb
           (Binary32.double_add (Binary32.to_double adjusted_node_demand)
              Binary32.double_0_00001)
           (Binary32.to_double modifier)
      then Throw Ex_modifier_larger_than_demand
      else
        let adjusted_node_demand := Binary32.sub adjusted_node_demand modifier in
        Ok (Binary32.max Binary32.zero adjusted_node_demand)
  | None => Ok adjusted_node_demand
  end.

(** ** Building the workload of the threads *)

(** The part of [Conn_Info] that differs between the items of a thread:
    the source nodes and the tiles they sit on, in pairs. *)
Record Conn_Info : Type := mk_Conn_Info {
  source_node_inds : list nat;
  tile_coords : list Coordinate;
}.

Abbreviation t_thread_conn_info := (list Conn_Info) (only parsing).

Definition Conn_Info_add (source_node_index : nat) (tile_coord : Coordinate)
    (c : Conn_Info) : Conn_Info :=
  mk_Conn_Info (source_node_inds c ++ [source_node_index]) (tile_coords c ++ [tile_coord]).

(** The state of the loop over the test tiles: the workloads and the two
    round-robin counters. *)
Record workload_state : Type := mk_workload_state {
  thread_conn_info : t_thread_conn_info;
  ithread_source : nat;
  ithread_sink : nat;
}.

Section Workload.
(** [routing_structs->rr_node_index[type][x][y][ptc]], a table that the
    reader of the graph fills. *)
Variable rr_node_index : e_rr_type -> Z -> Z -> nat -> nat.
Variable arch_structs : Arch_Structs.
Variable analyze_core : bool.
Variable num_threads : nat.
Variable topological_mode : e_topological_mode.

Definition next_thread (ithread : nat) : nat :=
  if decide (S ithread = num_threads) then 0%nat else S ithread.

(** The loop over the ipins of a receiver class. *)
Fixpoint add_ipins (tile_coord : Coordinate) (pins : list nat) (st : workload_state)
  : result workload_state :=
  match pins with
  | [] => Ok st
  | pin_index :: rest =>
      let source_node_index :=
        rr_node_index IPIN (coord_x tile_coord) (coord_y tile_coord) pin_index in
      c ← at_index (thread_conn_info st) (ithread_sink st);
      add_ipins tile_coord rest
        (mk_workload_state
           (<[ithread_sink st := Conn_Info_add source_node_index tile_coord c]>
              (thread_conn_info st))
           (ithread_source st) (next_thread (ithread_sink st)))
  end.

(** The loop over the pin classes of the tile's type, from class [iclass]. *)
Fixpoint add_classes (tile_coord : Coordinate) (iclass : nat) (classes : list Pin_Class)
    (st : workload_state) : result workload_state :=
  match classes with
  | [] => Ok st
  | pin_class :: rest =>
      st' ←
        match pin_type pin_class with
        | DRIVER =>
            let source_node_index :=
              rr_node_index SOURCE (coord_x tile_coord) (coord_y tile_coord) iclass in
            c ← at_index (thread_conn_info st) (ithread_source st);
            Ok (mk_workload_state
                  (<[ithread_source st := Conn_Info_add source_node_index tile_coord c]>
                     (thread_conn_info st))
                  (next_thread (ithread_source st)) (ithread_sink st))
        | RECEIVER => add_ipins tile_coord (pinlist pin_class) st
        | OPEN => Throw Ex_unexpected_pin_type
        end;
      add_classes tile_coord (S iclass) rest st'
  end.

(** The test of the core region: [true] when the tile is to be skipped. *)
Definition outside_core (tile_coord : Coordinate) : bool :=
  (coord_x tile_coord <? CORE_OFFSET)
  || (coord_x tile_coord >? grid_size_x arch_structs - 1 - CORE_OFFSET)
  || (coord_y tile_coord <? CORE_OFFSET)
  || (coord_y tile_coord >? grid_size_y arch_structs - 1 - CORE_OFFSET).

Definition skips_tile (tile_coord : Coordinate) : bool :=
  match topological_mode with
  | PROBABILITY => analyze_core && outside_core tile_coord
  | ENUMERATE => false
  end.

(** The body of the loop over the test tiles. *)
Definition add_test_tile (st : workload_state) (tile_coord : Coordinate)
  : result workload_state :=
  if skips_tile tile_coord then Ok st
  else
    test_tile ← grid_at arch_structs (coord_x tile_coord) (coord_y tile_coord);
    tile_type ← at_int (block_type arch_structs) (type_index test_tile);
    add_classes tile_coord 0 (class_inf tile_type) st.

Fixpoint add_test_tiles (test_tile_coords : list Coordinate) (st : workload_state)
  : result workload_state :=
  match test_tile_coords with
  | [] => Ok st
  | tile_coord :: rest =>
      st' ← add_test_tile st tile_coord;
      add_test_tiles rest st'
  end.

(** The workload that [analyze_test_tile_connections] hands to the
    threads. *)
Definition build_workload (test_tile_coords : list Coordinate) : result t_thread_conn_info :=
  st ← add_test_tiles test_tile_coords
         (mk_workload_state (replicate num_threads (mk_Conn_Info [] [])) 0 0);
  Ok (thread_conn_info st).

End Workload.

(** A tile contributes connections when some thread is given it. *)
Definition tile_contributes (tile_coord : Coordinate) (wl : t_thread_conn_info) : Prop :=
  exists c, c ∈ wl /\ tile_coord ∈ tile_coords c.

(** Every coordinate in the workloads satisfies [P]. *)
Definition all_coords (P : Coordinate -> Prop) (wl : list Conn_Info) : Prop :=
  forall c, c ∈ wl -> forall x, x ∈ tile_coords c -> P x.

(** ** The shared counters under concurrency

    Each worker runs, for every connection of its workload,
    [analyze_connection] and then [desired_conns++]; both counters are
    changed under the mutex, so each change is one atomic step, and the
    steps of different workers interleave freely.  A worker is [in_flight]
    between the two. *)
Record worker : Type := mk_worker {
  pending : nat;
  in_flight : bool;
}.

Record run_state : Type := mk_run_state {
  rs_mode : e_topological_mode;
  rs_desired_conns : Z;
  rs_num_conns : Z;
  rs_workers : list worker;
}.

Definition num_conns_increment (mode : e_topological_mode) : Z :=
  match mode with ENUMERATE => 1 | PROBABILITY => 0 end.

Inductive run_step : run_state -> run_state -> Prop :=
| step_analyze_connection (s : run_state) (i : nat) (k : nat) :
    rs_workers s !! i = Some (mk_worker (S k) false) ->
    run_step s
      (mk_run_state (rs_mode s) (rs_desired_conns s)
         (rs_num_conns s + num_conns_increment (rs_mode s))
         (<[i := mk_worker (S k) true]> (rs_workers s)))
| step_desired_conns (s : run_state) (i : nat) (k : nat) :
    rs_workers s !! i = Some (mk_worker (S k) true) ->
    run_step s
      (mk_run_state (rs_mode s) (rs_desired_conns s + 1) (rs_num_conns s)
         (<[i := mk_worker k false]> (rs_workers s)))
| step_second_phase (s : run_state) (workloads : list nat) :
    rs_mode s = ENUMERATE ->
    Forall (fun w => w = mk_worker 0 false) (rs_workers s) ->
    run_step s
      (mk_run_state PROBABILITY (rs_desired_conns s) (rs_num_conns s)
         (map (fun k => mk_worker k false) workloads)).

Definition run_start (workloads : list nat) : run_state :=
  mk_run_state ENUMERATE 0 0 (map (fun k => mk_worker k false) workloads).

Inductive run_reaches (s : run_state) : run_state -> Prop :=
| reaches_refl : run_reaches s s
| reaches_step (s' s'' : run_state) :
    run_reaches s s' -> run_step s' s'' -> run_reaches s s''.

Definition workers_in_flight (s : run_state) : Z :=
  Z.of_nat (length (filter (fun w => in_flight w = true) (rs_workers s))).

(** ** The specification's formulas

    Definitions that follow the words of the specification, for
    comparison with the code. *)

(** The distance along one axis from the interval [[low, high]] to [dest]. *)
Definition axis_distance (low high dest : Z) : Z :=
  if dest <? low then low - dest else if dest >? high then dest - high else 0.

(** Section 4.3: "delta = 1 iff the node overlaps the destination
    column/row". *)
Definition spec_delta (node : RR_Node) (destx desty : Z) : Z :=
  if ((xlow node <=? destx) && (destx <=? xhigh node))
     || ((ylow node <=? desty) && (desty <=? yhigh node))
  then 1 else 0.

(** Section 4.3: "prune if
    [node_path_weight + max(x_diff + y_diff - delta, 0) > W]". *)
Definition spec_pruned (node : RR_Node) (destx desty node_path_weight max_path_weight : Z)
  : bool :=
  node_path_weight
  + Z.max (axis_distance (xlow node) (xhigh node) destx
           + axis_distance (ylow node) (yhigh node) desty
           - spec_delta node destx desty) 0
  >? max_path_weight.

(** What the code subtracts beyond the 1 that it always subtracts: one
    more for a node that spans several columns and lies over the
    destination column. *)
Definition x_span_over_destination (node : RR_Node) (destx : Z) : Z :=
  if negb (xlow node =? xhigh node) && (xlow node <=? destx) && (destx <=? xhigh node)
  then 1 else 0.

(** The lower bound of the code on the weight that remains to the
    destination, in terms of the distances along the axes. *)
Definition remaining_lower_bound (node : RR_Node) (destx desty : Z) : Z :=
  Z.max (axis_distance (xlow node) (xhigh node) destx
         + axis_distance (ylow node) (yhigh node) desty
         - 1 - x_span_over_destination node destx) 0.

(** Ceiling and truncation of exact quotients. *)
Definition ceil_div (a b : Z) : Z := - ((- a) / b).

(** Section 4.3: [ceil(min_dist * 1.3)]. *)
Definition spec_flexible_weight (min_dist : Z) : Z := ceil_div (13 * min_dist) 10.

(** Section 3: [k = ceil(#conns * 0.10)]. *)
Definition spec_entries_limit (conns : Z) : Z := ceil_div conns 10.

(** Section 4.11, as claimed: [max(0, demand - max(source_contribution,
    sink_contribution))], in the arithmetic of the code. *)
Definition spec_adjusted_demand (demand source_contribution sink_contribution : spec_float)
  : spec_float :=
  Binary32.max Binary32.zero
    (Binary32.sub demand (Binary32.max source_contribution sink_contribution)).

(** The core region of a 12 x 12 grid. *)
Definition in_core_12 (c : Coordinate) : Prop :=
  3 <= coord_x c <= 8 /\ 3 <= coord_y c <= 8.


(** ** Measures and invariants of the traversals *)

(** The number of nodes that the pass in direction [dir] has not marked. *)
Definition unvisited (dir : e_traversal_dir) (ss : list SS_Distances) : nat :=
  length (filter (fun s => visited_in dir s = false) ss).

(** The number of nodes that the hops pass in direction [dir] has not
    marked. *)
Definition unvisited_hops (dir : e_traversal_dir) (ss : list SS_Distances) : nat :=
  length (filter (fun s => visited_hops_in dir s = false) ss).

(** The node carries one of the two flags of the distance pass. *)
Definition distance_marked (ss : list SS_Distances) (n : nat) : Prop :=
  exists s, ss !! n = Some s /\ visited_from_source s || visited_from_sink s = true.

Definition all_flags_clear (s : SS_Distances) : Prop :=
  visited_from_source s = false /\ visited_from_sink s = false
  /\ visited_from_source_hops s = false /\ visited_from_sink_hops s = false.

Definition buckets_zero (t : Node_Topological_Info) : Prop :=
  Forall (fun q => q = 0%Q) (source_buckets t) /\ Forall (fun q => q = 0%Q) (sink_buckets t).

(** ** Example data *)

(** Collaborators whose traversals would fail if they were called, and
    one whose probability model returns [p]. *)
Definition example_failing_env : Collaborators unit :=
  mk_Collaborators PROPAGATE (fun _ => 3) (inject_Z UNDEFINED) Qeq_bool
    (fun _ _ _ _ => 1%Q)
    (fun _ _ _ _ _ _ => Throw Ex_out_of_bounds)
    (fun _ _ _ _ _ _ _ => Throw Ex_out_of_bounds)
    (fun _ _ _ _ _ => Binary32.zero).

Definition example_env (p : spec_float) : Collaborators unit :=
  mk_Collaborators PROPAGATE (fun _ => 3) (inject_Z UNDEFINED) Qeq_bool
    (fun _ _ _ _ => 1%Q)
    (fun _ _ _ _ _ w => Ok (0, w))
    (fun _ _ _ _ _ _ w => Ok (p, w))
    (fun _ _ _ _ _ => Binary32.zero).

(** 0.5f, 0.25f and 2.0f. *)
Definition example_half : spec_float := S754_finite false 8388608 (-24).
Definition example_quarter : spec_float := S754_finite false 8388608 (-25).
Definition example_two : spec_float := S754_finite false 8388608 (-22).

(** No architecture: the graph is a simple one. *)
Definition example_simple_arch : Arch_Structs := mk_Arch_Structs [] [] UNDEFINED.

Definition example_clear_topo (n : nat) : list Node_Topological_Info :=
  replicate n (mk_Node_Topological_Info (replicate 4 0%Q) (replicate 4 0%Q) UNDEFINED false).

Definition example_world (n : nat) : world unit :=
  mk_world (replicate n SS_Distances_clear) (example_clear_topo n) [] tt [].


(** A source, a wire of weight 1 and a sink in a row, all on tile (1,1). *)
Definition example_path_graph : list RR_Node :=
  [ mk_RR_Node SOURCE 1 1 1 1 0 0 [1%nat] [];
    mk_RR_Node CHANX 1 1 1 1 1 0 [2%nat] [0%nat];
    mk_RR_Node SINK 1 1 1 1 0 1 [] [1%nat] ].

(** A source and a sink without any connection between them. *)
Definition example_split_graph : list RR_Node :=
  [ mk_RR_Node SOURCE 1 1 1 1 0 0 [] [];
    mk_RR_Node SINK 2 2 2 2 0 1 [] [] ].

Definition example_clear_distances (n : nat) : list SS_Distances :=
  replicate n SS_Distances_clear.

(** The distance state of [example_path_graph] after the forward pass
    and after both passes, under a bound of 3. *)
Definition example_path_forward : list SS_Distances * list nat :=
  Eval vm_compute in
    match set_node_distances 0 2 example_path_graph (example_clear_distances 3) 3
            FORWARD_TRAVERSAL [] with
    | Ok r => r
    | Throw _ => ([], [])
    end.

Definition example_path_both : list SS_Distances * list nat :=
  Eval vm_compute in
    match set_node_distances 2 0 example_path_graph (fst example_path_forward) 3
            BACKWARD_TRAVERSAL (snd example_path_forward) with
    | Ok r => r
    | Throw _ => ([], [])
    end.


(** A channel node of weight 1 on tile (0,0). *)
Definition example_tile_node : RR_Node := mk_RR_Node CHANX 0 0 0 0 1 0 [] [].


(** A logic block with one driver class (pin 0) and one receiver class
    (pin 1), as the only block type. *)
Definition example_block : Physical_Type_Descriptor :=
  mk_Physical_Type_Descriptor
    [mk_Pin_Class DRIVER [0%nat]; mk_Pin_Class RECEIVER [1%nat]] [false; false].

Definition example_arch : Arch_Structs := mk_Arch_Structs [] [example_block] 0.

(** Connections of length 1 only; the output pin is used with
    probability 1/2. *)
Definition example_settings : Analysis_Settings := mk_Analysis_Settings [0%Q; 1%Q] [1 # 2; 0%Q].

(** [analyze_connection] in ENUMERATE mode on [example_path_graph], with
    4 connections at length 1. *)
Definition example_enumerate_result : Analysis_Results * world unit :=
  Eval vm_compute in
    match analyze_connection (example_env Binary32.zero) 0 2 example_settings example_arch
            example_path_graph 1 4 ENUMERATE Analysis_Results_init (example_world 3) with
    | Ok rw => rw
    | Throw _ => (Analysis_Results_init, example_world 0)
    end.

(** The distance passes on [example_split_graph] under a bound of 3: once
    as [estimate_connection_probability] runs them, and a second time on
    top, as [enumerate_connection_paths] does. *)
Definition example_split_forward : list SS_Distances * list nat :=
  Eval vm_compute in
    match set_node_distances 0 1 example_split_graph (example_clear_distances 2) 3
            FORWARD_TRAVERSAL [] with
    | Ok r => r
    | Throw _ => ([], [])
    end.

Definition example_split_both : list SS_Distances * list nat :=
  Eval vm_compute in
    match set_node_distances 1 0 example_split_graph (fst example_split_forward) 3
            BACKWARD_TRAVERSAL (snd example_split_forward) with
    | Ok r => r
    | Throw _ => ([], [])
    end.

Definition example_split_again : list SS_Distances * list nat :=
  Eval vm_compute in
    match get_ss_distances_and_adjust_max_path_weight 0 1 example_split_graph
            (fst example_split_both) 3 (snd example_split_both) with
    | Ok (ss, nv, _, _) => (ss, nv)
    | Throw _ => ([], [])
    end.


(** A 12 x 12 grid of logic blocks, and a table of node indices. *)
Definition example_grid_arch : Arch_Structs :=
  mk_Arch_Structs (replicate 12 (replicate 12 (mk_Grid_Tile 0 0 0))) [example_block] 0.

Definition example_rr_node_index (t : e_rr_type) (x y : Z) (ptc : nat) : nat :=
  (Z.to_nat (x * 12 + y) * 2 + ptc)%nat.

(** Topological state in which the wire of [example_path_graph] has been
    flagged by a traversal, and bucket 0 of the source and of the sink
    written as [enumerate_connection_paths] writes them, without the
    flag. *)
Definition example_touched_topo : list Node_Topological_Info :=
  [ mk_Node_Topological_Info [1 # 8; 0%Q; 0%Q; 0%Q] (replicate 4 0%Q) UNDEFINED false;
    mk_Node_Topological_Info [0%Q; 1 # 8; 0%Q; 0%Q] [0%Q; 1%Q; 0%Q; 0%Q] 1 true;
    mk_Node_Topological_Info (replicate 4 0%Q) [1%Q; 0%Q; 0%Q; 0%Q] UNDEFINED false ].

(** * The rest of the driver

    The functions of [analysis_main.cxx] around the ones above: the
    connection-length statistics, the node-demand metric, the summary of
    the queues of the lowest probabilities, the analysis of a simple
    graph, and the loop that a worker runs over its sources. *)

(** ** Further exceptions *)

(** The [WTHROW]s of the functions below, one constructor each;
    [Ex_wotan] carries an exception of a function above, and
    [Ex_vector_length] is what [vector::assign] does with a negative
    size. *)
Inductive analysis_exception : Type :=
| Ex_wotan (e : wotan_exception)
| Ex_more_than_one_source
| Ex_more_than_one_sink
| Ex_demand_of_no_nodes
| Ex_block_not_fill_type
| Ex_expected_logic_block
| Ex_logic_block_offset
| Ex_source_block_not_fill_type
| Ex_fill_block_offset
| Ex_no_block_at_max_length
| Ex_destination_not_fill_type
| Ex_vector_length.

Inductive outcome (A : Type) : Type :=
| Done (a : A)
| Raise (e : analysis_exception).

Arguments Done {A} a.
Arguments Raise {A} e.

#[global] Instance outcome_ret : MRet outcome := fun A a => Done a.
#[global] Instance outcome_bind : MBind outcome :=
  fun A B f r => match r with Done a => f a | Raise e => Raise e end.

(** A call of a function above. *)
Definition lift {A} (r : result A) : outcome A :=
  match r with Ok a => Done a | Throw e => Raise (Ex_wotan e) end.

(** [v.assign(n, x)] *)
Definition vector_assign {A} (n : Z) (x : A) : outcome (list A) :=
  if n <? 0 then Raise Ex_vector_length else Done (replicate (Z.to_nat n) x).

(** [v[i] = a] with an [int] index. *)
Definition set_int {A} (v : list A) (i : Z) (a : A) : result (list A) :=
  if i <? 0 then Throw Ex_out_of_bounds else set_index v (Z.to_nat i) a.

(** A loop over [items] that threads the state [s] through [body]. *)
Fixpoint for_each {A S : Type} (body : S -> A -> outcome S) (items : list A) (s : S)
  : outcome S :=
  match items with
  | [] => Done s
  | a :: rest => s' ← body s a; for_each body rest s'
  end.

(** The values that [i] takes in [for (i = from; i <= to; i += step)],
    for a positive [step]. *)
Definition for_values (from to step : Z) : list Z :=
  (fun k => from + k * step) <$> seqZ 0 ((to - from) `div` step + 1).

(** ** Connections at a given length *)

(** [grid[x][y]] *)
Definition tile_at (grid : list (list Grid_Tile)) (x y : Z) : result Grid_Tile :=
  col ← at_int grid x; at_int col y.

(** The test "this block is within grid bounds": strictly inside the
    perimeter of I/O blocks. *)
Definition within_perimeter (dest_x dest_y grid_size_x grid_size_y : Z) : bool :=
  ((dest_x >? 0) && (dest_x <? grid_size_x - 1))
  && ((dest_y >? 0) && (dest_y <? grid_size_y - 1)).

(** The offsets [(idx, idy)] that the two loops
    [for (idx = -length; idx <= length; idx++)] and
    [for (idy = -y_distance; idy <= y_distance; idy += max(2*y_distance, 1))]
    run through, in their order. *)
Definition ring (length : Z) : list (Z * Z) :=
  idx ← for_values (- length) length 1;
  let y_distance := length - Z.abs idx in
  idy ← for_values (- y_distance) y_distance (Z.max (2 * y_distance) 1);
  [(idx, idy)].

(** The offsets of [ring] with a given [idx]: what the inner loop runs
    through. *)
Definition ring_row (length idx : Z) : list (Z * Z) :=
  let y_distance := length - Z.abs idx in
  for_values (- y_distance) y_distance (Z.max (2 * y_distance) 1) ≫= fun idy => [(idx, idy)].

(** Every block strictly inside the perimeter is there and is of the
    fill type. *)
Definition logic_blocks_inside (grid : list (list Grid_Tile))
    (grid_size_x grid_size_y fill_type_ind : Z) : Prop :=
  forall x y, within_perimeter x y grid_size_x grid_size_y = true ->
    exists tile, tile_at grid x y = Ok tile /\ type_index tile = fill_type_ind.

(** The offsets of [ring] that lead from the tile to a block inside the
    perimeter. *)
Definition ring_inside (tile_x tile_y length grid_size_x grid_size_y : Z) : list (Z * Z) :=
  filter (fun d => within_perimeter (tile_x + d.1) (tile_y + d.2) grid_size_x grid_size_y
                   = true)
    (ring length).

Section Connection_Lengths.
(** [Physical_Type_Descriptor::get_num_receivers] and [get_num_drivers]
    belong to [wotan_types.h]; they are parameters here. *)
Variable get_num_receivers : Physical_Type_Descriptor -> Z.
Variable get_num_drivers : Physical_Type_Descriptor -> Z.

(** The body of the loops of [conns_at_distance_from_tile]. *)
Definition add_conns_of_block (tile_x tile_y : Z) (grid : list (list Grid_Tile))
    (grid_size_x grid_size_y : Z) (block_type : list Physical_Type_Descriptor)
    (fill_type_ind : Z) (num_conns : Z) (d : Z * Z) : outcome Z :=
  let dest_x := tile_x + d.1 in
  let dest_y := tile_y + d.2 in
  if within_perimeter dest_x dest_y grid_size_x grid_size_y then
    dest_tile ← lift (tile_at grid dest_x dest_y);
    let dest_type_ind := type_index dest_tile in
    if negb (dest_type_ind =? fill_type_ind) then Raise Ex_block_not_fill_type
    else
      dest_type ← lift (at_int block_type dest_type_ind);
      let num_input_pins := get_num_receivers dest_type in
      Done (num_conns + num_input_pins)
  else Done num_conns.

(** The number of connections from the tile at the given coordinates at
    the given length: the input pins of the blocks that far away. *)
Definition conns_at_distance_from_tile (tile_x tile_y length : Z)
    (grid : list (list Grid_Tile)) (grid_size_x grid_size_y : Z)
    (block_type : list Physical_Type_Descriptor) (fill_type_ind : Z) : outcome Z :=
  for_each
    (add_conns_of_block tile_x tile_y grid grid_size_x grid_size_y block_type fill_type_ind)
    (ring length) 0.

(** The body of the loops of [get_conn_length_stats] over [ix], [iy]. *)
Definition add_conn_lengths_of_tile (max_conn_length : Z) (arch_structs : Arch_Structs)
    (fill_type : Physical_Type_Descriptor) (ix : Z) (conns_at_length : list Z) (iy : Z)
  : outcome (list Z) :=
  let fill_type_ind := fill_type_index arch_structs in
  tile ← lift (tile_at (grid arch_structs) ix iy);
  let block_type_ind := type_index tile in
  if negb (block_type_ind =? fill_type_ind) then Raise Ex_expected_logic_block
  else if (width_offset tile >? 0) || (height_offset tile >? 0) then
    Raise Ex_logic_block_offset
  else
    let num_output_pins := get_num_drivers fill_type in
    for_each
      (fun conns_at_length ilen =>
         n ← conns_at_distance_from_tile ix iy ilen (grid arch_structs)
               (grid_size_x arch_structs) (grid_size_y arch_structs)
               (block_type arch_structs) fill_type_ind;
         c ← lift (at_int conns_at_length ilen);
         lift (set_int conns_at_length ilen (c + num_output_pins * n)))
      (for_values 1 max_conn_length 1) conns_at_length.

(** The region of tiles that [get_conn_length_stats] goes over:
    [(from_x, to_x, from_y, to_y)]. *)
Definition stats_region (analyze_core : bool) (arch_structs : Arch_Structs)
  : Z * Z * Z * Z :=
  if analyze_core then
    (CORE_OFFSET, grid_size_x arch_structs - 1 - CORE_OFFSET,
     CORE_OFFSET, grid_size_y arch_structs - 1 - CORE_OFFSET)
  else (1, grid_size_x arch_structs - 2, 1, grid_size_y arch_structs - 2).

(** The total number of connections at each connection length up to the
    maximum connection length. *)
Definition get_conn_length_stats (max_connection_length : Z) (analyze_core : bool)
    (arch_structs : Arch_Structs) : outcome (list Z) :=
  let max_conn_length := max_connection_length in
  let fill_type_ind := fill_type_index arch_structs in
  fill_type ← lift (at_int (block_type arch_structs) fill_type_ind);
  conns_at_length ← vector_assign (max_conn_length + 1) 0;
  let '(from_x, to_x, from_y, to_y) := stats_region analyze_core arch_structs in
  for_each
    (fun conns_at_length ix =>
       for_each (add_conn_lengths_of_tile max_conn_length arch_structs fill_type ix)
         (for_values from_y to_y 1) conns_at_length)
    (for_values from_x to_x 1) conns_at_length.

End Connection_Lengths.

(** ** The node-demand metric *)

Definition is_routing_node (node : RR_Node) : bool :=
  match rr_type node with
  | CHANX | CHANY => true
  | _ => false
  end.

(** The number of CHANX/CHANY nodes of the graph. *)
Definition get_num_routing_nodes (rr_node : t_rr_node) : Z :=
  fold_left (fun num_routing_nodes node =>
               if is_routing_node node then num_routing_nodes + 1 else num_routing_nodes)
    rr_node 0.

(** 0.05 is 0x3FA999999999999A. *)
Definition lit_0_05 : Binary64.literal := Binary64.mk_literal 3602879701896397 56.
Definition double_0_05 : float := 0x1.999999999999ap-5%float.

(** [greater<float>] *)
Definition greater (a b : Q) : bool := negb (Qle_bool a b).

(** [summed += pq.top(); pq.pop();], [n] times. *)
Fixpoint sum_and_pop (n : nat) (pq : My_Fixed_Size_PQ Q) (summed : Q)
  : outcome (Q * My_Fixed_Size_PQ Q) :=
  match n with
  | O => Done (summed, pq)
  | S n' =>
      match fs_top pq with
      | None => Raise (Ex_wotan Ex_pq_empty)
      | Some entry => sum_and_pop n' (fs_pop pq) (summed + entry)%Q
      end
  end.

(** The sum as the loops form it, from the left. *)
Definition Qsum (l : list Q) : Q := fold_left Qplus l 0%Q.

Section Demand_Metric.
(** [RR_Node::get_demand(user_opts)] belongs to [wotan_types.h]. *)
Variable get_demand : RR_Node -> Q.

(** The loop that pushes the demand of every routing node. *)
Definition push_routing_demands (rr_node : t_rr_node) (analysis_nodes : My_Fixed_Size_PQ Q)
  : My_Fixed_Size_PQ Q :=
  fold_left (fun pq node => if is_routing_node node then fs_push greater (get_demand node) pq
                            else pq)
    rr_node analysis_nodes.

(** A metric based on the demands of the routing nodes: the mean of the
    largest demands. *)
Definition node_demand_metric (rr_node : t_rr_node) : outcome Q :=
  let num_routing_nodes := get_num_routing_nodes rr_node in
  let node_num_limit := Binary64.trunc_mul num_routing_nodes lit_0_05 in
  if node_num_limit <=? 0 then Raise Ex_demand_of_no_nodes
  else
    let analysis_nodes :=
      push_routing_demands rr_node (fs_set_properties node_num_limit fs_default) in
    let num_elements := fs_size analysis_nodes in
    '(summed_demand, _) ← sum_and_pop (Z.to_nat num_elements) analysis_nodes 0%Q;
    Done (summed_demand / inject_Z num_elements)%Q.

End Demand_Metric.

(** The demands of the routing nodes, in the order of the graph. *)
Definition routing_demands (get_demand : RR_Node -> Q) (rr_node : list RR_Node) : list Q :=
  get_demand <$> filter (fun node => is_routing_node node = true) rr_node.

(** ** The summary of the queues of the lowest probabilities *)

(** At each length, sums up the entries of the queue, which empties it.
    Returns the sum and the queues as they are left. *)
Fixpoint analyze_lowest_probs_pqs (lowest_probs_pqs : list t_lowest_probs_pq) (result : Q)
  : outcome (Q * list t_lowest_probs_pq) :=
  match lowest_probs_pqs with
  | [] => Done (result, [])
  | pq :: rest =>
      let num_entries := fs_size pq in
      '(result', pq') ← sum_and_pop (Z.to_nat num_entries) pq result;
      '(result'', rest') ← analyze_lowest_probs_pqs rest result';
      Done (result'', pq' :: rest')
  end.

(** ** A simple graph with one source and one sink *)

(** The loop of [analyze_simple_graph] that finds the source and the
    sink, from node [inode] on. *)
Fixpoint find_source_and_sink (rr_node : t_rr_node) (inode : Z)
    (source_node_ind sink_node_ind : Z) : outcome (Z * Z) :=
  match rr_node with
  | [] => Done (source_node_ind, sink_node_ind)
  | node :: rest =>
      match rr_type node with
      | SOURCE =>
          if source_node_ind =? UNDEFINED then
            find_source_and_sink rest (inode + 1) inode sink_node_ind
          else Raise Ex_more_than_one_source
      | SINK =>
          if sink_node_ind =? UNDEFINED then
            find_source_and_sink rest (inode + 1) source_node_ind inode
          else Raise Ex_more_than_one_sink
      | _ => find_source_and_sink rest (inode + 1) source_node_ind sink_node_ind
      end
  end.

(** [ind] is the index of the only node of type [ty], or [UNDEFINED]
    when there is no such node. *)
Definition the_only (ty : e_rr_type) (rr_node : list RR_Node) (ind : Z) : Prop :=
  (ind = UNDEFINED /\ forall j node, rr_node !! j = Some node -> rr_type node <> ty)
  \/ (exists j node,
        ind = Z.of_nat j /\ rr_node !! j = Some node /\ rr_type node = ty
        /\ forall j' node', rr_node !! j' = Some node' -> rr_type node' = ty -> j' = j).

(** There are two nodes of type [ty]. *)
Definition has_two (ty : e_rr_type) (rr_node : list RR_Node) : Prop :=
  exists i j n m,
    i <> j /\ rr_node !! i = Some n /\ rr_node !! j = Some m
    /\ rr_type n = ty /\ rr_type m = ty.

(** An [int] used as an index into a vector.  The code has no test
    here: it indexes with the [int] as it is, and with [UNDEFINED] (a
    graph without a source or without a sink) that is an access outside
    the vector, which the model ends as it ends every such access. *)
Definition as_index (i : Z) : result nat :=
  if i <? 0 then Throw Ex_out_of_bounds else Ok (Z.to_nat i).

(** Modelled from the spec: a [Node_Topological_Info] as constructed,
    with its buckets allocated ([alloc_source_sink_buckets], of
    [wotan_types.h]) and zero. *)
Definition Node_Topological_Info_alloc (num_buckets : Z) : Node_Topological_Info :=
  mk_Node_Topological_Info (replicate (Z.to_nat num_buckets) 0%Q)
    (replicate (Z.to_nat num_buckets) 0%Q) UNDEFINED false.

Section Simple_Graph.
Context {Demands : Type}.
Variable env : Collaborators Demands.

(** Routability analysis of a graph with one source and one sink.
    Returns the connection probability that the function prints (the
    path counts that it prints on the way are left out). *)
Definition analyze_simple_graph (arch_structs : Arch_Structs) (rr_node : t_rr_node)
    (demands : Demands) : outcome spec_float :=
  let num_rr_nodes := length rr_node in
  let large_connection_length := 1000 in
  let large_max_path_weight := 1000 in
  '(source_node_ind, sink_node_ind) ←
    find_source_and_sink rr_node 0 UNDEFINED UNDEFINED;
  let nodes_visited := [] in
  let ss_distances := replicate num_rr_nodes SS_Distances_clear in
  let node_topo_inf :=
    replicate num_rr_nodes (Node_Topological_Info_alloc (large_max_path_weight + 1)) in
  source ← lift (as_index source_node_ind);
  sink ← lift (as_index sink_node_ind);
  w ← lift (enumerate_connection_paths env source sink rr_node large_connection_length
              (inject_Z UNDEFINED)
              (mk_world ss_distances node_topo_inf nodes_visited demands []));
  '(nv, ss, topo) ← lift (clean_node_data_structs (w_nodes_visited w) (w_ss_distances w)
                            (w_node_topo_inf w) large_max_path_weight);
  '(connection_probability, w') ←
    lift (estimate_connection_probability env source sink arch_structs rr_node
            large_connection_length (mk_world ss topo nv (w_demands w) (w_calls w)));
  Done connection_probability.

End Simple_Graph.

(** ** The loop of a worker *)

Section Worker.
Context {Demands : Type}.
Variable env : Collaborators Demands.
(** [Physical_Type_Descriptor::get_num_receivers] and
    [Coordinate::get_dx_plus_dy] belong to [wotan_types.h]. *)
Variable get_num_receivers : Physical_Type_Descriptor -> Z.
Variable get_dx_plus_dy : Coordinate -> Z -> Z -> Z.
Variable rr_node_index : e_rr_type -> Z -> Z -> nat -> nat.
Variable max_connection_length : Z.
Variable analysis_settings : Analysis_Settings.
Variable arch_structs : Arch_Structs.
Variable rr_node : t_rr_node.
Variable topological_mode : e_topological_mode.

(** The loop over the pin classes of a destination block, from class
    [iclass] on: a connection is analyzed to every receiver class that
    has pins and is not global. *)
Fixpoint analyze_sink_classes (source_node_ind : nat) (tile_coord : Coordinate)
    (ilen dest_x dest_y : Z) (dest_type : Physical_Type_Descriptor) (iclass : nat)
    (classes : list Pin_Class) (st : Analysis_Results * world Demands)
  : outcome (Analysis_Results * world Demands) :=
  match classes with
  | [] => Done st
  | pin_class :: rest =>
      st' ←
        (if negb (match pin_type pin_class with RECEIVER => true | _ => false end)
            || (get_num_pins pin_class =? 0)
         then Done st
         else
           sample_pin ← lift (at_index (pinlist pin_class) 0);
           is_global ← lift (at_index (is_global_pin dest_type) sample_pin);
           if (is_global : bool) then Done st
           else
             let sink_node_ind := rr_node_index SINK dest_x dest_y iclass in
             num_conns ← conns_at_distance_from_tile get_num_receivers
                           (coord_x tile_coord) (coord_y tile_coord) ilen
                           (grid arch_structs) (grid_size_x arch_structs)
                           (grid_size_y arch_structs) (block_type arch_structs)
                           (fill_type_index arch_structs);
             lift (dispatch_connection env source_node_ind sink_node_ind analysis_settings
                     arch_structs rr_node ilen num_conns topological_mode st.1 st.2));
      analyze_sink_classes source_node_ind tile_coord ilen dest_x dest_y dest_type
        (S iclass) rest st'
  end.

(** The body of the loops over [idx] and [idy], in pass [ipass]; the
    state is [conns_at_distance] with the results and the world. *)
Definition visit_destination (ipass : nat) (source_node_ind : nat) (tile_coord : Coordinate)
    (ilen : Z) (num_input_pins : Z)
    (st : list Z * (Analysis_Results * world Demands)) (d : Z * Z)
  : outcome (list Z * (Analysis_Results * world Demands)) :=
  let '(conns_at_distance, job) := st in
  let fill_type_ind := fill_type_index arch_structs in
  let dest_x := coord_x tile_coord + d.1 in
  let dest_y := coord_y tile_coord + d.2 in
  if within_perimeter dest_x dest_y (grid_size_x arch_structs) (grid_size_y arch_structs)
  then
    dest_tile ← lift (tile_at (grid arch_structs) dest_x dest_y);
    let dest_type_ind := type_index dest_tile in
    match ipass with
    | O =>
        if negb (fill_type_ind =? dest_type_ind) then Raise Ex_destination_not_fill_type
        else
          c ← lift (at_int conns_at_distance ilen);
          conns_at_distance' ← lift (set_int conns_at_distance ilen (c + num_input_pins));
          Done (conns_at_distance', job)
    | S _ =>
        dest_type ← lift (at_int (block_type arch_structs) dest_type_ind);
        job' ← analyze_sink_classes source_node_ind tile_coord ilen dest_x dest_y dest_type
                 0 (class_inf dest_type) job;
        Done (conns_at_distance, job')
    end
  else Done st.

(** The body of the loop over [ilen]. *)
Definition visit_length (ipass : nat) (source_node_ind : nat) (tile_coord : Coordinate)
    (num_input_pins : Z) (st : list Z * (Analysis_Results * world Demands)) (ilen : Z)
  : outcome (list Z * (Analysis_Results * world Demands)) :=
  length_prob ← lift (at_int (length_probabilities analysis_settings) ilen);
  if Qeq_bool length_prob 0 then Done st
  else
    for_each (visit_destination ipass source_node_ind tile_coord ilen num_input_pins)
      (ring ilen) st.

(** The body of the loop over [ipass]. *)
Definition visit_pass (source_node_ind : nat) (tile_coord : Coordinate)
    (num_input_pins : Z) (st : list Z * (Analysis_Results * world Demands)) (ipass : nat)
  : outcome (list Z * (Analysis_Results * world Demands)) :=
  for_each (visit_length ipass source_node_ind tile_coord num_input_pins)
    (for_values 1 max_connection_length 1) st.

(** The body of the loop over [isource]: one source node and its tile. *)
Definition enumerate_paths_from_one_source (source_node_ind : nat) (tile_coord : Coordinate)
    (job : Analysis_Results * world Demands)
  : outcome (Analysis_Results * world Demands) :=
  let grid_size_x := grid_size_x arch_structs in
  let grid_size_y := grid_size_y arch_structs in
  test_tile ← lift (tile_at (grid arch_structs) (coord_x tile_coord) (coord_y tile_coord));
  test_tile_type ← lift (at_int (block_type arch_structs) (type_index test_tile));
  '(sum_of_source_probabilities, _) ←
    lift (get_sum_of_source_probabilities env source_node_ind rr_node
            (pin_probabilities analysis_settings) test_tile_type);
  if Qeq_bool sum_of_source_probabilities 0 then Done job
  else
    let fill_type_ind := fill_type_index arch_structs in
    if negb (fill_type_ind =? type_index test_tile) then Raise Ex_source_block_not_fill_type
    else if negb (width_offset test_tile =? 0) || negb (height_offset test_tile =? 0) then
      Raise Ex_fill_block_offset
    else
      let max_conn_length := max_connection_length in
      let max_block_dist :=
        Z.max (get_dx_plus_dy tile_coord 1 1) (get_dx_plus_dy tile_coord 1 (grid_size_y - 2))
      in
      let max_block_dist :=
        Z.max max_block_dist (get_dx_plus_dy tile_coord (grid_size_x - 2) (grid_size_y - 2))
      in
      let max_block_dist :=
        Z.max max_block_dist (get_dx_plus_dy tile_coord (grid_size_x - 2) 1) in
      if max_block_dist <? max_conn_length then Raise Ex_no_block_at_max_length
      else
        fill_type ← lift (at_int (block_type arch_structs) fill_type_ind);
        let num_input_pins := get_num_receivers fill_type in
        conns_at_distance ← vector_assign (max_conn_length + 1) 0;
        '(conns_at_distance', job') ←
          for_each (visit_pass source_node_ind tile_coord num_input_pins)
            [0%nat; 1%nat] (conns_at_distance, job);
        Done job'.

(** The loop over [isource], from [isource] on. *)
Fixpoint enumerate_paths_from_sources (isource : nat) (sources : list nat)
    (tile_coords : list Coordinate) (job : Analysis_Results * world Demands)
  : outcome (Analysis_Results * world Demands) :=
  match sources with
  | [] => Done job
  | source_node_ind :: rest =>
      tile_coord ← lift (at_index tile_coords isource);
      job' ← enumerate_paths_from_one_source source_node_ind tile_coord job;
      enumerate_paths_from_sources (S isource) rest tile_coords job'
  end.

(** What a thread runs: the connections from each of its sources. *)
Definition enumerate_paths_from_source (conn_info : Conn_Info)
    (job : Analysis_Results * world Demands)
  : outcome (Analysis_Results * world Demands) :=
  enumerate_paths_from_sources 0 (source_node_inds conn_info) (tile_coords conn_info) job.

End Worker.

(** ** Relations between states, for the statements below *)

(** From [r0] to [r] the counter of the desired connections has not gone
    down, and the counter of the enumerated connections has gone up as
    much (ENUMERATE) or not at all (PROBABILITY). *)
Definition counters_follow (mode : e_topological_mode) (r0 r : Analysis_Results) : Prop :=
  desired_conns r0 <= desired_conns r
  /\ num_conns r - num_conns r0
     = num_conns_increment mode * (desired_conns r - desired_conns r0).

(** The mark that the distance pass in direction [dir] puts on a node
    that it reaches at distance [d], and the distance it reads back. *)
Definition mark_reached (dir : e_traversal_dir) (d : Z) (s : SS_Distances) : SS_Distances :=
  match dir with
  | FORWARD_TRAVERSAL => set_visited_from_source true (set_source_distance d s)
  | BACKWARD_TRAVERSAL => set_visited_from_sink true (set_sink_distance d s)
  end.

Definition dist_in (dir : e_traversal_dir) (s : SS_Distances) : Z :=
  match dir with
  | FORWARD_TRAVERSAL => source_distance s
  | BACKWARD_TRAVERSAL => sink_distance s
  end.

(** The nodes that wait in the queue. *)
Definition pq_items (pq : My_Bounded_Priority_Queue) : list nat := (pq_entries pq).*1.

(** The node being expanded, as a list. *)
Definition expanding (cur : option (nat * Z)) : list (nat * Z) :=
  match cur with Some e => [e] | None => [] end.

(** A marked node has its distance from a marked parent: it is the
    node the pass started from, at distance 0, or a child of a marked
    node, at that node's distance plus its own weight. *)
Definition reached_from_parent (dir : e_traversal_dir) (rr_node : list RR_Node)
    (ss : list SS_Distances) (from n : nat) (s : SS_Distances) : Prop :=
  (n = from /\ dist_in dir s = 0)
  \/ exists p sp node_p node_n,
       ss !! p = Some sp /\ visited_in dir sp = true
       /\ rr_node !! p = Some node_p /\ n ∈ edges_in dir node_p
       /\ rr_node !! n = Some node_n
       /\ dist_in dir s = dist_in dir sp + weight node_n.

(** The mark that the hops pass in direction [dir] puts on a child at
    [h] hops. *)
Definition hop_mark (dir : e_traversal_dir) (h : Z) (s : SS_Distances) : SS_Distances :=
  match dir with
  | FORWARD_TRAVERSAL => set_source_hops h (set_visited_from_source_hops true s)
  | BACKWARD_TRAVERSAL => set_visited_from_sink_hops true (set_sink_hops h s)
  end.

(** The mark that the hops pass puts on the node it expands. *)
Definition hop_done (dir : e_traversal_dir) (s : SS_Distances) : SS_Distances :=
  match dir with
  | FORWARD_TRAVERSAL => set_visited_from_source_hops true s
  | BACKWARD_TRAVERSAL => set_visited_from_sink_hops true s
  end.

(** The two states agree in what the distance passes have written. *)
Definition same_distances (s s' : SS_Distances) : Prop :=
  source_distance s' = source_distance s /\ sink_distance s' = sink_distance s
  /\ visited_from_source s' = visited_from_source s
  /\ visited_from_sink s' = visited_from_sink s.

(** A node with a hop mark has its hop count from a marked parent: it
    is the node the pass started from, at 0 hops, or a child of a
    marked node, one hop further. *)
Definition hops_from_parent (dir : e_traversal_dir) (rr_node : list RR_Node)
    (ss : list SS_Distances) (from n : nat) (s : SS_Distances) : Prop :=
  (n = from /\ hops_in dir s = 0)
  \/ exists p sp node_p,
       ss !! p = Some sp /\ visited_hops_in dir sp = true
       /\ rr_node !! p = Some node_p /\ n ∈ edges_in dir node_p
       /\ hops_in dir s = hops_in dir sp + 1.

(** ** The arenas of the threads *)

(** [int max_path_weight_bound = get_max_path_weight(max_connection_length)
    * PATH_FLEXIBILITY_FACTOR], of [analyze_test_tile_connections]. *)
Definition max_path_weight_bound (max_path_weight : Z) : Z :=
  Binary64.trunc_mul max_path_weight Binary64.lit_1_3.

(** A source/sink distance vector for each thread. *)
Definition alloc_thread_ss_distances (num_threads num_nodes : Z)
  : outcome (list (list SS_Distances)) :=
  ss_distances ← vector_assign num_nodes SS_Distances_clear;
  vector_assign num_threads ss_distances.

(** The topological state of every node, for each thread, with
    [max_path_weight_bound + 1] buckets of either kind. *)
Definition alloc_thread_node_topo_inf (num_threads max_path_weight_bound num_nodes : Z)
  : outcome (list (list Node_Topological_Info)) :=
  node_topo_inf ← vector_assign num_nodes
                    (Node_Topological_Info_alloc (max_path_weight_bound + 1));
  vector_assign num_threads node_topo_inf.

(** An empty list of visited nodes for each thread. *)
Definition alloc_thread_nodes_visited (num_threads num_nodes : Z) : outcome (list (list nat)) :=
  vector_assign num_threads [].

(** ** Further example data *)

(** The input and output pins of a block type, counted over its pin
    classes, and the Manhattan distance, for the parameters of the
    functions above. *)
Definition example_num_receivers (t : Physical_Type_Descriptor) : Z :=
  fold_right (fun c n => match pin_type c with RECEIVER => get_num_pins c + n | _ => n end)
    0 (class_inf t).

Definition example_num_drivers (t : Physical_Type_Descriptor) : Z :=
  fold_right (fun c n => match pin_type c with DRIVER => get_num_pins c + n | _ => n end)
    0 (class_inf t).

Definition example_dx_plus_dy (c : Coordinate) (x y : Z) : Z :=
  Z.abs (coord_x c - x) + Z.abs (coord_y c - y).

(** Wires of the weights 1 to [n], and a demand that is the weight. *)
Definition example_wires (n : Z) : list RR_Node :=
  (fun k => mk_RR_Node CHANX 0 0 0 0 k 0 [] []) <$> seqZ 1 n.

Definition example_demand (node : RR_Node) : Q := inject_Z (weight node).

(** The statistics of the 12 x 12 grid up to length 2. *)
Definition example_conn_length_stats : list Z :=
  Eval vm_compute in
    match get_conn_length_stats example_num_receivers example_num_drivers 2 false
            example_grid_arch with
    | Done conns => conns
    | Raise _ => []
    end.

(** A 4 x 3 grid of logic blocks, two of them inside the perimeter, and
    a table that leads to the nodes of [example_path_graph]. *)
Definition example_worker_arch : Arch_Structs :=
  mk_Arch_Structs (replicate 4 (replicate 3 (mk_Grid_Tile 0 0 0))) [example_block] 0.

Definition example_worker_index (t : e_rr_type) (x y : Z) (ptc : nat) : nat :=
  match t with SOURCE => 0%nat | SINK => 2%nat | _ => 1%nat end.

(** The run of a worker in ENUMERATE mode from the source on tile (1,1). *)
Definition example_worker_result : Analysis_Results * world unit :=
  Eval vm_compute in
    match enumerate_paths_from_source (example_env Binary32.zero) example_num_receivers
            example_dx_plus_dy example_worker_index 1 example_settings example_worker_arch
            example_path_graph ENUMERATE (mk_Conn_Info [0%nat] [mk_Coordinate 1 1])
            (Analysis_Results_init, example_world 3) with
    | Done rw => rw
    | Raise _ => (Analysis_Results_init, example_world 0)
    end.

(** A source, and a sink that lies over two tiles. *)
Definition example_wide_graph : list RR_Node :=
  [ mk_RR_Node SOURCE 1 1 1 1 0 0 [1%nat] [];
    mk_RR_Node SINK 1 2 1 1 0 1 [] [0%nat] ].

(** Both passes and the adjustment on [example_path_graph], from a
    cleared arena and under a bound of 3. *)
Definition example_path_adjusted : list SS_Distances * list nat * Z * Z :=
  Eval vm_compute in
    match get_ss_distances_and_adjust_max_path_weight 0 2 example_path_graph
            (example_clear_distances 3) 3 [] with
    | Ok r => r
    | Throw _ => ([], [], 0, 0)
    end.

(** The forward hops pass on top of the distance passes. *)
Definition example_path_hops : list SS_Distances :=
  Eval vm_compute in
    match set_node_hops 0 2 example_path_graph (fst example_path_both) 3
            FORWARD_TRAVERSAL with
    | Ok r => r
    | Throw _ => []
    end.

(** Results with a queue of capacity 2 at the lengths 0 and 1, and
    [analyze_connection] in PROBABILITY mode on [example_path_graph],
    the model estimating 1/2. *)
Definition example_results : Analysis_Results :=
  mk_Analysis_Results 0 0 (replicate 2 (fs_set_properties 2 fs_default)) 0 0.

(** * Properties *)

(** ** Results *)

Lemma bind_Ok {A B} (r : result A) (f : A -> result B) (b : B) :
  r ≫= f = Ok b -> exists a, r = Ok a /\ f a = Ok b.
Proof. destruct r as [a|e]; simpl; [eauto | discriminate]. Qed.

Lemma at_index_Ok {A} (v : list A) (i : nat) (a : A) :
  at_index v i = Ok a <-> v !! i = Some a.
Proof. unfold at_index. destruct (v !! i); split; congruence. Qed.

Lemma at_index_lookup {A} (v : list A) (i : nat) (a : A) :
  v !! i = Some a -> at_index v i = Ok a.
Proof. apply at_index_Ok. Qed.

Lemma filter_length_insert {A} (P : A -> Prop) `{!forall x, Decision (P x)}
    (l : list A) (i : nat) (x y : A) :
  l !! i = Some x ->
  (length (filter P (<[i := y]> l)) + (if decide (P x) then 1 else 0)
   = length (filter P l) + (if decide (P y) then 1 else 0))%nat.
Proof.
  revert i. induction l as [|a l IH]; intros i Hi.
  - discriminate Hi.
  - destruct i as [|i]; simpl in Hi.
    + injection Hi as ->. simpl. rewrite !filter_cons.
      destruct (decide (P x)), (decide (P y)); simpl; lia.
    + simpl. rewrite !filter_cons. specialize (IH i Hi).
      destruct (decide (P a)); simpl; lia.
Qed.

(** ** Binary64 products agree with exact arithmetic *)

Ltac eval_pows :=
  repeat match goal with
         | H : context [2 ^ ?e] |- _ =>
             let v := eval vm_compute in (2 ^ e) in change (2 ^ e) with v in H
         | |- context [2 ^ ?e] =>
             let v := eval vm_compute in (2 ^ e) in change (2 ^ e) with v
         end.

Lemma round_to_prec_rounds (N : Z) :
  0 < N ->
  exists t, 0 <= t + 52 /\ 2 ^ (t + 52) <= N < 2 ^ (t + 53)
            /\ Binary64.rounds N t (Binary64.round_to_prec N).
Proof.
  intros HN. exists (Z.log2 N - 52).
  pose proof (Z.log2_spec N HN) as Hlog.
  pose proof (Z.log2_nonneg N) as Hnn.
  replace (Z.log2 N - 52 + 52) with (Z.log2 N) by lia.
  replace (Z.log2 N - 52 + 53) with (Z.succ (Z.log2 N)) by lia.
  split; [lia|]. split; [exact Hlog|].
  unfold Binary64.round_to_prec.
  replace (Z.log2 N + 1 - 53) with (Z.log2 N - 52) by lia.
  set (t := Z.log2 N - 52).
  destruct (Z.leb_spec t 0) as [Ht|Ht].
  - apply Binary64.rounds_exact; [exact Ht | reflexivity].
  - assert (Hp : 0 < 2 ^ t) by (apply Z.pow_pos_nonneg; lia).
    pose proof (Z.div_mod N (2 ^ t) ltac:(lia)) as Hdm.
    pose proof (Z.mod_pos_bound N (2 ^ t) Hp) as Hr.
    revert Hdm Hr. generalize (N / 2 ^ t) (N mod 2 ^ t). intros q r Hdm Hr.
    clear Hlog. remember (2 ^ t) as p eqn:Hpow.
    destruct (Z.gtb_spec (2 * r) p) as [Hgt|Hle]; cbn [orb andb].
    + apply Binary64.rounds_up with (q := q) (r := r); rewrite <- ?Hpow; lia.
    + destruct (Z.eqb_spec (2 * r) p) as [Heq|Hne]; cbn [orb andb].
      * destruct (Z.odd q).
        -- apply Binary64.rounds_up with (q := q) (r := r); rewrite <- ?Hpow; lia.
        -- apply Binary64.rounds_down with (q := q) (r := r); rewrite <- ?Hpow; lia.
      * apply Binary64.rounds_down with (q := q) (r := r); rewrite <- ?Hpow; lia.
Qed.

Lemma pow2_range_bounds (t N lo hi : Z) :
  0 <= t + 52 -> 2 ^ (t + 52) <= N < 2 ^ (t + 53) -> 2 ^ lo <= N < 2 ^ hi -> 0 <= lo ->
  lo - 53 < t < hi - 52.
Proof.
  intros Ht [H1 H2] [H3 H4] Hlo.
  assert (lo < t + 53).
  { apply (Z.pow_lt_mono_r_iff 2 lo (t + 53)); [lia | lia |].
    eapply Z.le_lt_trans; [exact H3 | exact H2]. }
  assert (t + 52 < hi).
  { destruct (Z.le_gt_cases hi (t + 52)) as [Hle|Hgt]; [|lia]. exfalso.
    pose proof (Z.pow_le_mono_r 2 hi (t + 52) ltac:(lia) Hle) as Hp.
    eapply Z.lt_irrefl. eapply Z.lt_le_trans; [exact H4|].
    eapply Z.le_trans; [exact Hp | exact H1]. }
  lia.
Qed.

Ltac round_cases Hr R :=
  destruct Hr as [? ?|q r ? ? ? ? ?|q r ? ? ? ? ?]; subst R; eval_pows;
  Z.div_mod_to_equations; lia.

(** The product with 1.3: at every magnitude the rounded product lies on
    the same side of every integer as the exact one. *)
Lemma round_1_3 (a R t : Z) :
  0 < a <= 2 ^ 31 ->
  0 <= t + 52 ->
  2 ^ (t + 52) <= a * 5854679515581645 < 2 ^ (t + 53) ->
  Binary64.rounds (a * 5854679515581645) t R ->
  R / 2 ^ 52 = (13 * a) / 10 /\ - ((- R) / 2 ^ 52) = - ((- (13 * a)) / 10).
Proof.
  intros Ha Ht Hb Hr.
  assert (Hrange : 0 <= t <= 31).
  { pose proof (pow2_range_bounds t _ 52 84 Ht Hb) as Hx.
    assert (2 ^ 52 <= a * 5854679515581645 < 2 ^ 84) by (eval_pows; lia).
    lia. }
  clear Ht.
  assert (Hcases : t = 0 \/ t = 1 \/ t = 2 \/ t = 3 \/ t = 4 \/ t = 5 \/ t = 6 \/ t = 7
                   \/ t = 8 \/ t = 9 \/ t = 10 \/ t = 11 \/ t = 12 \/ t = 13 \/ t = 14
                   \/ t = 15 \/ t = 16 \/ t = 17 \/ t = 18 \/ t = 19 \/ t = 20 \/ t = 21
                   \/ t = 22 \/ t = 23 \/ t = 24 \/ t = 25 \/ t = 26 \/ t = 27 \/ t = 28
                   \/ t = 29 \/ t = 30 \/ t = 31) by lia.
  clear Hrange.
  repeat (destruct Hcases as [->|Hcases]); try subst t; round_cases Hr R.
Qed.

(** The product with 0.10. *)
Lemma round_0_10 (a R t : Z) :
  0 < a <= 2 ^ 31 ->
  0 <= t + 52 ->
  2 ^ (t + 52) <= a * 3602879701896397 < 2 ^ (t + 53) ->
  Binary64.rounds (a * 3602879701896397) t R ->
  R / 2 ^ 55 = a / 10.
Proof.
  intros Ha Ht Hb Hr.
  assert (Hrange : -1 <= t <= 30).
  { pose proof (pow2_range_bounds t _ 51 83 Ht Hb) as Hx.
    assert (2 ^ 51 <= a * 3602879701896397 < 2 ^ 83) by (eval_pows; lia).
    lia. }
  clear Ht.
  assert (Hcases : t = -1 \/ t = 0 \/ t = 1 \/ t = 2 \/ t = 3 \/ t = 4 \/ t = 5 \/ t = 6
                   \/ t = 7 \/ t = 8 \/ t = 9 \/ t = 10 \/ t = 11 \/ t = 12 \/ t = 13
                   \/ t = 14 \/ t = 15 \/ t = 16 \/ t = 17 \/ t = 18 \/ t = 19 \/ t = 20
                   \/ t = 21 \/ t = 22 \/ t = 23 \/ t = 24 \/ t = 25 \/ t = 26 \/ t = 27
                   \/ t = 28 \/ t = 29 \/ t = 30) by lia.
  clear Hrange.
  repeat (destruct Hcases as [->|Hcases]); try subst t; round_cases Hr R.
Qed.

(** The two literals are the doubles nearest to 1.3 and 0.10, and the
    products of the model are those of the kernel's binary64
    multiplication, at a sample of magnitudes. *)
#[warnings="-inexact-float"]
Example literals_are_the_doubles :
  (PrimFloat.eqb 1.3 Binary64.double_1_3 && PrimFloat.eqb 0.10 Binary64.double_0_10 = true)
  /\ Prim2SF Binary64.double_1_3 = S754_finite false 5854679515581645 (-52)
  /\ Prim2SF Binary64.double_0_10 = S754_finite false 7205759403792794 (-56).
Proof. repeat split; vm_compute; reflexivity. Qed.

Example products_agree_with_kernel :
  forallb (Binary64.agrees_with_kernel Binary64.lit_1_3 Binary64.double_1_3)
    [0; 1; -1; 2; 3; 7; 10; 13; 20; 77; 100; 1000; 65535; 123456789; 2147483647;
     -2147483648]
  && forallb (Binary64.agrees_with_kernel Binary64.lit_0_10 Binary64.double_0_10)
       [0; 1; 2; 5; 9; 10; 11; 15; 99; 100; 1000; 65535; 123456789; 2147483647;
        -2147483648]
  = true.
Proof. vm_compute. reflexivity. Qed.

(** [(int)ceil(k * 1.3)] is the ceiling of the exact [13 k / 10]. *)
Lemma ceil_mul_1_3_exact (k : Z) :
  in_int_range k ->
  Binary64.ceil_mul k Binary64.lit_1_3 = spec_flexible_weight k.
Proof.
  unfold in_int_range, spec_flexible_weight, ceil_div, Binary64.ceil_mul. intros Hk.
  destruct (Z.ltb_spec k 0) as [Hneg|Hpos].
  - unfold Binary64.mul_magnitude. cbn [Binary64.significand Binary64.scale Binary64.lit_1_3].
    destruct (round_to_prec_rounds (Z.abs k * 5854679515581645) ltac:(lia))
      as (t & Ht & Hb & Hr).
    destruct (round_1_3 (Z.abs k) _ t ltac:(lia) Ht Hb Hr) as [Hfloor _].
    rewrite Hfloor. f_equal. f_equal. lia.
  - destruct (Z.eq_dec k 0) as [->|Hnz]; [reflexivity|].
    unfold Binary64.mul_magnitude. cbn [Binary64.significand Binary64.scale Binary64.lit_1_3].
    destruct (round_to_prec_rounds (Z.abs k * 5854679515581645) ltac:(lia))
      as (t & Ht & Hb & Hr).
    destruct (round_1_3 (Z.abs k) _ t ltac:(lia) Ht Hb Hr) as [_ Hceil].
    rewrite Hceil. f_equal. f_equal. f_equal. lia.
Qed.

(** [(int)(k * 0.10)] is the exact [k / 10], truncated towards zero. *)
Lemma trunc_mul_0_10_exact (k : Z) :
  in_int_range k ->
  Binary64.trunc_mul k Binary64.lit_0_10 = Z.quot k 10.
Proof.
  unfold in_int_range, Binary64.trunc_mul. intros Hk.
  destruct (Z.eq_dec k 0) as [->|Hnz]; [reflexivity|].
  unfold Binary64.mul_magnitude. cbn [Binary64.significand Binary64.scale Binary64.lit_0_10].
  destruct (round_to_prec_rounds (Z.abs k * 3602879701896397) ltac:(lia))
    as (t & Ht & Hb & Hr).
  rewrite (round_0_10 (Z.abs k) _ t ltac:(lia) Ht Hb Hr).
  destruct (Z.ltb_spec k 0) as [Hneg|Hpos].
  - rewrite (Z.sgn_neg k Hneg). replace (Z.abs k) with (- k) by lia.
    rewrite <- (Z.quot_div_nonneg (- k) 10) by lia. rewrite Z.quot_opp_l by lia. lia.
  - rewrite (Z.sgn_pos k) by lia. replace (Z.abs k) with k by lia.
    rewrite <- (Z.quot_div_nonneg k 10) by lia. lia.
Qed.

(** ** C1: geometric pruning on the forward pass *)

Lemma code_differences (node : RR_Node) (destx desty : Z) (x_diff y_diff : Z) :
  xlow node <= xhigh node -> ylow node <= yhigh node ->
  (if xlow node =? xhigh node then
     if (desty <=? yhigh node) && (desty >=? ylow node) then
       Ok (Z.abs (destx - xlow node), 0)
     else if desty >? yhigh node then
       Ok (Z.abs (destx - xlow node), desty - yhigh node)
     else
       Ok (Z.abs (destx - xlow node), ylow node - desty)
   else if ylow node =? yhigh node then
     if (destx <=? xhigh node) && (destx >=? xlow node) then
       Ok (0, Z.abs (desty - ylow node) - 1)
     else if destx >? xhigh node then
       Ok (destx - xhigh node, Z.abs (desty - ylow node))
     else
       Ok (xlow node - destx, Z.abs (desty - ylow node))
   else Throw Ex_node_spans_both_directions) = Ok (x_diff, y_diff) ->
  Z.max (x_diff + y_diff - 1) 0 = remaining_lower_bound node destx desty.
Proof.
  intros Hx Hy. unfold remaining_lower_bound, x_span_over_destination, axis_distance.
  repeat match goal with
         | |- context [Z.eqb ?a ?b] => destruct (Z.eqb_spec a b)
         | |- context [Z.leb ?a ?b] => destruct (Z.leb_spec a b)
         | |- context [Z.geb ?a ?b] => rewrite (Z.geb_leb a b)
         | |- context [Z.gtb ?a ?b] => rewrite (Z.gtb_ltb a b)
         | |- context [Z.ltb ?a ?b] => destruct (Z.ltb_spec a b)
         end; simpl; intros Hres; inversion Hres; subst; lia.
Qed.

Lemma node_has_chance_closed_form (rr_node : t_rr_node) (node_ind : nat) (node : RR_Node)
    (destx desty node_path_weight max_path_weight : Z) :
  rr_node !! node_ind = Some node ->
  xlow node <= xhigh node -> ylow node <= yhigh node ->
  xlow node = xhigh node \/ ylow node = yhigh node ->
  node_has_chance_to_reach_destination node_ind destx desty node_path_weight
    max_path_weight rr_node
  = Ok (node_path_weight + remaining_lower_bound node destx desty <=? max_path_weight).
Proof.
  intros Hn Hx Hy Hspan. unfold node_has_chance_to_reach_destination.
  rewrite (at_index_lookup _ _ _ Hn). simpl.
  match goal with
  | |- (?d ≫= _) = _ => destruct d as [[x_diff y_diff]|e] eqn:Hd
  end.
  - simpl. rewrite (code_differences node destx desty x_diff y_diff Hx Hy Hd). reflexivity.
  - exfalso. revert Hd.
    destruct Hspan as [E|E].
    + apply Z.eqb_eq in E. rewrite E.
      repeat match goal with |- context [if ?b then _ else _] => destruct b end;
        discriminate.
    + apply Z.eqb_eq in E. rewrite E.
      repeat match goal with |- context [if ?b then _ else _] => destruct b end;
        discriminate.
Qed.

(** On the forward pass an unvisited child is either pruned, and then
    nothing changes, or it gets its source distance and goes on the
    queue. *)
Lemma relax_child_forward (rr_node : t_rr_node) (ss : t_ss_distances)
    (PQ : My_Bounded_Priority_Queue) (child : nat) (node : RR_Node) (s : SS_Distances)
    (base_weight max_path_weight destx desty : Z) :
  rr_node !! child = Some node ->
  ss !! child = Some s ->
  visited_from_source s = false ->
  xlow node <= xhigh node -> ylow node <= yhigh node ->
  xlow node = xhigh node \/ ylow node = yhigh node ->
  pq_max_weight PQ = max_path_weight ->
  relax_child base_weight max_path_weight FORWARD_TRAVERSAL rr_node destx desty (ss, PQ) child
  = if base_weight + weight node + remaining_lower_bound node destx desty >? max_path_weight
    then Ok (ss, PQ)
    else Ok (<[child := set_visited_from_source true
                          (set_source_distance (base_weight + weight node) s)]> ss,
             mk_PQ max_path_weight
               (pq_insert child (base_weight + weight node) (pq_entries PQ))).
Proof.
  intros Hn Hs Hv Hx Hy Hspan Hpq. unfold relax_child.
  rewrite (at_index_lookup _ _ _ Hs). simpl. rewrite Hv.
  rewrite (at_index_lookup _ _ _ Hn). simpl.
  rewrite (node_has_chance_closed_form _ _ _ _ _ _ _ Hn Hx Hy Hspan). simpl.
  rewrite Z.gtb_ltb.
  destruct (Z.leb_spec (base_weight + weight node + remaining_lower_bound node destx desty)
              max_path_weight) as [Hle|Hgt].
  - assert (Hlt : (max_path_weight <?
                   base_weight + weight node + remaining_lower_bound node destx desty)
                  = false) by (apply Z.ltb_ge; lia).
    rewrite Hlt. simpl. unfold pq_push. rewrite Hpq.
    assert (Hrem : 0 <= remaining_lower_bound node destx desty)
      by (unfold remaining_lower_bound; lia).
    assert (Hw : (base_weight + weight node >? max_path_weight) = false)
      by (rewrite Z.gtb_ltb; apply Z.ltb_ge; lia).
    rewrite Hw. reflexivity.
  - assert (Hlt : (max_path_weight <?
                   base_weight + weight node + remaining_lower_bound node destx desty)
                  = true) by (apply Z.ltb_lt; lia).
    rewrite Hlt. reflexivity.
Qed.

(** C1 (amended).  On the forward distance pass, a child that is
    considered during relaxation (in range, not yet visited from the
    source, with a footprint along one axis) is pruned, that is, the
    distance state and the queue stay as they are, if and only if
    [node_path_weight + max(x_diff + y_diff - 1 - g, 0) > max_path_weight],
    where [x_diff] and [y_diff] are the distances along the axes from
    the footprint to the destination tile and [g] is 1 for a node that
    spans several columns and lies over the destination column, else 0.
    The 1 is subtracted whether or not the node overlaps the destination
    column or row.  A child that is not pruned is marked and enqueued
    with its path weight. *)
Theorem forward_child_pruned_iff (rr_node : t_rr_node) (ss : t_ss_distances)
    (PQ : My_Bounded_Priority_Queue) (child : nat) (node : RR_Node) (s : SS_Distances)
    (base_weight max_path_weight destx desty : Z) :
  rr_node !! child = Some node ->
  ss !! child = Some s ->
  visited_from_source s = false ->
  xlow node <= xhigh node -> ylow node <= yhigh node ->
  xlow node = xhigh node \/ ylow node = yhigh node ->
  pq_max_weight PQ = max_path_weight ->
  let node_path_weight := base_weight + weight node in
  let x_diff := axis_distance (xlow node) (xhigh node) destx in
  let y_diff := axis_distance (ylow node) (yhigh node) desty in
  let g := x_span_over_destination node destx in
  (relax_child base_weight max_path_weight FORWARD_TRAVERSAL rr_node destx desty
     (ss, PQ) child = Ok (ss, PQ)
   <-> node_path_weight + Z.max (x_diff + y_diff - 1 - g) 0 > max_path_weight)
  /\ (node_path_weight + Z.max (x_diff + y_diff - 1 - g) 0 <= max_path_weight ->
      relax_child base_weight max_path_weight FORWARD_TRAVERSAL rr_node destx desty
        (ss, PQ) child
      = Ok (<[child := set_visited_from_source true
                         (set_source_distance node_path_weight s)]> ss,
            mk_PQ max_path_weight (pq_insert child node_path_weight (pq_entries PQ)))).
Proof.
  intros Hn Hs Hv Hx Hy Hspan Hpq node_path_weight x_diff y_diff g.
  subst node_path_weight x_diff y_diff g.
  rewrite (relax_child_forward rr_node ss PQ child node s base_weight max_path_weight
             destx desty Hn Hs Hv Hx Hy Hspan Hpq).
  unfold remaining_lower_bound. rewrite Z.gtb_ltb.
  match goal with
  | |- context [Z.ltb ?a ?b] => destruct (Z.ltb_spec a b) as [Hlt|Hge]
  end.
  - split; [split; [lia | reflexivity] | lia].
  - split; [split; [|lia] | reflexivity].
    intros Heq. exfalso. injection Heq as Hss HPQ.
    pose proof (list_lookup_insert_eq ss child
                  (set_visited_from_source true
                     (set_source_distance (base_weight + weight node) s))
                  (lookup_lt_Some _ _ _ Hs)) as Hl.
    rewrite Hss, Hs in Hl. injection Hl as Hs'. rewrite Hs' in Hv. discriminate Hv.
Qed.

(** A child on tile (0,0), the destination on tile (3,3): the remaining
    distance of the code is 5, so under a bound of 6 a path of weight 1
    goes on. *)
Lemma forward_child_pruned_iff_witness :
  let ss := [SS_Distances_clear] in
  let PQ := pq_new 6 in
  (relax_child 0 6 FORWARD_TRAVERSAL [example_tile_node] 3 3 (ss, PQ) 0 = Ok (ss, PQ)
   <-> 1 + Z.max (3 + 3 - 1 - 0) 0 > 6)
  /\ (1 + Z.max (3 + 3 - 1 - 0) 0 <= 6 ->
      relax_child 0 6 FORWARD_TRAVERSAL [example_tile_node] 3 3 (ss, PQ) 0
      = Ok ([set_visited_from_source true (set_source_distance 1 SS_Distances_clear)],
            mk_PQ 6 [(0%nat, 1)])).
Proof.
  exact (forward_child_pruned_iff [example_tile_node] [SS_Distances_clear] (pq_new 6)
           0 example_tile_node SS_Distances_clear 0 6 3 3
           eq_refl eq_refl eq_refl ltac:(simpl; lia) ltac:(simpl; lia)
           (or_introl eq_refl) eq_refl).
Defined.

(** C1, as stated, fails: for a node on tile (0,0) that overlaps neither
    the row nor the column of the destination (3,3), the stated bound is
    [0 + max(3 + 3 - 0, 0) = 6 > 5], yet the code keeps the node, because
    it subtracts 1 in every case. *)
Lemma forward_prune_as_stated_counterexample :
  let node := mk_RR_Node CHANX 0 0 0 0 0 0 [] [] in
  ~ (node_has_chance_to_reach_destination 0 3 3 0 5 [node] = Ok false
     <-> spec_pruned node 3 3 0 5 = true).
Proof.
  simpl. intros [_ H]. specialize (H eq_refl). discriminate H.
Qed.

(** ** The distance pass terminates *)

Lemma unvisited_insert (dir : e_traversal_dir) (ss : list SS_Distances) (i : nat)
    (s s' : SS_Distances) :
  ss !! i = Some s ->
  (unvisited dir (<[i := s']> ss) + (if visited_in dir s then 0 else 1)
   = unvisited dir ss + (if visited_in dir s' then 0 else 1))%nat.
Proof.
  unfold unvisited. revert i. induction ss as [|x ss IH]; intros i Hi.
  - discriminate Hi.
  - destruct i as [|i]; simpl in Hi.
    + injection Hi as ->. simpl. rewrite !filter_cons.
      destruct (visited_in dir s), (visited_in dir s'); simpl;
        repeat case_decide; simpl; try congruence; lia.
    + simpl. rewrite !filter_cons. specialize (IH i Hi).
      case_decide; simpl; lia.
Qed.

Lemma unvisited_le_length (dir : e_traversal_dir) (ss : list SS_Distances) :
  (unvisited dir ss <= length ss)%nat.
Proof. unfold unvisited. apply length_filter. Qed.

Lemma pq_insert_length (item : nat) (w : Z) (es : list (nat * Z)) :
  length (pq_insert item w es) = S (length es).
Proof.
  induction es as [|[i w'] es IH]; simpl; [reflexivity|].
  destruct (w <? w'); simpl; congruence.
Qed.

Lemma pq_push_size (item : nat) (w : Z) (PQ PQ' : My_Bounded_Priority_Queue) :
  pq_push item w PQ = Ok PQ' -> pq_size PQ' = S (pq_size PQ).
Proof.
  unfold pq_push, pq_size. destruct (w >? pq_max_weight PQ); [discriminate|].
  intros H. injection H as <-. simpl. apply pq_insert_length.
Qed.

Lemma pq_take_size (PQ PQ1 : My_Bounded_Priority_Queue) (i : nat) (w : Z) :
  pq_take PQ = Ok (i, w, PQ1) -> pq_size PQ = S (pq_size PQ1).
Proof.
  unfold pq_take, pq_size. destruct (pq_entries PQ) as [|[i' w'] rest]; [discriminate|].
  intros H. injection H as <- <- <-. reflexivity.
Qed.

(** Queue entries and unmarked nodes together: relaxing a child keeps
    their number. *)
Lemma relax_child_measure (base W : Z) (dir : e_traversal_dir) (rr_node : list RR_Node)
    (destx desty : Z) (ss ss' : list SS_Distances) (PQ PQ' : My_Bounded_Priority_Queue)
    (child : nat) :
  relax_child base W dir rr_node destx desty (ss, PQ) child = Ok (ss', PQ') ->
  (pq_size PQ' + unvisited dir ss' = pq_size PQ + unvisited dir ss)%nat
  /\ length ss' = length ss.
Proof.
  unfold relax_child. intros H.
  apply bind_Ok in H as (s & Hs & H). apply at_index_Ok in Hs.
  destruct (visited_in dir s) eqn:Hv.
  { injection H as <- <-. auto. }
  apply bind_Ok in H as (node & Hn & H).
  destruct dir.
  - apply bind_Ok in H as (chance & Hc & H).
    destruct chance; simpl in H.
    + apply bind_Ok in H as (PQ1 & Hpush & H). injection H as <- <-.
      apply pq_push_size in Hpush.
      pose proof (unvisited_insert FORWARD_TRAVERSAL ss child s
                    (set_visited_from_source true
                       (set_source_distance (base + weight node) s)) Hs) as Hu.
      rewrite Hv in Hu. simpl in Hu. rewrite length_insert. lia.
    + injection H as <- <-. auto.
  - match type of H with
    | (if negb ?b then _ else _) = _ => destruct b
    end; simpl in H.
    + apply bind_Ok in H as (PQ1 & Hpush & H). injection H as <- <-.
      apply pq_push_size in Hpush.
      pose proof (unvisited_insert BACKWARD_TRAVERSAL ss child s
                    (set_visited_from_sink true
                       (set_sink_distance (base + weight node) s)) Hs) as Hu.
      rewrite Hv in Hu. simpl in Hu. rewrite length_insert. lia.
    + injection H as <- <-.
      pose proof (unvisited_insert BACKWARD_TRAVERSAL ss child s
                    (set_visited_from_sink false
                       (set_sink_distance UNDEFINED
                          (set_visited_from_sink true
                             (set_sink_distance (base + weight node) s)))) Hs) as Hu.
      rewrite Hv in Hu. simpl in Hu. rewrite length_insert. lia.
Qed.

Lemma relax_children_measure (base W : Z) (dir : e_traversal_dir) (rr_node : list RR_Node)
    (destx desty : Z) (edge_list : list nat) (ss ss' : list SS_Distances)
    (PQ PQ' : My_Bounded_Priority_Queue) :
  relax_children base W dir rr_node destx desty edge_list (ss, PQ) = Ok (ss', PQ') ->
  (pq_size PQ' + unvisited dir ss' = pq_size PQ + unvisited dir ss)%nat
  /\ length ss' = length ss.
Proof.
  revert ss PQ. induction edge_list as [|child rest IH]; intros ss PQ H; simpl in H.
  - injection H as <- <-. auto.
  - apply bind_Ok in H as ([ss1 PQ1] & H1 & H).
    apply relax_child_measure in H1 as [H1 L1].
    apply IH in H as [H L]. split; lia.
Qed.

Lemma put_children_measure (edge_list : list nat) (base : Z) (ss ss' : list SS_Distances)
    (W : Z) (dir : e_traversal_dir) (rr_node : list RR_Node) (to : nat)
    (PQ PQ' : My_Bounded_Priority_Queue) :
  put_children_on_pq_and_set_ss_distance edge_list base ss W dir rr_node to PQ
  = Ok (ss', PQ') ->
  (pq_size PQ' + unvisited dir ss' = pq_size PQ + unvisited dir ss)%nat
  /\ length ss' = length ss.
Proof.
  unfold put_children_on_pq_and_set_ss_distance. intros H.
  apply bind_Ok in H as (to_node & _ & H).
  destruct (negb (xlow to_node =? xhigh to_node) || negb (ylow to_node =? yhigh to_node));
    [discriminate|].
  eapply relax_children_measure; exact H.
Qed.

Lemma bind_Throw {A B} (r : result A) (f : A -> result B) (e : wotan_exception) :
  r ≫= f = Throw e -> r = Throw e \/ exists a, r = Ok a /\ f a = Throw e.
Proof. destruct r as [a|e']; simpl; [eauto | left; congruence]. Qed.

Lemma at_index_fuel {A} (v : list A) (i : nat) : at_index v i <> Throw Ex_out_of_fuel.
Proof. unfold at_index. destruct (v !! i); discriminate. Qed.

Lemma pq_push_fuel (item : nat) (w : Z) (PQ : My_Bounded_Priority_Queue) :
  pq_push item w PQ <> Throw Ex_out_of_fuel.
Proof. unfold pq_push. destruct (w >? pq_max_weight PQ); discriminate. Qed.

Lemma pq_take_fuel (PQ : My_Bounded_Priority_Queue) : pq_take PQ <> Throw Ex_out_of_fuel.
Proof. unfold pq_take. destruct (pq_entries PQ) as [|[i w] rest]; discriminate. Qed.

Lemma node_has_chance_fuel (node_ind : nat) (destx desty pw W : Z) (rr_node : list RR_Node) :
  node_has_chance_to_reach_destination node_ind destx desty pw W rr_node
  <> Throw Ex_out_of_fuel.
Proof.
  unfold node_has_chance_to_reach_destination. intros H.
  apply bind_Throw in H as [H|(node & _ & H)]; [exact (at_index_fuel _ _ H)|].
  apply bind_Throw in H as [H|([x y] & _ & H)]; [|discriminate H].
  revert H.
  repeat match goal with |- context [if ?b then _ else _] => destruct b end; discriminate.
Qed.

Lemma relax_child_fuel (base W : Z) (dir : e_traversal_dir) (rr_node : list RR_Node)
    (destx desty : Z) (st : list SS_Distances * My_Bounded_Priority_Queue) (child : nat) :
  relax_child base W dir rr_node destx desty st child <> Throw Ex_out_of_fuel.
Proof.
  destruct st as [ss PQ]. unfold relax_child. intros H.
  apply bind_Throw in H as [H|(s & _ & H)]; [exact (at_index_fuel _ _ H)|].
  destruct (visited_in dir s); [discriminate|].
  apply bind_Throw in H as [H|(node & _ & H)]; [exact (at_index_fuel _ _ H)|].
  destruct dir.
  - apply bind_Throw in H as [H|(chance & _ & H)]; [exact (node_has_chance_fuel _ _ _ _ _ _ H)|].
    destruct (negb chance); [discriminate|].
    apply bind_Throw in H as [H|(PQ1 & _ & H)]; [exact (pq_push_fuel _ _ _ H)|discriminate].
  - match type of H with
    | (if negb ?b then _ else _) = _ => destruct b
    end; simpl in H; [|discriminate].
    apply bind_Throw in H as [H|(PQ1 & _ & H)]; [exact (pq_push_fuel _ _ _ H)|discriminate].
Qed.

Lemma relax_children_fuel (base W : Z) (dir : e_traversal_dir) (rr_node : list RR_Node)
    (destx desty : Z) (edge_list : list nat)
    (st : list SS_Distances * My_Bounded_Priority_Queue) :
  relax_children base W dir rr_node destx desty edge_list st <> Throw Ex_out_of_fuel.
Proof.
  revert st. induction edge_list as [|child rest IH]; intros st H; simpl in H.
  - discriminate.
  - apply bind_Throw in H as [H|(st' & _ & H)].
    + exact (relax_child_fuel _ _ _ _ _ _ _ _ H).
    + exact (IH _ H).
Qed.

Lemma put_children_fuel (edge_list : list nat) (base : Z) (ss : list SS_Distances)
    (W : Z) (dir : e_traversal_dir) (rr_node : list RR_Node) (to : nat)
    (PQ : My_Bounded_Priority_Queue) :
  put_children_on_pq_and_set_ss_distance edge_list base ss W dir rr_node to PQ
  <> Throw Ex_out_of_fuel.
Proof.
  unfold put_children_on_pq_and_set_ss_distance. intros H.
  apply bind_Throw in H as [H|(to_node & _ & H)]; [exact (at_index_fuel _ _ H)|].
  destruct (negb (xlow to_node =? xhigh to_node) || negb (ylow to_node =? yhigh to_node));
    [discriminate|].
  exact (relax_children_fuel _ _ _ _ _ _ _ _ H).
Qed.

(** With more passes allowed than there are queue entries and unmarked
    nodes, the loop ends by itself. *)
Lemma distance_loop_terminates (fuel : nat) (to : nat) (rr_node : list RR_Node) (W : Z)
    (dir : e_traversal_dir) (ss : list SS_Distances) (PQ : My_Bounded_Priority_Queue)
    (nv : list nat) :
  (pq_size PQ + unvisited dir ss < fuel)%nat ->
  distance_loop fuel to rr_node W dir ss PQ nv <> Throw Ex_out_of_fuel.
Proof.
  revert ss PQ nv. induction fuel as [|fuel IH]; intros ss PQ nv Hm; [lia|].
  simpl. case_decide as Hsize; [discriminate|]. intros H.
  apply bind_Throw in H as [H|([[i w] PQ1] & Htake & H)]; [exact (pq_take_fuel _ H)|].
  apply pq_take_size in Htake.
  apply bind_Throw in H as [H|(node & _ & H)]; [exact (at_index_fuel _ _ H)|].
  apply bind_Throw in H as [H|([ss' PQ'] & Hput & H)];
    [exact (put_children_fuel _ _ _ _ _ _ _ _ H)|].
  apply put_children_measure in Hput as [Hput _].
  revert H. apply IH. lia.
Qed.

(** [set_node_distances] always comes to an end. *)
Lemma set_node_distances_terminates (from to : nat) (rr_node : list RR_Node)
    (ss : list SS_Distances) (W : Z) (dir : e_traversal_dir) (nv : list nat) :
  set_node_distances from to rr_node ss W dir nv <> Throw Ex_out_of_fuel.
Proof.
  unfold set_node_distances. intros H.
  apply bind_Throw in H as [H|(PQ & Hpush & H)]; [exact (pq_push_fuel _ _ _ H)|].
  apply bind_Throw in H as [H|(s & _ & H)]; [exact (at_index_fuel _ _ H)|].
  revert H. apply distance_loop_terminates.
  apply pq_push_size in Hpush. change (pq_size (pq_new W)) with 0%nat in Hpush.
  pose proof (unvisited_le_length dir
                (<[from := match dir with
                           | FORWARD_TRAVERSAL =>
                               set_visited_from_source true (set_source_distance 0 s)
                           | BACKWARD_TRAVERSAL =>
                               set_visited_from_sink true (set_sink_distance 0 s)
                           end]> ss)) as Hu.
  rewrite length_insert in Hu. lia.
Qed.

(** The two passes and the adjustment always come to an end. *)
Lemma get_ss_distances_terminates (source sink : nat) (rr_node : list RR_Node)
    (ss : list SS_Distances) (W : Z) (nv : list nat) :
  get_ss_distances_and_adjust_max_path_weight source sink rr_node ss W nv
  <> Throw Ex_out_of_fuel.
Proof.
  unfold get_ss_distances_and_adjust_max_path_weight. intros H.
  apply bind_Throw in H as [H|([ss1 nv1] & _ & H)];
    [exact (set_node_distances_terminates _ _ _ _ _ _ _ H)|].
  apply bind_Throw in H as [H|([ss2 nv2] & _ & H)];
    [exact (set_node_distances_terminates _ _ _ _ _ _ _ H)|].
  apply bind_Throw in H as [H|(sink_s & _ & H)]; [exact (at_index_fuel _ _ H)|].
  apply bind_Throw in H as [H|(source_s & _ & H)]; [exact (at_index_fuel _ _ H)|].
  destruct (negb (source_distance sink_s =? sink_distance source_s)); discriminate.
Qed.

(** ** The hops pass terminates *)

Lemma hop_child_fuel (node_hops W : Z) (dir : e_traversal_dir) (rr_node : list RR_Node)
    (st : list SS_Distances * list nat) (child : nat) :
  hop_child node_hops W dir rr_node st child <> Throw Ex_out_of_fuel.
Proof.
  destruct st as [ss Q]. unfold hop_child. intros H.
  apply bind_Throw in H as [H|(node & _ & H)]; [exact (at_index_fuel _ _ H)|].
  apply bind_Throw in H as [H|(s & _ & H)]; [exact (at_index_fuel _ _ H)|].
  destruct (negb (is_legal s (weight node) W)); [discriminate|].
  destruct (visited_hops_in dir s); discriminate.
Qed.

Lemma hop_children_fuel (node_hops W : Z) (dir : e_traversal_dir) (rr_node : list RR_Node)
    (edge_list : list nat) (st : list SS_Distances * list nat) :
  hop_children node_hops W dir rr_node edge_list st <> Throw Ex_out_of_fuel.
Proof.
  revert st. induction edge_list as [|child rest IH]; intros st H; simpl in H.
  - discriminate.
  - apply bind_Throw in H as [H|(st' & _ & H)].
    + exact (hop_child_fuel _ _ _ _ _ _ H).
    + exact (IH _ H).
Qed.

Lemma unvisited_hops_insert (dir : e_traversal_dir) (ss : list SS_Distances) (i : nat)
    (s s' : SS_Distances) :
  ss !! i = Some s ->
  (unvisited_hops dir (<[i := s']> ss) + (if visited_hops_in dir s then 0 else 1)
   = unvisited_hops dir ss + (if visited_hops_in dir s' then 0 else 1))%nat.
Proof.
  intros Hs. unfold unvisited_hops.
  pose proof (filter_length_insert (fun s => visited_hops_in dir s = false) ss i s s' Hs)
    as H.
  simpl in H.
  destruct (visited_hops_in dir s) eqn:E, (visited_hops_in dir s') eqn:E';
    repeat case_decide; try congruence; lia.
Qed.

(** Queue entries and nodes without a hops mark together: a child keeps
    their number. *)
Lemma hop_child_measure (node_hops W : Z) (dir : e_traversal_dir) (rr_node : list RR_Node)
    (ss ss' : list SS_Distances) (Q Q' : list nat) (child : nat) :
  hop_child node_hops W dir rr_node (ss, Q) child = Ok (ss', Q') ->
  (length Q' + unvisited_hops dir ss' = length Q + unvisited_hops dir ss)%nat
  /\ length ss' = length ss.
Proof.
  unfold hop_child. intros H.
  apply bind_Ok in H as (node & _ & H).
  apply bind_Ok in H as (s & Hs & H). apply at_index_Ok in Hs.
  destruct (negb (is_legal s (weight node) W)); [injection H as <- <-; auto|].
  destruct (visited_hops_in dir s) eqn:Hv; [injection H as <- <-; auto|].
  injection H as <- <-. rewrite length_app, length_insert. simpl.
  match goal with
  | |- context [<[child := ?x]> ss] => pose proof (unvisited_hops_insert dir ss child s x Hs) as Hu
  end.
  rewrite Hv in Hu. destruct dir; simpl in Hu; lia.
Qed.

Lemma hop_children_measure (node_hops W : Z) (dir : e_traversal_dir)
    (rr_node : list RR_Node) (edge_list : list nat) (ss ss' : list SS_Distances)
    (Q Q' : list nat) :
  hop_children node_hops W dir rr_node edge_list (ss, Q) = Ok (ss', Q') ->
  (length Q' + unvisited_hops dir ss' = length Q + unvisited_hops dir ss)%nat
  /\ length ss' = length ss.
Proof.
  revert ss Q. induction edge_list as [|child rest IH]; intros ss Q H; simpl in H.
  - injection H as <- <-. auto.
  - apply bind_Ok in H as ([ss1 Q1] & H1 & H).
    apply hop_child_measure in H1 as [H1 L1].
    apply IH in H as [H L]. split; lia.
Qed.

Lemma hops_loop_terminates (fuel : nat) (rr_node : list RR_Node) (W : Z)
    (dir : e_traversal_dir) (ss : list SS_Distances) (Q : list nat) :
  (length Q + unvisited_hops dir ss < fuel)%nat ->
  hops_loop fuel rr_node W dir ss Q <> Throw Ex_out_of_fuel.
Proof.
  revert ss Q. induction fuel as [|fuel IH]; intros ss Q Hm; [lia|].
  simpl. destruct Q as [|node_ind Q1]; [discriminate|]. intros H.
  apply bind_Throw in H as [H|(node & _ & H)]; [exact (at_index_fuel _ _ H)|].
  apply bind_Throw in H as [H|(s & Hs & H)]; [exact (at_index_fuel _ _ H)|].
  apply at_index_Ok in Hs.
  apply bind_Throw in H as [H|([ss' Q'] & Hch & H)];
    [exact (hop_children_fuel _ _ _ _ _ _ H)|].
  apply hop_children_measure in Hch as [Hch _].
  match type of Hch with
  | context [<[node_ind := ?x]> ss] =>
      pose proof (unvisited_hops_insert dir ss node_ind s x Hs) as Hu
  end.
  revert H. apply IH. simpl in Hm.
  destruct dir; simpl in Hu.
  - destruct (visited_from_source_hops s); simpl in Hu; lia.
  - destruct (visited_from_sink_hops s); simpl in Hu; lia.
Qed.

(** [set_node_hops] always comes to an end. *)
Lemma set_node_hops_terminates (from to : nat) (rr_node : list RR_Node)
    (ss : list SS_Distances) (W : Z) (dir : e_traversal_dir) :
  set_node_hops from to rr_node ss W dir <> Throw Ex_out_of_fuel.
Proof.
  unfold set_node_hops. intros H.
  apply bind_Throw in H as [H|(s & _ & H)]; [exact (at_index_fuel _ _ H)|].
  revert H. apply hops_loop_terminates.
  match goal with
  | |- context [unvisited_hops dir ?l] => pose proof (length_filter
      (fun s => visited_hops_in dir s = false) l) as Hu; fold (unvisited_hops dir l) in Hu
  end.
  rewrite length_insert in Hu. simpl. lia.
Qed.

(** ** C2: the adjusted maximum path weight *)

(** C2.  After the two distance passes, when the distance of the sink
    from the source (forward pass) differs from the distance of the
    source from the sink (backward pass), the analysis fails with the
    mismatch exception; otherwise the adjusted maximum path weight is
    exactly [min(max_path_weight, ceil(min_dist * 1.3))] and the distance
    returned is that common distance.  (The passes themselves always
    terminate: [get_ss_distances_terminates].) *)
Theorem adjusted_max_path_weight (source sink : nat) (rr_node : list RR_Node)
    (ss ss1 ss2 : list SS_Distances) (W : Z) (nv nv1 nv2 : list nat)
    (sink_s source_s : SS_Distances) :
  set_node_distances source sink rr_node ss W FORWARD_TRAVERSAL nv = Ok (ss1, nv1) ->
  set_node_distances sink source rr_node ss1 W BACKWARD_TRAVERSAL nv1 = Ok (ss2, nv2) ->
  ss2 !! sink = Some sink_s ->
  ss2 !! source = Some source_s ->
  in_int_range (source_distance sink_s) ->
  let min_dist_sink := source_distance sink_s in
  let min_dist_source := sink_distance source_s in
  (min_dist_sink <> min_dist_source ->
   get_ss_distances_and_adjust_max_path_weight source sink rr_node ss W nv
   = Throw (Ex_distance_mismatch min_dist_source min_dist_sink))
  /\ (min_dist_sink = min_dist_source ->
      get_ss_distances_and_adjust_max_path_weight source sink rr_node ss W nv
      = Ok (ss2, nv2, Z.min W (ceil_div (13 * min_dist_sink) 10), min_dist_sink)).
Proof.
  intros Hf Hb Hsink Hsource Hrange min_dist_sink min_dist_source.
  subst min_dist_sink min_dist_source.
  unfold get_ss_distances_and_adjust_max_path_weight.
  rewrite Hf. simpl. rewrite Hb. simpl.
  rewrite (at_index_lookup _ _ _ Hsink), (at_index_lookup _ _ _ Hsource). simpl.
  split; intros Hd.
  - apply Z.eqb_neq in Hd. rewrite Hd. reflexivity.
  - apply Z.eqb_eq in Hd. rewrite Hd. simpl.
    rewrite (ceil_mul_1_3_exact _ Hrange). unfold spec_flexible_weight.
    rewrite Z.min_comm. reflexivity.
Qed.

(** On [example_path_graph] with a bound of 3 both passes find distance 1
    and the bound becomes [min(3, ceil(1.3)) = 2]. *)
Lemma adjusted_max_path_weight_witness :
  get_ss_distances_and_adjust_max_path_weight 0 2 example_path_graph
    (example_clear_distances 3) 3 []
  = Ok (fst example_path_both, snd example_path_both, Z.min 3 (ceil_div (13 * 1) 10), 1).
Proof.
  refine (proj2 (adjusted_max_path_weight 0 2 example_path_graph
                   (example_clear_distances 3) (fst example_path_forward)
                   (fst example_path_both) 3 [] (snd example_path_forward)
                   (snd example_path_both)
                   (mk_SS_Distances 1 0 (-1) (-1) true true false false)
                   (mk_SS_Distances 0 1 (-1) (-1) true true false false)
                   _ _ _ _ _) _).
  - vm_compute. reflexivity.
  - vm_compute. reflexivity.
  - vm_compute. reflexivity.
  - vm_compute. reflexivity.
  - unfold in_int_range. simpl. lia.
  - reflexivity.
Defined.

(** ** C5: the estimate lies in the unit interval, or is a NaN *)

Lemma less_true (a b : Q) : less a b = true <-> (a < b)%Q.
Proof.
  unfold less. rewrite negb_true_iff. split.
  - intros H. apply Qnot_le_lt. intros Hle. apply Qle_bool_iff in Hle. congruence.
  - intros H. destruct (Qle_bool b a) eqn:E; [|reflexivity].
    apply Qle_bool_iff in E. exfalso. exact (Qlt_not_le _ _ H E).
Qed.

Lemma less_false (a b : Q) : less a b = false <-> (b <= a)%Q.
Proof.
  unfold less. rewrite negb_false_iff. apply Qle_bool_iff.
Qed.

(** The comparison of [float]s from the other side. *)
Lemma Binary32_compare_antisym (x y : spec_float) :
  Binary32.compare y x = option_map CompOpp (Binary32.compare x y).
Proof.
  destruct x as [sx|sx| |sx mx ex], y as [sy|sy| |sy my ey]; simpl;
    try reflexivity;
    try (destruct sx; reflexivity); try (destruct sy; reflexivity);
    try (destruct sx, sy; reflexivity);
    rewrite <- Qcompare_antisym; reflexivity.
Qed.

(** What is not below is above or equal, unless a NaN is compared. *)
Lemma Binary32_ltb_false (x y : spec_float) :
  Binary32.ltb x y = false -> x <> S754_nan -> y <> S754_nan -> Binary32.leb y x = true.
Proof.
  unfold Binary32.ltb, Binary32.leb. rewrite (Binary32_compare_antisym x y).
  intros Hlt Hx Hy.
  destruct (Binary32.compare x y) as [[| |]|] eqn:E; simpl; try reflexivity;
    try discriminate Hlt.
  destruct x, y; simpl in E; try discriminate E; congruence.
Qed.

Lemma Binary32_leb_not_nan (x y : spec_float) :
  Binary32.leb x y = true -> x <> S754_nan /\ y <> S754_nan.
Proof.
  unfold Binary32.leb. destruct x, y; simpl; intros H; try discriminate H;
    split; discriminate.
Qed.





Section Connection_Facts.
Context {Demands : Type}.
Variable env : Collaborators Demands.

(** The two tests of the estimate: what passes them is a NaN or lies
    between 0 and 1. *)
Lemma range_tests_passed (p : spec_float) :
  Binary32.ltb Binary32.one p = false -> Binary32.ltb p Binary32.zero = false ->
  p = S754_nan \/ Binary32.in_unit_interval p.
Proof.
  intros H1 H0.
  assert (Hdec : p = S754_nan \/ p <> S754_nan)
    by (destruct p; [right|right|left|right]; congruence).
  destruct Hdec as [Hn|Hn]; [left; exact Hn|]. right.
  split.
  - apply Binary32_ltb_false; [exact H0 | exact Hn | discriminate].
  - apply Binary32_ltb_false; [exact H1 | discriminate | exact Hn].
Qed.

(** Whatever [estimate_connection_probability] returns is a NaN or lies
    between 0 and 1. *)
Lemma estimate_result_in_range (source sink : nat) (arch_structs : Arch_Structs)
    (rr_node : list RR_Node) (conn_length : Z) (w w' : world Demands) (p : spec_float) :
  estimate_connection_probability env source sink arch_structs rr_node conn_length w
  = Ok (p, w') ->
  p = S754_nan \/ Binary32.in_unit_interval p.
Proof.
  unfold estimate_connection_probability. intros H.
  apply bind_Ok in H as ([[[ss nv] W] d] & _ & H).
  apply bind_Ok in H as (ft & _ & H).
  destruct ((W >? 0) && (d >? 0)).
  - apply bind_Ok in H as ([p0 w0] & _ & H).
    destruct (Binary32.ltb Binary32.one p0) eqn:H1; [discriminate H|].
    destruct (Binary32.ltb p0 Binary32.zero) eqn:H0; [discriminate H|].
    injection H as <- <-. apply range_tests_passed; assumption.
  - injection H as <- <-. right. split; reflexivity.
Qed.


(** ** C10: a pair that cannot be connected *)

(** C10.  When the distance pass yields an adjusted maximum path weight
    that is not positive, or a source-sink distance that is not
    positive, [estimate_connection_probability] returns exactly 0,
    throws nothing and runs no probability model, and
    [enumerate_connection_paths] calls no traversal and changes neither
    the demands nor the buckets: only the distance state and the list of
    visited nodes are as the distance pass left them. *)
Theorem unreachable_pair_is_skipped (source sink : nat) (arch_structs : Arch_Structs)
    (rr_node : list RR_Node) (conn_length : Z) (scaling : Q) (w : world Demands) :
  (forall ss nv W d ft,
     get_ss_distances_and_adjust_max_path_weight source sink rr_node
       (w_ss_distances w) (get_max_path_weight env conn_length) (w_nodes_visited w)
     = Ok (ss, nv, W, d) ->
     W <= 0 \/ d <= 0 ->
     get_fill_type arch_structs = Ok ft ->
     estimate_connection_probability env source sink arch_structs rr_node conn_length w
     = Ok (Binary32.zero, mk_world ss (w_node_topo_inf w) nv (w_demands w) (w_calls w)))
  /\ (forall ss1 nv1 ss2 nv2 ss nv W d,
        set_node_distances source sink rr_node (w_ss_distances w)
          (get_max_path_weight env conn_length) FORWARD_TRAVERSAL (w_nodes_visited w)
        = Ok (ss1, nv1) ->
        set_node_distances sink source rr_node ss1
          (get_max_path_weight env conn_length) BACKWARD_TRAVERSAL nv1
        = Ok (ss2, nv2) ->
        get_ss_distances_and_adjust_max_path_weight source sink rr_node ss2
          (get_max_path_weight env conn_length) nv2
        = Ok (ss, nv, W, d) ->
        W <= 0 \/ d <= 0 ->
        enumerate_connection_paths env source sink rr_node conn_length scaling w
        = Ok (mk_world ss (w_node_topo_inf w) nv (w_demands w) (w_calls w))).
Proof.
  assert (Hcond : forall W d, W <= 0 \/ d <= 0 -> (W >? 0) && (d >? 0) = false).
  { intros W d [H|H]; rewrite !Z.gtb_ltb.
    - assert (E : (0 <? W) = false) by (apply Z.ltb_ge; exact H). rewrite E. reflexivity.
    - assert (E : (0 <? d) = false) by (apply Z.ltb_ge; exact H). rewrite E.
      apply andb_false_r. }
  split.
  - intros ss nv W d ft Hd Hle Hft. unfold estimate_connection_probability.
    rewrite Hd. simpl. rewrite Hft. simpl. rewrite (Hcond W d Hle). reflexivity.
  - intros ss1 nv1 ss2 nv2 ss nv W d H1 H2 Hd Hle. unfold enumerate_connection_paths.
    rewrite H1. simpl. rewrite H2. simpl. rewrite Hd. simpl.
    rewrite (Hcond W d Hle). reflexivity.
Qed.

End Connection_Facts.

(** ** C7: the start value of the forward enumeration *)



(** Over the rationals, the quotient in the order of the code is the
    quotient as the specification writes it. *)
Lemma quotient_in_code_order (sinks conns : Z) (probability length_prob num_paths : Q) :
  conns <> 0 -> ~ (num_paths == 0)%Q ->
  (inject_Z sinks * probability * length_prob / inject_Z conns / num_paths
   == length_prob * inject_Z sinks * probability / (inject_Z conns * num_paths))%Q.
Proof.
  intros Hc Hn. field. split; [exact Hn|].
  change 0%Q with (inject_Z 0). rewrite inject_Z_injective. exact Hc.
Qed.



Section Enumeration_Facts.
Context {Demands : Type}.
Variable env : Collaborators Demands.






End Enumeration_Facts.


(** On [example_split_graph] the sink is out of reach: the distance is
    the sentinel, the estimate is 0 and nothing is enumerated, although
    every traversal of the collaborators at hand would fail. *)
Lemma unreachable_pair_is_skipped_witness :
  estimate_connection_probability example_failing_env 0 1 example_simple_arch
    example_split_graph 1 (example_world 2)
  = Ok (Binary32.zero, mk_world (fst example_split_both) (example_clear_topo 2)
               (snd example_split_both) tt [])
  /\ enumerate_connection_paths example_failing_env 0 1 example_split_graph 1 (1 # 8)
       (example_world 2)
     = Ok (mk_world (fst example_split_again) (example_clear_topo 2)
             (snd example_split_again) tt []).
Proof.
  destruct (unreachable_pair_is_skipped example_failing_env 0 1 example_simple_arch
              example_split_graph 1 (1 # 8) (example_world 2)) as [Hest Henum].
  split.
  - apply (Hest (fst example_split_both) (snd example_split_both) (-1) (-1) None).
    + vm_compute. reflexivity.
    + left. lia.
    + reflexivity.
  - apply (Henum (fst example_split_forward) (snd example_split_forward)
             (fst example_split_both) (snd example_split_both)
             (fst example_split_again) (snd example_split_again) (-1) (-1)).
    + vm_compute. reflexivity.
    + vm_compute. reflexivity.
    + vm_compute. reflexivity.
    + left. lia.
Defined.

(** The range check at work: a model that answers 1/2 is passed on, one
    that answers 2 is fatal. *)
Example estimate_passes_one_half :
  match estimate_connection_probability (example_env example_half) 0 2
          example_simple_arch example_path_graph 1 (example_world 3) with
  | Ok (p, _) => p = example_half
  | Throw _ => False
  end.
Proof. vm_compute. reflexivity. Qed.

Example estimate_refuses_two :
  estimate_connection_probability (example_env example_two) 0 2 example_simple_arch
    example_path_graph 1 (example_world 3)
  = Throw Ex_probability_above_one.
Proof. vm_compute. reflexivity. Qed.


(** A NaN that [estimate_connection_probability] has let through is
    fatal one call later. *)
Example analyze_connection_refuses_nan :
  analyze_connection (example_env S754_nan) 0 2 example_settings example_arch
    example_path_graph 1 4 PROBABILITY example_results (example_world 3)
  = Throw Ex_negative_connection_probability.
Proof. vm_compute. reflexivity. Qed.

(** ** C3: the core region *)

Lemma elem_of_list_insert_inv {A} (l : list A) (i : nat) (x y : A) :
  x ∈ <[i := y]> l -> x = y \/ x ∈ l.
Proof.
  intros H. apply list_elem_of_lookup in H as [j Hj].
  apply list_lookup_insert_Some in Hj as [(-> & -> & _)|[_ Hj]].
  - left. reflexivity.
  - right. eapply list_elem_of_lookup_2. exact Hj.
Qed.

Section Workload_Facts.
Variable rr_node_index : e_rr_type -> Z -> Z -> nat -> nat.
Variable arch_structs : Arch_Structs.
Variable num_threads : nat.

Lemma all_coords_add (P : Coordinate -> Prop) (wl : list Conn_Info) (i idx : nat)
    (tile : Coordinate) (c : Conn_Info) :
  P tile -> all_coords P wl -> wl !! i = Some c ->
  all_coords P (<[i := Conn_Info_add idx tile c]> wl).
Proof.
  intros Ht Hall Hc c' Hin x Hx.
  apply elem_of_list_insert_inv in Hin as [->|Hin].
  - simpl in Hx. apply elem_of_app in Hx as [Hx|Hx].
    + eapply Hall; [eapply list_elem_of_lookup_2; exact Hc | exact Hx].
    + apply list_elem_of_singleton in Hx as ->. exact Ht.
  - eapply Hall; eassumption.
Qed.

Lemma add_ipins_coords (P : Coordinate -> Prop) (tile : Coordinate) (pins : list nat)
    (st st' : workload_state) :
  P tile -> all_coords P (thread_conn_info st) ->
  add_ipins rr_node_index num_threads tile pins st = Ok st' ->
  all_coords P (thread_conn_info st').
Proof.
  intros Ht. revert st. induction pins as [|pin rest IH]; intros st Hall H; simpl in H.
  - injection H as <-. exact Hall.
  - apply bind_Ok in H as (c & Hc & H). apply at_index_Ok in Hc.
    eapply IH; [|exact H]. simpl. apply all_coords_add; assumption.
Qed.

Lemma add_classes_coords (P : Coordinate -> Prop) (tile : Coordinate) (iclass : nat)
    (classes : list Pin_Class) (st st' : workload_state) :
  P tile -> all_coords P (thread_conn_info st) ->
  add_classes rr_node_index num_threads tile iclass classes st = Ok st' ->
  all_coords P (thread_conn_info st').
Proof.
  intros Ht. revert iclass st.
  induction classes as [|pc rest IH]; intros iclass st Hall H; simpl in H.
  - injection H as <-. exact Hall.
  - apply bind_Ok in H as (st1 & H1 & H). eapply IH; [|exact H].
    destruct (pin_type pc).
    + apply bind_Ok in H1 as (c & Hc & H1). apply at_index_Ok in Hc.
      injection H1 as <-. simpl. apply all_coords_add; assumption.
    + eapply add_ipins_coords; eassumption.
    + discriminate H1.
Qed.

Lemma add_test_tiles_coords (analyze_core : bool) (mode : e_topological_mode)
    (P : Coordinate -> Prop) (tiles : list Coordinate) (st st' : workload_state) :
  (forall c, c ∈ tiles -> skips_tile arch_structs analyze_core mode c = false -> P c) ->
  all_coords P (thread_conn_info st) ->
  add_test_tiles rr_node_index arch_structs analyze_core num_threads mode tiles st = Ok st' ->
  all_coords P (thread_conn_info st').
Proof.
  revert st. induction tiles as [|tile rest IH]; intros st HP Hall H; simpl in H.
  - injection H as <-. exact Hall.
  - apply bind_Ok in H as (st1 & H1 & H).
    eapply IH; [| |exact H].
    + intros c Hc. apply HP. apply elem_of_cons. right. exact Hc.
    + unfold add_test_tile in H1.
      destruct (skips_tile arch_structs analyze_core mode tile) eqn:Hskip.
      * injection H1 as <-. exact Hall.
      * apply bind_Ok in H1 as (tt & _ & H1). apply bind_Ok in H1 as (ty & _ & H1).
        eapply add_classes_coords; [|exact Hall|exact H1].
        apply HP; [apply elem_of_cons; left; reflexivity | exact Hskip].
Qed.

(** Skipped tiles do not show: the loop over the test tiles is the loop
    over the tiles that are not skipped. *)
Lemma add_test_tiles_filter (analyze_core : bool) (mode : e_topological_mode)
    (tiles : list Coordinate) (st : workload_state) :
  add_test_tiles rr_node_index arch_structs analyze_core num_threads mode tiles st
  = add_test_tiles rr_node_index arch_structs analyze_core num_threads mode
      (filter (fun c => skips_tile arch_structs analyze_core mode c = false) tiles) st.
Proof.
  revert st. induction tiles as [|tile rest IH]; intros st; [reflexivity|].
  rewrite filter_cons. simpl.
  destruct (skips_tile arch_structs analyze_core mode tile) eqn:Hskip.
  - case_decide as Hd; [congruence|]. unfold add_test_tile at 1. rewrite Hskip. simpl.
    apply IH.
  - case_decide as Hd; [|congruence]. simpl.
    destruct (add_test_tile rr_node_index arch_structs analyze_core num_threads mode st
                tile) as [st1|e]; simpl; [apply IH | reflexivity].
Qed.

Lemma outside_core_false (c : Coordinate) :
  outside_core arch_structs c = false <->
  CORE_OFFSET <= coord_x c <= grid_size_x arch_structs - 1 - CORE_OFFSET
  /\ CORE_OFFSET <= coord_y c <= grid_size_y arch_structs - 1 - CORE_OFFSET.
Proof.
  unfold outside_core. rewrite !orb_false_iff, !Z.gtb_ltb, !Z.ltb_ge. lia.
Qed.

(** C3 (amended).  With [analyze_core] set, the workload of the
    PROBABILITY phase is built from the test tiles of the core region
    only: a tile within [CORE_OFFSET = 3] of the perimeter is passed over
    without an error and without a trace, so that on a 12 x 12 grid only
    tiles with [x] and [y] in [3..8] contribute connections.  The
    workload of the ENUMERATE phase does not depend on [analyze_core]:
    there, no tile is filtered. *)
Theorem core_region_filter (test_tile_coords : list Coordinate) :
  let in_core c := outside_core arch_structs c = false in
  build_workload rr_node_index arch_structs true num_threads PROBABILITY test_tile_coords
  = build_workload rr_node_index arch_structs true num_threads PROBABILITY
      (filter in_core test_tile_coords)
  /\ (forall wl c,
        build_workload rr_node_index arch_structs true num_threads PROBABILITY
          test_tile_coords = Ok wl ->
        tile_contributes c wl ->
        c ∈ test_tile_coords
        /\ CORE_OFFSET <= coord_x c <= grid_size_x arch_structs - 1 - CORE_OFFSET
        /\ CORE_OFFSET <= coord_y c <= grid_size_y arch_structs - 1 - CORE_OFFSET
        /\ (grid_size_x arch_structs = 12 -> grid_size_y arch_structs = 12 ->
            in_core_12 c))
  /\ build_workload rr_node_index arch_structs true num_threads ENUMERATE test_tile_coords
     = build_workload rr_node_index arch_structs false num_threads ENUMERATE
         test_tile_coords.
Proof.
  intros in_core. split; [|split].
  - unfold build_workload. rewrite add_test_tiles_filter.
    replace (filter (fun c => skips_tile arch_structs true PROBABILITY c = false)
               test_tile_coords)
      with (filter in_core test_tile_coords); [reflexivity|].
    apply list_filter_iff. intros c. unfold in_core. simpl. reflexivity.
  - intros wl c Hb (ci & Hci & Hc). unfold build_workload in Hb.
    apply bind_Ok in Hb as (st & Hst & Hb). injection Hb as <-.
    pose proof (add_test_tiles_coords true PROBABILITY
                  (fun c => c ∈ test_tile_coords /\ outside_core arch_structs c = false)
                  test_tile_coords
                  (mk_workload_state (replicate num_threads (mk_Conn_Info [] [])) 0 0)
                  st) as Hall.
    specialize (Hall ltac:(intros c0 Hin Hs; split; [exact Hin | exact Hs])).
    specialize (Hall ltac:(intros c0 Hin x Hx; simpl in Hin;
                           apply elem_of_replicate in Hin as [-> _];
                           apply elem_of_nil in Hx; contradiction)).
    specialize (Hall Hst ci Hci c Hc) as [Hin Hcore].
    apply outside_core_false in Hcore as [Hx Hy].
    split; [exact Hin|]. split; [exact Hx|]. split; [exact Hy|].
    intros Hgx Hgy. unfold in_core_12. rewrite Hgx in Hx. rewrite Hgy in Hy.
    unfold CORE_OFFSET in *. lia.
  - reflexivity.
Qed.

End Workload_Facts.

(** On the 12 x 12 grid, of the test tiles (1,1), (5,5) and (9,5) only
    (5,5) is given to the thread in the PROBABILITY phase. *)
Lemma core_region_filter_witness :
  build_workload example_rr_node_index example_grid_arch true 1 PROBABILITY
    [mk_Coordinate 1 1; mk_Coordinate 5 5; mk_Coordinate 9 5]
  = Ok [mk_Conn_Info [130%nat; 131%nat] [mk_Coordinate 5 5; mk_Coordinate 5 5]].
Proof.
  rewrite (proj1 (core_region_filter example_rr_node_index example_grid_arch 1
                    [mk_Coordinate 1 1; mk_Coordinate 5 5; mk_Coordinate 9 5])).
  vm_compute. reflexivity.
Defined.

(** C3, as stated, fails for the first of the two phases: with
    [analyze_core] set, ENUMERATE on a 12 x 12 grid still gives the
    thread the tile (1,1), which lies outside of [3..8] x [3..8]. *)
Lemma core_filter_in_enumerate_counterexample :
  exists wl,
    build_workload example_rr_node_index example_grid_arch true 1 ENUMERATE
      [mk_Coordinate 1 1] = Ok wl
    /\ tile_contributes (mk_Coordinate 1 1) wl
    /\ ~ in_core_12 (mk_Coordinate 1 1).
Proof.
  exists [mk_Conn_Info [26%nat; 27%nat] [mk_Coordinate 1 1; mk_Coordinate 1 1]].
  split; [vm_compute; reflexivity|]. split.
  - eexists. split; [apply list_elem_of_singleton; reflexivity|].
    simpl. apply elem_of_cons. left. reflexivity.
  - unfold in_core_12. simpl. lia.
Qed.

(** ** C6: demand less the connection's own contribution *)

(** The [double] literal 0.00001: the significand and the exponent that
    [Binary32.double_0_00001] gives are those of the literal, which is
    the [double] nearest to 1/100000 (within half a unit in the last
    place, 2^-70). *)
#[warnings="-inexact-float"]
Example double_0_00001_literal :
  PrimFloat.eqb 0.00001 Binary32.kernel_0_00001 = true
  /\ Prim2SF Binary32.kernel_0_00001 = Binary32.double_0_00001
  /\ ((1 # 100000) - 2 ^ (-70) <= Binary32.value Binary32.double_0_00001)%Q
  /\ (Binary32.value Binary32.double_0_00001 <= (1 # 100000) + 2 ^ (-70))%Q.
Proof.
  split; [vm_compute; reflexivity|]. split; [vm_compute; reflexivity|].
  split; vm_compute; discriminate.
Qed.

(** A number that is not a zero has a value that is not 0. *)
Lemma Binary32_value_finite (s : bool) (m : positive) (e : Z) :
  ~ (Binary32.value (S754_finite s m e) == 0)%Q.
Proof.
  simpl. intros H. apply Qmult_integral in H as [H|H].
  - destruct s; discriminate H.
  - revert H. apply Qpower_not_0. discriminate.
Qed.

(** What [Binary32.compare] finds equal to a zero is a zero. *)
Lemma Binary32_compare_zero_Eq (s : bool) (x : spec_float) :
  Binary32.compare (S754_zero s) x = Some Eq -> exists s', x = S754_zero s'.
Proof.
  destruct x as [s'|s'| |s' m e]; simpl; intros H.
  - eauto.
  - destruct s'; discriminate H.
  - discriminate H.
  - injection H as H. apply Qeq_alt in H. symmetry in H.
    destruct (Binary32_value_finite s' m e H).
Qed.

(** Subtracting a zero and flooring at 0: the sign of the zero is of no
    consequence. *)
Lemma Binary32_max_sub_zero (d : spec_float) (s : bool) :
  Binary32.max Binary32.zero (Binary32.sub d (S754_zero s))
  = Binary32.max Binary32.zero d.
Proof.
  destruct d as [sd|sd| |sd md ed]; try reflexivity.
  destruct sd, s; reflexivity.
Qed.

(** [max(0.0F, x)] for an [x] that is not below 0 subtracts as [x]
    does. *)
Lemma Binary32_floor_at_zero (d x : spec_float) :
  Binary32.leb Binary32.zero x = true ->
  Binary32.max Binary32.zero (Binary32.sub d (Binary32.max Binary32.zero x))
  = Binary32.max Binary32.zero (Binary32.sub d x).
Proof.
  unfold Binary32.leb. intros H.
  destruct (Binary32.compare Binary32.zero x) as [[| |]|] eqn:E; try discriminate H.
  - apply Binary32_compare_zero_Eq in E as [s' ->].
    change (Binary32.max Binary32.zero (S754_zero s')) with Binary32.zero.
    unfold Binary32.zero. rewrite !Binary32_max_sub_zero. reflexivity.
  - assert (Hmax : Binary32.max Binary32.zero x = x)
      by (unfold Binary32.max, Binary32.ltb; rewrite E; reflexivity).
    rewrite Hmax. reflexivity.
Qed.

(** [max(0.0F, x)] for an [x] below 0 is 0, and nothing is subtracted. *)
Lemma Binary32_floor_below_zero (d x : spec_float) :
  Binary32.ltb x Binary32.zero = true ->
  Binary32.max Binary32.zero (Binary32.sub d (Binary32.max Binary32.zero x))
  = Binary32.max Binary32.zero d.
Proof.
  unfold Binary32.ltb. intros H.
  assert (Hmax : Binary32.max Binary32.zero x = Binary32.zero).
  { unfold Binary32.max, Binary32.ltb. rewrite (Binary32_compare_antisym x Binary32.zero).
    destruct (Binary32.compare x Binary32.zero) as [[| |]|]; try discriminate H.
    reflexivity. }
  rewrite Hmax. apply Binary32_max_sub_zero.
Qed.

(** C6 (amended).  With a fill type at hand, the demand of a node is
    adjusted by [modifier = max(0, source_contribution,
    sink_contribution)], each contribution being the path-count history
    for that endpoint divided by the number of pins of the endpoint's
    pin class, in binary32: when the modifier exceeds the demand plus
    0.00001 (a comparison made in [double]) the run fails, and otherwise
    the adjusted demand is [max(0, demand - modifier)], the difference
    rounded to binary32.  When the larger contribution is not below 0
    this is [max(0, demand - max(source_contribution,
    sink_contribution))]; when it is below 0 nothing is subtracted. *)
Theorem adjusted_demand_for_path_history (demand history_source history_sink : spec_float)
    (rr_node : list RR_Node) (source_ind sink_ind : nat)
    (fill_type : Physical_Type_Descriptor) (source_node sink_node : RR_Node)
    (source_class sink_class : Pin_Class) :
  rr_node !! source_ind = Some source_node ->
  class_inf fill_type !! ptc_num source_node = Some source_class ->
  rr_node !! sink_ind = Some sink_node ->
  class_inf fill_type !! ptc_num sink_node = Some sink_class ->
  let source_contribution :=
    Binary32.div history_source (Binary32.of_int (get_num_pins source_class)) in
  let sink_contribution :=
    Binary32.div history_sink (Binary32.of_int (get_num_pins sink_class)) in
  let largest := Binary32.max source_contribution sink_contribution in
  let modifier := Binary32.max Binary32.zero largest in
  let exceeds :=
    Binary32.ltb
      (Binary32.double_add (Binary32.to_double demand) Binary32.double_0_00001)
      (Binary32.to_double modifier) in
  let adjusted :=
    get_node_demand_adjusted_for_path_history demand history_source history_sink
      rr_node source_ind sink_ind (Some fill_type) in
  (exceeds = true -> adjusted = Throw Ex_modifier_larger_than_demand)
  /\ (exceeds = false ->
      adjusted = Ok (Binary32.max Binary32.zero (Binary32.sub demand modifier))
      /\ (Binary32.leb Binary32.zero largest = true ->
          Binary32.max Binary32.zero (Binary32.sub demand modifier)
          = spec_adjusted_demand demand source_contribution sink_contribution)
      /\ (Binary32.ltb largest Binary32.zero = true ->
          Binary32.max Binary32.zero (Binary32.sub demand modifier)
          = Binary32.max Binary32.zero demand)).
Proof.
  intros Hsn Hsc Hkn Hkc source_contribution sink_contribution largest modifier exceeds
    adjusted.
  subst adjusted. unfold get_node_demand_adjusted_for_path_history.
  rewrite (at_index_lookup _ _ _ Hsn). simpl. rewrite (at_index_lookup _ _ _ Hsc). simpl.
  rewrite (at_index_lookup _ _ _ Hkn). simpl. rewrite (at_index_lookup _ _ _ Hkc). simpl.
  fold source_contribution sink_contribution. fold largest. fold modifier. fold exceeds.
  split.
  - intros ->. reflexivity.
  - intros ->. split; [reflexivity|]. split.
    + intros Hnn. unfold spec_adjusted_demand. fold largest. unfold modifier.
      apply Binary32_floor_at_zero. exact Hnn.
    + intros Hneg. unfold modifier. apply Binary32_floor_below_zero. exact Hneg.
Qed.

(** A node of demand 1 with a history of 1/2 from the source and 1/4 from
    the sink, both classes having one pin: the adjusted demand is 1/2. *)
Lemma adjusted_demand_for_path_history_witness :
  get_node_demand_adjusted_for_path_history Binary32.one example_half example_quarter
    example_path_graph 0 2 (Some example_block)
  = Ok (Binary32.max Binary32.zero
          (Binary32.sub Binary32.one
             (Binary32.max Binary32.zero
                (Binary32.max (Binary32.div example_half (Binary32.of_int 1))
                   (Binary32.div example_quarter (Binary32.of_int 1)))))).
Proof.
  refine (proj1 (proj2 (adjusted_demand_for_path_history Binary32.one example_half
                          example_quarter example_path_graph 0 2 example_block
                          (mk_RR_Node SOURCE 1 1 1 1 0 0 [1%nat] [])
                          (mk_RR_Node SINK 1 1 1 1 0 1 [] [1%nat])
                          (mk_Pin_Class DRIVER [0%nat]) (mk_Pin_Class RECEIVER [1%nat])
                          eq_refl eq_refl eq_refl eq_refl) _)).
  vm_compute. reflexivity.
Defined.

(** The same node, evaluated: 1/2. *)
Example adjusted_demand_one_half :
  get_node_demand_adjusted_for_path_history Binary32.one example_half example_quarter
    example_path_graph 0 2 (Some example_block)
  = Ok example_half.
Proof. vm_compute. reflexivity. Qed.

(** The test against the tolerance sits at the rounding error.  With a
    demand of 11184643/2^24, a history of 2 and three pins, the
    contribution, 2/3 rounded to binary32, is 11184811/2^24 and above
    the demand plus 0.00001, and the run fails, although 2/3 itself is
    below. *)
Example adjusted_demand_at_the_tolerance :
  get_node_demand_adjusted_for_path_history (S754_finite false 11184643 (-24))
    (Binary32.of_int 2) (Binary32.of_int 2)
    [mk_RR_Node SOURCE 1 1 1 1 0 0 [] []; mk_RR_Node SINK 1 1 1 1 0 0 [] []] 0 1
    (Some (mk_Physical_Type_Descriptor [mk_Pin_Class DRIVER [0%nat; 1%nat; 2%nat]] []))
  = Throw Ex_modifier_larger_than_demand
  /\ Binary32.div (Binary32.of_int 2) (Binary32.of_int 3)
     = S754_finite false 11184811 (-24)
  /\ (Binary32.value (S754_finite false 11184643 (-24)) + (1 # 100000) > 2 # 3)%Q.
Proof. split; [vm_compute; reflexivity|]. split; vm_compute; reflexivity. Qed.

(** The difference is the difference of the rounded numbers: with a
    demand of 0.6f, a history of 2 and five pins, the contribution is
    2/5 rounded to binary32, 13421773/2^25, and the adjusted demand
    6710887/2^25, not the demand less 2/5. *)
Example adjusted_demand_rounded :
  get_node_demand_adjusted_for_path_history (S754_finite false 10066330 (-24))
    (Binary32.of_int 2) (Binary32.of_int 2)
    [mk_RR_Node SOURCE 1 1 1 1 0 0 [] []; mk_RR_Node SINK 1 1 1 1 0 0 [] []] 0 1
    (Some (mk_Physical_Type_Descriptor
             [mk_Pin_Class DRIVER [0%nat; 1%nat; 2%nat; 3%nat; 4%nat]] []))
  = Ok (S754_finite false 13421774 (-26))
  /\ Binary32.div (Binary32.of_int 2) (Binary32.of_int 5)
     = S754_finite false 13421773 (-25)
  /\ (Binary32.value (S754_finite false 13421774 (-26)) == 6710887 # 33554432)%Q
  /\ ~ (Binary32.value (S754_finite false 13421774 (-26))
        == Binary32.value (S754_finite false 10066330 (-24)) - (2 # 5))%Q.
Proof.
  split; [vm_compute; reflexivity|]. split; [vm_compute; reflexivity|].
  split; [vm_compute; reflexivity|]. vm_compute. discriminate.
Qed.

(** C6, as stated, fails when the history yields negative contributions
    (the sentinel for "no history"): with demand 1 and both histories -1
    the code returns 1, where [max(0, demand - max(source_contribution,
    sink_contribution))] is 2. *)
Lemma adjusted_demand_as_stated_counterexample :
  exists adjusted,
    get_node_demand_adjusted_for_path_history Binary32.one (Binary32.of_int (-1))
      (Binary32.of_int (-1)) example_path_graph 0 2 (Some example_block) = Ok adjusted
    /\ adjusted = Binary32.one
    /\ spec_adjusted_demand Binary32.one
         (Binary32.div (Binary32.of_int (-1)) (Binary32.of_int 1))
         (Binary32.div (Binary32.of_int (-1)) (Binary32.of_int 1))
       = example_two
    /\ adjusted <> spec_adjusted_demand Binary32.one
                     (Binary32.div (Binary32.of_int (-1)) (Binary32.of_int 1))
                     (Binary32.div (Binary32.of_int (-1)) (Binary32.of_int 1)).
Proof.
  eexists. split; [vm_compute; reflexivity|].
  split; [reflexivity|]. split; [vm_compute; reflexivity|]. vm_compute. discriminate.
Qed.

(** ** C9: the shared counters *)

Section Counters.
Context {Demands : Type}.
Variable env : Collaborators Demands.

(** What [analyze_connection] does to the two counters: [num_conns] goes
    up by one in ENUMERATE mode, and nothing else changes. *)
Lemma analyze_connection_counters (source sink : nat) (settings : Analysis_Settings)
    (arch : Arch_Structs) (rr_node : list RR_Node) (conn_length conns : Z)
    (mode : e_topological_mode) (r r' : Analysis_Results) (w w' : world Demands) :
  analyze_connection env source sink settings arch rr_node conn_length conns mode r w
  = Ok (r', w') ->
  desired_conns r' = desired_conns r
  /\ num_conns r' = num_conns r + num_conns_increment mode.
Proof.
  unfold analyze_connection. intros H.
  apply bind_Ok in H as (length_prob & _ & H).
  apply bind_Ok in H as (fbt & _ & H).
  apply bind_Ok in H as (sn & _ & H).
  apply bind_Ok in H as ([sum_probs one_pin_prob] & _ & H).
  apply bind_Ok in H as (num_sinks & _ & H).
  apply bind_Ok in H as (num_sources & _ & H).
  destruct mode; simpl in H.
  - apply bind_Ok in H as ([r1 w1] & Hblock & H).
    apply bind_Ok in Hblock as (w1' & _ & Hret). injection Hret as <- <-.
    apply bind_Ok in H as ([[nv ss] topo] & _ & H). injection H as <- <-.
    simpl. split; reflexivity.
  - apply bind_Ok in H as ([r1 w1] & Hblock & H).
    apply bind_Ok in Hblock as ([p w1'] & _ & Hret).
    destruct (Binary32.leb Binary32.zero p); [|discriminate].
    apply bind_Ok in Hret as (r2 & Hinc & Hret). injection Hret as <- <-.
    apply bind_Ok in H as ([[nv ss] topo] & _ & H). injection H as <- <-.
    simpl. unfold increment_probability_metric in Hinc.
    destruct (num_sources * num_sinks <=? 0).
    + injection Hinc as <-. simpl. split; lia.
    + apply bind_Ok in Hinc as (pq & _ & Hinc). injection Hinc as <-. simpl. split; lia.
Qed.

(** One dispatched connection, from start to end: [desired_conns] goes
    up by one. *)
Lemma dispatch_connection_counters (source sink : nat) (settings : Analysis_Settings)
    (arch : Arch_Structs) (rr_node : list RR_Node) (ilen conns : Z)
    (mode : e_topological_mode) (r r' : Analysis_Results) (w w' : world Demands) :
  dispatch_connection env source sink settings arch rr_node ilen conns mode r w
  = Ok (r', w') ->
  desired_conns r' = desired_conns r + 1
  /\ num_conns r' = num_conns r + num_conns_increment mode.
Proof.
  unfold dispatch_connection. intros H.
  apply bind_Ok in H as ([r1 w1] & Han & H). injection H as <- <-.
  apply analyze_connection_counters in Han as [Hd Hn]. simpl. split; lia.
Qed.

End Counters.

Lemma workers_in_flight_start (mode : e_topological_mode) (d n : Z) (workloads : list nat) :
  workers_in_flight (mk_run_state mode d n (map (fun k => mk_worker k false) workloads)) = 0.
Proof.
  unfold workers_in_flight. simpl. induction workloads as [|k rest IH]; [reflexivity|].
  simpl. rewrite filter_cons. simpl. exact IH.
Qed.

Lemma workers_in_flight_bound (s : run_state) :
  0 <= workers_in_flight s <= Z.of_nat (length (rs_workers s)).
Proof.
  unfold workers_in_flight.
  pose proof (length_filter (fun w => in_flight w = true) (rs_workers s)). lia.
Qed.

Lemma run_step_invariant (s s' : run_state) :
  run_step s s' ->
  0 <= rs_num_conns s <= rs_desired_conns s + workers_in_flight s ->
  0 <= rs_num_conns s' <= rs_desired_conns s' + workers_in_flight s'.
Proof.
  intros Hstep Hinv. destruct Hstep as [s i k Hi|s i k Hi|s workloads Hmode Hidle].
  - unfold workers_in_flight in *. simpl.
    pose proof (filter_length_insert (fun w => in_flight w = true) (rs_workers s) i
                  (mk_worker (S k) false) (mk_worker (S k) true) Hi) as Hf.
    simpl in Hf. repeat case_decide; try congruence.
    destruct (rs_mode s); simpl; lia.
  - unfold workers_in_flight in *. simpl.
    pose proof (filter_length_insert (fun w => in_flight w = true) (rs_workers s) i
                  (mk_worker (S k) true) (mk_worker k false) Hi) as Hf.
    simpl in Hf. repeat case_decide; try congruence. lia.
  - rewrite workers_in_flight_start. simpl.
    assert (Hz : workers_in_flight s = 0).
    { unfold workers_in_flight. clear Hinv Hmode.
      induction Hidle as [|x l Hx Hl IH]; [reflexivity|].
      rewrite filter_cons. subst x. simpl. exact IH. }
    lia.
Qed.

(** C9 (amended).  At every point of a run [num_conns >= 0], and
    [num_conns] exceeds [desired_conns] by at most the number of workers
    that have analyzed a connection and not yet counted it as desired,
    which is at most the number of threads.  Whenever no worker is in
    that position, as at the end of each phase,
    [desired_conns >= num_conns >= 0]. *)
Theorem counters_invariant (workloads : list nat) (s : run_state) :
  run_reaches (run_start workloads) s ->
  0 <= rs_num_conns s
  /\ rs_num_conns s <= rs_desired_conns s + workers_in_flight s
  /\ workers_in_flight s <= Z.of_nat (length (rs_workers s))
  /\ (workers_in_flight s = 0 -> rs_desired_conns s >= rs_num_conns s /\ rs_num_conns s >= 0).
Proof.
  intros Hreach.
  assert (Hinv : 0 <= rs_num_conns s <= rs_desired_conns s + workers_in_flight s).
  { induction Hreach as [|s' s'' Hreach IH Hstep].
    - pose proof (workers_in_flight_start ENUMERATE 0 0 workloads) as Hz.
      fold (run_start workloads) in Hz. rewrite Hz. simpl. lia.
    - eapply run_step_invariant; [exact Hstep | exact IH]. }
  pose proof (workers_in_flight_bound s). repeat split; lia.
Qed.

(** One worker with one connection, after [analyze_connection] and before
    [desired_conns++]. *)
Lemma counters_invariant_witness :
  let s := mk_run_state ENUMERATE 0 1 [mk_worker 1 true] in
  0 <= rs_num_conns s
  /\ rs_num_conns s <= rs_desired_conns s + workers_in_flight s
  /\ workers_in_flight s <= Z.of_nat (length (rs_workers s))
  /\ (workers_in_flight s = 0 -> rs_desired_conns s >= rs_num_conns s /\ rs_num_conns s >= 0).
Proof.
  refine (counters_invariant [1%nat] (mk_run_state ENUMERATE 0 1 [mk_worker 1 true]) _).
  eapply reaches_step; [apply reaches_refl|].
  exact (step_analyze_connection (run_start [1%nat]) 0 0 eq_refl).
Defined.

(** C9, as stated, fails between the two increments: a single worker
    that has analyzed its first connection in ENUMERATE mode has raised
    [num_conns] to 1 while [desired_conns] is still 0. *)
Lemma counters_as_stated_counterexample :
  exists s,
    run_reaches (run_start [1%nat]) s
    /\ ~ (rs_desired_conns s >= rs_num_conns s).
Proof.
  exists (mk_run_state ENUMERATE 0 1 [mk_worker 1 true]). split.
  - eapply reaches_step; [apply reaches_refl|].
    exact (step_analyze_connection (run_start [1%nat]) 0 0 eq_refl).
  - simpl. lia.
Qed.

(** The same point in the model of the code: on [example_path_graph],
    [analyze_connection] returns with [num_conns = 1] and
    [desired_conns = 0]. *)
Example analyze_connection_runs_ahead :
  num_conns (fst example_enumerate_result) = 1
  /\ desired_conns (fst example_enumerate_result) = 0.
Proof. split; reflexivity. Qed.

(** ** Cleaning up after a connection *)

(** [clean_ss_distances], node by node: cleared when the node is listed
    and carries a flag of the distance pass, untouched otherwise. *)
Lemma clean_ss_distances_spec (nv : list nat) (ss : list SS_Distances) :
  (forall n, n ∈ nv -> is_Some (ss !! n)) ->
  exists ss',
    clean_ss_distances ss nv = Ok ss'
    /\ length ss' = length ss
    /\ forall n s, ss !! n = Some s ->
         (n ∈ nv -> visited_from_source s || visited_from_sink s = true ->
          ss' !! n = Some SS_Distances_clear)
         /\ (~ (n ∈ nv /\ visited_from_source s || visited_from_sink s = true) ->
             ss' !! n = Some s).
Proof.
  revert ss. induction nv as [|node_ind rest IH]; intros ss Hrange.
  - exists ss. split; [reflexivity|]. split; [reflexivity|].
    intros n s Hs. split; [|auto]. intros Hin. apply elem_of_nil in Hin. contradiction.
  - destruct (Hrange node_ind ltac:(apply elem_of_cons; left; reflexivity)) as [s0 Hs0].
    simpl. rewrite (at_index_lookup _ _ _ Hs0). simpl.
    destruct (visited_from_source s0 || visited_from_sink s0) eqn:Hflag.
    + destruct (IH (<[node_ind := SS_Distances_clear]> ss)) as (ss' & Hc & Hlen & Hspec).
      { intros n Hn. apply lookup_lt_is_Some. rewrite length_insert.
        apply lookup_lt_is_Some. apply Hrange. apply elem_of_cons. right. exact Hn. }
      exists ss'. split; [exact Hc|]. split; [rewrite Hlen; apply length_insert|].
      intros n s Hs. destruct (decide (n = node_ind)) as [->|Hne].
      * assert (s = s0) by congruence. subst s.
        pose proof (list_lookup_insert_eq ss node_ind SS_Distances_clear
                      (lookup_lt_Some _ _ _ Hs0)) as Hl.
        destruct (Hspec node_ind SS_Distances_clear Hl) as [_ Hkeep].
        split.
        -- intros _ _. apply Hkeep. intros [_ Hf]. discriminate Hf.
        -- intros Hnot. exfalso. apply Hnot. split; [|exact Hflag].
           apply elem_of_cons. left. reflexivity.
      * assert (Hl : <[node_ind := SS_Distances_clear]> ss !! n = Some s)
          by (rewrite list_lookup_insert_ne by congruence; exact Hs).
        destruct (Hspec n s Hl) as [Hclr Hkeep]. split.
        -- intros Hin Hf. apply Hclr; [|exact Hf].
           apply elem_of_cons in Hin as [Hin|Hin]; [congruence | exact Hin].
        -- intros Hnot. apply Hkeep. intros [Hin Hf]. apply Hnot.
           split; [apply elem_of_cons; right; exact Hin | exact Hf].
    + destruct (IH ss) as (ss' & Hc & Hlen & Hspec).
      { intros n Hn. apply Hrange. apply elem_of_cons. right. exact Hn. }
      exists ss'. split; [exact Hc|]. split; [exact Hlen|].
      intros n s Hs. destruct (Hspec n s Hs) as [Hclr Hkeep]. split.
      * intros Hin Hf. apply Hclr; [|exact Hf].
        apply elem_of_cons in Hin as [->|Hin]; [|exact Hin].
        assert (s = s0) by congruence. subst s. congruence.
      * intros Hnot. apply Hkeep. intros [Hin Hf]. apply Hnot.
        split; [apply elem_of_cons; right; exact Hin | exact Hf].
Qed.

(** [clean_node_topo_inf], node by node. *)
Lemma clean_node_topo_inf_spec (nv : list nat) (topo : list Node_Topological_Info) (W : Z) :
  (forall n, n ∈ nv -> is_Some (topo !! n)) ->
  exists topo',
    clean_node_topo_inf topo nv W = Ok topo'
    /\ length topo' = length topo
    /\ forall n t, topo !! n = Some t ->
         (n ∈ nv -> was_visited t = true ->
          topo' !! n = Some (Node_Topological_Info_clear t))
         /\ (~ (n ∈ nv /\ was_visited t = true) -> topo' !! n = Some t).
Proof.
  revert topo. induction nv as [|node_ind rest IH]; intros topo Hrange.
  - exists topo. split; [reflexivity|]. split; [reflexivity|].
    intros n t Ht. split; [|auto]. intros Hin. apply elem_of_nil in Hin. contradiction.
  - destruct (Hrange node_ind ltac:(apply elem_of_cons; left; reflexivity)) as [t0 Ht0].
    simpl. rewrite (at_index_lookup _ _ _ Ht0). simpl.
    destruct (was_visited t0) eqn:Hflag.
    + destruct (IH (<[node_ind := Node_Topological_Info_clear t0]> topo))
        as (topo' & Hc & Hlen & Hspec).
      { intros n Hn. apply lookup_lt_is_Some. rewrite length_insert.
        apply lookup_lt_is_Some. apply Hrange. apply elem_of_cons. right. exact Hn. }
      exists topo'. split; [exact Hc|]. split; [rewrite Hlen; apply length_insert|].
      intros n t Ht. destruct (decide (n = node_ind)) as [->|Hne].
      * assert (t = t0) by congruence. subst t.
        pose proof (list_lookup_insert_eq topo node_ind (Node_Topological_Info_clear t0)
                      (lookup_lt_Some _ _ _ Ht0)) as Hl.
        destruct (Hspec node_ind _ Hl) as [_ Hkeep].
        split.
        -- intros _ _. apply Hkeep. intros [_ Hf]. discriminate Hf.
        -- intros Hnot. exfalso. apply Hnot. split; [|exact Hflag].
           apply elem_of_cons. left. reflexivity.
      * assert (Hl : <[node_ind := Node_Topological_Info_clear t0]> topo !! n = Some t)
          by (rewrite list_lookup_insert_ne by congruence; exact Ht).
        destruct (Hspec n t Hl) as [Hclr Hkeep]. split.
        -- intros Hin Hf. apply Hclr; [|exact Hf].
           apply elem_of_cons in Hin as [Hin|Hin]; [congruence | exact Hin].
        -- intros Hnot. apply Hkeep. intros [Hin Hf]. apply Hnot.
           split; [apply elem_of_cons; right; exact Hin | exact Hf].
    + destruct (IH topo) as (topo' & Hc & Hlen & Hspec).
      { intros n Hn. apply Hrange. apply elem_of_cons. right. exact Hn. }
      exists topo'. split; [exact Hc|]. split; [exact Hlen|].
      intros n t Ht. destruct (Hspec n t Ht) as [Hclr Hkeep]. split.
      * intros Hin Hf. apply Hclr; [|exact Hf].
        apply elem_of_cons in Hin as [->|Hin]; [|exact Hin].
        assert (t = t0) by congruence. subst t. congruence.
      * intros Hnot. apply Hkeep. intros [Hin Hf]. apply Hnot.
        split; [apply elem_of_cons; right; exact Hin | exact Hf].
Qed.

Lemma Node_Topological_Info_clear_zero (t : Node_Topological_Info) :
  buckets_zero (Node_Topological_Info_clear t)
  /\ was_visited (Node_Topological_Info_clear t) = false.
Proof.
  unfold buckets_zero. simpl. repeat split.
  - apply Forall_forall. intros q Hq. apply list_elem_of_In in Hq.
    apply in_map_iff in Hq as (x & <- & _). reflexivity.
  - apply Forall_forall. intros q Hq. apply list_elem_of_In in Hq.
    apply in_map_iff in Hq as (x & <- & _). reflexivity.
Qed.

(** X23.  When every node recorded in [nodes_visited] carries a flag of
    the distance pass (which is how the distance pass records nodes:
    [set_node_distances_marks_visited]) and has its topological state
    allocated, [clean_node_data_structs] does not fail and empties
    [nodes_visited].  It leaves every recorded node with its distances
    cleared, all four visited flags false, and without the flag
    [was_visited]; the topological state of a recorded node that had
    the flag is cleared, all its bucket entries zero, whereas that of a
    recorded node that did not have it is left as it was, buckets that
    were written without the flag included.  A node that is not
    recorded keeps its distances and its topological state. *)
Theorem clean_node_data_structs_effect (nodes_visited : list nat) (ss : list SS_Distances)
    (topo : list Node_Topological_Info) (W : Z) :
  (forall n, n ∈ nodes_visited -> distance_marked ss n) ->
  (forall n, n ∈ nodes_visited -> is_Some (topo !! n)) ->
  exists ss' topo',
    clean_node_data_structs nodes_visited ss topo W = Ok ([], ss', topo')
    /\ (forall n, n ∈ nodes_visited ->
         (exists s', ss' !! n = Some s' /\ all_flags_clear s')
         /\ (forall t, topo !! n = Some t ->
             exists t',
               topo' !! n = Some t' /\ was_visited t' = false
               /\ (was_visited t = true -> buckets_zero t')
               /\ (was_visited t = false -> t' = t)))
    /\ (forall n, n ∉ nodes_visited -> ss' !! n = ss !! n /\ topo' !! n = topo !! n).
Proof.
  intros Hmarked Htopo.
  destruct (clean_ss_distances_spec nodes_visited ss) as (ss' & Hss & Hlen & Hspec).
  { intros n Hn. destruct (Hmarked n Hn) as (s & Hs & _). eauto. }
  destruct (clean_node_topo_inf_spec nodes_visited topo W Htopo)
    as (topo' & Ht & Htlen & Htspec).
  exists ss', topo'. split; [|split].
  - unfold clean_node_data_structs. rewrite Hss. simpl. rewrite Ht. reflexivity.
  - intros n Hn. split.
    + destruct (Hmarked n Hn) as (s & Hs & Hflag).
      exists SS_Distances_clear. split; [apply (Hspec n s Hs); assumption|].
      repeat split.
    + intros t Htn. destruct (Htspec n t Htn) as [Hclr Hkeep].
      destruct (was_visited t) eqn:Hw.
      * exists (Node_Topological_Info_clear t). split; [apply Hclr; [exact Hn | reflexivity]|].
        destruct (Node_Topological_Info_clear_zero t) as [Hz Hv].
        split; [exact Hv|]. split; [intros _; exact Hz | discriminate].
      * exists t. split; [apply Hkeep; intros [_ Hf]; discriminate Hf|].
        split; [exact Hw|]. split; [discriminate | reflexivity].
  - intros n Hn. split.
    + destruct (ss !! n) as [s|] eqn:Hs.
      * apply (Hspec n s Hs). intros [Hin _]. exact (Hn Hin).
      * apply lookup_ge_None. rewrite Hlen. apply lookup_ge_None. exact Hs.
    + destruct (topo !! n) as [t|] eqn:Htn.
      * apply (Htspec n t Htn). intros [Hin _]. exact (Hn Hin).
      * apply lookup_ge_None. rewrite Htlen. apply lookup_ge_None. exact Htn.
Qed.

(** The three nodes of [example_path_graph] after the distance passes:
    the wire, which a traversal has flagged, is cleared, and the source
    and the sink, whose buckets were written without the flag, keep
    them. *)
Lemma clean_node_data_structs_effect_witness :
  exists ss' topo',
    clean_node_data_structs (snd example_path_both) (fst example_path_both)
      example_touched_topo 3 = Ok ([], ss', topo')
    /\ (forall n, n ∈ snd example_path_both ->
         (exists s', ss' !! n = Some s' /\ all_flags_clear s')
         /\ (forall t, example_touched_topo !! n = Some t ->
             exists t',
               topo' !! n = Some t' /\ was_visited t' = false
               /\ (was_visited t = true -> buckets_zero t')
               /\ (was_visited t = false -> t' = t)))
    /\ (forall n, n ∉ snd example_path_both ->
         ss' !! n = fst example_path_both !! n /\ topo' !! n = example_touched_topo !! n).
Proof.
  refine (clean_node_data_structs_effect (snd example_path_both) (fst example_path_both)
            example_touched_topo 3 _ _).
  - intros n Hn. simpl in Hn.
    repeat (apply elem_of_cons in Hn as [->|Hn]);
      try (eexists; split; [reflexivity|reflexivity]).
    apply elem_of_nil in Hn. contradiction.
  - intros n Hn. simpl in Hn.
    repeat (apply elem_of_cons in Hn as [->|Hn]); try (eexists; reflexivity).
    apply elem_of_nil in Hn. contradiction.
Defined.

Example clean_node_data_structs_on_example :
  clean_node_data_structs (snd example_path_both) (fst example_path_both)
    example_touched_topo 3
  = Ok ([], replicate 3 SS_Distances_clear,
        [ mk_Node_Topological_Info [1 # 8; 0; 0; 0]%Q (replicate 4 0%Q) UNDEFINED false;
          mk_Node_Topological_Info (replicate 4 0%Q) (replicate 4 0%Q) UNDEFINED false;
          mk_Node_Topological_Info (replicate 4 0%Q) [1; 0; 0; 0]%Q UNDEFINED false ]).
Proof. vm_compute. reflexivity. Qed.

(** *** The distance pass records marked nodes only *)

Lemma pq_insert_elem (item : nat) (w : Z) (es : list (nat * Z)) (x : nat * Z) :
  x ∈ pq_insert item w es -> x = (item, w) \/ x ∈ es.
Proof.
  induction es as [|[i w'] es IH]; simpl; intros H.
  - apply list_elem_of_singleton in H. left. exact H.
  - destruct (w <? w').
    + apply elem_of_cons in H as [H|H]; [left; exact H | right; exact H].
    + apply elem_of_cons in H as [H|H].
      * right. apply elem_of_cons. left. exact H.
      * destruct (IH H) as [->|Hin]; [left; reflexivity|].
        right. apply elem_of_cons. right. exact Hin.
Qed.

Lemma distance_marked_insert (ss : list SS_Distances) (i n : nat) (s s' : SS_Distances) :
  ss !! i = Some s ->
  (visited_from_source s || visited_from_sink s = true ->
   visited_from_source s' || visited_from_sink s' = true) ->
  distance_marked ss n -> distance_marked (<[i := s']> ss) n.
Proof.
  intros Hi Hmono (sn & Hn & Hf). destruct (decide (n = i)) as [->|Hne].
  - exists s'. split; [apply list_lookup_insert_eq; eapply lookup_lt_Some; exact Hi|].
    apply Hmono. congruence.
  - exists sn. split; [rewrite list_lookup_insert_ne by congruence; exact Hn | exact Hf].
Qed.

Lemma distance_marked_new (ss : list SS_Distances) (i : nat) (s s' : SS_Distances) :
  ss !! i = Some s ->
  visited_from_source s' || visited_from_sink s' = true ->
  distance_marked (<[i := s']> ss) i.
Proof.
  intros Hi Hf. exists s'.
  split; [apply list_lookup_insert_eq; eapply lookup_lt_Some; exact Hi | exact Hf].
Qed.

(** Relaxing a child keeps every mark, and what it enqueues is marked. *)
Lemma relax_child_marked (base W : Z) (dir : e_traversal_dir) (rr_node : list RR_Node)
    (destx desty : Z) (ss ss' : list SS_Distances) (PQ PQ' : My_Bounded_Priority_Queue)
    (child : nat) :
  relax_child base W dir rr_node destx desty (ss, PQ) child = Ok (ss', PQ') ->
  (forall n, distance_marked ss n -> distance_marked ss' n)
  /\ (forall e, e ∈ pq_entries PQ' -> e ∈ pq_entries PQ \/ distance_marked ss' e.1).
Proof.
  unfold relax_child. intros H.
  apply bind_Ok in H as (s & Hs & H). apply at_index_Ok in Hs.
  destruct (visited_in dir s) eqn:Hv.
  { injection H as <- <-. auto. }
  apply bind_Ok in H as (node & Hn & H).
  destruct dir; simpl in Hv.
  - apply bind_Ok in H as (chance & Hc & H).
    destruct chance; simpl in H; [|injection H as <- <-; auto].
    apply bind_Ok in H as (PQ1 & Hpush & H). injection H as <- <-.
    unfold pq_push in Hpush. destruct (_ >? _); [discriminate|]. injection Hpush as <-.
    split.
    + intros n. apply (distance_marked_insert ss child n s _ Hs). reflexivity.
    + simpl. intros e He. apply pq_insert_elem in He as [->|He]; [|left; exact He].
      right. simpl. eapply distance_marked_new; [exact Hs | reflexivity].
  - match type of H with
    | (if negb ?b then _ else _) = _ => destruct b
    end; simpl in H.
    + apply bind_Ok in H as (PQ1 & Hpush & H). injection H as <- <-.
      unfold pq_push in Hpush. destruct (_ >? _); [discriminate|]. injection Hpush as <-.
      split.
      * intros n. apply (distance_marked_insert ss child n s _ Hs). simpl.
        intros _. apply orb_true_r.
      * simpl. intros e He. apply pq_insert_elem in He as [->|He]; [|left; exact He].
        right. simpl. eapply distance_marked_new; [exact Hs | simpl; apply orb_true_r].
    + injection H as <- <-. split; [|auto].
      intros n. apply (distance_marked_insert ss child n s _ Hs). simpl.
      rewrite Hv. intros Hf. rewrite orb_false_r in *. exact Hf.
Qed.

Lemma relax_children_marked (base W : Z) (dir : e_traversal_dir) (rr_node : list RR_Node)
    (destx desty : Z) (edge_list : list nat) (ss ss' : list SS_Distances)
    (PQ PQ' : My_Bounded_Priority_Queue) :
  relax_children base W dir rr_node destx desty edge_list (ss, PQ) = Ok (ss', PQ') ->
  (forall n, distance_marked ss n -> distance_marked ss' n)
  /\ (forall e, e ∈ pq_entries PQ' -> e ∈ pq_entries PQ \/ distance_marked ss' e.1).
Proof.
  revert ss PQ. induction edge_list as [|child rest IH]; intros ss PQ H; simpl in H.
  - injection H as <- <-. auto.
  - apply bind_Ok in H as ([ss1 PQ1] & H1 & H).
    apply relax_child_marked in H1 as [Hm1 Hq1].
    apply IH in H as [Hm Hq]. split.
    + intros n Hn. apply Hm, Hm1, Hn.
    + intros e He. destruct (Hq e He) as [Hin|Hin]; [|right; exact Hin].
      destruct (Hq1 e Hin) as [Hin1|Hin1]; [left; exact Hin1|].
      right. apply Hm. exact Hin1.
Qed.

Lemma distance_loop_marked (fuel : nat) (to : nat) (rr_node : list RR_Node) (W : Z)
    (dir : e_traversal_dir) (ss ss' : list SS_Distances) (PQ : My_Bounded_Priority_Queue)
    (nv nv' : list nat) :
  (forall e, e ∈ pq_entries PQ -> distance_marked ss e.1) ->
  (forall n, n ∈ nv -> distance_marked ss n) ->
  distance_loop fuel to rr_node W dir ss PQ nv = Ok (ss', nv') ->
  (forall n, n ∈ nv' -> distance_marked ss' n)
  /\ (forall n, distance_marked ss n -> distance_marked ss' n).
Proof.
  revert ss PQ nv. induction fuel as [|fuel IH]; intros ss PQ nv HPQ Hnv H; [discriminate|].
  simpl in H. case_decide as Hsize.
  { injection H as <- <-. auto. }
  apply bind_Ok in H as ([[i w] PQ1] & Htake & H).
  apply bind_Ok in H as (node & _ & H).
  apply bind_Ok in H as ([ss1 PQ2] & Hput & H).
  unfold pq_take in Htake. destruct (pq_entries PQ) as [|[i0 w0] rest] eqn:HE; [discriminate|].
  injection Htake as <- <- <-.
  unfold put_children_on_pq_and_set_ss_distance in Hput.
  apply bind_Ok in Hput as (to_node & _ & Hput).
  destruct (negb _ || negb _); [discriminate|].
  apply relax_children_marked in Hput as [Hm Hq]. simpl in Hq.
  apply IH in H as [Hres Hmono].
  - split; [exact Hres|]. intros n Hn. apply Hmono, Hm, Hn.
  - intros e He. destruct (Hq e He) as [Hin|Hin]; [|exact Hin].
    apply Hm. apply HPQ. apply elem_of_cons. right. exact Hin.
  - intros n Hn. apply elem_of_app in Hn as [Hn|Hn].
    + apply Hm, Hnv, Hn.
    + apply list_elem_of_singleton in Hn as ->. apply Hm.
      apply (HPQ (i0, w0)). apply elem_of_cons. left. reflexivity.
Qed.

(** Every node that [set_node_distances] records in [nodes_visited]
    carries a flag of the distance pass, and no node loses its mark. *)
Lemma set_node_distances_marks_visited (from to : nat) (rr_node : list RR_Node)
    (ss ss' : list SS_Distances) (W : Z) (dir : e_traversal_dir) (nv nv' : list nat) :
  (forall n, n ∈ nv -> distance_marked ss n) ->
  set_node_distances from to rr_node ss W dir nv = Ok (ss', nv') ->
  (forall n, n ∈ nv' -> distance_marked ss' n)
  /\ (forall n, distance_marked ss n -> distance_marked ss' n).
Proof.
  unfold set_node_distances. intros Hnv H.
  apply bind_Ok in H as (PQ & Hpush & H).
  apply bind_Ok in H as (s & Hs & H). apply at_index_Ok in Hs.
  unfold pq_push in Hpush. destruct (_ >? _); [discriminate|]. injection Hpush as <-.
  assert (Hmono : forall n, distance_marked ss n ->
            distance_marked
              (<[from := match dir with
                         | FORWARD_TRAVERSAL =>
                             set_visited_from_source true (set_source_distance 0 s)
                         | BACKWARD_TRAVERSAL =>
                             set_visited_from_sink true (set_sink_distance 0 s)
                         end]> ss) n).
  { intros n. apply (distance_marked_insert ss from n s _ Hs).
    intros _. destruct dir; simpl; [reflexivity | apply orb_true_r]. }
  apply distance_loop_marked in H as [Hres Hm].
  - split; [exact Hres|]. intros n Hn. apply Hm, Hmono, Hn.
  - simpl. intros e He. apply list_elem_of_singleton in He as ->. simpl.
    eapply distance_marked_new; [exact Hs|].
    destruct dir; simpl; [reflexivity | apply orb_true_r].
  - intros n Hn. apply Hmono, Hnv, Hn.
Qed.

(** After the two passes and the adjustment every recorded node is
    marked, provided the nodes recorded before are. *)
Lemma get_ss_distances_marks_visited (source sink : nat) (rr_node : list RR_Node)
    (ss ss' : list SS_Distances) (W W' d : Z) (nv nv' : list nat) :
  (forall n, n ∈ nv -> distance_marked ss n) ->
  get_ss_distances_and_adjust_max_path_weight source sink rr_node ss W nv
  = Ok (ss', nv', W', d) ->
  forall n, n ∈ nv' -> distance_marked ss' n.
Proof.
  unfold get_ss_distances_and_adjust_max_path_weight. intros Hnv H.
  apply bind_Ok in H as ([ss1 nv1] & H1 & H).
  apply bind_Ok in H as ([ss2 nv2] & H2 & H).
  apply bind_Ok in H as (sink_s & _ & H).
  apply bind_Ok in H as (source_s & _ & H).
  destruct (negb _); [discriminate|]. injection H as <- <- _ _.
  apply set_node_distances_marks_visited in H1 as [Hv1 _]; [|exact Hnv].
  apply set_node_distances_marks_visited in H2 as [Hv2 _]; [|exact Hv1].
  exact Hv2.
Qed.

(** ** C4: the queues of the lowest probabilities *)

Section Fixed_Size_PQ_Facts.
Context {A : Type}.
Variable comp : A -> A -> bool.
(** The comparator is a strict weak order, as [less] and [greater] are. *)
Hypothesis comp_asym : forall a b, comp a b = true -> comp b a = false.
Hypothesis comp_negtrans : forall a b c, comp a c = true -> comp a b = true \/ comp b c = true.

Lemma fs_insert_perm (x : A) (es : list A) : fs_insert comp x es ≡ₚ x :: es.
Proof.
  induction es as [|e rest IH]; simpl; [reflexivity|].
  destruct (comp x e); [|reflexivity].
  rewrite IH. apply Permutation_swap.
Qed.

Lemma fs_insert_extreme_first (x : A) (es : list A) :
  extreme_first comp es -> extreme_first comp (fs_insert comp x es).
Proof.
  induction es as [|e rest IH]; simpl; intros Hs.
  - split; [|exact I]. intros a Ha. apply elem_of_nil in Ha. contradiction.
  - destruct Hs as [He Hrest]. destruct (comp x e) eqn:Hx; simpl.
    + split; [|apply IH; exact Hrest].
      intros a Ha. rewrite fs_insert_perm in Ha.
      apply elem_of_cons in Ha as [->|Ha]; [apply comp_asym; exact Hx | apply He; exact Ha].
    + split; [|split; assumption].
      intros a Ha. apply elem_of_cons in Ha as [->|Ha]; [exact Hx|].
      destruct (comp x a) eqn:Hxa; [|reflexivity].
      destruct (comp_negtrans x e a Hxa) as [H|H]; [congruence|].
      rewrite (He a Ha) in H. discriminate H.
Qed.

Lemma fs_push_holds (k : Z) (seen : list A) (x : A) (pq : My_Fixed_Size_PQ A) :
  fs_holds comp k seen pq -> fs_holds comp k (x :: seen) (fs_push comp x pq).
Proof.
  intros (Hk & Hsorted & Hlen & dropped & Hperm & Hcross).
  unfold fs_push. rewrite Hk.
  pose proof (Permutation_length Hperm) as Hpl. rewrite length_app in Hpl.
  destruct (Z.ltb_spec (Z.of_nat (length (fs_entries pq))) k) as [Hroom|Hfull].
  - (* there is room: nothing has been dropped so far *)
    assert (Hd : dropped = []).
    { destruct dropped as [|d ds]; [reflexivity|]. simpl in Hpl. lia. }
    subst dropped. rewrite app_nil_r in Hperm.
    split; [reflexivity|]. simpl.
    split; [apply fs_insert_extreme_first; exact Hsorted|].
    split.
    + rewrite (Permutation_length (fs_insert_perm x (fs_entries pq))). simpl. lia.
    + exists []. rewrite app_nil_r. split.
      * rewrite fs_insert_perm. rewrite Hperm. reflexivity.
      * intros a b _ Hb. apply elem_of_nil in Hb. contradiction.
  - destruct (fs_entries pq) as [|extreme rest] eqn:HE.
    + (* capacity zero *)
      split; [exact Hk|]. rewrite HE. split; [exact I|]. simpl in *.
      split; [lia|].
      exists (x :: dropped). split; [simpl; rewrite Hperm; reflexivity|].
      intros a b Ha. apply elem_of_nil in Ha. contradiction.
    + destruct Hsorted as [Hext Hrest]. simpl in Hlen, Hpl.
      change (length (extreme :: rest)) with (S (length rest)) in Hfull.
      destruct (comp x extreme) eqn:Hx.
      * (* [x] replaces the extreme *)
        split; [reflexivity|]. simpl.
        split; [apply fs_insert_extreme_first; exact Hrest|].
        split.
        -- rewrite (Permutation_length (fs_insert_perm x rest)). simpl. lia.
        -- exists (extreme :: dropped). split.
           ++ rewrite fs_insert_perm. rewrite Hperm. simpl.
              rewrite <- Permutation_middle. reflexivity.
           ++ intros a b Ha Hb. rewrite fs_insert_perm in Ha.
              apply elem_of_cons in Hb as [->|Hb].
              ** apply elem_of_cons in Ha as [->|Ha];
                   [apply comp_asym; exact Hx | apply Hext; exact Ha].
              ** apply elem_of_cons in Ha as [->|Ha].
                 --- destruct (comp b x) eqn:Hbx; [|reflexivity].
                     destruct (comp_negtrans b extreme x Hbx) as [H|H].
                     +++ rewrite (Hcross extreme b) in H; [discriminate H| |exact Hb].
                         apply elem_of_cons. left. reflexivity.
                     +++ apply comp_asym in Hx. congruence.
                 --- apply Hcross; [apply elem_of_cons; right; exact Ha | exact Hb].
      * (* [x] is dropped *)
        split; [exact Hk|]. rewrite HE.
        split; [split; assumption|]. simpl.
        split; [lia|].
        exists (x :: dropped). split.
        -- rewrite Hperm. apply (Permutation_middle (extreme :: rest) dropped x).
        -- intros a b Ha Hb. apply elem_of_cons in Hb as [->|Hb];
             [|apply Hcross; assumption].
           apply elem_of_cons in Ha as [->|Ha]; [exact Hx|].
           destruct (comp x a) eqn:Hxa; [|reflexivity].
           destruct (comp_negtrans x extreme a Hxa) as [H|H]; [congruence|].
           rewrite (Hext a Ha) in H. discriminate H.
Qed.

Lemma fs_push_all_holds (k : Z) (xs seen : list A) (pq : My_Fixed_Size_PQ A) :
  fs_holds comp k seen pq -> fs_holds comp k (rev xs ++ seen) (fs_push_all comp xs pq).
Proof.
  revert seen pq. induction xs as [|x xs IH]; intros seen pq H; [exact H|].
  simpl. rewrite <- app_assoc. simpl. apply IH. apply fs_push_holds. exact H.
Qed.

(** A queue of capacity [k], empty at first, holds after any sequence of
    pushes the [k] smallest of what was pushed (all of it, if that is
    less). *)
Lemma fs_push_all_retains (k : Z) (xs : list A) :
  let pq := fs_push_all comp xs (mk_Fixed_PQ (Some k) []) in
  length (fs_entries pq) = Nat.min (Z.to_nat k) (length xs)
  /\ retains_smallest comp xs (fs_entries pq).
Proof.
  intros pq. subst pq.
  assert (H0 : fs_holds comp k [] (mk_Fixed_PQ (Some k) [])).
  { split; [reflexivity|]. split; [exact I|]. split; [simpl; lia|].
    exists []. split; [reflexivity|]. intros a b Ha. apply elem_of_nil in Ha.
    contradiction. }
  apply (fs_push_all_holds k xs) in H0. rewrite app_nil_r in H0.
  destruct H0 as (_ & _ & Hlen & dropped & Hperm & Hcross). split.
  - rewrite Hlen. rewrite length_rev. reflexivity.
  - exists dropped. split; [|exact Hcross].
    rewrite <- Hperm. apply Permutation_rev.
Qed.

End Fixed_Size_PQ_Facts.

Lemma less_asym (a b : Q) : less a b = true -> less b a = false.
Proof. intros H. apply less_true in H. apply less_false. apply Qlt_le_weak. exact H. Qed.

Lemma less_negtrans (a b c : Q) : less a c = true -> less a b = true \/ less b c = true.
Proof.
  intros H. apply less_true in H. destruct (Qlt_le_dec a b) as [Hab|Hba].
  - left. apply less_true. exact Hab.
  - right. apply less_true. eapply Qle_lt_trans; [exact Hba | exact H].
Qed.

(** The loop that sets the capacities, entry by entry. *)
Lemma set_lowest_probs_pqs_spec (todo ilen : nat) (conns_at_length : list Z)
    (pqs pqs' : list (My_Fixed_Size_PQ Q)) :
  set_lowest_probs_pqs todo ilen conns_at_length pqs = Ok pqs' ->
  length pqs' = length pqs
  /\ forall i,
       ((ilen <= i < ilen + todo)%nat ->
        forall c pq, conns_at_length !! i = Some c -> pqs !! i = Some pq ->
          pqs' !! i
          = Some (if c =? 0 then pq else fs_set_properties (entries_limit c) pq))
       /\ (~ (ilen <= i < ilen + todo)%nat -> pqs' !! i = pqs !! i).
Proof.
  revert ilen pqs. induction todo as [|todo IH]; intros ilen pqs H; simpl in H.
  - injection H as <-. split; [reflexivity|]. intros i. split; [lia | reflexivity].
  - apply bind_Ok in H as (conns & Hc & H). apply at_index_Ok in Hc.
    destruct (Z.eqb_spec conns 0) as [Hz|Hnz].
    + apply IH in H as [Hlen Hspec]. split; [exact Hlen|].
      intros i. destruct (Hspec i) as [Hin Hout]. split.
      * intros Hi c pq Hci Hpq. destruct (decide (i = ilen)) as [->|Hne].
        -- rewrite Hout by lia. assert (c = conns) by congruence. subst c.
           rewrite Hz. simpl. exact Hpq.
        -- apply Hin; [lia | exact Hci | exact Hpq].
      * intros Hi. apply Hout. lia.
    + apply bind_Ok in H as (pq0 & Hpq0 & H). apply at_index_Ok in Hpq0.
      apply IH in H as [Hlen Hspec]. rewrite length_insert in Hlen.
      split; [exact Hlen|].
      intros i. destruct (Hspec i) as [Hin Hout]. split.
      * intros Hi c pq Hci Hpq. destruct (decide (i = ilen)) as [->|Hne].
        -- rewrite Hout by lia. assert (c = conns) by congruence. subst c.
           assert (pq = pq0) by congruence. subst pq.
           rewrite list_lookup_insert_eq by (eapply lookup_lt_Some; exact Hpq0).
           destruct (Z.eqb_spec conns 0); [contradiction | reflexivity].
        -- apply Hin; [lia | exact Hci |].
           rewrite list_lookup_insert_ne by congruence. exact Hpq.
      * intros Hi. rewrite Hout by lia. apply list_lookup_insert_ne. lia.
Qed.

(** C4 (amended).  For every connection length with a non-zero number
    of connections, the queue of the lowest probabilities at that length
    is created empty with capacity [k = (int)(#conns * 0.10)], that is
    [#conns / 10] rounded towards zero (not rounded up), and, under the
    [less] comparator, whatever is then pushed into it, it retains the
    [k] smallest of the pushed probabilities (all of them when fewer
    than [k] were pushed). *)
Theorem lowest_probs_queue (max_connection_length : Z) (conns_at_length : list Z)
    (pqs : list (My_Fixed_Size_PQ Q)) (ilen : nat) (conns : Z) :
  create_lowest_probs_pqs max_connection_length conns_at_length = Ok pqs ->
  conns_at_length !! ilen = Some conns ->
  Z.of_nat ilen <= max_connection_length ->
  conns <> 0 ->
  in_int_range conns ->
  exists pq,
    pqs !! ilen = Some pq
    /\ fs_max_size pq = Some (Z.quot conns 10)
    /\ fs_entries pq = []
    /\ forall probs,
         length (fs_entries (fs_push_all less probs pq))
         = Nat.min (Z.to_nat (Z.quot conns 10)) (length probs)
         /\ retains_smallest less probs (fs_entries (fs_push_all less probs pq)).
Proof.
  intros Hcreate Hconns Hilen Hnz Hrange. unfold create_lowest_probs_pqs in Hcreate.
  apply set_lowest_probs_pqs_spec in Hcreate as [_ Hspec].
  destruct (Hspec ilen) as [Hin _].
  specialize (Hin ltac:(lia) conns fs_default Hconns
                ltac:(apply lookup_replicate_2; lia)).
  apply Z.eqb_neq in Hnz. rewrite Hnz in Hin.
  exists (fs_set_properties (entries_limit conns) fs_default).
  split; [exact Hin|]. unfold entries_limit. rewrite (trunc_mul_0_10_exact conns Hrange).
  split; [reflexivity|]. split; [reflexivity|].
  intros probs.
  exact (fs_push_all_retains less less_asym less_negtrans (Z.quot conns 10) probs).
Qed.

(** With 24 connections at length 1 the queue has capacity 2, and of the
    probabilities 3/4, 1/4, 1/2 it keeps 1/2 and 1/4. *)
Lemma lowest_probs_queue_witness :
  exists pq,
    [fs_default; fs_set_properties 2 fs_default] !! 1%nat = Some pq
    /\ fs_max_size pq = Some (Z.quot 24 10)
    /\ fs_entries pq = []
    /\ forall probs,
         length (fs_entries (fs_push_all less probs pq))
         = Nat.min (Z.to_nat (Z.quot 24 10)) (length probs)
         /\ retains_smallest less probs (fs_entries (fs_push_all less probs pq)).
Proof.
  refine (lowest_probs_queue 1 [0; 24] [fs_default; fs_set_properties 2 fs_default]
            1 24 _ _ _ _ _).
  - vm_compute. reflexivity.
  - reflexivity.
  - simpl. lia.
  - discriminate.
  - unfold in_int_range. simpl. lia.
Defined.

Example lowest_probs_queue_keeps_two :
  fs_entries (fs_push_all less [3 # 4; 1 # 4; 1 # 2] (fs_set_properties 2 fs_default))
  = [1 # 2; 1 # 4]%Q.
Proof. reflexivity. Qed.

(** C4, as stated, fails in the capacity: with 2 connections at a length
    the code computes [(int)(2 * 0.10) = 0] where the claim has
    [ceil(0.2) = 1], and the queue, which the claim would have retain the
    one probability pushed, retains nothing. *)
Lemma lowest_probs_capacity_counterexample :
  exists pq,
    create_lowest_probs_pqs 1 [0; 2] = Ok [fs_default; pq]
    /\ fs_max_size pq = Some 0
    /\ spec_entries_limit 2 = 1
    /\ fs_entries (fs_push_all less [1 # 2]%Q pq) = [].
Proof.
  exists (fs_set_properties 0 fs_default).
  split; [vm_compute; reflexivity|]. repeat split.
Qed.
(** ** Results of the further functions *)

Lemma bind_Done {A B} (r : outcome A) (f : A -> outcome B) (b : B) :
  r ≫= f = Done b -> exists a, r = Done a /\ f a = Done b.
Proof. destruct r as [a|e]; simpl; [eauto | discriminate]. Qed.

Lemma lift_Done {A} (r : result A) (a : A) : lift r = Done a <-> r = Ok a.
Proof. destruct r; simpl; split; congruence. Qed.

Lemma for_each_invariant {A S} (P : S -> Prop) (body : S -> A -> outcome S)
    (items : list A) (s s' : S) :
  (forall s a s', a ∈ items -> P s -> body s a = Done s' -> P s') ->
  P s -> for_each body items s = Done s' -> P s'.
Proof.
  revert s. induction items as [|a rest IH]; intros s Hbody Hs H; simpl in H.
  - injection H as <-. exact Hs.
  - apply bind_Done in H as (s1 & H1 & H). apply (IH s1); [| |exact H].
    + intros s0 a0 s0' Ha0. apply Hbody. apply list_elem_of_further. exact Ha0.
    + eapply Hbody; [apply list_elem_of_here | exact Hs | exact H1].
Qed.

(** ** The product with 0.05 *)

Lemma round_0_05 (a R t : Z) :
  0 < a <= 2 ^ 31 ->
  0 <= t + 52 ->
  2 ^ (t + 52) <= a * 3602879701896397 < 2 ^ (t + 53) ->
  Binary64.rounds (a * 3602879701896397) t R ->
  R / 2 ^ 56 = a / 20.
Proof.
  intros Ha Ht Hb Hr.
  assert (Hrange : -1 <= t <= 30).
  { pose proof (pow2_range_bounds t _ 51 83 Ht Hb) as Hx.
    assert (2 ^ 51 <= a * 3602879701896397 < 2 ^ 83) by (eval_pows; lia).
    lia. }
  clear Ht.
  assert (Hcases : t = -1 \/ t = 0 \/ t = 1 \/ t = 2 \/ t = 3 \/ t = 4 \/ t = 5 \/ t = 6
                   \/ t = 7 \/ t = 8 \/ t = 9 \/ t = 10 \/ t = 11 \/ t = 12 \/ t = 13
                   \/ t = 14 \/ t = 15 \/ t = 16 \/ t = 17 \/ t = 18 \/ t = 19 \/ t = 20
                   \/ t = 21 \/ t = 22 \/ t = 23 \/ t = 24 \/ t = 25 \/ t = 26 \/ t = 27
                   \/ t = 28 \/ t = 29 \/ t = 30) by lia.
  clear Hrange.
  repeat (destruct Hcases as [->|Hcases]); try subst t; round_cases Hr R.
Qed.

(** [(int)(k * 0.05)] is [k / 20] for a count [k]. *)
Lemma trunc_mul_0_05_exact (k : Z) :
  0 <= k < 2 ^ 31 ->
  Binary64.trunc_mul k lit_0_05 = k / 20.
Proof.
  unfold Binary64.trunc_mul. intros Hk.
  destruct (Z.eq_dec k 0) as [->|Hnz]; [reflexivity|].
  unfold Binary64.mul_magnitude. cbn [Binary64.significand Binary64.scale lit_0_05].
  destruct (round_to_prec_rounds (Z.abs k * 3602879701896397) ltac:(lia))
    as (t & Ht & Hb & Hr).
  rewrite (round_0_05 (Z.abs k) _ t ltac:(lia) Ht Hb Hr).
  rewrite (Z.sgn_pos k) by lia. replace (Z.abs k) with k by lia. lia.
Qed.

#[warnings="-inexact-float"]
Example literal_0_05_is_the_double :
  PrimFloat.eqb 0.05 double_0_05 = true
  /\ Prim2SF double_0_05 = S754_finite false 7205759403792794 (-57)
  /\ forallb (Binary64.agrees_with_kernel lit_0_05 double_0_05)
       [0; 1; 19; 20; 21; 39; 40; 99; 100; 1000; 65535; 123456789; 2147483647] = true.
Proof. repeat split; vm_compute; reflexivity. Qed.

(** ** The node-demand metric *)

Lemma get_num_routing_nodes_filter (rr_node : list RR_Node) :
  get_num_routing_nodes rr_node
  = Z.of_nat (length (filter (fun node => is_routing_node node = true) rr_node)).
Proof.
  unfold get_num_routing_nodes.
  assert (H : forall l a,
             fold_left (fun n node => if is_routing_node node then n + 1 else n) l a
             = a + Z.of_nat (length (filter (fun node => is_routing_node node = true) l))).
  { induction l as [|node l IH]; intros a; simpl; [lia|].
    rewrite IH, filter_cons. destruct (is_routing_node node); case_decide; simpl;
      try congruence; lia. }
  rewrite H. lia.
Qed.

Lemma get_num_routing_nodes_bounds (rr_node : list RR_Node) :
  0 <= get_num_routing_nodes rr_node <= Z.of_nat (length rr_node).
Proof.
  rewrite get_num_routing_nodes_filter.
  pose proof (length_filter (fun node => is_routing_node node = true) rr_node). lia.
Qed.

Lemma greater_true (a b : Q) : greater a b = true <-> (b < a)%Q.
Proof.
  unfold greater. rewrite negb_true_iff. split.
  - intros H. apply Qnot_le_lt. intros Hle. apply Qle_bool_iff in Hle. congruence.
  - intros H. destruct (Qle_bool a b) eqn:E; [|reflexivity].
    apply Qle_bool_iff in E. exfalso. exact (Qlt_not_le _ _ H E).
Qed.

Lemma greater_false (a b : Q) : greater a b = false <-> (a <= b)%Q.
Proof. unfold greater. rewrite negb_false_iff. apply Qle_bool_iff. Qed.

Lemma greater_asym (a b : Q) : greater a b = true -> greater b a = false.
Proof.
  intros H. apply greater_true in H. apply greater_false. apply Qlt_le_weak. exact H.
Qed.

Lemma greater_negtrans (a b c : Q) :
  greater a c = true -> greater a b = true \/ greater b c = true.
Proof.
  intros H. apply greater_true in H. destruct (Qlt_le_dec b a) as [Hab|Hba].
  - left. apply greater_true. exact Hab.
  - right. apply greater_true. eapply Qlt_le_trans; [exact H | exact Hba].
Qed.

Lemma push_routing_demands_all (get_demand : RR_Node -> Q) (rr_node : list RR_Node)
    (pq : My_Fixed_Size_PQ Q) :
  push_routing_demands get_demand rr_node pq
  = fs_push_all greater (routing_demands get_demand rr_node) pq.
Proof.
  unfold push_routing_demands, fs_push_all, routing_demands. revert pq.
  induction rr_node as [|node l IH]; intros pq; simpl; [reflexivity|].
  rewrite IH, filter_cons.
  destruct (is_routing_node node); case_decide; simpl; try congruence; reflexivity.
Qed.

(** Taking the top and popping, as often as there are entries, sums up
    the entries and leaves the queue empty. *)
Lemma sum_and_pop_all (k : option Z) (es : list Q) (summed : Q) :
  sum_and_pop (length es) (mk_Fixed_PQ k es) summed
  = Done (fold_left Qplus es summed, mk_Fixed_PQ k []).
Proof.
  revert summed. induction es as [|e es IH]; intros summed; simpl; [reflexivity|].
  unfold fs_pop. simpl. apply IH.
Qed.

Lemma sum_and_pop_size (pq : My_Fixed_Size_PQ Q) (summed : Q) :
  sum_and_pop (Z.to_nat (fs_size pq)) pq summed
  = Done (fold_left Qplus (fs_entries pq) summed, mk_Fixed_PQ (fs_max_size pq) []).
Proof.
  unfold fs_size. rewrite Nat2Z.id. destruct pq as [k es]. apply sum_and_pop_all.
Qed.

(** X2.  With at least 20 routing nodes, [node_demand_metric] returns
    the mean of the [n / 20] largest demands of the [n] routing nodes
    (CHANX and CHANY); the quotient is rounded down, the demands of the
    other nodes do not count, and the sum is formed in the order in
    which the queue hands its entries out. *)
Theorem node_demand_metric_mean_of_largest (get_demand : RR_Node -> Q) (rr_node : list RR_Node) :
  Z.of_nat (length rr_node) < 2 ^ 31 ->
  20 <= get_num_routing_nodes rr_node ->
  exists retained dropped,
    routing_demands get_demand rr_node ≡ₚ retained ++ dropped
    /\ Z.of_nat (length retained) = get_num_routing_nodes rr_node / 20
    /\ (forall a b, a ∈ retained -> b ∈ dropped -> (b <= a)%Q)
    /\ node_demand_metric get_demand rr_node
       = Done (Qsum retained / inject_Z (get_num_routing_nodes rr_node / 20))%Q.
Proof.
  intros Hlen Hn. pose proof (get_num_routing_nodes_bounds rr_node) as Hb.
  unfold node_demand_metric.
  rewrite trunc_mul_0_05_exact by lia.
  set (k := get_num_routing_nodes rr_node / 20).
  assert (Hk : 0 < k) by (subst k; Z.div_mod_to_equations; lia).
  assert (Hkn : k <= get_num_routing_nodes rr_node)
    by (subst k; Z.div_mod_to_equations; lia).
  destruct (Z.leb_spec k 0) as [Hle|_]; [lia|].
  rewrite push_routing_demands_all.
  destruct (fs_push_all_retains greater greater_asym greater_negtrans k
              (routing_demands get_demand rr_node)) as [Hl (dropped & Hperm & Hcross)].
  change (fs_set_properties k fs_default) with (@mk_Fixed_PQ Q (Some k) []).
  set (pq := fs_push_all greater (routing_demands get_demand rr_node)
               (mk_Fixed_PQ (Some k) [])) in *.
  assert (Hsize : fs_size pq = k).
  { unfold fs_size. rewrite Hl. unfold routing_demands. rewrite length_fmap.
    rewrite get_num_routing_nodes_filter in Hkn. lia. }
  exists (fs_entries pq), dropped. split; [exact Hperm|].
  split; [exact Hsize|]. split.
  - intros a b Ha Hb'. apply greater_false. apply Hcross; assumption.
  - rewrite sum_and_pop_size. simpl. rewrite Hsize. reflexivity.
Qed.

(** X1.  [node_demand_metric] throws "Asked to analyze demand of <= 0
    nodes" exactly when the graph has fewer than 20 routing nodes:
    [(int)(num_routing_nodes * 0.05)], computed in binary64, is
    [num_routing_nodes / 20] rounded down. *)
Theorem node_demand_metric_threshold (get_demand : RR_Node -> Q) (rr_node : list RR_Node) :
  Z.of_nat (length rr_node) < 2 ^ 31 ->
  node_demand_metric get_demand rr_node = Raise Ex_demand_of_no_nodes
  <-> get_num_routing_nodes rr_node < 20.
Proof.
  intros Hlen. pose proof (get_num_routing_nodes_bounds rr_node) as Hb.
  unfold node_demand_metric. rewrite trunc_mul_0_05_exact by lia.
  destruct (Z.leb_spec (get_num_routing_nodes rr_node / 20) 0) as [Hle|Hgt].
  - split; [|reflexivity]. intros _. Z.div_mod_to_equations. lia.
  - rewrite sum_and_pop_size. simpl. split; [discriminate|].
    intros Hn. Z.div_mod_to_equations. lia.
Qed.

(** ** The tiles at a given length *)

Lemma for_values_unit (from to : Z) : for_values from to 1 = seqZ from (to - from + 1).
Proof.
  unfold for_values. rewrite Z.div_1_r.
  rewrite <- (Z.add_0_r from) at 2. rewrite <- fmap_add_seqZ.
  apply list_fmap_ext. intros i x _. lia.
Qed.

Lemma elem_of_for_values_unit (from to i : Z) : i ∈ for_values from to 1 <-> from <= i <= to.
Proof. rewrite for_values_unit, elem_of_seqZ. lia. Qed.

(** The inner loop takes the two values [-y_distance] and [y_distance],
    or the single value 0. *)
Lemma for_values_y_distance (y_distance : Z) :
  0 <= y_distance ->
  for_values (- y_distance) y_distance (Z.max (2 * y_distance) 1)
  = if y_distance =? 0 then [0] else [- y_distance; y_distance].
Proof.
  intros Hy. unfold for_values. destruct (Z.eqb_spec y_distance 0) as [->|Hne].
  - reflexivity.
  - rewrite Z.max_l by lia.
    replace (y_distance - - y_distance) with (1 * (2 * y_distance)) by lia.
    rewrite Z.div_mul by lia. change (seqZ 0 (1 + 1)) with [0; 1].
    simpl. f_equal; [lia|]. f_equal. lia.
Qed.

Lemma ring_rows (length : Z) :
  ring length = for_values (- length) length 1 ≫= ring_row length.
Proof. reflexivity. Qed.

Lemma ring_row_values (length idx : Z) :
  Z.abs idx <= length ->
  ring_row length idx
  = if length - Z.abs idx =? 0 then [(idx, 0)]
    else [(idx, - (length - Z.abs idx)); (idx, length - Z.abs idx)].
Proof.
  intros H. unfold ring_row. cbv zeta. rewrite for_values_y_distance by lia.
  destruct (_ =? 0); reflexivity.
Qed.

Lemma elem_of_ring_row (length idx dx dy : Z) :
  Z.abs idx <= length ->
  (dx, dy) ∈ ring_row length idx <-> dx = idx /\ Z.abs dx + Z.abs dy = length.
Proof.
  intros H. rewrite ring_row_values by exact H.
  destruct (Z.eqb_spec (length - Z.abs idx) 0) as [Hz|Hnz].
  - rewrite list_elem_of_singleton. split.
    + intros Heq. injection Heq as -> ->. lia.
    + intros [-> Hd]. f_equal. lia.
  - rewrite !elem_of_cons, elem_of_nil. split.
    + intros [Heq|[Heq|[]]]; injection Heq as -> ->; lia.
    + intros [-> Hd]. destruct (Z.le_gt_cases 0 dy).
      * right. left. f_equal. lia.
      * left. f_equal. lia.
Qed.

Lemma elem_of_ring (length dx dy : Z) :
  (dx, dy) ∈ ring length <-> Z.abs dx + Z.abs dy = length.
Proof.
  rewrite ring_rows, list_elem_of_bind. split.
  - intros (idx & Hrow & Hidx). apply elem_of_for_values_unit in Hidx.
    apply elem_of_ring_row in Hrow; [|lia]. tauto.
  - intros H. exists dx. split.
    + apply elem_of_ring_row; [lia|]. auto.
    + apply elem_of_for_values_unit. lia.
Qed.

Lemma NoDup_ring (length : Z) : NoDup (ring length).
Proof.
  rewrite ring_rows. apply NoDup_bind.
  - intros x1 x2 [dx dy] H1 H2 Hy1 Hy2.
    apply elem_of_for_values_unit in H1, H2.
    apply elem_of_ring_row in Hy1; [|lia]. apply elem_of_ring_row in Hy2; [|lia]. lia.
  - intros idx Hidx. apply elem_of_for_values_unit in Hidx.
    rewrite ring_row_values by lia. destruct (Z.eqb_spec (length - Z.abs idx) 0).
    + apply NoDup_singleton.
    + apply NoDup_cons. split; [|apply NoDup_singleton].
      rewrite list_elem_of_singleton. intros Heq. injection Heq as Heq. lia.
  - rewrite for_values_unit. apply NoDup_seqZ.
Qed.

Lemma length_bind_two {A B} (f : A -> list B) (l : list A) :
  (forall x, x ∈ l -> length (f x) = 2%nat) -> length (l ≫= f) = (2 * length l)%nat.
Proof.
  induction l as [|x l IH]; intros H; [reflexivity|].
  rewrite bind_cons, length_app, IH, (H x); [simpl; lia | apply list_elem_of_here |].
  intros y Hy. apply H. apply list_elem_of_further. exact Hy.
Qed.

Lemma length_ring (length_ : Z) :
  1 <= length_ -> Z.of_nat (length (ring length_)) = 4 * length_.
Proof.
  intros HL. rewrite ring_rows, for_values_unit.
  replace (length_ - - length_ + 1) with (1 + ((2 * length_ - 1) + 1)) by lia.
  rewrite seqZ_app by lia. rewrite (seqZ_app _ (2 * length_ - 1) 1) by lia.
  rewrite !bind_app, !length_app.
  change (seqZ (- length_) 1) with [- length_].
  replace (- length_ + 1 + (2 * length_ - 1)) with length_ by lia.
  change (seqZ length_ 1) with [length_].
  rewrite (length_bind_two (ring_row length_) (seqZ (- length_ + 1) (2 * length_ - 1))).
  - rewrite length_seqZ.
    assert (H1 : length ([- length_] ≫= ring_row length_) = 1%nat).
    { simpl. rewrite app_nil_r, ring_row_values by lia.
      replace (length_ - Z.abs (- length_)) with 0 by lia. reflexivity. }
    assert (H2 : length ([length_] ≫= ring_row length_) = 1%nat).
    { simpl. rewrite app_nil_r, ring_row_values by lia.
      replace (length_ - Z.abs length_) with 0 by lia. reflexivity. }
    rewrite H1, H2. lia.
  - intros idx Hidx. apply elem_of_seqZ in Hidx. rewrite ring_row_values by lia.
    destruct (Z.eqb_spec (length_ - Z.abs idx) 0); [lia | reflexivity].
Qed.

(** X3.  The two loops over [idx] and [idy], which
    [conns_at_distance_from_tile] and [enumerate_paths_from_source]
    share, reach exactly the offsets at Manhattan distance [length],
    each of them once; for a negative [length] they reach nothing. *)
Theorem ring_is_manhattan_circle (length : Z) :
  (forall dx dy, (dx, dy) ∈ ring length <-> Z.abs dx + Z.abs dy = length)
  /\ NoDup (ring length)
  /\ (length < 0 -> ring length = []).
Proof.
  split; [intros dx dy; apply elem_of_ring|]. split; [apply NoDup_ring|].
  intros Hneg. destruct (ring length) as [|[dx dy] rest] eqn:E; [reflexivity|].
  assert (Hin : (dx, dy) ∈ ring length) by (rewrite E; apply list_elem_of_here).
  apply elem_of_ring in Hin. lia.
Qed.

(** ** Connections at a given length *)

Section Connection_Length_Facts.
Variable get_num_receivers : Physical_Type_Descriptor -> Z.
Variable get_num_drivers : Physical_Type_Descriptor -> Z.

Lemma filter_all {A} (P : A -> Prop) `{!forall x, Decision (P x)} (l : list A) :
  (forall x, x ∈ l -> P x) -> filter P l = l.
Proof.
  induction l as [|x l IH]; intros Hall; [reflexivity|].
  rewrite filter_cons. rewrite decide_True by (apply Hall, list_elem_of_here).
  f_equal. apply IH. intros y Hy. apply Hall, list_elem_of_further, Hy.
Qed.

Lemma add_conns_uniform (tile_x tile_y : Z) (grid : list (list Grid_Tile))
    (gx gy : Z) (block_type : list Physical_Type_Descriptor) (fill_type_ind : Z)
    (fill_type : Physical_Type_Descriptor) (l : list (Z * Z)) (num_conns : Z) :
  logic_blocks_inside grid gx gy fill_type_ind ->
  at_int block_type fill_type_ind = Ok fill_type ->
  for_each (add_conns_of_block get_num_receivers tile_x tile_y grid gx gy block_type
              fill_type_ind) l num_conns
  = Done (num_conns
          + get_num_receivers fill_type
            * Z.of_nat (length (filter (fun d => within_perimeter (tile_x + d.1)
                                                   (tile_y + d.2) gx gy = true) l))).
Proof.
  intros Hgrid Hfill. revert num_conns.
  induction l as [|d l IH]; intros num_conns.
  - simpl. f_equal. lia.
  - assert (Hb : add_conns_of_block get_num_receivers tile_x tile_y grid gx gy block_type
                   fill_type_ind num_conns d
                 = Done (num_conns
                         + if within_perimeter (tile_x + d.1) (tile_y + d.2) gx gy
                           then get_num_receivers fill_type else 0)).
    { unfold add_conns_of_block. cbv zeta.
      destruct (within_perimeter (tile_x + d.1) (tile_y + d.2) gx gy) eqn:Hin.
      - destruct (Hgrid _ _ Hin) as (tile & Htile & Htype). rewrite Htile. simpl.
        rewrite Htype, Z.eqb_refl. simpl. rewrite Hfill. reflexivity.
      - f_equal. lia. }
    simpl. rewrite Hb. simpl. rewrite IH, filter_cons.
    destruct (within_perimeter (tile_x + d.1) (tile_y + d.2) gx gy).
    + rewrite decide_True by reflexivity. f_equal. simpl length. lia.
    + rewrite decide_False by discriminate. f_equal. lia.
Qed.

(** X4.  On a grid whose blocks inside the perimeter are all logic blocks,
    the number of connections at a length is the number of input pins
    of a logic block times the number of blocks at that Manhattan
    distance inside the perimeter; there are [4 * length] of them when
    the perimeter is further away than [length]. *)
Theorem conns_at_distance_on_logic_grid (tile_x tile_y length_ : Z)
    (grid : list (list Grid_Tile)) (grid_size_x grid_size_y : Z)
    (block_type : list Physical_Type_Descriptor) (fill_type_ind : Z)
    (fill_type : Physical_Type_Descriptor) :
  logic_blocks_inside grid grid_size_x grid_size_y fill_type_ind ->
  at_int block_type fill_type_ind = Ok fill_type ->
  conns_at_distance_from_tile get_num_receivers tile_x tile_y length_ grid
    grid_size_x grid_size_y block_type fill_type_ind
  = Done (get_num_receivers fill_type
          * Z.of_nat (length (ring_inside tile_x tile_y length_ grid_size_x grid_size_y)))
  /\ (1 <= length_ ->
      length_ < tile_x -> tile_x + length_ < grid_size_x - 1 ->
      length_ < tile_y -> tile_y + length_ < grid_size_y - 1 ->
      conns_at_distance_from_tile get_num_receivers tile_x tile_y length_ grid
        grid_size_x grid_size_y block_type fill_type_ind
      = Done (4 * length_ * get_num_receivers fill_type)).
Proof.
  intros Hgrid Hfill.
  assert (Hval := add_conns_uniform tile_x tile_y grid grid_size_x grid_size_y block_type
                    fill_type_ind fill_type (ring length_) 0 Hgrid Hfill).
  split.
  - unfold conns_at_distance_from_tile. rewrite Hval. reflexivity.
  - intros HL Hx1 Hx2 Hy1 Hy2. unfold conns_at_distance_from_tile. rewrite Hval.
    rewrite filter_all.
    + rewrite length_ring by exact HL. f_equal. lia.
    + intros [dx dy] Hd. apply elem_of_ring in Hd. unfold within_perimeter. simpl.
      rewrite !andb_true_iff, !Z.gtb_ltb, !Z.ltb_lt. lia.
Qed.

Lemma add_conns_raises (tile_x tile_y : Z) (grid : list (list Grid_Tile))
    (gx gy : Z) (block_type : list Physical_Type_Descriptor) (fill_type_ind : Z)
    (fill_type : Physical_Type_Descriptor) (l : list (Z * Z)) (num_conns : Z) :
  (forall d, d ∈ l -> within_perimeter (tile_x + d.1) (tile_y + d.2) gx gy = true ->
             exists tile, tile_at grid (tile_x + d.1) (tile_y + d.2) = Ok tile) ->
  at_int block_type fill_type_ind = Ok fill_type ->
  for_each (add_conns_of_block get_num_receivers tile_x tile_y grid gx gy block_type
              fill_type_ind) l num_conns = Raise Ex_block_not_fill_type
  <-> exists d tile,
        d ∈ l /\ within_perimeter (tile_x + d.1) (tile_y + d.2) gx gy = true
        /\ tile_at grid (tile_x + d.1) (tile_y + d.2) = Ok tile
        /\ type_index tile <> fill_type_ind.
Proof.
  intros Htiles Hfill. revert num_conns.
  induction l as [|d l IH]; intros num_conns; simpl.
  - split; [discriminate|]. intros (d & tile & Hd & _). apply elem_of_nil in Hd. contradiction.
  - assert (Htl : forall d0, d0 ∈ l ->
                    within_perimeter (tile_x + d0.1) (tile_y + d0.2) gx gy = true ->
                    exists tile, tile_at grid (tile_x + d0.1) (tile_y + d0.2) = Ok tile).
    { intros d0 Hd0. apply Htiles. apply list_elem_of_further. exact Hd0. }
    specialize (IH Htl).
    destruct (within_perimeter (tile_x + d.1) (tile_y + d.2) gx gy) eqn:Hin.
    + destruct (Htiles d (list_elem_of_here _ _) Hin) as (tile & Htile).
      destruct (Z.eqb_spec (type_index tile) fill_type_ind) as [He|Hne].
      * assert (Hb : add_conns_of_block get_num_receivers tile_x tile_y grid gx gy
                       block_type fill_type_ind num_conns d
                     = Done (num_conns + get_num_receivers fill_type)).
        { unfold add_conns_of_block. cbv zeta. rewrite Hin, Htile. simpl.
          rewrite He, Z.eqb_refl. simpl. rewrite Hfill. reflexivity. }
        rewrite Hb. simpl. rewrite IH. split.
        -- intros (d0 & t0 & Hd0 & H0). exists d0, t0.
           split; [apply list_elem_of_further; exact Hd0 | exact H0].
        -- intros (d0 & t0 & Hd0 & Hin0 & Ht0 & Hne0).
           apply elem_of_cons in Hd0 as [->|Hd0]; [congruence|]. eauto 10.
      * assert (Hb : add_conns_of_block get_num_receivers tile_x tile_y grid gx gy
                       block_type fill_type_ind num_conns d
                     = Raise Ex_block_not_fill_type).
        { unfold add_conns_of_block. cbv zeta. rewrite Hin, Htile. simpl.
          destruct (Z.eqb_spec (type_index tile) fill_type_ind); [contradiction|].
          reflexivity. }
        rewrite Hb. simpl. split; [|reflexivity]. intros _. exists d, tile.
        split; [apply list_elem_of_here|]. auto.
    + assert (Hb : add_conns_of_block get_num_receivers tile_x tile_y grid gx gy
                     block_type fill_type_ind num_conns d = Done num_conns).
      { unfold add_conns_of_block. cbv zeta. rewrite Hin. reflexivity. }
      rewrite Hb. simpl. rewrite IH. split.
      * intros (d0 & t0 & Hd0 & H0). exists d0, t0.
        split; [apply list_elem_of_further; exact Hd0 | exact H0].
      * intros (d0 & t0 & Hd0 & Hin0 & Ht0 & Hne0).
        apply elem_of_cons in Hd0 as [->|Hd0]; [congruence|]. eauto 10.
Qed.

(** X5.  On a grid that has a block at every place inside the
    perimeter, [conns_at_distance_from_tile] throws "Encountered block
    that isn't of fill type" exactly when one of the blocks at that Manhattan
    distance inside the perimeter is of another type. *)
Theorem conns_at_distance_raises_iff (tile_x tile_y length_ : Z)
    (grid : list (list Grid_Tile)) (grid_size_x grid_size_y : Z)
    (block_type : list Physical_Type_Descriptor) (fill_type_ind : Z)
    (fill_type : Physical_Type_Descriptor) :
  (forall x y, within_perimeter x y grid_size_x grid_size_y = true ->
               exists tile, tile_at grid x y = Ok tile) ->
  at_int block_type fill_type_ind = Ok fill_type ->
  conns_at_distance_from_tile get_num_receivers tile_x tile_y length_ grid
    grid_size_x grid_size_y block_type fill_type_ind = Raise Ex_block_not_fill_type
  <-> exists dx dy tile,
        Z.abs dx + Z.abs dy = length_
        /\ within_perimeter (tile_x + dx) (tile_y + dy) grid_size_x grid_size_y = true
        /\ tile_at grid (tile_x + dx) (tile_y + dy) = Ok tile
        /\ type_index tile <> fill_type_ind.
Proof.
  intros Htiles Hfill. unfold conns_at_distance_from_tile.
  rewrite (add_conns_raises tile_x tile_y grid grid_size_x grid_size_y block_type
             fill_type_ind fill_type (ring length_) 0); [|auto|exact Hfill].
  split.
  - intros ([dx dy] & tile & Hd & H0). apply elem_of_ring in Hd. exists dx, dy, tile. auto.
  - intros (dx & dy & tile & Hd & H0). exists (dx, dy), tile.
    split; [apply elem_of_ring; exact Hd | exact H0].
Qed.

Lemma vector_assign_Done {A} (n : Z) (x : A) (v : list A) :
  vector_assign n x = Done v -> 0 <= n /\ v = replicate (Z.to_nat n) x.
Proof.
  unfold vector_assign. destruct (Z.ltb_spec n 0) as [Hn|Hn]; [discriminate|].
  intros Hv. injection Hv as <-. split; [lia | reflexivity].
Qed.

Lemma set_int_Ok {A} (v v' : list A) (i : Z) (a : A) :
  set_int v i a = Ok v' -> 0 <= i /\ v' = <[Z.to_nat i := a]> v.
Proof.
  unfold set_int, set_index. destruct (Z.ltb_spec i 0) as [Hi|Hi]; [discriminate|].
  case_decide; [|discriminate]. intros Hv. injection Hv as <-. split; [lia | reflexivity].
Qed.

Lemma add_conn_lengths_of_tile_shape (max_conn_length : Z) (arch_structs : Arch_Structs)
    (fill_type : Physical_Type_Descriptor) (ix iy : Z) (conns conns' : list Z) :
  add_conn_lengths_of_tile get_num_receivers get_num_drivers max_conn_length arch_structs
    fill_type ix conns iy = Done conns' ->
  length conns' = length conns /\ conns' !! 0%nat = conns !! 0%nat.
Proof.
  unfold add_conn_lengths_of_tile. cbv zeta. intros H.
  apply bind_Done in H as (tile & _ & H).
  destruct (negb _); [discriminate|]. destruct (_ || _); [discriminate|].
  revert H.
  apply (for_each_invariant
           (fun c => length c = length conns /\ c !! 0%nat = conns !! 0%nat));
    [|split; reflexivity].
  intros c ilen c' Hilen [Hl H0] Hstep.
  apply elem_of_for_values_unit in Hilen.
  apply bind_Done in Hstep as (n & _ & Hstep).
  apply bind_Done in Hstep as (c0 & _ & Hstep).
  apply lift_Done in Hstep. apply set_int_Ok in Hstep as [_ ->].
  rewrite length_insert. split; [exact Hl|].
  rewrite list_lookup_insert_ne by lia. exact H0.
Qed.

(** The statistics have an entry for each length from 0 to the maximum
    connection length, and the entry of length 0 is 0. *)
Lemma conn_length_stats_shape (max_connection_length : Z) (analyze_core : bool)
    (arch_structs : Arch_Structs) (conns_at_length : list Z) :
  get_conn_length_stats get_num_receivers get_num_drivers max_connection_length
    analyze_core arch_structs = Done conns_at_length ->
  Z.of_nat (length conns_at_length) = max_connection_length + 1
  /\ forall c, conns_at_length !! 0%nat = Some c -> c = 0.
Proof.
  unfold get_conn_length_stats. cbv zeta. intros H.
  apply bind_Done in H as (fill_type & _ & H).
  apply bind_Done in H as (conns0 & Hassign & H).
  apply vector_assign_Done in Hassign as [Hn ->].
  destruct (stats_region analyze_core arch_structs) as [[[from_x to_x] from_y] to_y].
  set (n := Z.to_nat (max_connection_length + 1)) in *.
  assert (HP : length conns_at_length = n
               /\ conns_at_length !! 0%nat = replicate n 0 !! 0%nat).
  { revert H.
    apply (for_each_invariant
             (fun c => length c = n /\ c !! 0%nat = replicate n 0 !! 0%nat)).
    - intros c ix c' _ HPc Hrow. revert Hrow.
      apply (for_each_invariant
               (fun c => length c = n /\ c !! 0%nat = replicate n 0 !! 0%nat));
        [|exact HPc].
      intros c1 iy c1' _ [Hl1 H1] Hstep.
      apply add_conn_lengths_of_tile_shape in Hstep as [Hl' H0']. split; congruence.
    - split; [apply length_replicate | reflexivity]. }
  destruct HP as [Hl H0]. split; [subst n; lia|].
  intros c Hc. rewrite H0 in Hc. apply lookup_replicate in Hc as [Hc _]. exact Hc.
Qed.

Lemma set_lowest_probs_pqs_total (todo ilen : nat) (conns_at_length : list Z)
    (pqs : list (My_Fixed_Size_PQ Q)) :
  (ilen + todo <= length conns_at_length)%nat ->
  (ilen + todo <= length pqs)%nat ->
  exists pqs', set_lowest_probs_pqs todo ilen conns_at_length pqs = Ok pqs'.
Proof.
  revert ilen pqs. induction todo as [|todo IH]; intros ilen pqs Hc Hp; simpl; [eauto|].
  destruct (lookup_lt_is_Some_2 conns_at_length ilen ltac:(lia)) as [c Hci].
  rewrite (at_index_lookup _ _ _ Hci). simpl.
  destruct (c =? 0); [apply IH; lia|].
  destruct (lookup_lt_is_Some_2 pqs ilen ltac:(lia)) as [pq Hpq].
  rewrite (at_index_lookup _ _ _ Hpq). simpl.
  apply IH; [lia | rewrite length_insert; lia].
Qed.

(** X6.  What [get_conn_length_stats] returns has an entry for every
    length from 0 to the maximum connection length, the entry of length
    0 being 0, and it fits the creation of the queues of the lowest
    probabilities in [analyze_fpga_architecture]: that does not fail,
    there is a queue for every length, a length with connections gets
    the capacity [(int)(#conns * 0.10)], and a length without, as length
    0, keeps a queue whose capacity is never set. *)
Theorem lowest_probs_pqs_from_stats (max_connection_length : Z) (analyze_core : bool)
    (arch_structs : Arch_Structs) (conns_at_length : list Z) :
  get_conn_length_stats get_num_receivers get_num_drivers max_connection_length
    analyze_core arch_structs = Done conns_at_length ->
  Z.of_nat (length conns_at_length) = max_connection_length + 1
  /\ (forall c, conns_at_length !! 0%nat = Some c -> c = 0)
  /\ exists pqs,
    create_lowest_probs_pqs max_connection_length conns_at_length = Ok pqs
    /\ Z.of_nat (length pqs) = max_connection_length + 1
    /\ (forall pq, pqs !! 0%nat = Some pq -> pq = fs_default)
    /\ forall ilen c, conns_at_length !! ilen = Some c ->
          pqs !! ilen
          = Some (if c =? 0 then fs_default
                  else fs_set_properties (entries_limit c) fs_default).
Proof.
  intros Hstats. destruct (conn_length_stats_shape _ _ _ _ Hstats) as [Hlen Hzero].
  split; [exact Hlen|]. split; [exact Hzero|].
  unfold create_lowest_probs_pqs. cbv zeta.
  set (n := Z.to_nat (max_connection_length + 1)).
  assert (Hn : length conns_at_length = n) by (subst n; lia).
  destruct (set_lowest_probs_pqs_total n 0 conns_at_length (replicate n fs_default))
    as [pqs Hpqs]; [lia | rewrite length_replicate; lia |].
  exists pqs. split; [exact Hpqs|].
  apply set_lowest_probs_pqs_spec in Hpqs as [Hl Hspec].
  rewrite length_replicate in Hl.
  assert (Hall : forall ilen c, conns_at_length !! ilen = Some c ->
            pqs !! ilen
            = Some (if c =? 0 then fs_default
                    else fs_set_properties (entries_limit c) fs_default)).
  { intros ilen c Hc. pose proof (lookup_lt_Some _ _ _ Hc) as Hlt.
    destruct (Hspec ilen) as [Hin _]. apply (Hin ltac:(lia) c fs_default Hc).
    apply lookup_replicate. split; [reflexivity | lia]. }
  split; [lia|]. split; [|exact Hall].
  intros pq Hpq. destruct (conns_at_length !! 0%nat) as [c|] eqn:Hc.
  - rewrite (Hall _ _ Hc) in Hpq. rewrite (Hzero c eq_refl) in Hpq. simpl in Hpq. congruence.
  - apply lookup_lt_Some in Hpq. apply lookup_ge_None in Hc. lia.
Qed.

End Connection_Length_Facts.
(** ** The summary of the queues of the lowest probabilities *)

(** X7.  [analyze_lowest_probs_pqs] returns the sum of all entries of
    all queues and leaves every queue empty, with its capacity as it
    was; called on the queues a second time it adds nothing. *)
Theorem analyze_lowest_probs_pqs_drains (pqs : list (My_Fixed_Size_PQ Q)) (result : Q) :
  let emptied := (fun pq => mk_Fixed_PQ (fs_max_size pq) []) <$> pqs in
  analyze_lowest_probs_pqs pqs result
  = Done (fold_left Qplus (concat (fs_entries <$> pqs)) result, emptied)
  /\ forall result', analyze_lowest_probs_pqs emptied result' = Done (result', emptied).
Proof.
  cbv zeta. split.
  - revert result. induction pqs as [|pq rest IH]; intros result; simpl; [reflexivity|].
    rewrite sum_and_pop_size. simpl. rewrite IH. simpl.
    rewrite fold_left_app. reflexivity.
  - induction pqs as [|pq rest IH]; intros result'; simpl; [reflexivity|].
    rewrite IH. reflexivity.
Qed.

(** ** A simple graph *)

Lemma the_only_skip (ty : e_rr_type) (node : RR_Node) (l : list RR_Node) (i s s' : Z) :
  rr_type node <> ty ->
  ((s' = s /\ forall j n, l !! j = Some n -> rr_type n <> ty)
   \/ (s = UNDEFINED
       /\ exists j n, s' = i + 1 + Z.of_nat j /\ l !! j = Some n /\ rr_type n = ty
            /\ forall j' n', l !! j' = Some n' -> rr_type n' = ty -> j' = j)) ->
  (s' = s /\ forall j n, (node :: l) !! j = Some n -> rr_type n <> ty)
  \/ (s = UNDEFINED
      /\ exists j n, s' = i + Z.of_nat j /\ (node :: l) !! j = Some n /\ rr_type n = ty
           /\ forall j' n', (node :: l) !! j' = Some n' -> rr_type n' = ty -> j' = j).
Proof.
  intros Hty [[-> Hnone]|[-> (j & n & -> & Hj & Hn & Huniq)]].
  - left. split; [reflexivity|]. intros [|j] n Hj; simpl in Hj.
    + injection Hj as <-. exact Hty.
    + eapply Hnone; exact Hj.
  - right. split; [reflexivity|]. exists (S j), n. split; [lia|].
    split; [exact Hj|]. split; [exact Hn|].
    intros [|j'] n' Hj' Hn'; simpl in Hj'.
    + injection Hj' as <-. contradiction.
    + f_equal. eapply Huniq; eassumption.
Qed.

Lemma the_only_hit (ty : e_rr_type) (node : RR_Node) (l : list RR_Node) (i s' : Z) :
  rr_type node = ty -> 0 <= i ->
  ((s' = i /\ forall j n, l !! j = Some n -> rr_type n <> ty)
   \/ (i = UNDEFINED
       /\ exists j n, s' = i + 1 + Z.of_nat j /\ l !! j = Some n /\ rr_type n = ty
            /\ forall j' n', l !! j' = Some n' -> rr_type n' = ty -> j' = j)) ->
  (s' = UNDEFINED /\ forall j n, (node :: l) !! j = Some n -> rr_type n <> ty)
  \/ (UNDEFINED = UNDEFINED
      /\ exists j n, s' = i + Z.of_nat j /\ (node :: l) !! j = Some n /\ rr_type n = ty
           /\ forall j' n', (node :: l) !! j' = Some n' -> rr_type n' = ty -> j' = j).
Proof.
  intros Hty Hi [[-> Hnone]|[Hu _]]; [|unfold UNDEFINED in Hu; lia].
  right. split; [reflexivity|]. exists 0%nat, node. split; [lia|].
  split; [reflexivity|]. split; [exact Hty|].
  intros [|j'] n' Hj' Hn'; [reflexivity|]. exfalso. exact (Hnone j' n' Hj' Hn').
Qed.

Lemma find_source_and_sink_Done (l : list RR_Node) (i s k s' k' : Z) :
  0 <= i ->
  find_source_and_sink l i s k = Done (s', k') ->
  ((s' = s /\ forall j node, l !! j = Some node -> rr_type node <> SOURCE)
   \/ (s = UNDEFINED
       /\ exists j node, s' = i + Z.of_nat j /\ l !! j = Some node /\ rr_type node = SOURCE
            /\ forall j' node', l !! j' = Some node' -> rr_type node' = SOURCE -> j' = j))
  /\ ((k' = k /\ forall j node, l !! j = Some node -> rr_type node <> SINK)
      \/ (k = UNDEFINED
          /\ exists j node, k' = i + Z.of_nat j /\ l !! j = Some node /\ rr_type node = SINK
               /\ forall j' node', l !! j' = Some node' -> rr_type node' = SINK -> j' = j)).
Proof.
  revert i s k. induction l as [|node l IH]; intros i s k Hi H; simpl in H.
  - injection H as <- <-. split; left; (split; [reflexivity|]); intros j n Hj; discriminate Hj.
  - destruct (rr_type node) eqn:Hty.
    1: { destruct (Z.eqb_spec s UNDEFINED) as [->|Hs]; [|discriminate].
         apply IH in H as [Hsrc Hsnk]; [|lia]. split.
         - apply the_only_hit; assumption.
         - apply the_only_skip; [congruence | exact Hsnk]. }
    1: { destruct (Z.eqb_spec k UNDEFINED) as [->|Hk]; [|discriminate].
         apply IH in H as [Hsrc Hsnk]; [|lia]. split.
         - apply the_only_skip; [congruence | exact Hsrc].
         - apply the_only_hit; assumption. }
    all: apply IH in H as [Hsrc Hsnk]; [|lia];
      split; (apply the_only_skip; [congruence | assumption]).
Qed.

(** The scan throws nothing but its two exceptions, and each of them
    only at a second node of the type. *)
Lemma find_source_and_sink_Raise (l : list RR_Node) (i s k : Z) (e : analysis_exception) :
  find_source_and_sink l i s k = Raise e ->
  (e = Ex_more_than_one_source
   /\ ((s <> UNDEFINED /\ exists j n, l !! j = Some n /\ rr_type n = SOURCE)
       \/ has_two SOURCE l))
  \/ (e = Ex_more_than_one_sink
      /\ ((k <> UNDEFINED /\ exists j n, l !! j = Some n /\ rr_type n = SINK)
          \/ has_two SINK l)).
Proof.
  assert (Hcons : forall ty (node : RR_Node) (l : list RR_Node), has_two ty l ->
            has_two ty (node :: l)).
  { intros ty node l0 (a & b & n & m & Hab & Ha & Hb & Hn & Hm).
    exists (S a), (S b), n, m. repeat split; try assumption. lia. }
  assert (Hhead : forall ty (node : RR_Node) (l : list RR_Node), rr_type node = ty ->
            (exists j n, l !! j = Some n /\ rr_type n = ty) -> has_two ty (node :: l)).
  { intros ty node l0 Hty (j & n & Hj & Hn).
    exists 0%nat, (S j), node, n. repeat split; try assumption. lia. }
  assert (Hlater : forall ty (node : RR_Node) (l : list RR_Node),
            (exists j n, l !! j = Some n /\ rr_type n = ty) ->
            exists j n, (node :: l) !! j = Some n /\ rr_type n = ty).
  { intros ty node l0 (j & n & Hj & Hn). exists (S j), n. split; assumption. }
  revert i s k. induction l as [|node l IH]; intros i s k H; simpl in H; [discriminate|].
  destruct (rr_type node) eqn:Hty.
  1: { destruct (Z.eqb_spec s UNDEFINED) as [->|Hs].
       - apply IH in H as [[-> [[_ Hex]|H2]]|[-> [[Hk Hex]|H2]]].
         + left. split; [reflexivity|]. right. apply Hhead; assumption.
         + left. split; [reflexivity|]. right. apply Hcons. exact H2.
         + right. split; [reflexivity|]. left. split; [exact Hk|]. apply Hlater. exact Hex.
         + right. split; [reflexivity|]. right. apply Hcons. exact H2.
       - injection H as <-. left. split; [reflexivity|]. left. split; [exact Hs|].
         exists 0%nat, node. split; [reflexivity | exact Hty]. }
  1: { destruct (Z.eqb_spec k UNDEFINED) as [->|Hk].
       - apply IH in H as [[-> [[Hs Hex]|H2]]|[-> [[_ Hex]|H2]]].
         + left. split; [reflexivity|]. left. split; [exact Hs|]. apply Hlater. exact Hex.
         + left. split; [reflexivity|]. right. apply Hcons. exact H2.
         + right. split; [reflexivity|]. right. apply Hhead; assumption.
         + right. split; [reflexivity|]. right. apply Hcons. exact H2.
       - injection H as <-. right. split; [reflexivity|]. left. split; [exact Hk|].
         exists 0%nat, node. split; [reflexivity | exact Hty]. }
  all: apply IH in H as [[-> [[Hs Hex]|H2]]|[-> [[Hk Hex]|H2]]];
    [ left; split; [reflexivity|]; left; split; [exact Hs|]; apply Hlater; exact Hex
    | left; split; [reflexivity|]; right; apply Hcons; exact H2
    | right; split; [reflexivity|]; left; split; [exact Hk|]; apply Hlater; exact Hex
    | right; split; [reflexivity|]; right; apply Hcons; exact H2 ].
Qed.

Lemma the_only_not_two (ty : e_rr_type) (rr_node : list RR_Node) (ind : Z) :
  the_only ty rr_node ind -> has_two ty rr_node -> False.
Proof.
  intros [[_ Hnone]|(j & node & _ & _ & _ & Huniq)] (a & b & n & m & Hab & Ha & Hb & Hn & Hm).
  - exact (Hnone a n Ha Hn).
  - apply Hab. rewrite (Huniq a n Ha Hn), (Huniq b m Hb Hm). reflexivity.
Qed.

(** A scan that returns has seen neither two sources nor two sinks, and
    a scan that throws throws one of its two exceptions. *)
Lemma find_source_and_sink_cases (rr_node : list RR_Node) :
  match find_source_and_sink rr_node 0 UNDEFINED UNDEFINED with
  | Done _ => ~ has_two SOURCE rr_node /\ ~ has_two SINK rr_node
  | Raise e => e = Ex_more_than_one_source \/ e = Ex_more_than_one_sink
  end.
Proof.
  destruct (find_source_and_sink rr_node 0 UNDEFINED UNDEFINED) as [[s k]|e] eqn:H.
  - apply find_source_and_sink_Done in H as [Hs Hk]; [|lia]. split.
    + intros Htwo. apply (the_only_not_two SOURCE rr_node s); [|exact Htwo].
      destruct Hs as [[-> Hnone]|[_ (j & n & -> & H1)]]; [left; auto|].
      right. exists j, n. split; [lia | exact H1].
    + intros Htwo. apply (the_only_not_two SINK rr_node k); [|exact Htwo].
      destruct Hk as [[-> Hnone]|[_ (j & n & -> & H2)]]; [left; auto|].
      right. exists j, n. split; [lia | exact H2].
  - apply find_source_and_sink_Raise in H as [[-> _]|[-> _]]; auto.
Qed.

(** X8.  The scan of [analyze_simple_graph] for the source and the
    sink: when it returns, each of the two indices is that of the only
    node of its type, or [UNDEFINED] when the graph has no such node;
    it throws "Expected to only find one source node" only when the
    graph has two sources and "Expected to only find one sink node"
    only when it has two sinks, it throws nothing else, and with two
    sources or two sinks it does throw. *)
Theorem find_source_and_sink_unique (rr_node : list RR_Node) :
  match find_source_and_sink rr_node 0 UNDEFINED UNDEFINED with
  | Done (source_node_ind, sink_node_ind) =>
      the_only SOURCE rr_node source_node_ind /\ the_only SINK rr_node sink_node_ind
      /\ ~ has_two SOURCE rr_node /\ ~ has_two SINK rr_node
  | Raise e =>
      (e = Ex_more_than_one_source /\ has_two SOURCE rr_node)
      \/ (e = Ex_more_than_one_sink /\ has_two SINK rr_node)
  end.
Proof.
  destruct (find_source_and_sink rr_node 0 UNDEFINED UNDEFINED) as [[s k]|e] eqn:H.
  - apply find_source_and_sink_Done in H as [Hs Hk]; [|lia].
    assert (H1 : the_only SOURCE rr_node s).
    { destruct Hs as [[-> Hnone]|[_ (j & n & -> & H1)]]; [left; auto|].
      right. exists j, n. split; [lia | exact H1]. }
    assert (H2 : the_only SINK rr_node k).
    { destruct Hk as [[-> Hnone]|[_ (j & n & -> & H2)]]; [left; auto|].
      right. exists j, n. split; [lia | exact H2]. }
    split; [exact H1|]. split; [exact H2|].
    split; [exact (the_only_not_two _ _ _ H1) | exact (the_only_not_two _ _ _ H2)].
  - apply find_source_and_sink_Raise in H as [[-> [[Hne _]|H2]]|[-> [[Hne _]|H2]]];
      try contradiction; [left | right]; auto.
Qed.

Section Simple_Graph_Facts.
Context {Demands : Type}.
Variable env : Collaborators Demands.

(** X9.  [analyze_simple_graph] comes to a connection probability only
    for a graph that has neither two sources nor two sinks, and that
    probability is a value of the unit interval or a NaN (which the
    range tests of [estimate_connection_probability] let through and
    the function prints as it is); for a graph with two sources or two
    sinks it throws "Expected to only find one source node" or
    "Expected to only find one sink node". *)
Theorem analyze_simple_graph_one_pair (arch_structs : Arch_Structs)
    (rr_node : list RR_Node) (demands : Demands) :
  match analyze_simple_graph env arch_structs rr_node demands with
  | Done connection_probability =>
      (connection_probability = S754_nan
       \/ Binary32.in_unit_interval connection_probability)
      /\ ~ has_two SOURCE rr_node
      /\ ~ has_two SINK rr_node
  | Raise e =>
      has_two SOURCE rr_node \/ has_two SINK rr_node ->
      e = Ex_more_than_one_source \/ e = Ex_more_than_one_sink
  end.
Proof.
  unfold analyze_simple_graph. cbv zeta.
  pose proof (find_source_and_sink_cases rr_node) as Hfind.
  destruct (find_source_and_sink rr_node 0 UNDEFINED UNDEFINED) as [[s k]|e0]; simpl.
  - destruct Hfind as (Hns & Hnk).
    match goal with
    | |- match ?r with _ => _ end =>
        destruct r as [p|e] eqn:Hrun; [|intros [H2|H2]; contradiction]
    end.
    apply bind_Done in Hrun as (source & _ & Hrun).
    apply bind_Done in Hrun as (sink & _ & Hrun).
    apply bind_Done in Hrun as (w & _ & Hrun).
    apply bind_Done in Hrun as ([[nv ss] topo] & _ & Hrun).
    apply bind_Done in Hrun as ([p0 w0] & Hest & Hrun). injection Hrun as <-.
    apply lift_Done, estimate_result_in_range in Hest. auto.
  - intros _. exact Hfind.
Qed.

End Simple_Graph_Facts.
(** ** The loop of a worker *)

Section Worker_Facts.
Context {Demands : Type}.
Variable env : Collaborators Demands.
Variable get_num_receivers : Physical_Type_Descriptor -> Z.
Variable get_dx_plus_dy : Coordinate -> Z -> Z -> Z.
Variable rr_node_index : e_rr_type -> Z -> Z -> nat -> nat.
Variable max_connection_length : Z.
Variable analysis_settings : Analysis_Settings.
Variable arch_structs : Arch_Structs.
Variable rr_node : list RR_Node.
Variable topological_mode : e_topological_mode.

Lemma counters_follow_refl (r : Analysis_Results) : counters_follow topological_mode r r.
Proof. unfold counters_follow. split; lia. Qed.

Lemma analyze_sink_classes_counters (r0 : Analysis_Results) (source : nat)
    (tile_coord : Coordinate) (ilen dest_x dest_y : Z) (dest_type : Physical_Type_Descriptor)
    (classes : list Pin_Class) (iclass : nat) (st st' : Analysis_Results * world Demands) :
  counters_follow topological_mode r0 st.1 ->
  analyze_sink_classes env get_num_receivers rr_node_index analysis_settings arch_structs
    rr_node topological_mode source tile_coord ilen dest_x dest_y dest_type iclass classes st
  = Done st' ->
  counters_follow topological_mode r0 st'.1.
Proof.
  revert iclass st. induction classes as [|pin_class rest IH]; intros iclass st Hst H;
    simpl in H.
  - injection H as <-. exact Hst.
  - apply bind_Done in H as (st1 & Hstep & H). apply (IH (S iclass) st1); [|exact H].
    destruct (negb _ || _).
    { injection Hstep as <-. exact Hst. }
    apply bind_Done in Hstep as (sample_pin & _ & Hstep).
    apply bind_Done in Hstep as (is_global & _ & Hstep).
    destruct is_global.
    { injection Hstep as <-. exact Hst. }
    apply bind_Done in Hstep as (num_conns & _ & Hstep).
    apply lift_Done in Hstep. destruct st1 as [r1 w1].
    apply dispatch_connection_counters in Hstep as [Hd Hn].
    unfold counters_follow in *. simpl. destruct Hst as [Hle Heq]. split; [lia|].
    rewrite Hd, Hn. lia.
Qed.

Lemma enumerate_paths_from_one_source_counters (r0 : Analysis_Results) (source : nat)
    (tile_coord : Coordinate) (job job' : Analysis_Results * world Demands) :
  counters_follow topological_mode r0 job.1 ->
  enumerate_paths_from_one_source env get_num_receivers get_dx_plus_dy rr_node_index
    max_connection_length analysis_settings arch_structs rr_node topological_mode
    source tile_coord job = Done job' ->
  counters_follow topological_mode r0 job'.1.
Proof.
  intros Hjob H. unfold enumerate_paths_from_one_source in H. cbv zeta in H.
  apply bind_Done in H as (test_tile & _ & H).
  apply bind_Done in H as (test_tile_type & _ & H).
  apply bind_Done in H as ([sum_probs one_pin] & _ & H).
  destruct (Qeq_bool sum_probs 0).
  { injection H as <-. exact Hjob. }
  destruct (negb _); [discriminate|]. destruct (_ || _); [discriminate|].
  destruct (_ <? _); [discriminate|].
  apply bind_Done in H as (fill_type & _ & H).
  apply bind_Done in H as (conns0 & _ & H).
  apply bind_Done in H as ([conns1 job1] & Hloop & H). injection H as <-.
  change job1 with (conns1, job1).2.
  revert Hloop.
  apply (for_each_invariant (fun st => counters_follow topological_mode r0 st.2.1));
    [|exact Hjob].
  intros st ipass st' _ Hst Hpass. revert Hpass. unfold visit_pass.
  apply (for_each_invariant (fun st => counters_follow topological_mode r0 st.2.1));
    [|exact Hst].
  clear st st' Hst. intros st ilen st' _ Hst Hlen. unfold visit_length in Hlen.
  apply bind_Done in Hlen as (length_prob & _ & Hlen).
  destruct (Qeq_bool length_prob 0).
  { injection Hlen as <-. exact Hst. }
  revert Hlen.
  apply (for_each_invariant (fun st => counters_follow topological_mode r0 st.2.1));
    [|exact Hst].
  clear st st' Hst. intros [conns job0] d st' _ Hst Hdest.
  unfold visit_destination in Hdest. cbv zeta in Hdest.
  destruct (within_perimeter _ _ _ _).
  - apply bind_Done in Hdest as (dest_tile & _ & Hdest). destruct ipass as [|ipass].
    + destruct (negb _); [discriminate|].
      apply bind_Done in Hdest as (c & _ & Hdest).
      apply bind_Done in Hdest as (conns' & _ & Hdest). injection Hdest as <-. exact Hst.
    + apply bind_Done in Hdest as (dest_type & _ & Hdest).
      apply bind_Done in Hdest as (job2 & Hclasses & Hdest). injection Hdest as <-.
      simpl. eapply analyze_sink_classes_counters; [|exact Hclasses]. exact Hst.
  - injection Hdest as <-. exact Hst.
Qed.

(** X10.  Over the whole run of a worker, one thread by itself, the two
    counters move together: in ENUMERATE mode [num_conns] goes up by
    exactly as much as [desired_conns], in PROBABILITY mode [num_conns]
    stays as it is, and [desired_conns] never goes down. *)
Theorem worker_counters (conn_info : Conn_Info) (r r' : Analysis_Results)
    (w w' : world Demands) :
  enumerate_paths_from_source env get_num_receivers get_dx_plus_dy rr_node_index
    max_connection_length analysis_settings arch_structs rr_node topological_mode
    conn_info (r, w) = Done (r', w') ->
  desired_conns r <= desired_conns r'
  /\ num_conns r' - num_conns r
     = match topological_mode with
       | ENUMERATE => desired_conns r' - desired_conns r
       | PROBABILITY => 0
       end.
Proof.
  unfold enumerate_paths_from_source. intros H.
  assert (Hgen : forall sources isource job job',
            counters_follow topological_mode r job.1 ->
            enumerate_paths_from_sources env get_num_receivers get_dx_plus_dy rr_node_index
              max_connection_length analysis_settings arch_structs rr_node
              topological_mode isource sources (tile_coords conn_info) job = Done job' ->
            counters_follow topological_mode r job'.1).
  { induction sources as [|source rest IH]; intros isource job job' Hjob Hrun;
      simpl in Hrun.
    - injection Hrun as <-. exact Hjob.
    - apply bind_Done in Hrun as (tile_coord & _ & Hrun).
      apply bind_Done in Hrun as (job1 & Hone & Hrun).
      apply (IH (S isource) job1 job'); [|exact Hrun].
      eapply enumerate_paths_from_one_source_counters; [|exact Hone]. exact Hjob. }
  apply Hgen in H; [|apply counters_follow_refl].
  destruct H as [Hle Heq]. simpl in *. split; [exact Hle|].
  rewrite Heq. destruct topological_mode; simpl; lia.
Qed.

End Worker_Facts.
(** ** The distance pass, step by step *)

(** What relaxing a child does: nothing (the child is marked already, or
    pruned on the forward pass), or it takes back the mark of a child
    that is not legal (backward pass), or it marks the child with its
    path weight and enqueues it. *)
Lemma relax_child_cases (base W : Z) (dir : e_traversal_dir) (rr_node : list RR_Node)
    (destx desty : Z) (ss ss' : list SS_Distances) (PQ PQ' : My_Bounded_Priority_Queue)
    (c : nat) :
  relax_child base W dir rr_node destx desty (ss, PQ) c = Ok (ss', PQ') ->
  exists s,
    ss !! c = Some s
    /\ ((ss' = ss /\ PQ' = PQ)
        \/ (visited_in dir s = false /\ dir = BACKWARD_TRAVERSAL /\ PQ' = PQ
            /\ ss' = <[c := set_visited_from_sink false (set_sink_distance UNDEFINED s)]> ss)
        \/ (visited_in dir s = false
            /\ exists node,
                 rr_node !! c = Some node
                 /\ base + weight node <= pq_max_weight PQ
                 /\ ss' = <[c := mark_reached dir (base + weight node) s]> ss
                 /\ PQ' = mk_PQ (pq_max_weight PQ)
                            (pq_insert c (base + weight node) (pq_entries PQ))
                 /\ (dir = FORWARD_TRAVERSAL -> base + weight node <= W)
                 /\ (dir = BACKWARD_TRAVERSAL ->
                     is_legal (mark_reached dir (base + weight node) s) (weight node) W
                     = true))).
Proof.
  unfold relax_child. intros H.
  apply bind_Ok in H as (s & Hs & H). apply at_index_Ok in Hs. exists s.
  split; [exact Hs|].
  destruct (visited_in dir s) eqn:Hv.
  { injection H as <- <-. left. auto. }
  apply bind_Ok in H as (node & Hn & H). apply at_index_Ok in Hn.
  destruct dir.
  - apply bind_Ok in H as (chance & Hc & H). destruct chance; simpl in H.
    + apply bind_Ok in H as (PQ1 & Hpush & H). injection H as <- <-.
      unfold pq_push in Hpush. destruct (Z.gtb_spec (base + weight node) (pq_max_weight PQ));
        [discriminate|]. injection Hpush as <-.
      right. right. split; [reflexivity|]. exists node.
      split; [exact Hn|]. split; [lia|]. split; [reflexivity|]. split; [reflexivity|].
      split; [|discriminate]. intros _.
      unfold node_has_chance_to_reach_destination in Hc.
      apply bind_Ok in Hc as (node0 & _ & Hc).
      apply bind_Ok in Hc as ([x_diff y_diff] & _ & Hc). injection Hc as Hc.
      apply Z.leb_le in Hc. lia.
    + injection H as <- <-. left. auto.
  - destruct (is_legal _ _ _) eqn:Hlegal; simpl in H.
    + apply bind_Ok in H as (PQ1 & Hpush & H). injection H as <- <-.
      unfold pq_push in Hpush. destruct (Z.gtb_spec (base + weight node) (pq_max_weight PQ));
        [discriminate|]. injection Hpush as <-.
      right. right. split; [reflexivity|]. exists node.
      split; [exact Hn|]. split; [lia|]. split; [reflexivity|]. split; [reflexivity|].
      split; [discriminate|]. intros _. exact Hlegal.
    + injection H as <- <-. right. left. auto.
Qed.

Lemma relax_children_invariant (P : list SS_Distances * My_Bounded_Priority_Queue -> Prop)
    (base W : Z) (dir : e_traversal_dir) (rr_node : list RR_Node) (destx desty : Z)
    (edge_list : list nat) (st st' : list SS_Distances * My_Bounded_Priority_Queue) :
  (forall st c st', c ∈ edge_list -> P st ->
     relax_child base W dir rr_node destx desty st c = Ok st' -> P st') ->
  P st ->
  relax_children base W dir rr_node destx desty edge_list st = Ok st' ->
  P st'.
Proof.
  revert st. induction edge_list as [|c rest IH]; intros st Hstep Hst H; simpl in H.
  - injection H as <-. exact Hst.
  - apply bind_Ok in H as (st1 & H1 & H). apply (IH st1); [| |exact H].
    + intros st0 c0 st0' Hc0. apply Hstep. apply list_elem_of_further. exact Hc0.
    + eapply Hstep; [apply list_elem_of_here | exact Hst | exact H1].
Qed.

(** An invariant of the loop of [set_node_distances]: it holds along
    the loop when it is kept by taking a node from the queue, by
    relaxing one of the node's children, and by recording the node. *)
Lemma distance_loop_invariant
    (P : list SS_Distances -> My_Bounded_Priority_Queue -> list nat -> option (nat * Z)
         -> Prop)
    (to : nat) (rr_node : list RR_Node) (W : Z) (dir : e_traversal_dir) :
  (forall ss m i w rest nv node,
     P ss (mk_PQ m ((i, w) :: rest)) nv None -> rr_node !! i = Some node ->
     P ss (mk_PQ m rest) nv (Some (i, w))) ->
  (forall ss PQ nv i w node to_node c ss' PQ',
     P ss PQ nv (Some (i, w)) -> rr_node !! i = Some node -> rr_node !! to = Some to_node ->
     c ∈ edges_in dir node ->
     relax_child w W dir rr_node (xlow to_node) (ylow to_node) (ss, PQ) c = Ok (ss', PQ') ->
     P ss' PQ' nv (Some (i, w))) ->
  (forall ss PQ nv i w, P ss PQ nv (Some (i, w)) -> P ss PQ (nv ++ [i]) None) ->
  forall fuel ss PQ nv ss' nv',
    P ss PQ nv None ->
    distance_loop fuel to rr_node W dir ss PQ nv = Ok (ss', nv') ->
    exists m, P ss' (mk_PQ m []) nv' None.
Proof.
  intros Hpop Hrelax Hrecord. induction fuel as [|fuel IH]; intros ss PQ nv ss' nv' HP H;
    [discriminate|].
  simpl in H. case_decide as Hsize.
  { injection H as <- <-. destruct PQ as [m es]. unfold pq_size in Hsize. simpl in Hsize.
    destruct es; [|discriminate]. exists m. exact HP. }
  apply bind_Ok in H as ([[i w] PQ1] & Htake & H).
  apply bind_Ok in H as (node & Hnode & H). apply at_index_Ok in Hnode.
  apply bind_Ok in H as ([ss1 PQ2] & Hput & H).
  unfold pq_take in Htake. destruct PQ as [m es]. simpl in Htake.
  destruct es as [|[i0 w0] rest]; [discriminate|]. injection Htake as <- <- <-.
  unfold put_children_on_pq_and_set_ss_distance in Hput.
  apply bind_Ok in Hput as (to_node & Hto & Hput). apply at_index_Ok in Hto.
  destruct (negb _ || negb _); [discriminate|].
  apply (IH ss1 PQ2 (nv ++ [i0])); [|exact H].
  apply (Hrecord _ _ _ i0 w0).
  revert Hput.
  apply (relax_children_invariant (fun st => P st.1 st.2 nv (Some (i0, w0)))).
  - intros [ss2 PQ3] c [ss3 PQ4] Hc HP2 Hstep. simpl in *.
    eapply Hrelax; eassumption.
  - simpl. eapply Hpop; eassumption.
Qed.

(** The same for the whole pass: the loop starts with the marked
    [from] node as the only entry of the queue. *)
Lemma set_node_distances_invariant
    (P : list SS_Distances -> My_Bounded_Priority_Queue -> list nat -> option (nat * Z)
         -> Prop)
    (from to : nat) (rr_node : list RR_Node) (W : Z) (dir : e_traversal_dir)
    (ss ss' : list SS_Distances) (nv nv' : list nat) :
  (forall ss m i w rest nv node,
     P ss (mk_PQ m ((i, w) :: rest)) nv None -> rr_node !! i = Some node ->
     P ss (mk_PQ m rest) nv (Some (i, w))) ->
  (forall ss PQ nv i w node to_node c ss' PQ',
     P ss PQ nv (Some (i, w)) -> rr_node !! i = Some node -> rr_node !! to = Some to_node ->
     c ∈ edges_in dir node ->
     relax_child w W dir rr_node (xlow to_node) (ylow to_node) (ss, PQ) c = Ok (ss', PQ') ->
     P ss' PQ' nv (Some (i, w))) ->
  (forall ss PQ nv i w, P ss PQ nv (Some (i, w)) -> P ss PQ (nv ++ [i]) None) ->
  (forall s, ss !! from = Some s -> 0 <= W ->
     P (<[from := mark_reached dir 0 s]> ss) (mk_PQ W [(from, 0)]) nv None) ->
  set_node_distances from to rr_node ss W dir nv = Ok (ss', nv') ->
  exists m, P ss' (mk_PQ m []) nv' None.
Proof.
  intros Hpop Hrelax Hrecord Hstart H. unfold set_node_distances in H.
  apply bind_Ok in H as (PQ & Hpush & H).
  apply bind_Ok in H as (s & Hs & H). apply at_index_Ok in Hs.
  unfold pq_push in Hpush. simpl in Hpush.
  destruct (Z.gtb_spec 0 W) as [Hneg|HW]; [discriminate|]. injection Hpush as <-.
  revert H. apply distance_loop_invariant; try assumption.
  apply (Hstart s Hs HW).
Qed.

Lemma pq_insert_items (c : nat) (w : Z) (es : list (nat * Z)) :
  (pq_insert c w es).*1 ≡ₚ c :: es.*1.
Proof.
  induction es as [|[i w'] es IH]; simpl; [reflexivity|].
  destruct (w <? w'); simpl; [reflexivity|]. rewrite IH. apply Permutation_swap.
Qed.

Lemma pq_insert_entries (c : nat) (w : Z) (es : list (nat * Z)) :
  pq_insert c w es ≡ₚ (c, w) :: es.
Proof.
  induction es as [|[i w'] es IH]; simpl; [reflexivity|].
  destruct (w <? w'); simpl; [reflexivity|]. rewrite IH. apply Permutation_swap.
Qed.

Lemma visited_in_mark_reached (dir : e_traversal_dir) (d : Z) (s : SS_Distances) :
  visited_in dir (mark_reached dir d s) = true /\ dist_in dir (mark_reached dir d s) = d.
Proof. destruct dir; split; reflexivity. Qed.

Lemma NoDup_bounded_length (l : list nat) (n : nat) :
  NoDup l -> (forall x, x ∈ l -> (x < n)%nat) -> (length l <= n)%nat.
Proof.
  intros Hnd Hlt. rewrite <- (length_seq n 0). apply submseteq_length.
  apply NoDup_submseteq; [exact Hnd|]. intros x Hx. apply elem_of_seq. specialize (Hlt x Hx).
  lia.
Qed.

(** X11.  When the node that a distance pass is to reach is not on a
    single tile, the pass throws "Expected destination node to be
    localized to a single tile", at the first node it expands, whatever
    the edges are. *)
Theorem set_node_distances_destination_tile (from to : nat) (rr_node : list RR_Node)
    (ss : list SS_Distances) (W : Z) (dir : e_traversal_dir) (nv : list nat)
    (to_node : RR_Node) :
  0 <= W ->
  is_Some (rr_node !! from) -> is_Some (ss !! from) ->
  rr_node !! to = Some to_node ->
  xlow to_node <> xhigh to_node \/ ylow to_node <> yhigh to_node ->
  set_node_distances from to rr_node ss W dir nv = Throw Ex_destination_not_single_tile.
Proof.
  intros HW [from_node Hfrom] [s Hs] Hto Hspan. unfold set_node_distances.
  unfold pq_push. simpl.
  destruct (Z.gtb_spec 0 W) as [Hneg|_]; [lia|]. simpl.
  rewrite (at_index_lookup _ _ _ Hs). simpl.
  rewrite Nat.add_comm. simpl. rewrite (at_index_lookup _ _ _ Hfrom). simpl.
  unfold put_children_on_pq_and_set_ss_distance.
  rewrite (at_index_lookup _ _ _ Hto). simpl.
  assert (Hcond : negb (xlow to_node =? xhigh to_node) || negb (ylow to_node =? yhigh to_node)
                  = true).
  { destruct Hspan as [Hx|Hy].
    - destruct (Z.eqb_spec (xlow to_node) (xhigh to_node)); [contradiction | reflexivity].
    - destruct (Z.eqb_spec (ylow to_node) (yhigh to_node)); [contradiction|].
      apply orb_true_r. }
  rewrite Hcond. reflexivity.
Qed.

Section Distance_Pass_Facts.
Variable from to : nat.
Variable rr_node : list RR_Node.
Variable W : Z.
Variable dir : e_traversal_dir.

(** The nodes that are in work: expanded, waiting, or recorded since
    the pass began. *)
Lemma set_node_distances_records_lemma (ss ss' : list SS_Distances) (nv nv' : list nat) :
  set_node_distances from to rr_node ss W dir nv = Ok (ss', nv') ->
  length ss' = length ss
  /\ exists added,
       nv' = nv ++ added /\ NoDup added /\ from ∈ added
       /\ forall n, n ∈ added -> exists s', ss' !! n = Some s' /\ visited_in dir s' = true.
Proof.
  intros H.
  pose (P := fun (ss1 : list SS_Distances) (PQ : My_Bounded_Priority_Queue)
                 (nv1 : list nat) (cur : option (nat * Z)) =>
               length ss1 = length ss
               /\ exists added,
                    nv1 = nv ++ added
                    /\ NoDup ((expanding cur).*1 ++ pq_items PQ ++ added)
                    /\ from ∈ (expanding cur).*1 ++ pq_items PQ ++ added
                    /\ forall n, n ∈ (expanding cur).*1 ++ pq_items PQ ++ added ->
                         exists s', ss1 !! n = Some s' /\ visited_in dir s' = true).
  destruct (set_node_distances_invariant P from to rr_node W dir ss ss' nv nv') as [m HP];
    [| | | |exact H|].
  - (* a node is taken from the queue *)
    intros ss1 m i w rest nv1 node (Hl & added & Hnv & Hnd & Hfrom & Hmarks) _.
    split; [exact Hl|]. exists added. auto.
  - (* a child is relaxed *)
    intros ss1 PQ nv1 i w node to_node c ss2 PQ' (Hl & added & Hnv & Hnd & Hfrom & Hmarks)
      _ _ _ Hstep.
    apply relax_child_cases in Hstep as (s & Hs & Hcase).
    assert (Hfresh : visited_in dir s = false ->
              c ∉ (expanding (Some (i, w))).*1 ++ pq_items PQ ++ added).
    { intros Hv Hin. destruct (Hmarks c Hin) as (s0 & Hs0 & Hv0). congruence. }
    destruct Hcase as [[-> ->]|[(Hv & _ & -> & ->)|(Hv & node_c & Hnc & _ & -> & -> & _)]].
    + split; [exact Hl|]. exists added. auto.
    + split; [rewrite length_insert; exact Hl|]. exists added.
      split; [exact Hnv|]. split; [exact Hnd|]. split; [exact Hfrom|].
      intros n Hn. destruct (Hmarks n Hn) as (s0 & Hs0 & Hv0). exists s0.
      split; [|exact Hv0]. rewrite list_lookup_insert_ne; [exact Hs0|].
      intros <-. exact (Hfresh Hv Hn).
    + split; [rewrite length_insert; exact Hl|]. exists added.
      split; [exact Hnv|].
      assert (Hperm : (expanding (Some (i, w))).*1
                      ++ pq_items (mk_PQ (pq_max_weight PQ)
                                     (pq_insert c (w + weight node_c) (pq_entries PQ)))
                      ++ added
                      ≡ₚ c :: (expanding (Some (i, w))).*1 ++ pq_items PQ ++ added).
      { unfold pq_items. simpl. rewrite pq_insert_items. simpl.
        apply Permutation_sym. apply (Permutation_middle [i] _ c). }
      split; [|split].
      * rewrite Hperm. apply NoDup_cons. split; [exact (Hfresh Hv) | exact Hnd].
      * rewrite Hperm. apply list_elem_of_further. exact Hfrom.
      * intros n Hn. rewrite Hperm in Hn. apply elem_of_cons in Hn as [->|Hn].
        -- exists (mark_reached dir (w + weight node_c) s).
           split; [apply list_lookup_insert_eq; eapply lookup_lt_Some; exact Hs|].
           apply visited_in_mark_reached.
        -- destruct (Hmarks n Hn) as (s0 & Hs0 & Hv0). exists s0.
           split; [|exact Hv0]. rewrite list_lookup_insert_ne; [exact Hs0|].
           intros <-. exact (Hfresh Hv Hn).
  - (* the node is recorded *)
    intros ss1 PQ nv1 i w (Hl & added & Hnv & Hnd & Hfrom & Hmarks).
    split; [exact Hl|]. exists (added ++ [i]).
    assert (Hperm : (expanding None).*1 ++ pq_items PQ ++ added ++ [i]
                    ≡ₚ (expanding (Some (i, w))).*1 ++ pq_items PQ ++ added).
    { simpl. rewrite app_assoc. rewrite <- Permutation_cons_append. reflexivity. }
    split; [rewrite Hnv, app_assoc; reflexivity|].
    split; [rewrite Hperm; exact Hnd|]. split; [rewrite Hperm; exact Hfrom|].
    intros n Hn. rewrite Hperm in Hn. exact (Hmarks n Hn).
  - (* the start *)
    intros s Hs HW. split; [apply length_insert|]. exists [].
    split; [rewrite app_nil_r; reflexivity|]. simpl.
    split; [apply NoDup_singleton|]. split; [apply list_elem_of_here|].
    intros n Hn. apply list_elem_of_singleton in Hn as ->.
    exists (mark_reached dir 0 s).
    split; [apply list_lookup_insert_eq; eapply lookup_lt_Some; exact Hs|].
    apply visited_in_mark_reached.
  - destruct HP as (Hl & added & Hnv & Hnd & Hfrom & Hmarks). simpl in *.
    split; [exact Hl|]. exists added. auto.
Qed.

(** X12.  A distance pass leaves the number of nodes as it is and only
    appends to [nodes_visited]; what it appends are nodes of the graph,
    each of them once (so at most as many as there are nodes), the node
    it started from among them, and every one of them is marked as
    visited in the direction of the pass. *)
Theorem set_node_distances_records (ss ss' : list SS_Distances) (nv nv' : list nat) :
  set_node_distances from to rr_node ss W dir nv = Ok (ss', nv') ->
  length ss' = length ss
  /\ exists added,
       nv' = nv ++ added /\ NoDup added /\ from ∈ added
       /\ (length added <= length ss)%nat
       /\ forall n, n ∈ added -> exists s', ss' !! n = Some s' /\ visited_in dir s' = true.
Proof.
  intros H. apply set_node_distances_records_lemma in H
    as (Hl & added & Hnv & Hnd & Hfrom & Hmarks).
  split; [exact Hl|]. exists added. repeat split; try assumption.
  rewrite <- Hl. apply NoDup_bounded_length; [exact Hnd|].
  intros n Hn. destruct (Hmarks n Hn) as (s' & Hs' & _). eapply lookup_lt_Some. exact Hs'.
Qed.

(** A node that is marked keeps its state for the rest of the pass. *)
Lemma relax_child_frame (base : Z) (destx desty : Z) (ss ss' : list SS_Distances)
    (PQ PQ' : My_Bounded_Priority_Queue) (c n : nat) (s : SS_Distances) :
  relax_child base W dir rr_node destx desty (ss, PQ) c = Ok (ss', PQ') ->
  ss !! n = Some s -> visited_in dir s = true -> ss' !! n = Some s.
Proof.
  intros Hstep Hn Hv. apply relax_child_cases in Hstep as (sc & Hsc & Hcase).
  destruct Hcase as [[-> ->]|[(Hvc & _ & -> & ->)|(Hvc & node_c & _ & _ & -> & -> & _)]].
  - exact Hn.
  - rewrite list_lookup_insert_ne; [exact Hn|]. intros <-. congruence.
  - rewrite list_lookup_insert_ne; [exact Hn|]. intros <-. congruence.
Qed.

(** X13.  On an arena without marks of the direction of the pass, the
    distance of every node that the pass marks is the weight of a path:
    the node the pass started from has distance 0, and every other
    marked node is a child (along the out-edges on the forward pass,
    the in-edges on the backward pass) of a marked node and has that
    node's distance plus its own weight. *)
Theorem set_node_distances_path_weights (ss ss' : list SS_Distances) (nv nv' : list nat) :
  (forall n s, ss !! n = Some s -> visited_in dir s = false) ->
  set_node_distances from to rr_node ss W dir nv = Ok (ss', nv') ->
  forall n s', ss' !! n = Some s' -> visited_in dir s' = true ->
    reached_from_parent dir rr_node ss' from n s'.
Proof.
  intros Hclear H.
  pose (P := fun (ss1 : list SS_Distances) (PQ : My_Bounded_Priority_Queue)
                 (nv1 : list nat) (cur : option (nat * Z)) =>
               (forall n s, ss1 !! n = Some s -> visited_in dir s = true ->
                            reached_from_parent dir rr_node ss1 from n s)
               /\ forall e, e ∈ expanding cur ++ pq_entries PQ ->
                    exists s, ss1 !! e.1 = Some s /\ visited_in dir s = true
                              /\ dist_in dir s = e.2).
  assert (Hkeep : forall (ss1 ss2 : list SS_Distances) n s,
            (forall p sp, ss1 !! p = Some sp -> visited_in dir sp = true ->
                          ss2 !! p = Some sp) ->
            reached_from_parent dir rr_node ss1 from n s ->
            reached_from_parent dir rr_node ss2 from n s).
  { intros ss1 ss2 n s Hframe [H0|(p & sp & node_p & node_n & Hp & Hvp & Hrest)];
      [left; exact H0|].
    right. exists p, sp, node_p, node_n. split; [apply Hframe; assumption|].
    split; [exact Hvp | exact Hrest]. }
  destruct (set_node_distances_invariant P from to rr_node W dir ss ss' nv nv') as [m HP];
    [| | | |exact H|].
  - intros ss1 m i w rest nv1 node [Htree Hentries] _. split; [exact Htree|].
    intros e He. apply Hentries. simpl in *. exact He.
  - intros ss1 PQ nv1 i w node to_node c ss2 PQ' [Htree Hentries] Hnode _ Hc Hstep.
    pose proof (fun n s => relax_child_frame _ _ _ _ _ _ _ c n s Hstep) as Hframe.
    apply relax_child_cases in Hstep as (s & Hs & Hcase).
    destruct Hcase as [[-> ->]|[(Hv & Hdir & -> & ->)|(Hv & node_c & Hnc & _ & -> & -> & _)]].
    + split; assumption.
    + split.
      * intros n s0 Hn Hv0. destruct (decide (n = c)) as [->|Hne].
        -- rewrite list_lookup_insert_eq in Hn by (eapply lookup_lt_Some; exact Hs).
           injection Hn as <-. rewrite Hdir in Hv0. discriminate Hv0.
        -- rewrite list_lookup_insert_ne in Hn by congruence.
           eapply Hkeep; [exact Hframe | apply Htree; assumption].
      * intros e He. destruct (Hentries e He) as (s0 & Hs0 & Hv0 & Hd0).
        exists s0. split; [apply Hframe; assumption | auto].
    + split.
      * intros n s0 Hn Hv0. destruct (decide (n = c)) as [->|Hne].
        -- rewrite list_lookup_insert_eq in Hn by (eapply lookup_lt_Some; exact Hs).
           injection Hn as <-. right.
           destruct (Hentries (i, w)) as (si & Hsi & Hvi & Hdi);
             [apply list_elem_of_here|]. simpl in *.
           exists i, si, node, node_c. split; [apply Hframe; assumption|].
           split; [exact Hvi|]. split; [exact Hnode|]. split; [exact Hc|].
           split; [exact Hnc|].
           rewrite (proj2 (visited_in_mark_reached dir _ s)). lia.
        -- rewrite list_lookup_insert_ne in Hn by congruence.
           eapply Hkeep; [exact Hframe | apply Htree; assumption].
      * intros e He. simpl in He. apply elem_of_cons in He as [->|He].
        -- destruct (Hentries (i, w)) as (si & Hsi & Hvi & Hdi);
             [apply list_elem_of_here|].
           exists si. split; [apply Hframe; assumption | auto].
        -- rewrite pq_insert_entries in He. apply elem_of_cons in He as [->|He].
           ++ exists (mark_reached dir (w + weight node_c) s).
              split; [apply list_lookup_insert_eq; eapply lookup_lt_Some; exact Hs|].
              apply visited_in_mark_reached.
           ++ destruct (Hentries e) as (s0 & Hs0 & Hv0 & Hd0);
                [apply list_elem_of_further; exact He|].
              exists s0. split; [apply Hframe; assumption | auto].
  - intros ss1 PQ nv1 i w [Htree Hentries]. split; [exact Htree|].
    intros e He. apply Hentries. apply list_elem_of_further. exact He.
  - intros s Hs HW. split.
    + intros n s0 Hn Hv0. destruct (decide (n = from)) as [->|Hne].
      * rewrite list_lookup_insert_eq in Hn by (eapply lookup_lt_Some; exact Hs).
        injection Hn as <-. left. split; [reflexivity|]. apply visited_in_mark_reached.
      * rewrite list_lookup_insert_ne in Hn by congruence.
        rewrite (Hclear n s0 Hn) in Hv0. discriminate.
    + intros e He. apply list_elem_of_singleton in He as ->. simpl.
      exists (mark_reached dir 0 s).
      split; [apply list_lookup_insert_eq; eapply lookup_lt_Some; exact Hs|].
      apply visited_in_mark_reached.
  - exact (proj1 HP).
Qed.

End Distance_Pass_Facts.

Section Distance_Pass_Bounds.
Variable from to : nat.
Variable rr_node : list RR_Node.
Variable W : Z.

(** X14.  What the two passes let through.  A node that the forward
    pass marks has a source distance of at most the maximum path
    weight, so that the bounded queue never refuses it; a node that
    the backward pass marks, other than the one it starts from, is
    legal: it carries both marks, and its two distances less its own
    weight stay within the maximum path weight. *)
Theorem set_node_distances_within_bound (dir : e_traversal_dir)
    (ss ss' : list SS_Distances) (nv nv' : list nat) :
  set_node_distances from to rr_node ss W dir nv = Ok (ss', nv') ->
  0 <= W
  /\ forall n s s', ss !! n = Some s -> visited_in dir s = false ->
       ss' !! n = Some s' -> visited_in dir s' = true ->
       match dir with
       | FORWARD_TRAVERSAL => source_distance s' <= W
       | BACKWARD_TRAVERSAL =>
           n = from
           \/ exists node, rr_node !! n = Some node /\ is_legal s' (weight node) W = true
       end.
Proof.
  intros H.
  assert (HW : 0 <= W).
  { unfold set_node_distances in H. apply bind_Ok in H as (PQ & Hpush & _).
    unfold pq_push in Hpush. simpl in Hpush. destruct (Z.gtb_spec 0 W); [discriminate | lia]. }
  split; [exact HW|].
  pose (good := fun (n : nat) (s' : SS_Distances) =>
                  match dir with
                  | FORWARD_TRAVERSAL => source_distance s' <= W
                  | BACKWARD_TRAVERSAL =>
                      n = from
                      \/ exists node, rr_node !! n = Some node
                                      /\ is_legal s' (weight node) W = true
                  end).
  pose (P := fun (ss1 : list SS_Distances) (PQ : My_Bounded_Priority_Queue)
                 (nv1 : list nat) (cur : option (nat * Z)) =>
               forall n s s', ss !! n = Some s -> visited_in dir s = false ->
                 ss1 !! n = Some s' -> visited_in dir s' = true -> good n s').
  destruct (set_node_distances_invariant P from to rr_node W dir ss ss' nv nv') as [m HP];
    [| | | |exact H|].
  - intros ss1 m i w rest nv1 node HP _. exact HP.
  - intros ss1 PQ nv1 i w node to_node c ss2 PQ' HP _ _ _ Hstep n s0 s' Hn0 Hv0 Hn' Hv'.
    apply relax_child_cases in Hstep as (s & Hs & Hcase).
    destruct Hcase as [[-> ->]|[(Hv & Hdir & -> & ->)
                               |(Hv & node_c & Hnc & _ & -> & -> & Hfw & Hbw)]].
    + eapply HP; eassumption.
    + destruct (decide (n = c)) as [->|Hne].
      * rewrite list_lookup_insert_eq in Hn' by (eapply lookup_lt_Some; exact Hs).
        injection Hn' as <-. rewrite Hdir in Hv'. discriminate Hv'.
      * rewrite list_lookup_insert_ne in Hn' by congruence. eapply HP; eassumption.
    + destruct (decide (n = c)) as [->|Hne].
      * rewrite list_lookup_insert_eq in Hn' by (eapply lookup_lt_Some; exact Hs).
        injection Hn' as <-. unfold good. destruct dir.
        -- simpl. apply Hfw. reflexivity.
        -- right. exists node_c. split; [exact Hnc|]. apply Hbw. reflexivity.
      * rewrite list_lookup_insert_ne in Hn' by congruence. eapply HP; eassumption.
  - intros ss1 PQ nv1 i w HP. exact HP.
  - intros s Hs _ n s0 s' Hn0 Hv0 Hn' Hv'. destruct (decide (n = from)) as [->|Hne].
    + rewrite list_lookup_insert_eq in Hn' by (eapply lookup_lt_Some; exact Hs).
      injection Hn' as <-. unfold good. destruct dir; simpl; [exact HW | left; reflexivity].
    + rewrite list_lookup_insert_ne in Hn' by congruence. congruence.
  - exact HP.
Qed.

End Distance_Pass_Bounds.

(** ** The passes and the cleaning together *)

Lemma set_node_distances_keeps_clean (from to : nat) (rr_node : list RR_Node) (W : Z)
    (dir : e_traversal_dir) (ss ss' : list SS_Distances) (nv nv' : list nat) :
  (forall n s, ss !! n = Some s ->
     s = SS_Distances_clear
     \/ (visited_from_source s || visited_from_sink s = true /\ n ∈ nv)) ->
  set_node_distances from to rr_node ss W dir nv = Ok (ss', nv') ->
  forall n s, ss' !! n = Some s ->
    s = SS_Distances_clear
    \/ (visited_from_source s || visited_from_sink s = true /\ n ∈ nv').
Proof.
  intros Hpre H.
  pose (P := fun (ss1 : list SS_Distances) (PQ : My_Bounded_Priority_Queue)
                 (nv1 : list nat) (cur : option (nat * Z)) =>
               forall n s, ss1 !! n = Some s ->
                 s = SS_Distances_clear
                 \/ (visited_from_source s || visited_from_sink s = true
                     /\ n ∈ (expanding cur).*1 ++ pq_items PQ ++ nv1)).
  assert (Hmark : forall d s, visited_from_source (mark_reached dir d s)
                              || visited_from_sink (mark_reached dir d s) = true).
  { intros d s. destruct dir; simpl; [reflexivity | apply orb_true_r]. }
  destruct (set_node_distances_invariant P from to rr_node W dir ss ss' nv nv') as [m HP];
    [| | | |exact H|].
  - intros ss1 m i w rest nv1 node HP _. exact HP.
  - intros ss1 PQ nv1 i w node to_node c ss2 PQ' HP _ _ _ Hstep n s0 Hn.
    apply relax_child_cases in Hstep as (s & Hs & Hcase).
    destruct Hcase as [[-> ->]|[(Hv & Hdir & -> & ->)
                               |(Hv & node_c & Hnc & _ & -> & -> & _)]].
    + apply HP. exact Hn.
    + destruct (decide (n = c)) as [->|Hne].
      * rewrite list_lookup_insert_eq in Hn by (eapply lookup_lt_Some; exact Hs).
        injection Hn as <-. destruct (HP c s Hs) as [->|[Hm Hin]]; [left; reflexivity|].
        right. split; [|exact Hin]. rewrite Hdir in Hv. simpl in Hv. simpl.
        rewrite Hv in Hm. rewrite orb_false_r in Hm. rewrite Hm. reflexivity.
      * rewrite list_lookup_insert_ne in Hn by congruence. apply HP. exact Hn.
    + assert (Hperm : (expanding (Some (i, w))).*1
                      ++ pq_items (mk_PQ (pq_max_weight PQ)
                                     (pq_insert c (w + weight node_c) (pq_entries PQ)))
                      ++ nv1
                      ≡ₚ c :: (expanding (Some (i, w))).*1 ++ pq_items PQ ++ nv1).
      { unfold pq_items. simpl. rewrite pq_insert_items. simpl.
        apply Permutation_sym. apply (Permutation_middle [i] _ c). }
      destruct (decide (n = c)) as [->|Hne].
      * rewrite list_lookup_insert_eq in Hn by (eapply lookup_lt_Some; exact Hs).
        injection Hn as <-. right. split; [apply Hmark|].
        rewrite Hperm. apply list_elem_of_here.
      * rewrite list_lookup_insert_ne in Hn by congruence.
        destruct (HP n s0 Hn) as [->|[Hm Hin]]; [left; reflexivity|].
        right. split; [exact Hm|]. rewrite Hperm. apply list_elem_of_further. exact Hin.
  - intros ss1 PQ nv1 i w HP n s Hn. destruct (HP n s Hn) as [->|[Hm Hin]];
      [left; reflexivity|]. right. split; [exact Hm|].
    simpl in *. apply elem_of_cons in Hin as [->|Hin].
    + rewrite !elem_of_app. right. right. apply list_elem_of_here.
    + rewrite !elem_of_app in *. destruct Hin as [Hin|Hin]; [left; exact Hin|].
      right. left. exact Hin.
  - intros s Hs _ n s0 Hn. destruct (decide (n = from)) as [->|Hne].
    + rewrite list_lookup_insert_eq in Hn by (eapply lookup_lt_Some; exact Hs).
      injection Hn as <-. right. split; [apply Hmark|]. simpl. apply list_elem_of_here.
    + rewrite list_lookup_insert_ne in Hn by congruence.
      destruct (Hpre n s0 Hn) as [->|[Hm Hin]]; [left; reflexivity|].
      right. split; [exact Hm|]. simpl. apply list_elem_of_further. exact Hin.
  - intros n s Hn. destruct (HP n s Hn) as [->|[Hm Hin]]; [left; reflexivity|].
    right. split; [exact Hm | exact Hin].
Qed.

(** X15.  The distance passes and the cleaning undo each other: on an
    arena of cleared nodes, after
    [get_ss_distances_and_adjust_max_path_weight] has run both passes,
    [clean_ss_distances] with the nodes recorded in [nodes_visited]
    gives back the arena of cleared nodes; no node that a pass has
    touched is left behind. *)
Theorem distance_passes_cleaned_up (source sink : nat) (rr_node : list RR_Node)
    (num_nodes : nat) (W W' d : Z) (ss' : list SS_Distances) (nv' : list nat) :
  get_ss_distances_and_adjust_max_path_weight source sink rr_node
    (replicate num_nodes SS_Distances_clear) W [] = Ok (ss', nv', W', d) ->
  clean_ss_distances ss' nv' = Ok (replicate num_nodes SS_Distances_clear).
Proof.
  intros H.
  pose proof (get_ss_distances_marks_visited source sink rr_node _ ss' W W' d [] nv'
                ltac:(intros n Hn; apply elem_of_nil in Hn; contradiction) H) as Hmarked.
  unfold get_ss_distances_and_adjust_max_path_weight in H.
  apply bind_Ok in H as ([ss1 nv1] & H1 & H).
  apply bind_Ok in H as ([ss2 nv2] & H2 & H).
  apply bind_Ok in H as (sink_s & _ & H).
  apply bind_Ok in H as (source_s & _ & H).
  destruct (negb _); [discriminate|]. injection H as <- <- _ _.
  pose proof (set_node_distances_records_lemma _ _ _ _ _ _ _ _ _ H1) as [Hl1 _].
  pose proof (set_node_distances_records_lemma _ _ _ _ _ _ _ _ _ H2) as [Hl2 _].
  rewrite length_replicate in Hl1.
  assert (Hclean1 := set_node_distances_keeps_clean _ _ _ _ _ _ _ _ _
                       ltac:(intros n s Hn; apply lookup_replicate in Hn as [-> _];
                             left; reflexivity) H1).
  assert (Hclean2 := set_node_distances_keeps_clean _ _ _ _ _ _ _ _ _ Hclean1 H2).
  destruct (clean_ss_distances_spec nv2 ss2) as (ss3 & Hss3 & Hl3 & Hspec).
  { intros n Hn. destruct (Hmarked n Hn) as (s & Hs & _). eauto. }
  rewrite Hss3. f_equal. apply list_eq. intros n.
  destruct (ss2 !! n) as [s|] eqn:Hn.
  - destruct (Hspec n s Hn) as [Hcleared Hkept].
    assert (Hlt : (n < num_nodes)%nat) by (apply lookup_lt_Some in Hn; lia).
    rewrite (proj2 (lookup_replicate _ _ _ _) (conj eq_refl Hlt)).
    destruct (Hclean2 n s Hn) as [->|[Hm Hin]].
    + destruct (decide (n ∈ nv2 /\ visited_from_source SS_Distances_clear
                                   || visited_from_sink SS_Distances_clear = true))
        as [[_ Hf]|Hno]; [discriminate Hf|]. apply Hkept. exact Hno.
    + apply Hcleared; assumption.
  - apply lookup_ge_None in Hn.
    rewrite (proj2 (lookup_ge_None ss3 n)) by lia.
    symmetry. apply lookup_ge_None. rewrite length_replicate. lia.
Qed.
(** ** The hops pass, step by step *)

Lemma hop_child_cases (h W : Z) (dir : e_traversal_dir) (rr_node : list RR_Node)
    (ss ss' : list SS_Distances) (Q Q' : list nat) (c : nat) :
  hop_child h W dir rr_node (ss, Q) c = Ok (ss', Q') ->
  exists node s,
    rr_node !! c = Some node /\ ss !! c = Some s
    /\ ((ss' = ss /\ Q' = Q)
        \/ (is_legal s (weight node) W = true /\ visited_hops_in dir s = false
            /\ ss' = <[c := hop_mark dir (h + 1) s]> ss /\ Q' = Q ++ [c])).
Proof.
  unfold hop_child. intros H.
  apply bind_Ok in H as (node & Hn & H). apply at_index_Ok in Hn.
  apply bind_Ok in H as (s & Hs & H). apply at_index_Ok in Hs.
  exists node, s. split; [exact Hn|]. split; [exact Hs|].
  destruct (is_legal s (weight node) W) eqn:Hlegal; simpl in H.
  - destruct (visited_hops_in dir s) eqn:Hv.
    + injection H as <- <-. left. auto.
    + injection H as <- <-. right. destruct dir; auto.
  - injection H as <- <-. left. auto.
Qed.

Lemma hop_children_invariant (P : list SS_Distances * list nat -> Prop)
    (h W : Z) (dir : e_traversal_dir) (rr_node : list RR_Node)
    (edge_list : list nat) (st st' : list SS_Distances * list nat) :
  (forall st c st', c ∈ edge_list -> P st ->
     hop_child h W dir rr_node st c = Ok st' -> P st') ->
  P st ->
  hop_children h W dir rr_node edge_list st = Ok st' ->
  P st'.
Proof.
  revert st. induction edge_list as [|c rest IH]; intros st Hstep Hst H; simpl in H.
  - injection H as <-. exact Hst.
  - apply bind_Ok in H as (st1 & H1 & H). apply (IH st1); [| |exact H].
    + intros st0 c0 st0' Hc0. apply Hstep. apply list_elem_of_further. exact Hc0.
    + eapply Hstep; [apply list_elem_of_here | exact Hst | exact H1].
Qed.

(** An invariant of the loop of [set_node_hops]. *)
Lemma set_node_hops_invariant
    (P : list SS_Distances -> list nat -> option (nat * Z) -> Prop)
    (from to : nat) (rr_node : list RR_Node) (W : Z) (dir : e_traversal_dir)
    (ss ss' : list SS_Distances) :
  (forall ss i Q s node,
     P ss (i :: Q) None -> ss !! i = Some s -> rr_node !! i = Some node ->
     P (<[i := hop_done dir s]> ss) Q (Some (i, hops_in dir s))) ->
  (forall ss Q i h node c ss' Q',
     P ss Q (Some (i, h)) -> rr_node !! i = Some node -> c ∈ edges_in dir node ->
     hop_child h W dir rr_node (ss, Q) c = Ok (ss', Q') ->
     P ss' Q' (Some (i, h))) ->
  (forall ss Q i h, P ss Q (Some (i, h)) -> P ss Q None) ->
  (forall s, ss !! from = Some s ->
     P (<[from := match dir with
                  | FORWARD_TRAVERSAL => set_source_hops 0 s
                  | BACKWARD_TRAVERSAL => set_sink_hops 0 s
                  end]> ss) [from] None) ->
  set_node_hops from to rr_node ss W dir = Ok ss' ->
  P ss' [] None.
Proof.
  intros Hpop Hchild Hdone Hstart H. unfold set_node_hops in H.
  apply bind_Ok in H as (s & Hs & H). apply at_index_Ok in Hs.
  specialize (Hstart s Hs). revert Hstart H.
  generalize (<[from := match dir with
                        | FORWARD_TRAVERSAL => set_source_hops 0 s
                        | BACKWARD_TRAVERSAL => set_sink_hops 0 s
                        end]> ss).
  generalize [from]. generalize (length ss + 2)%nat.
  intros fuel. induction fuel as [|fuel IH]; intros Q ss1 HP H; [discriminate|].
  simpl in H. destruct Q as [|i Q1].
  { injection H as <-. exact HP. }
  apply bind_Ok in H as (node & Hnode & H). apply at_index_Ok in Hnode.
  apply bind_Ok in H as (si & Hsi & H). apply at_index_Ok in Hsi.
  apply bind_Ok in H as ([ss2 Q2] & Hkids & H).
  apply (IH Q2 ss2); [|exact H].
  apply (Hdone _ _ i (hops_in dir si)).
  assert (Hh : hops_in dir (match dir with
                            | FORWARD_TRAVERSAL => set_visited_from_source_hops true si
                            | BACKWARD_TRAVERSAL => set_visited_from_sink_hops true si
                            end) = hops_in dir si) by (destruct dir; reflexivity).
  rewrite Hh in Hkids. revert Hkids.
  apply (hop_children_invariant (fun st => P st.1 st.2 (Some (i, hops_in dir si)))).
  - intros [ss3 Q3] c [ss4 Q4] Hc HP3 Hstep. simpl in *. eapply Hchild; eassumption.
  - simpl. apply (Hpop ss1 i Q1 si node HP Hsi Hnode).
Qed.

Lemma same_distances_legal (s s' : SS_Distances) (node_weight W : Z) :
  same_distances s s' -> is_legal s' node_weight W = is_legal s node_weight W.
Proof. intros (H1 & H2 & H3 & H4). unfold is_legal. rewrite H1, H2, H3, H4. reflexivity. Qed.

Lemma same_distances_hop_mark (dir : e_traversal_dir) (h : Z) (s : SS_Distances) :
  same_distances s (hop_mark dir h s)
  /\ visited_hops_in dir (hop_mark dir h s) = true
  /\ hops_in dir (hop_mark dir h s) = h.
Proof. destruct dir; repeat split. Qed.

Lemma same_distances_hop_done (dir : e_traversal_dir) (s : SS_Distances) :
  same_distances s (hop_done dir s)
  /\ visited_hops_in dir (hop_done dir s) = true
  /\ hops_in dir (hop_done dir s) = hops_in dir s.
Proof. destruct dir; repeat split. Qed.

Lemma same_distances_trans (s0 s1 s2 : SS_Distances) :
  same_distances s0 s1 -> same_distances s1 s2 -> same_distances s0 s2.
Proof.
  intros (A1 & A2 & A3 & A4) (B1 & B2 & B3 & B4). unfold same_distances.
  repeat split; congruence.
Qed.

Lemma hops_from_parent_transfer (dir : e_traversal_dir) (rr_node : list RR_Node)
    (ss1 ss2 : list SS_Distances) (from n : nat) (s s' : SS_Distances) :
  (forall p sp, ss1 !! p = Some sp -> visited_hops_in dir sp = true ->
     exists sp', ss2 !! p = Some sp' /\ visited_hops_in dir sp' = true
                 /\ hops_in dir sp' = hops_in dir sp) ->
  hops_in dir s' = hops_in dir s ->
  hops_from_parent dir rr_node ss1 from n s -> hops_from_parent dir rr_node ss2 from n s'.
Proof.
  intros Hframe Hh [[-> H0]|(p & sp & node_p & Hp & Hvp & Hnp & Hedge & Hhops)].
  - left. split; [reflexivity | congruence].
  - right. destruct (Hframe p sp Hp Hvp) as (sp' & Hp' & Hvp' & Hhp').
    exists p, sp', node_p. repeat split; try assumption. congruence.
Qed.

(** X16.  The hops pass on an arena without hop marks of its direction:
    it changes nothing of what the distance passes have written; the
    node it starts from is at 0 hops, and every other node that it
    marks is a child (out-edges forward, in-edges backward) of a marked
    node, one hop further than that node, and is legal for the maximum
    path weight. *)
Theorem set_node_hops_levels (from to : nat) (rr_node : list RR_Node) (W : Z)
    (dir : e_traversal_dir) (ss ss' : list SS_Distances) :
  (forall n s, ss !! n = Some s -> visited_hops_in dir s = false) ->
  set_node_hops from to rr_node ss W dir = Ok ss' ->
  length ss' = length ss
  /\ (forall n s s', ss !! n = Some s -> ss' !! n = Some s' -> same_distances s s')
  /\ forall n s', ss' !! n = Some s' -> visited_hops_in dir s' = true ->
       hops_from_parent dir rr_node ss' from n s'
       /\ (n = from
           \/ exists node, rr_node !! n = Some node /\ is_legal s' (weight node) W = true).
Proof.
  intros Hclear H.
  pose (P := fun (ss1 : list SS_Distances) (Q : list nat) (cur : option (nat * Z)) =>
    length ss1 = length ss
    /\ (forall n s s1, ss !! n = Some s -> ss1 !! n = Some s1 -> same_distances s s1)
    /\ (forall n s1, ss1 !! n = Some s1 -> visited_hops_in dir s1 = true ->
          hops_from_parent dir rr_node ss1 from n s1
          /\ (n = from
              \/ exists node, rr_node !! n = Some node
                              /\ is_legal s1 (weight node) W = true))
    /\ (forall i, i ∈ Q ->
          exists s1, ss1 !! i = Some s1
                     /\ (visited_hops_in dir s1 = true
                         \/ (i = from /\ hops_in dir s1 = 0)))
    /\ (forall i h, cur = Some (i, h) ->
          exists s1, ss1 !! i = Some s1 /\ visited_hops_in dir s1 = true
                     /\ hops_in dir s1 = h)).
  assert (HP : P ss' [] None).
  { apply (set_node_hops_invariant P from to rr_node W dir ss ss'); [| | | |exact H].
    - (* a node is taken from the queue and marked as done *)
      intros ss1 i Q s node (Hl & Hsame & Htree & HQ & _) Hs _.
      destruct (same_distances_hop_done dir s) as (Hd1 & Hd2 & Hd3).
      assert (Hlt : (i < length ss1)%nat) by (eapply lookup_lt_Some; exact Hs).
      assert (Hframe : forall p sp, ss1 !! p = Some sp -> visited_hops_in dir sp = true ->
                exists sp', <[i := hop_done dir s]> ss1 !! p = Some sp'
                            /\ visited_hops_in dir sp' = true
                            /\ hops_in dir sp' = hops_in dir sp).
      { intros p sp Hp Hvp. destruct (decide (p = i)) as [->|Hne].
        - exists (hop_done dir s). rewrite list_lookup_insert_eq by exact Hlt.
          assert (sp = s) by congruence. subst sp. auto.
        - exists sp. rewrite list_lookup_insert_ne by congruence. auto. }
      split; [rewrite length_insert; exact Hl|]. split; [|split; [|split]].
      + intros n s0 s1 Hn0 Hn1. destruct (decide (n = i)) as [->|Hne].
        * rewrite list_lookup_insert_eq in Hn1 by exact Hlt. injection Hn1 as <-.
          eapply same_distances_trans; [apply (Hsame i s0 s Hn0 Hs) | exact Hd1].
        * rewrite list_lookup_insert_ne in Hn1 by congruence. eapply Hsame; eassumption.
      + intros n s1 Hn1 Hv1. destruct (decide (n = i)) as [->|Hne].
        * rewrite list_lookup_insert_eq in Hn1 by exact Hlt. injection Hn1 as <-.
          destruct (HQ i (list_elem_of_here _ _)) as (s1 & Hs1 & Hcase).
          assert (s1 = s) by congruence. subst s1.
          destruct Hcase as [Hvs|[-> H0]].
          -- destruct (Htree i s Hs Hvs) as [Ht Hleg]. split.
             ++ eapply hops_from_parent_transfer; [exact Hframe | exact Hd3 | exact Ht].
             ++ destruct Hleg as [->|(node0 & Hn0 & Hleg)]; [left; reflexivity|].
                right. exists node0. split; [exact Hn0|].
                rewrite (same_distances_legal s _ _ _ Hd1). exact Hleg.
          -- split; [|left; reflexivity]. left. split; [reflexivity | congruence].
        * rewrite list_lookup_insert_ne in Hn1 by congruence.
          destruct (Htree n s1 Hn1 Hv1) as [Ht Hleg]. split; [|exact Hleg].
          eapply hops_from_parent_transfer; [exact Hframe | reflexivity | exact Ht].
      + intros j Hj. destruct (decide (j = i)) as [->|Hne].
        * exists (hop_done dir s). rewrite list_lookup_insert_eq by exact Hlt. auto.
        * destruct (HQ j (list_elem_of_further _ _ _ Hj)) as (s1 & Hs1 & Hcase).
          exists s1. rewrite list_lookup_insert_ne by congruence. auto.
      + intros j h Hcur. injection Hcur as <- <-. exists (hop_done dir s).
        rewrite list_lookup_insert_eq by exact Hlt. auto.
    - (* a child is looked at *)
      intros ss1 Q i h node c ss2 Q' (Hl & Hsame & Htree & HQ & Hcur) Hnode Hc Hstep.
      apply hop_child_cases in Hstep as (node_c & s & Hnc & Hs & Hcase).
      destruct Hcase as [[-> ->]|(Hlegal & Hv & -> & ->)].
      { exact (conj Hl (conj Hsame (conj Htree (conj HQ Hcur)))). }
      destruct (same_distances_hop_mark dir (h + 1) s) as (Hd1 & Hd2 & Hd3).
      assert (Hlt : (c < length ss1)%nat) by (eapply lookup_lt_Some; exact Hs).
      assert (Hframe : forall p sp, ss1 !! p = Some sp -> visited_hops_in dir sp = true ->
                exists sp', <[c := hop_mark dir (h + 1) s]> ss1 !! p = Some sp'
                            /\ visited_hops_in dir sp' = true
                            /\ hops_in dir sp' = hops_in dir sp).
      { intros p sp Hp Hvp. exists sp. rewrite list_lookup_insert_ne; [auto|].
        intros <-. congruence. }
      split; [rewrite length_insert; exact Hl|]. split; [|split; [|split]].
      + intros n s0 s1 Hn0 Hn1. destruct (decide (n = c)) as [->|Hne].
        * rewrite list_lookup_insert_eq in Hn1 by exact Hlt. injection Hn1 as <-.
          eapply same_distances_trans; [apply (Hsame c s0 s Hn0 Hs) | exact Hd1].
        * rewrite list_lookup_insert_ne in Hn1 by congruence. eapply Hsame; eassumption.
      + intros n s1 Hn1 Hv1. destruct (decide (n = c)) as [->|Hne].
        * rewrite list_lookup_insert_eq in Hn1 by exact Hlt. injection Hn1 as <-.
          destruct (Hcur i h eq_refl) as (si & Hsi & Hvi & Hhi). split.
          -- right. destruct (Hframe i si Hsi Hvi) as (si' & Hsi' & Hvi' & Hhi').
             exists i, si', node. repeat split; try assumption. rewrite Hd3. lia.
          -- right. exists node_c. split; [exact Hnc|].
             rewrite (same_distances_legal s _ _ _ Hd1). exact Hlegal.
        * rewrite list_lookup_insert_ne in Hn1 by congruence.
          destruct (Htree n s1 Hn1 Hv1) as [Ht Hleg]. split; [|exact Hleg].
          eapply hops_from_parent_transfer; [exact Hframe | reflexivity | exact Ht].
      + intros j Hj. destruct (decide (j = c)) as [->|Hne].
        * exists (hop_mark dir (h + 1) s). rewrite list_lookup_insert_eq by exact Hlt. auto.
        * apply elem_of_app in Hj as [Hj|Hj];
            [|apply list_elem_of_singleton in Hj; contradiction].
          destruct (HQ j Hj) as (s1 & Hs1 & Hcase).
          exists s1. rewrite list_lookup_insert_ne by congruence. auto.
      + intros j h' Hcur'. injection Hcur' as <- <-.
        destruct (Hcur i h eq_refl) as (si & Hsi & Hvi & Hhi).
        exists si. rewrite list_lookup_insert_ne; [auto|]. intros <-. congruence.
    - intros ss1 Q i h (Hl & Hsame & Htree & HQ & _).
      refine (conj Hl (conj Hsame (conj Htree (conj HQ _)))). discriminate.
    - (* the start *)
      intros s Hs.
      assert (Hlt : (from < length ss)%nat) by (eapply lookup_lt_Some; exact Hs).
      set (s0 := match dir with
                 | FORWARD_TRAVERSAL => set_source_hops 0 s
                 | BACKWARD_TRAVERSAL => set_sink_hops 0 s
                 end).
      assert (H0 : same_distances s s0 /\ visited_hops_in dir s0 = visited_hops_in dir s
                   /\ hops_in dir s0 = 0) by (subst s0; destruct dir; repeat split).
      destruct H0 as (Hd1 & Hd2 & Hd3).
      split; [apply length_insert|]. split; [|split; [|split]].
      + intros n sa sb Hna Hnb. destruct (decide (n = from)) as [->|Hne].
        * rewrite list_lookup_insert_eq in Hnb by exact Hlt. injection Hnb as <-.
          assert (sa = s) by congruence. subst sa. exact Hd1.
        * rewrite list_lookup_insert_ne in Hnb by congruence.
          assert (sa = sb) by congruence. subst sb. repeat split.
      + intros n s1 Hn1 Hv1. exfalso. destruct (decide (n = from)) as [->|Hne].
        * rewrite list_lookup_insert_eq in Hn1 by exact Hlt. injection Hn1 as <-.
          rewrite Hd2, (Hclear from s Hs) in Hv1. discriminate.
        * rewrite list_lookup_insert_ne in Hn1 by congruence.
          rewrite (Hclear n s1 Hn1) in Hv1. discriminate.
      + intros j Hj. apply list_elem_of_singleton in Hj as ->. exists s0.
        rewrite list_lookup_insert_eq by exact Hlt. auto.
      + discriminate. }
  destruct HP as (Hl & Hsame & Htree & _). auto.
Qed.
(** ** The workload of the threads *)

Section Workload_Balance.
Variable rr_node_index : e_rr_type -> Z -> Z -> nat -> nat.
Variable arch_structs : Arch_Structs.
Variable analyze_core : bool.
Variable num_threads : nat.
Variable topological_mode : e_topological_mode.

(** An invariant of the loops that build the workload: it is kept when
    a source goes to the thread that the counter of the sources points
    to, and when an input pin goes to the thread that the counter of the
    sinks points to. *)
Lemma add_test_tiles_invariant (P : workload_state -> Prop) :
  (forall st c idx tile, P st ->
     thread_conn_info st !! ithread_source st = Some c ->
     P (mk_workload_state
          (<[ithread_source st := Conn_Info_add idx tile c]> (thread_conn_info st))
          (next_thread num_threads (ithread_source st)) (ithread_sink st))) ->
  (forall st c idx tile, P st ->
     thread_conn_info st !! ithread_sink st = Some c ->
     P (mk_workload_state
          (<[ithread_sink st := Conn_Info_add idx tile c]> (thread_conn_info st))
          (ithread_source st) (next_thread num_threads (ithread_sink st)))) ->
  forall tiles st st',
    P st ->
    add_test_tiles rr_node_index arch_structs analyze_core num_threads topological_mode
      tiles st = Ok st' ->
    P st'.
Proof.
  intros Hsource Hsink.
  assert (Hipins : forall tile pins st st', P st ->
            add_ipins rr_node_index num_threads tile pins st = Ok st' -> P st').
  { intros tile. induction pins as [|pin rest IH]; intros st st' HP H; simpl in H.
    - injection H as <-. exact HP.
    - apply bind_Ok in H as (c & Hc & H). apply at_index_Ok in Hc.
      eapply IH; [|exact H]. apply Hsink; assumption. }
  assert (Hclasses : forall tile classes iclass st st', P st ->
            add_classes rr_node_index num_threads tile iclass classes st = Ok st' -> P st').
  { intros tile. induction classes as [|pc rest IH]; intros iclass st st' HP H; simpl in H.
    - injection H as <-. exact HP.
    - apply bind_Ok in H as (st1 & H1 & H). eapply IH; [|exact H].
      destruct (pin_type pc).
      + apply bind_Ok in H1 as (c & Hc & H1). apply at_index_Ok in Hc.
        injection H1 as <-. apply Hsource; assumption.
      + eapply Hipins; eassumption.
      + discriminate H1. }
  induction tiles as [|tile rest IH]; intros st st' HP H; simpl in H.
  - injection H as <-. exact HP.
  - apply bind_Ok in H as (st1 & H1 & H). eapply IH; [|exact H].
    unfold add_test_tile in H1. destruct (skips_tile _ _ _ _).
    + injection H1 as <-. exact HP.
    + apply bind_Ok in H1 as (tt & _ & H1). apply bind_Ok in H1 as (ty & _ & H1).
      eapply Hclasses; eassumption.
Qed.

(** One more item for the thread that a round-robin counter points to. *)
Lemma round_robin_step (wl : list Conn_Info) (qa qb ia ib : nat) (c : Conn_Info)
    (idx : nat) (tile : Coordinate) :
  length wl = num_threads -> (ia < num_threads)%nat ->
  (forall i c, wl !! i = Some c ->
     length (source_node_inds c)
     = (qa + (if decide (i < ia)%nat then 1 else 0)
        + (qb + (if decide (i < ib)%nat then 1 else 0)))%nat
     /\ length (tile_coords c) = length (source_node_inds c)) ->
  wl !! ia = Some c ->
  exists qa',
    forall i c', <[ia := Conn_Info_add idx tile c]> wl !! i = Some c' ->
      length (source_node_inds c')
      = (qa' + (if decide (i < next_thread num_threads ia)%nat then 1 else 0)
         + (qb + (if decide (i < ib)%nat then 1 else 0)))%nat
      /\ length (tile_coords c') = length (source_node_inds c').
Proof.
  intros Hlen Hia Hall Hc. unfold next_thread.
  destruct (decide (S ia = num_threads)) as [Hwrap|Hno].
  - exists (S qa). intros i c' Hi. destruct (decide (i = ia)) as [->|Hne].
    + rewrite list_lookup_insert_eq in Hi by (eapply lookup_lt_Some; exact Hc).
      injection Hi as <-. destruct (Hall ia c Hc) as [H1 H2]. simpl.
      rewrite !length_app, H2, H1. simpl.
      destruct (decide (ia < ia)%nat); [lia|]. destruct (decide (ia < 0)%nat); [lia|].
      split; lia.
    + rewrite list_lookup_insert_ne in Hi by congruence.
      destruct (Hall i c' Hi) as [H1 H2]. split; [|exact H2].
      pose proof (lookup_lt_Some _ _ _ Hi) as Hlt.
      rewrite H1. destruct (decide (i < ia)%nat); [|lia].
      destruct (decide (i < 0)%nat); lia.
  - exists qa. intros i c' Hi. destruct (decide (i = ia)) as [->|Hne].
    + rewrite list_lookup_insert_eq in Hi by (eapply lookup_lt_Some; exact Hc).
      injection Hi as <-. destruct (Hall ia c Hc) as [H1 H2]. simpl.
      rewrite !length_app, H2, H1. simpl.
      destruct (decide (ia < ia)%nat); [lia|]. destruct (decide (ia < S ia)%nat); [|lia].
      split; lia.
    + rewrite list_lookup_insert_ne in Hi by congruence.
      destruct (Hall i c' Hi) as [H1 H2]. split; [|exact H2]. rewrite H1.
      destruct (decide (i < ia)%nat), (decide (i < S ia)%nat); lia.
Qed.

Lemma next_thread_lt (i : nat) :
  (i < num_threads)%nat -> (next_thread num_threads i < num_threads)%nat.
Proof. unfold next_thread. intros Hi. case_decide; lia. Qed.

(** X17.  The workload that [analyze_test_tile_connections] builds for
    at least one thread: every thread gets a list, in every list the
    source nodes and the tile coordinates come in pairs, and the two
    round-robin counters keep the lists balanced: no two threads differ
    by more than two items. *)
Theorem build_workload_balanced (test_tile_coords : list Coordinate) (wl : list Conn_Info) :
  (0 < num_threads)%nat ->
  build_workload rr_node_index arch_structs analyze_core num_threads topological_mode
    test_tile_coords = Ok wl ->
  length wl = num_threads
  /\ (forall c, c ∈ wl -> length (tile_coords c) = length (source_node_inds c))
  /\ forall c1 c2, c1 ∈ wl -> c2 ∈ wl ->
       (length (source_node_inds c1) <= length (source_node_inds c2) + 2)%nat.
Proof.
  intros HT H. unfold build_workload in H. apply bind_Ok in H as (st & H & Hwl).
  injection Hwl as <-.
  pose (P := fun st : workload_state =>
               length (thread_conn_info st) = num_threads
               /\ (ithread_source st < num_threads)%nat
               /\ (ithread_sink st < num_threads)%nat
               /\ exists qa qb,
                    forall i c, thread_conn_info st !! i = Some c ->
                      length (source_node_inds c)
                      = (qa + (if decide (i < ithread_source st)%nat then 1 else 0)
                         + (qb + (if decide (i < ithread_sink st)%nat then 1 else 0)))%nat
                      /\ length (tile_coords c) = length (source_node_inds c)).
  assert (HP : P st).
  { revert H. apply (add_test_tiles_invariant P).
    - intros st0 c idx tile (Hlen & Hia & Hib & qa & qb & Hall) Hc.
      destruct (round_robin_step _ qa qb _ _ c idx tile Hlen Hia Hall Hc) as [qa' Hall'].
      split; [simpl; rewrite length_insert; exact Hlen|].
      split; [apply next_thread_lt; exact Hia|]. split; [exact Hib|].
      exists qa', qb. exact Hall'.
    - intros st0 c idx tile (Hlen & Hia & Hib & qa & qb & Hall) Hc.
      destruct (round_robin_step _ qb qa _ (ithread_source st0) c idx tile Hlen Hib) as
        [qb' Hall']; [|exact Hc|].
      { intros i c0 Hi. destruct (Hall i c0 Hi) as [H1 H2]. split; [lia | exact H2]. }
      split; [simpl; rewrite length_insert; exact Hlen|].
      split; [exact Hia|]. split; [apply next_thread_lt; exact Hib|].
      exists qa, qb'. intros i c0 Hi. destruct (Hall' i c0 Hi) as [H1 H2].
      split; [simpl in *; lia | exact H2].
    - split; [apply length_replicate|]. split; [exact HT|]. split; [exact HT|].
      exists 0%nat, 0%nat. intros i c Hi. apply lookup_replicate in Hi as [-> _].
      simpl. destruct (decide (i < 0)%nat); [lia|]. split; reflexivity. }
  destruct HP as (Hlen & _ & _ & qa & qb & Hall).
  split; [exact Hlen|]. split.
  - intros c Hc. apply list_elem_of_lookup in Hc as [i Hi]. apply (Hall i c Hi).
  - intros c1 c2 Hc1 Hc2.
    apply list_elem_of_lookup in Hc1 as [i Hi]. apply list_elem_of_lookup in Hc2 as [j Hj].
    destruct (Hall i c1 Hi) as [H1 _]. destruct (Hall j c2 Hj) as [H2 _].
    rewrite H1, H2.
    repeat match goal with |- context [decide ?p] => destruct (decide p) end; lia.
Qed.

End Workload_Balance.
(** ** One connection: sources, sinks and the probability totals *)

Section Connection_Sums.
Context {Demands : Type}.
Variable env : Collaborators Demands.

(** The loop over the pins of a class that all have the probability
    [p]: [p] is added to the sum once for every pin, in their order. *)
Lemma sum_pin_probabilities_uniform (pin_probs : list Q) (p : Q) (pins : list nat)
    (this_pin_prob sum_probabilities : Q) :
  (forall pin, pin ∈ pins -> pin_probs !! pin = Some p) ->
  Qeq_bool p (inject_Z UNDEFINED) = false ->
  PROBS_EQUAL env p p = true ->
  this_pin_prob = inject_Z UNDEFINED \/ this_pin_prob = p ->
  sum_pin_probabilities env pin_probs pins (this_pin_prob, sum_probabilities)
  = Ok (match pins with [] => this_pin_prob | _ => p end,
        fold_left Qplus (replicate (length pins) p) sum_probabilities).
Proof.
  intros Hpins Hp Heq. revert this_pin_prob sum_probabilities.
  induction pins as [|pin rest IH]; intros this_pin_prob sum_probabilities Hthis.
  - reflexivity.
  - assert (Hrest : forall pin0, pin0 ∈ rest -> pin_probs !! pin0 = Some p).
    { intros pin0 Hin. apply Hpins. apply list_elem_of_further. exact Hin. }
    pose proof (IH Hrest p (sum_probabilities + p)%Q (or_intror eq_refl)) as Hsum.
    simpl. rewrite (at_index_lookup _ _ _ (Hpins pin (list_elem_of_here _ _))). simpl.
    destruct Hthis as [->| ->].
    + change (Qeq_bool (inject_Z UNDEFINED) (inject_Z UNDEFINED)) with true.
      cbv iota. rewrite Hsum. destruct rest; reflexivity.
    + rewrite Hp, Heq. simpl. rewrite Hsum. destruct rest; reflexivity.
Qed.

(** X18.  For a source node whose pins all have the probability [p],
    [get_sum_of_source_probabilities] does not throw; the sum that it
    returns is what comes of adding [p] to 0 once for every pin of the
    node's pin class, one addition after the other as the loop makes
    them, and the probability of one pin is [p]; for a pin class
    without pins the sum is 0 and the probability of one pin is left at
    [UNDEFINED]. *)
Theorem sum_of_source_probabilities_of_class (source : nat) (rr_node : list RR_Node)
    (pin_probs : list Q) (fill_block_type : Physical_Type_Descriptor)
    (node : RR_Node) (pin_class : Pin_Class) (p : Q) :
  rr_node !! source = Some node ->
  rr_type node = SOURCE ->
  class_inf fill_block_type !! ptc_num node = Some pin_class ->
  (forall pin, pin ∈ pinlist pin_class -> pin_probs !! pin = Some p) ->
  Qeq_bool p (inject_Z UNDEFINED) = false ->
  PROBS_EQUAL env p p = true ->
  get_sum_of_source_probabilities env source rr_node pin_probs fill_block_type
  = Ok (fold_left Qplus (replicate (length (pinlist pin_class)) p) 0%Q,
        match pinlist pin_class with [] => inject_Z UNDEFINED | _ => p end).
Proof.
  intros Hnode Hty Hclass Hpins Hp Heq.
  unfold get_sum_of_source_probabilities.
  rewrite (at_index_lookup _ _ _ Hnode). simpl. rewrite Hty.
  rewrite (at_index_lookup _ _ _ Hclass). simpl.
  rewrite (sum_pin_probabilities_uniform pin_probs p (pinlist pin_class)
             (inject_Z UNDEFINED) 0%Q Hpins Hp Heq (or_introl eq_refl)).
  reflexivity.
Qed.

(** X19.  [analyze_connection] comes to an end without an exception
    only for a source node of type SOURCE and a sink node of type SINK:
    for the IPIN nodes that the workload also holds,
    [get_num_sources] throws "Expected node to be a source". *)
Theorem analyze_connection_node_types (source sink : nat) (settings : Analysis_Settings)
    (arch : Arch_Structs) (rr_node : list RR_Node) (conn_length conns : Z)
    (mode : e_topological_mode) (r r' : Analysis_Results) (w w' : world Demands) :
  analyze_connection env source sink settings arch rr_node conn_length conns mode r w
  = Ok (r', w') ->
  exists source_node sink_node,
    rr_node !! source = Some source_node /\ rr_type source_node = SOURCE
    /\ rr_node !! sink = Some sink_node /\ rr_type sink_node = SINK.
Proof.
  unfold analyze_connection. intros H.
  apply bind_Ok in H as (length_prob & _ & H).
  apply bind_Ok in H as (fbt & _ & H).
  apply bind_Ok in H as (sn & _ & H).
  apply bind_Ok in H as ([sum_probs one_pin_prob] & _ & H).
  apply bind_Ok in H as (num_sinks & Hsinks & H).
  apply bind_Ok in H as (num_sources & Hsources & _).
  unfold get_num_sinks in Hsinks. unfold get_num_sources in Hsources.
  apply bind_Ok in Hsinks as (sink_node & Hk & Hsinks). apply at_index_Ok in Hk.
  apply bind_Ok in Hsources as (source_node & Hs & Hsources). apply at_index_Ok in Hs.
  exists source_node, sink_node.
  destruct (bool_decide (rr_type sink_node = SINK)) eqn:Ek; [|discriminate].
  destruct (bool_decide (rr_type source_node = SOURCE)) eqn:Es; [|discriminate].
  apply bool_decide_eq_true in Ek, Es. auto.
Qed.



End Connection_Sums.

(** ** Rounding of a difference

    What [SFsub] makes of a difference that lies below a number of the
    format: the rounding to nearest does not carry it above that
    number. *)

Lemma two_power_pos (e : Z) : (0 < 2 ^ e)%Q.
Proof. apply Qpower_0_lt. reflexivity. Qed.

Lemma two_not_zero : ~ (2 == 0)%Q.
Proof. discriminate. Qed.

(** A significand shifted to the left, at an exponent as much lower. *)
Lemma scaled_shift (m e k : Z) :
  0 <= k -> (inject_Z (m * 2 ^ k) * 2 ^ e == inject_Z m * 2 ^ (e + k))%Q.
Proof.
  intros Hk. rewrite inject_Z_mult, (Qpower_plus 2 e k two_not_zero).
  rewrite (Zpower_Qpower 2 k Hk). change (inject_Z 2) with 2%Q. ring.
Qed.

Lemma scaled_le (a b e : Z) :
  (inject_Z a * 2 ^ e <= inject_Z b * 2 ^ e)%Q <-> a <= b.
Proof.
  rewrite Zle_Qle. split; intros H.
  - apply Qmult_le_r in H; [exact H | apply two_power_pos].
  - apply Qmult_le_r; [apply two_power_pos | exact H].
Qed.

Lemma scaled_lt (a b e : Z) :
  (inject_Z a * 2 ^ e < inject_Z b * 2 ^ e)%Q <-> a < b.
Proof.
  rewrite Zlt_Qlt. split; intros H.
  - apply Qmult_lt_r in H; [exact H | apply two_power_pos].
  - apply Qmult_lt_r; [apply two_power_pos | exact H].
Qed.

(** The number of binary digits of a significand. *)
Lemma digits2_pos_bounds (m : positive) :
  2 ^ (Z.pos (digits2_pos m) - 1) <= Z.pos m < 2 ^ Z.pos (digits2_pos m).
Proof.
  induction m as [m IH|m IH|]; simpl digits2_pos.
  - rewrite Pos2Z.inj_succ. replace (Z.succ (Z.pos (digits2_pos m)) - 1)
      with (Z.succ (Z.pos (digits2_pos m) - 1)) by lia.
    rewrite !Z.pow_succ_r by lia. lia.
  - rewrite Pos2Z.inj_succ. replace (Z.succ (Z.pos (digits2_pos m)) - 1)
      with (Z.succ (Z.pos (digits2_pos m) - 1)) by lia.
    rewrite !Z.pow_succ_r by lia. lia.
  - simpl. lia.
Qed.

Lemma two_power_scaled (k e : Z) :
  0 <= k -> (2 ^ (k + e) == inject_Z (2 ^ k) * 2 ^ e)%Q.
Proof.
  intros Hk. rewrite (Qpower_plus 2 k e two_not_zero), (Zpower_Qpower 2 k Hk).
  reflexivity.
Qed.

Lemma scaled_digits (m : positive) (e : Z) :
  (2 ^ (Z.pos (digits2_pos m) - 1 + e) <= inject_Z (Z.pos m) * 2 ^ e
   /\ inject_Z (Z.pos m) * 2 ^ e < 2 ^ (Z.pos (digits2_pos m) + e))%Q.
Proof.
  destruct (digits2_pos_bounds m) as [Hlo Hhi].
  assert (Hd : 0 <= Z.pos (digits2_pos m) - 1) by lia.
  split.
  - rewrite (two_power_scaled _ e Hd). apply scaled_le. exact Hlo.
  - rewrite (two_power_scaled _ e (Pos2Z.is_nonneg _)). apply scaled_lt. exact Hhi.
Qed.

(** A smaller number has no more digits above the binary point. *)
Lemma scaled_le_digits (m M : positive) (e E : Z) :
  (inject_Z (Z.pos m) * 2 ^ e <= inject_Z (Z.pos M) * 2 ^ E)%Q ->
  Z.pos (digits2_pos m) + e <= Z.pos (digits2_pos M) + E.
Proof.
  intros H. destruct (scaled_digits m e) as [Hlo _]. destruct (scaled_digits M E) as [_ Hhi].
  assert (Hlt : (2 ^ (Z.pos (digits2_pos m) - 1 + e) < 2 ^ (Z.pos (digits2_pos M) + E))%Q).
  { eapply Qle_lt_trans; [exact Hlo|]. eapply Qle_lt_trans; [exact H | exact Hhi]. }
  apply Qpower_lt_compat_l_inv in Hlt; [lia | reflexivity].
Qed.

Lemma fexp_monotone (prec emax a b : Z) :
  a <= b -> fexp prec emax a <= fexp prec emax b.
Proof. unfold fexp. lia. Qed.

(** Shifting to the right drops the low bits. *)
Lemma shr_1_m (mrs : shr_record) : 0 <= shr_m mrs -> shr_m (shr_1 mrs) = shr_m mrs / 2.
Proof.
  destruct mrs as [m r s]. simpl. intros Hm.
  destruct m as [|[q|q|]|q]; simpl; try lia.
  - reflexivity.
  - apply (Z.div_unique (Z.pos q~1) 2 (Z.pos q) 1); lia.
  - apply (Z.div_unique (Z.pos q~0) 2 (Z.pos q) 0); lia.
  - reflexivity.
Qed.

Lemma iter_pos_shr_1_m (p : positive) (mrs : shr_record) :
  0 <= shr_m mrs -> shr_m (SpecFloat.iter_pos shr_1 p mrs) = shr_m mrs / 2 ^ Z.pos p.
Proof.
  revert mrs. induction p as [p IH|p IH|]; intros mrs Hm; simpl SpecFloat.iter_pos.
  - assert (H1 : 0 <= shr_m (shr_1 mrs)) by (rewrite shr_1_m by exact Hm; apply Z.div_pos; lia).
    assert (H2 : 0 <= shr_m (SpecFloat.iter_pos shr_1 p (shr_1 mrs)))
      by (rewrite IH by exact H1; apply Z.div_pos; [exact H1 | lia]).
    rewrite IH by exact H2. rewrite IH by exact H1. rewrite shr_1_m by exact Hm.
    rewrite !Z.div_div by lia. f_equal.
    replace (Z.pos p~1) with (1 + Z.pos p + Z.pos p) by lia.
    rewrite !Z.pow_add_r by lia. lia.
  - assert (H1 : 0 <= shr_m (SpecFloat.iter_pos shr_1 p mrs))
      by (rewrite IH by exact Hm; apply Z.div_pos; [exact Hm | lia]).
    rewrite IH by exact H1. rewrite IH by exact Hm.
    rewrite !Z.div_div by lia. f_equal.
    replace (Z.pos p~0) with (Z.pos p + Z.pos p) by lia.
    rewrite !Z.pow_add_r by lia. lia.
  - rewrite shr_1_m by exact Hm. reflexivity.
Qed.

(** What [shr] leaves of a significand that is not negative. *)
Lemma shr_m_floor (m e n : Z) (l : location) :
  0 <= m ->
  let '(mrs, e') := shr (shr_record_of_loc m l) e n in
  (0 < n /\ shr_m mrs = m / 2 ^ n /\ e' = e + n)
  \/ (n <= 0 /\ mrs = shr_record_of_loc m l /\ e' = e).
Proof.
  intros Hm. assert (Hrec : shr_m (shr_record_of_loc m l) = m)
    by (destruct l as [|[| |]]; reflexivity).
  destruct n as [|p|p]; simpl.
  - right. repeat split. lia.
  - left. split; [lia|]. split; [|reflexivity].
    rewrite iter_pos_shr_1_m by (rewrite Hrec; exact Hm). rewrite Hrec. reflexivity.
  - right. repeat split. lia.
Qed.

Lemma round_nearest_even_bounds (m : Z) (l : location) :
  m <= round_nearest_even m l <= m + 1.
Proof.
  unfold round_nearest_even. destruct l as [|[| |]]; try lia.
  destruct (Z.even m); lia.
Qed.

(** Aligning a significand keeps the number, and leaves an exponent that
    is not above the one asked for. *)
Lemma iter_xO_pow (m d : positive) : Z.pos (Pos.iter xO m d) = Z.pos m * 2 ^ Z.pos d.
Proof.
  induction d as [|d IH] using Pos.peano_ind.
  - simpl. lia.
  - rewrite Pos.iter_succ, Pos2Z.inj_xO, IH, Pos2Z.inj_succ, Z.pow_succ_r by lia. lia.
Qed.

Lemma shl_align_scaled (m : positive) (e e' : Z) :
  (inject_Z (Z.pos (fst (shl_align m e e'))) * 2 ^ snd (shl_align m e e')
   == inject_Z (Z.pos m) * 2 ^ e)%Q
  /\ snd (shl_align m e e') = Z.min e e'.
Proof.
  unfold shl_align. destruct (e' - e) as [|d|d] eqn:Hd; simpl.
  - split; [reflexivity | lia].
  - split; [reflexivity | lia].
  - split; [|lia]. rewrite iter_xO_pow, scaled_shift by lia.
    replace (e' + Z.pos d) with e by lia. reflexivity.
Qed.

Section Rounding_Below.
Variables prec emax : Z.

(** Rounding to nearest does not carry an aligned number beyond a
    number of the format that lies above it, nor to an infinity. *)
Lemma binary_round_aux_below (mz : positive) (ez : Z) (M : positive) (E : Z) :
  bounded prec emax M E = true ->
  ez <= fexp prec emax (Z.pos (digits2_pos mz) + ez) ->
  (inject_Z (Z.pos mz) * 2 ^ ez < inject_Z (Z.pos M) * 2 ^ E)%Q ->
  match binary_round_aux prec emax false (Z.pos mz) ez loc_Exact with
  | S754_finite s m e =>
      s = false /\ (inject_Z (Z.pos m) * 2 ^ e <= inject_Z (Z.pos M) * 2 ^ E)%Q
  | S754_infinity _ => False
  | _ => True
  end.
Proof.
  intros Hbounded Haligned Hlt.
  apply andb_true_iff in Hbounded as [Hcanon HE].
  unfold canonical_mantissa in Hcanon. apply Z.eqb_eq in Hcanon. apply Z.leb_le in HE.
  assert (Hdigits : forall (r : positive) (e : Z),
            (inject_Z (Z.pos r) * 2 ^ e <= inject_Z (Z.pos M) * 2 ^ E)%Q ->
            fexp prec emax (Z.pos (digits2_pos r) + e) <= E).
  { intros r e Hr. rewrite <- Hcanon. apply fexp_monotone.
    apply scaled_le_digits. exact Hr. }
  unfold binary_round_aux, shr_fexp.
  change (Zdigits2 (Z.pos mz)) with (Z.pos (digits2_pos mz)).
  set (f := fexp prec emax (Z.pos (digits2_pos mz) + ez)) in *.
  assert (Hf : f <= E) by (apply Hdigits, Qlt_le_weak, Hlt).
  pose proof (shr_m_floor (Z.pos mz) ez (f - ez) loc_Exact (Pos2Z.is_nonneg mz)) as Hshr.
  destruct (shr (shr_record_of_loc (Z.pos mz) loc_Exact) ez (f - ez)) as [mrs' e'].
  set (r := round_nearest_even (shr_m mrs') (loc_of_shr_record mrs')).
  assert (Hr : 0 <= r /\ e' = f
               /\ (inject_Z r * 2 ^ e' <= inject_Z (Z.pos M) * 2 ^ E)%Q).
  { pose proof (round_nearest_even_bounds (shr_m mrs') (loc_of_shr_record mrs')) as Hround.
    fold r in Hround.
    destruct Hshr as [(Hk & Hm & He)|(Hk & Hm & He)].
    - assert (Hpow : 0 < 2 ^ (f - ez)) by (apply Z.pow_pos_nonneg; lia).
      assert (He' : e' = f) by lia.
      split; [|split; [exact He'|]].
      + rewrite Hm in Hround. pose proof (Z.div_pos (Z.pos mz) (2 ^ (f - ez))). lia.
      + rewrite He'.
        assert (HM : (inject_Z (Z.pos M * 2 ^ (E - f)) * 2 ^ f
                      == inject_Z (Z.pos M) * 2 ^ E)%Q).
        { rewrite scaled_shift by lia. replace (f + (E - f)) with E by lia. reflexivity. }
        rewrite <- HM. apply scaled_le.
        assert (Hmz : Z.pos mz < Z.pos M * 2 ^ (E - f) * 2 ^ (f - ez)).
        { apply (scaled_lt _ _ ez). rewrite scaled_shift by lia.
          replace (ez + (f - ez)) with f by lia. rewrite HM. exact Hlt. }
        assert (Hdiv : Z.pos mz / 2 ^ (f - ez) < Z.pos M * 2 ^ (E - f)).
        { apply Z.div_lt_upper_bound; [exact Hpow | lia]. }
        rewrite Hm in Hround. lia.
    - assert (He' : e' = f) by lia.
      assert (Hrr : r = Z.pos mz) by (unfold r; rewrite Hm; reflexivity).
      split; [lia|]. split; [exact He'|].
      rewrite Hrr, He. apply Qlt_le_weak. exact Hlt. }
  destruct Hr as (Hr0 & He' & Hrle). clearbody r. clear Hshr.
  pose proof (shr_m_floor r e' (fexp prec emax (Zdigits2 r + e') - e') loc_Exact Hr0) as Hshr.
  destruct (shr (shr_record_of_loc r loc_Exact) e' (fexp prec emax (Zdigits2 r + e') - e'))
    as [mrs'' e''].
  destruct (shr_m mrs'') as [|m|m] eqn:Hm''; [exact I| |exact I].
  assert (Hfinal : e'' <= E
                   /\ (inject_Z (Z.pos m) * 2 ^ e'' <= inject_Z (Z.pos M) * 2 ^ E)%Q).
  { destruct Hshr as [(Hk & Hm & He)|(Hk & Hm & He)].
    - assert (Hpow : 0 < 2 ^ (fexp prec emax (Zdigits2 r + e') - e'))
        by (apply Z.pow_pos_nonneg; lia).
      destruct r as [|rp|rp]; [rewrite Z.div_0_l in Hm by lia; lia| |lia].
      change (Zdigits2 (Z.pos rp)) with (Z.pos (digits2_pos rp)) in *.
      split.
      + rewrite He. pose proof (Hdigits rp e' Hrle). lia.
      + eapply Qle_trans; [|exact Hrle].
        rewrite He, <- scaled_shift by lia. apply scaled_le. rewrite Hm.
        rewrite Z.mul_comm. apply Z.mul_div_le. exact Hpow.
    - rewrite Hm in Hm''.
      assert (Hrr : r = Z.pos m) by (destruct r; simpl in Hm''; exact Hm'').
      rewrite <- Hrr, He. split; [lia | exact Hrle]. }
  destruct Hfinal as [He'' Hval].
  destruct (Z.leb_spec e'' (emax - prec)) as [_|Hover]; [|lia].
  split; [reflexivity | exact Hval].
Qed.

Lemma binary_round_below (n : positive) (e : Z) (M : positive) (E : Z) :
  bounded prec emax M E = true ->
  (inject_Z (Z.pos n) * 2 ^ e < inject_Z (Z.pos M) * 2 ^ E)%Q ->
  match binary_round prec emax false n e with
  | S754_finite s m e' =>
      s = false /\ (inject_Z (Z.pos m) * 2 ^ e' <= inject_Z (Z.pos M) * 2 ^ E)%Q
  | S754_infinity _ => False
  | _ => True
  end.
Proof.
  intros Hbounded Hlt. unfold binary_round.
  destruct (shl_align_scaled n e (fexp prec emax (Z.pos (digits2_pos n) + e)))
    as [Hval Hexp].
  destruct (shl_align n e (fexp prec emax (Z.pos (digits2_pos n) + e))) as [mz ez].
  cbn [fst snd] in Hval, Hexp.
  assert (Hd : Z.pos (digits2_pos mz) + ez = Z.pos (digits2_pos n) + e).
  { apply Z.le_antisymm; apply scaled_le_digits; rewrite Hval; apply Qle_refl. }
  apply binary_round_aux_below.
  - exact Hbounded.
  - rewrite Hd. lia.
  - rewrite Hval. exact Hlt.
Qed.

(** A number rounded with the sign of a negative one is not positive. *)
Lemma binary_round_negative (n : positive) (e : Z) :
  match binary_round prec emax true n e with
  | S754_finite s _ _ => s = true
  | S754_infinity s => s = true
  | _ => True
  end.
Proof.
  unfold binary_round. destruct (shl_align _ _ _) as [mz ez].
  unfold binary_round_aux. destruct (shr_fexp _ _ _ _ _) as [mrs' e'].
  destruct (shr_fexp _ _ _ _ _) as [mrs'' e''].
  destruct (shr_m mrs''); [exact I| |exact I].
  destruct (_ <=? _); reflexivity.
Qed.

(** The difference of a number of the format and a positive number: it
    is rounded to a number that is not above the former, when it is
    positive at all. *)
Lemma SFsub_below (sd : bool) (md : positive) (ed : Z) (mm : positive) (em : Z) :
  bounded prec emax md ed = true ->
  match SFsub prec emax (S754_finite sd md ed) (S754_finite false mm em) with
  | S754_finite false m e =>
      sd = false /\ (inject_Z (Z.pos m) * 2 ^ e <= inject_Z (Z.pos md) * 2 ^ ed)%Q
  | S754_infinity false => False
  | _ => True
  end.
Proof.
  intros Hbounded. unfold SFsub. cbv zeta.
  destruct (shl_align_scaled md ed (Z.min ed em)) as [Hd Hde].
  destruct (shl_align_scaled mm em (Z.min ed em)) as [Hm Hme].
  destruct (shl_align md ed (Z.min ed em)) as [ad ed'].
  destruct (shl_align mm em (Z.min ed em)) as [am em']. cbn [fst snd] in *.
  assert (Hed : ed' = Z.min ed em) by lia. assert (Hem : em' = Z.min ed em) by lia.
  clear Hde Hme. subst ed' em'. set (ez := Z.min ed em) in *.
  unfold binary_normalize.
  destruct (cond_Zopp sd (Z.pos ad) - cond_Zopp false (Z.pos am)) as [|n|n] eqn:Hn.
  - exact I.
  - destruct sd; unfold cond_Zopp in Hn; [lia|].
    pose proof (binary_round_below n ez md ed Hbounded) as Hround.
    assert (Hlt : (inject_Z (Z.pos n) * 2 ^ ez < inject_Z (Z.pos md) * 2 ^ ed)%Q).
    { rewrite <- Hd. apply scaled_lt. lia. }
    specialize (Hround Hlt).
    destruct (binary_round prec emax false n ez) as [s|s| |s m e]; try exact I.
    + destruct s; [exact I | exact Hround].
    + destruct Hround as [-> Hle]. split; [reflexivity | exact Hle].
  - pose proof (binary_round_negative n ez) as Hneg.
    destruct (binary_round prec emax true n ez) as [s|s| |s m e]; try exact I.
    + rewrite Hneg. exact I.
    + rewrite Hneg. exact I.
Qed.

End Rounding_Below.

(** ** The comparison of [Module Binary32] is that of the library

    [Binary32.compare] goes by the values; on the numbers of a format
    (binary32 for a [float], binary64 for a [double]) it answers as
    [SFcompare] of the Standard Library does. *)

Lemma canonical_exponent_lt (prec emax : Z) (m1 m2 : positive) (e1 e2 : Z) :
  canonical_mantissa prec emax m1 e1 = true ->
  canonical_mantissa prec emax m2 e2 = true ->
  e1 < e2 ->
  (inject_Z (Z.pos m1) * 2 ^ e1 < inject_Z (Z.pos m2) * 2 ^ e2)%Q.
Proof.
  unfold canonical_mantissa, fexp. intros H1 H2 Hlt.
  apply Z.eqb_eq in H1, H2.
  destruct (scaled_digits m1 e1) as [_ Hhi]. destruct (scaled_digits m2 e2) as [Hlo _].
  eapply Qlt_le_trans; [exact Hhi|]. eapply Qle_trans; [|exact Hlo].
  apply Qpower_le_compat_l; [lia | discriminate].
Qed.

Lemma scaled_compare (a b e : Z) :
  (inject_Z a * 2 ^ e ?= inject_Z b * 2 ^ e)%Q = (a ?= b).
Proof.
  destruct (Z.compare_spec a b) as [->|H|H].
  - apply Qeq_alt. reflexivity.
  - apply Qlt_alt. apply scaled_lt. exact H.
  - apply Qgt_alt. apply scaled_lt. exact H.
Qed.

Lemma scaled_compare_canonical (prec emax : Z) (s : bool) (m1 m2 : positive) (e1 e2 : Z) :
  canonical_mantissa prec emax m1 e1 = true ->
  canonical_mantissa prec emax m2 e2 = true ->
  (inject_Z (cond_Zopp s (Z.pos m1)) * 2 ^ e1 ?= inject_Z (cond_Zopp s (Z.pos m2)) * 2 ^ e2)%Q
  = let c := match e1 ?= e2 with
             | Eq => Pos.compare_cont Eq m1 m2
             | Lt => Lt
             | Gt => Gt
             end in
    if s then CompOpp c else c.
Proof.
  intros H1 H2.
  assert (Hopp : forall m e, (inject_Z (cond_Zopp true (Z.pos m)) * 2 ^ e
                              == - (inject_Z (Z.pos m) * 2 ^ e))%Q).
  { intros m e. cbn [cond_Zopp]. rewrite inject_Z_opp. ring. }
  destruct (Z.compare_spec e1 e2) as [->|Hlt|Hgt]; cbv zeta.
  - rewrite scaled_compare. change (Pos.compare_cont Eq m1 m2) with (Z.pos m1 ?= Z.pos m2).
    destruct s; cbn [cond_Zopp]; [|reflexivity].
    rewrite <- Z.compare_opp. rewrite Z.compare_antisym. reflexivity.
  - pose proof (canonical_exponent_lt prec emax m1 m2 e1 e2 H1 H2 Hlt) as Hv.
    destruct s.
    + apply Qgt_alt. rewrite !Hopp. apply Qopp_lt_compat. exact Hv.
    + apply Qlt_alt. exact Hv.
  - pose proof (canonical_exponent_lt prec emax m2 m1 e2 e1 H2 H1 Hgt) as Hv.
    destruct s.
    + apply Qlt_alt. rewrite !Hopp. apply Qopp_lt_compat. exact Hv.
    + apply Qgt_alt. exact Hv.
Qed.

Lemma scaled_sign (s : bool) (m : positive) (e : Z) :
  (0 ?= inject_Z (cond_Zopp s (Z.pos m)) * 2 ^ e)%Q = (if s then Gt else Lt).
Proof.
  destruct s; cbn [cond_Zopp].
  - apply Qgt_alt. rewrite <- (Qmult_0_l (2 ^ e)). apply (scaled_lt (- Z.pos m) 0 e). lia.
  - apply Qlt_alt. rewrite <- (Qmult_0_l (2 ^ e)). apply (scaled_lt 0 (Z.pos m) e). lia.
Qed.

Lemma Binary32_compare_SFcompare (prec emax : Z) (x y : spec_float) :
  SpecFloat.valid_binary prec emax x = true ->
  SpecFloat.valid_binary prec emax y = true ->
  Binary32.compare x y = SFcompare x y.
Proof.
  intros Hx Hy.
  destruct x as [sx|sx| |sx mx ex], y as [sy|sy| |sy my ey]; try reflexivity.
  - change (Binary32.compare (S754_zero sx) (S754_finite sy my ey))
      with (Some (0 ?= inject_Z (cond_Zopp sy (Z.pos my)) * 2 ^ ey)%Q).
    rewrite scaled_sign. reflexivity.
  - change (Binary32.compare (S754_finite sx mx ex) (S754_zero sy))
      with (Some (inject_Z (cond_Zopp sx (Z.pos mx)) * 2 ^ ex ?= 0)%Q).
    rewrite <- Qcompare_antisym, scaled_sign. destruct sx; reflexivity.
  - change (Binary32.compare (S754_finite sx mx ex) (S754_finite sy my ey))
      with (Some (inject_Z (cond_Zopp sx (Z.pos mx)) * 2 ^ ex
                  ?= inject_Z (cond_Zopp sy (Z.pos my)) * 2 ^ ey)%Q).
    simpl in Hx, Hy. apply andb_true_iff in Hx as [Hx _]. apply andb_true_iff in Hy as [Hy _].
    unfold SFcompare. f_equal.
    destruct sx, sy.
    + rewrite (scaled_compare_canonical prec emax true mx my ex ey Hx Hy). cbv zeta.
      destruct (ex ?= ey); reflexivity.
    + apply Qlt_alt. apply Qlt_trans with 0%Q.
      * apply Qgt_alt. apply (scaled_sign true).
      * apply Qlt_alt. apply (scaled_sign false).
    + apply Qgt_alt. apply Qlt_trans with 0%Q.
      * apply Qgt_alt. apply (scaled_sign true).
      * apply Qlt_alt. apply (scaled_sign false).
    + rewrite (scaled_compare_canonical prec emax false mx my ex ey Hx Hy). reflexivity.
Qed.

(** A number with the sign bit clear lies above 0, one with the sign
    bit set below. *)
Lemma Binary32_ltb_zero_finite (s : bool) (m : positive) (e : Z) :
  Binary32.ltb Binary32.zero (S754_finite s m e) = negb s.
Proof.
  unfold Binary32.ltb.
  change (Binary32.compare Binary32.zero (S754_finite s m e))
    with (Some (0 ?= inject_Z (cond_Zopp s (Z.pos m)) * 2 ^ e)%Q).
  destruct s; cbn [cond_Zopp negb].
  - assert (H : (inject_Z (- Z.pos m) * 2 ^ e < 0)%Q).
    { rewrite <- (Qmult_0_l (2 ^ e)). apply (scaled_lt (- Z.pos m) 0 e). lia. }
    rewrite (proj1 (Qgt_alt _ _) H). reflexivity.
  - assert (H : (0 < inject_Z (Z.pos m) * 2 ^ e)%Q).
    { rewrite <- (Qmult_0_l (2 ^ e)). apply (scaled_lt 0 (Z.pos m) e). lia. }
    rewrite (proj1 (Qlt_alt _ _) H). reflexivity.
Qed.

Lemma Binary32_leb_zero_finite (s : bool) (m : positive) (e : Z) :
  Binary32.leb Binary32.zero (S754_finite s m e) = true -> s = false.
Proof.
  intros H. pose proof (Binary32_ltb_zero_finite s m e) as Hlt.
  unfold Binary32.leb in H. unfold Binary32.ltb in Hlt.
  destruct (Binary32.compare Binary32.zero (S754_finite s m e)) as [[| |]|] eqn:E;
    try discriminate H.
  - apply Binary32_compare_zero_Eq in E as [s' E]. discriminate E.
  - destruct s; [discriminate Hlt | reflexivity].
Qed.

Lemma Binary32_ltb_leb (x y : spec_float) :
  Binary32.ltb x y = true -> Binary32.leb x y = true.
Proof.
  unfold Binary32.ltb, Binary32.leb.
  destruct (Binary32.compare x y) as [[| |]|]; congruence.
Qed.

(** [max(0.0F, x)] is 0 or an [x] above 0. *)
Lemma Binary32_max_zero_cases (x : spec_float) :
  (Binary32.ltb Binary32.zero x = false /\ Binary32.max Binary32.zero x = Binary32.zero)
  \/ (Binary32.ltb Binary32.zero x = true /\ Binary32.max Binary32.zero x = x).
Proof.
  unfold Binary32.max. destruct (Binary32.ltb Binary32.zero x); auto.
Qed.

Lemma Binary32_max_zero_nonneg (x : spec_float) :
  Binary32.leb Binary32.zero (Binary32.max Binary32.zero x) = true.
Proof.
  destruct (Binary32_max_zero_cases x) as [[_ ->]|[H ->]].
  - reflexivity.
  - apply Binary32_ltb_leb. exact H.
Qed.

(** The difference of a [float] and a [float] that is not below 0, as
    the code rounds it: when it lies above 0 then so does the former,
    and the difference is not above it. *)
Lemma Binary32_sub_below (d m : spec_float) :
  Binary32.valid d = true ->
  Binary32.leb Binary32.zero m = true ->
  Binary32.ltb Binary32.zero (Binary32.sub d m) = true ->
  Binary32.ltb Binary32.zero d = true /\ Binary32.leb (Binary32.sub d m) d = true.
Proof.
  intros Hvalid Hm Hx.
  assert (Hrefl : forall s mm e,
            Binary32.leb (S754_finite s mm e) (S754_finite s mm e) = true).
  { intros s mm e. unfold Binary32.leb.
    change (Binary32.compare (S754_finite s mm e) (S754_finite s mm e))
      with (Some (Binary32.value (S754_finite s mm e)
                  ?= Binary32.value (S754_finite s mm e))%Q).
    rewrite (proj1 (Qeq_alt _ _) (Qeq_refl _)). reflexivity. }
  destruct m as [sm|sm| |sm mm em].
  - destruct d as [sd|sd| |sd md ed].
    + destruct sd, sm; discriminate Hx.
    + destruct sd; [discriminate Hx|]. split; reflexivity.
    + discriminate Hx.
    + split; [exact Hx | apply Hrefl].
  - destruct sm; [discriminate Hm|].
    destruct d as [sd|sd| |sd md ed]; try discriminate Hx.
    destruct sd; discriminate Hx.
  - discriminate Hm.
  - apply Binary32_leb_zero_finite in Hm. subst sm.
    destruct d as [sd|sd| |sd md ed].
    + change (Binary32.sub (S754_zero sd) (S754_finite false mm em))
        with (S754_finite true mm em) in Hx.
      rewrite Binary32_ltb_zero_finite in Hx. discriminate Hx.
    + destruct sd; [discriminate Hx|]. split; reflexivity.
    + discriminate Hx.
    + pose proof (SFsub_below Binary32.prec Binary32.emax sd md ed mm em Hvalid) as Hsub.
      unfold Binary32.sub in *.
      destruct (SFsub Binary32.prec Binary32.emax (S754_finite sd md ed)
                  (S754_finite false mm em)) as [s|s| |s m e].
      * destruct s; discriminate Hx.
      * destruct s; [discriminate Hx | destruct Hsub].
      * discriminate Hx.
      * rewrite Binary32_ltb_zero_finite in Hx. destruct s; [discriminate Hx|].
        destruct Hsub as [-> Hle]. split; [apply Binary32_ltb_zero_finite|].
        unfold Binary32.leb.
        change (Binary32.compare (S754_finite false m e) (S754_finite false md ed))
          with (Some (inject_Z (Z.pos m) * 2 ^ e ?= inject_Z (Z.pos md) * 2 ^ ed)%Q).
        pose proof (proj1 (Qle_alt _ _) Hle) as Hcmp.
        destruct (inject_Z (Z.pos m) * 2 ^ e ?= inject_Z (Z.pos md) * 2 ^ ed)%Q;
          [reflexivity | reflexivity | congruence].
Qed.

(** X21.  With a fill type at hand, the demand that
    [get_node_demand_adjusted_for_path_history] returns is never
    negative and never above the demand of the node (or above 0, for a
    negative demand), for every [float] that the demand can be and with
    the quotients and the difference rounded as the code rounds them;
    without a fill type it is the demand of the node as it is. *)
Theorem adjusted_demand_bounds (demand history_source history_sink : spec_float)
    (rr_node : list RR_Node) (source_ind sink_ind : nat)
    (fill_type : option Physical_Type_Descriptor) (adjusted : spec_float) :
  Binary32.valid demand = true ->
  get_node_demand_adjusted_for_path_history demand history_source history_sink rr_node
    source_ind sink_ind fill_type = Ok adjusted ->
  match fill_type with
  | Some _ =>
      Binary32.leb Binary32.zero adjusted = true
      /\ Binary32.leb adjusted (Binary32.max Binary32.zero demand) = true
  | None => adjusted = demand
  end.
Proof.
  intros Hvalid. unfold get_node_demand_adjusted_for_path_history.
  destruct fill_type as [ft|].
  - intros H. apply bind_Ok in H as (sn & _ & H). apply bind_Ok in H as (sc & _ & H).
    apply bind_Ok in H as (kn & _ & H). apply bind_Ok in H as (kc & _ & H).
    cbv zeta in H. destruct (Binary32.ltb _ _); [discriminate|]. injection H as <-.
    set (modifier := Binary32.max Binary32.zero (Binary32.max _ _)).
    assert (Hmod : Binary32.leb Binary32.zero modifier = true)
      by apply Binary32_max_zero_nonneg.
    destruct (Binary32_max_zero_cases (Binary32.sub demand modifier)) as [[_ ->]|[Hx ->]].
    + split; [reflexivity | apply Binary32_max_zero_nonneg].
    + destruct (Binary32_sub_below demand modifier Hvalid Hmod Hx) as [Hd Hle].
      split; [apply Binary32_ltb_leb; exact Hx|].
      unfold Binary32.max at 1. rewrite Hd. exact Hle.
  - intros H. injection H as <-. reflexivity.
Qed.
(** ** The arenas of the threads *)

(** [(int)(k * 1.3)] is [13 k / 10], rounded down, for a weight [k]. *)
Lemma trunc_mul_1_3_exact (k : Z) :
  0 <= k < 2 ^ 31 ->
  Binary64.trunc_mul k Binary64.lit_1_3 = 13 * k / 10.
Proof.
  unfold Binary64.trunc_mul. intros Hk.
  destruct (Z.eq_dec k 0) as [->|Hnz]; [reflexivity|].
  unfold Binary64.mul_magnitude.
  cbn [Binary64.significand Binary64.scale Binary64.lit_1_3].
  destruct (round_to_prec_rounds (Z.abs k * 5854679515581645) ltac:(lia))
    as (t & Ht & Hb & Hr).
  destruct (round_1_3 (Z.abs k) _ t ltac:(lia) Ht Hb Hr) as [Hfloor _].
  rewrite Hfloor. rewrite (Z.sgn_pos k) by lia. replace (Z.abs k) with k by lia. lia.
Qed.

(** X22.  The buckets that [analyze_test_tile_connections] allocates:
    every node of every thread gets [13 W / 10 + 1] source buckets and
    as many sink buckets, all zero, where [W] is the maximum path weight
    at the maximum connection length and the quotient is rounded down
    (as long as that is an [int]);
    so there is a bucket for every path weight from 0 to [W], which is
    as far as the adjusted maximum path weight of such a connection
    goes. *)
Theorem thread_buckets_suffice (num_threads num_nodes W : Z)
    (source sink : nat) (rr_node : list RR_Node) (ss ss' : list SS_Distances)
    (nv nv' : list nat) (W' d : Z) :
  0 <= W -> 13 * W / 10 + 1 < 2 ^ 31 -> 0 <= num_threads -> 0 <= num_nodes ->
  get_ss_distances_and_adjust_max_path_weight source sink rr_node ss W nv
  = Ok (ss', nv', W', d) ->
  let buckets := replicate (Z.to_nat (13 * W / 10 + 1)) 0%Q in
  alloc_thread_node_topo_inf num_threads (max_path_weight_bound W) num_nodes
  = Done (replicate (Z.to_nat num_threads)
            (replicate (Z.to_nat num_nodes)
               (mk_Node_Topological_Info buckets buckets UNDEFINED false)))
  /\ W' <= W < Z.of_nat (length buckets).
Proof.
  intros HW0 Hint Ht Hn H buckets.
  assert (HW : 0 <= W < 2 ^ 31) by (Z.div_mod_to_equations; lia). split.
  - unfold alloc_thread_node_topo_inf, max_path_weight_bound, vector_assign.
    rewrite trunc_mul_1_3_exact by exact HW.
    destruct (Z.ltb_spec num_nodes 0) as [Hneg|_]; [lia|]. simpl.
    destruct (Z.ltb_spec num_threads 0) as [Hneg|_]; [lia|]. reflexivity.
  - subst buckets. rewrite length_replicate.
    unfold get_ss_distances_and_adjust_max_path_weight in H.
    apply bind_Ok in H as ([ss1 nv1] & _ & H).
    apply bind_Ok in H as ([ss2 nv2] & _ & H).
    apply bind_Ok in H as (sink_s & _ & H).
    apply bind_Ok in H as (source_s & _ & H).
    destruct (negb _); [discriminate|]. injection H as _ _ <- _.
    split; [apply Z.le_min_r|]. Z.div_mod_to_equations. lia.
Qed.

(** ** The properties at work on examples *)

Lemma tile_at_replicate (n m : nat) (tile : Grid_Tile) (x y : Z) :
  0 <= x < Z.of_nat n -> 0 <= y < Z.of_nat m ->
  tile_at (replicate n (replicate m tile)) x y = Ok tile.
Proof.
  intros Hx Hy. unfold tile_at, at_int.
  destruct (Z.ltb_spec x 0) as [Hneg|_]; [lia|].
  rewrite (at_index_lookup _ _ (replicate m tile)); [simpl|].
  - destruct (Z.ltb_spec y 0) as [Hneg|_]; [lia|].
    apply at_index_lookup. apply lookup_replicate. split; [reflexivity | lia].
  - apply lookup_replicate. split; [reflexivity | lia].
Qed.

Lemma within_perimeter_bounds (x y gx gy : Z) :
  within_perimeter x y gx gy = true <-> (0 < x < gx - 1) /\ (0 < y < gy - 1).
Proof.
  unfold within_perimeter. rewrite !andb_true_iff, !Z.gtb_ltb, !Z.ltb_lt. lia.
Qed.

Lemma example_grid_logic_blocks :
  logic_blocks_inside (grid example_grid_arch) 12 12 0.
Proof.
  intros x y Hin. apply within_perimeter_bounds in Hin. exists (mk_Grid_Tile 0 0 0).
  split; [|reflexivity]. apply (tile_at_replicate 12 12); lia.
Qed.

(** Nineteen wires are too few for the metric. *)
Lemma node_demand_metric_threshold_witness :
  node_demand_metric example_demand (example_wires 19) = Raise Ex_demand_of_no_nodes
  <-> get_num_routing_nodes (example_wires 19) < 20.
Proof.
  apply (node_demand_metric_threshold example_demand (example_wires 19)).
  vm_compute. reflexivity.
Defined.

(** Of forty wires with the demands 1 to 40, two are retained. *)
Lemma node_demand_metric_mean_of_largest_witness :
  exists retained dropped,
    routing_demands example_demand (example_wires 40) ≡ₚ retained ++ dropped
    /\ Z.of_nat (length retained) = get_num_routing_nodes (example_wires 40) / 20
    /\ (forall a b, a ∈ retained -> b ∈ dropped -> (b <= a)%Q)
    /\ node_demand_metric example_demand (example_wires 40)
       = Done (Qsum retained / inject_Z (get_num_routing_nodes (example_wires 40) / 20))%Q.
Proof.
  apply (node_demand_metric_mean_of_largest example_demand (example_wires 40)).
  - vm_compute. reflexivity.
  - vm_compute. discriminate.
Defined.

(** From the tile (5,5) of the 12 x 12 grid there are 8 blocks at
    length 2, with one input pin each. *)
Lemma conns_at_distance_on_logic_grid_witness :
  conns_at_distance_from_tile example_num_receivers 5 5 2 (grid example_grid_arch) 12 12
    (block_type example_grid_arch) 0
  = Done (example_num_receivers example_block
          * Z.of_nat (length (ring_inside 5 5 2 12 12)))
  /\ (1 <= 2 -> 2 < 5 -> 5 + 2 < 12 - 1 -> 2 < 5 -> 5 + 2 < 12 - 1 ->
      conns_at_distance_from_tile example_num_receivers 5 5 2 (grid example_grid_arch)
        12 12 (block_type example_grid_arch) 0
      = Done (4 * 2 * example_num_receivers example_block)).
Proof.
  apply (conns_at_distance_on_logic_grid example_num_receivers 5 5 2
           (grid example_grid_arch) 12 12 (block_type example_grid_arch) 0 example_block).
  - exact example_grid_logic_blocks.
  - reflexivity.
Defined.

Lemma conns_at_distance_raises_iff_witness :
  conns_at_distance_from_tile example_num_receivers 5 5 2 (grid example_grid_arch) 12 12
    (block_type example_grid_arch) 0 = Raise Ex_block_not_fill_type
  <-> exists dx dy tile,
        Z.abs dx + Z.abs dy = 2
        /\ within_perimeter (5 + dx) (5 + dy) 12 12 = true
        /\ tile_at (grid example_grid_arch) (5 + dx) (5 + dy) = Ok tile
        /\ type_index tile <> 0.
Proof.
  apply (conns_at_distance_raises_iff example_num_receivers 5 5 2
           (grid example_grid_arch) 12 12 (block_type example_grid_arch) 0 example_block).
  - intros x y Hin. destruct (example_grid_logic_blocks x y Hin) as (tile & Htile & _).
    exists tile. exact Htile.
  - reflexivity.
Defined.

(** The 12 x 12 grid with lengths up to 2: 360 connections of length 1
    and 644 of length 2, hence queues of the capacities 36 and 64. *)
Lemma lowest_probs_pqs_from_stats_witness :
  Z.of_nat (length example_conn_length_stats) = 2 + 1
  /\ (forall c, example_conn_length_stats !! 0%nat = Some c -> c = 0)
  /\ exists pqs,
       create_lowest_probs_pqs 2 example_conn_length_stats = Ok pqs
       /\ Z.of_nat (length pqs) = 2 + 1
       /\ (forall pq, pqs !! 0%nat = Some pq -> pq = fs_default)
       /\ forall ilen c, example_conn_length_stats !! ilen = Some c ->
            pqs !! ilen
            = Some (if c =? 0 then fs_default
                    else fs_set_properties (entries_limit c) fs_default).
Proof.
  apply (lowest_probs_pqs_from_stats example_num_receivers example_num_drivers 2 false
           example_grid_arch example_conn_length_stats).
  vm_compute. reflexivity.
Defined.

(** One connection from the source on tile (1,1) to the block next to
    it: both counters go from 0 to 1. *)
Lemma worker_counters_witness :
  desired_conns Analysis_Results_init <= desired_conns (fst example_worker_result)
  /\ num_conns (fst example_worker_result) - num_conns Analysis_Results_init
     = desired_conns (fst example_worker_result) - desired_conns Analysis_Results_init.
Proof.
  apply (worker_counters (example_env Binary32.zero) example_num_receivers example_dx_plus_dy
           example_worker_index 1 example_settings example_worker_arch example_path_graph
           ENUMERATE (mk_Conn_Info [0%nat] [mk_Coordinate 1 1]) Analysis_Results_init
           (fst example_worker_result) (example_world 3) (snd example_worker_result)).
  vm_compute. reflexivity.
Defined.

(** The sink of [example_wide_graph] lies over the tiles (1,1) and
    (2,1). *)
Lemma set_node_distances_destination_tile_witness :
  set_node_distances 0 1 example_wide_graph (example_clear_distances 2) 3
    FORWARD_TRAVERSAL [] = Throw Ex_destination_not_single_tile.
Proof.
  refine (set_node_distances_destination_tile 0 1 example_wide_graph
            (example_clear_distances 2) 3 FORWARD_TRAVERSAL []
            (mk_RR_Node SINK 1 2 1 1 0 1 [] [0%nat]) _ _ _ _ _).
  - lia.
  - eexists. reflexivity.
  - eexists. reflexivity.
  - reflexivity.
  - left. simpl. lia.
Defined.

(** The forward pass on [example_path_graph] records the three nodes. *)
Lemma set_node_distances_records_witness :
  length (fst example_path_forward) = length (example_clear_distances 3)
  /\ exists added,
       snd example_path_forward = [] ++ added /\ NoDup added /\ 0%nat ∈ added
       /\ (length added <= length (example_clear_distances 3))%nat
       /\ forall n, n ∈ added ->
            exists s', fst example_path_forward !! n = Some s'
                       /\ visited_in FORWARD_TRAVERSAL s' = true.
Proof.
  apply (set_node_distances_records 0 2 example_path_graph 3 FORWARD_TRAVERSAL
           (example_clear_distances 3) (fst example_path_forward) []
           (snd example_path_forward)).
  vm_compute. reflexivity.
Defined.

Lemma example_clear_unvisited (dir : e_traversal_dir) (k n : nat) (s : SS_Distances) :
  example_clear_distances k !! n = Some s ->
  visited_in dir s = false /\ visited_hops_in dir s = false.
Proof.
  intros Hn. apply lookup_replicate in Hn as [-> _]. destruct dir; split; reflexivity.
Qed.

(** After the forward pass on [example_path_graph] every marked node
    has its distance from a marked parent. *)
Lemma set_node_distances_path_weights_witness :
  set_node_distances 0 2 example_path_graph (example_clear_distances 3) 3
    FORWARD_TRAVERSAL [] = Ok example_path_forward
  /\ forall n s', fst example_path_forward !! n = Some s' ->
       visited_in FORWARD_TRAVERSAL s' = true ->
       reached_from_parent FORWARD_TRAVERSAL example_path_graph (fst example_path_forward)
         0 n s'.
Proof.
  split; [vm_compute; reflexivity|].
  apply (set_node_distances_path_weights 0 2 example_path_graph 3 FORWARD_TRAVERSAL
           (example_clear_distances 3) (fst example_path_forward) []
           (snd example_path_forward)).
  - intros n s Hn. apply (example_clear_unvisited FORWARD_TRAVERSAL 3 n s Hn).
  - vm_compute. reflexivity.
Defined.

(** The backward pass on top of the forward pass: the wire and the
    source are legal under the bound of 3. *)
Lemma set_node_distances_within_bound_witness :
  0 <= 3
  /\ forall n s s', fst example_path_forward !! n = Some s ->
       visited_in BACKWARD_TRAVERSAL s = false ->
       fst example_path_both !! n = Some s' ->
       visited_in BACKWARD_TRAVERSAL s' = true ->
       n = 2%nat
       \/ exists node, example_path_graph !! n = Some node
                       /\ is_legal s' (weight node) 3 = true.
Proof.
  apply (set_node_distances_within_bound 2 0 example_path_graph 3 BACKWARD_TRAVERSAL
           (fst example_path_forward) (fst example_path_both) (snd example_path_forward)
           (snd example_path_both)).
  vm_compute. reflexivity.
Defined.

Lemma distance_passes_cleaned_up_witness :
  clean_ss_distances example_path_adjusted.1.1.1 example_path_adjusted.1.1.2
  = Ok (replicate 3 SS_Distances_clear).
Proof.
  apply (distance_passes_cleaned_up 0 2 example_path_graph 3 3
           example_path_adjusted.1.2 example_path_adjusted.2).
  vm_compute. reflexivity.
Defined.

(** The forward hops pass on [example_path_graph]: the source at 0
    hops, the wire at 1, the sink at 2. *)
Lemma set_node_hops_levels_witness :
  length example_path_hops = length (fst example_path_both)
  /\ (forall n s s', fst example_path_both !! n = Some s -> example_path_hops !! n = Some s' ->
        same_distances s s')
  /\ forall n s', example_path_hops !! n = Some s' ->
       visited_hops_in FORWARD_TRAVERSAL s' = true ->
       hops_from_parent FORWARD_TRAVERSAL example_path_graph example_path_hops 0 n s'
       /\ (n = 0%nat
           \/ exists node, example_path_graph !! n = Some node
                           /\ is_legal s' (weight node) 3 = true).
Proof.
  apply (set_node_hops_levels 0 2 example_path_graph 3 FORWARD_TRAVERSAL
           (fst example_path_both) example_path_hops).
  - intros [|[|[|n]]] s Hn; simpl in Hn; try discriminate Hn; injection Hn as <-;
      reflexivity.
  - vm_compute. reflexivity.
Defined.

(** Three tiles for three threads: two items each. *)
Lemma build_workload_balanced_witness :
  exists wl,
    build_workload example_rr_node_index example_grid_arch false 3 ENUMERATE
      [mk_Coordinate 1 1; mk_Coordinate 5 5; mk_Coordinate 9 5] = Ok wl
    /\ length wl = 3%nat
    /\ (forall c, c ∈ wl -> length (tile_coords c) = length (source_node_inds c))
    /\ forall c1 c2, c1 ∈ wl -> c2 ∈ wl ->
         (length (source_node_inds c1) <= length (source_node_inds c2) + 2)%nat.
Proof.
  eexists. split; [vm_compute; reflexivity|].
  refine (build_workload_balanced example_rr_node_index example_grid_arch false 3 ENUMERATE
            [mk_Coordinate 1 1; mk_Coordinate 5 5; mk_Coordinate 9 5] _ _ _).
  - lia.
  - vm_compute. reflexivity.
Defined.

(** The source of [example_path_graph]: one output pin, used with
    probability 1/2. *)
Lemma sum_of_source_probabilities_of_class_witness :
  get_sum_of_source_probabilities (example_env Binary32.zero) 0 example_path_graph
    (pin_probabilities example_settings) example_block
  = Ok (fold_left Qplus (replicate (length [0%nat]) (1 # 2)) 0%Q, 1 # 2).
Proof.
  refine (sum_of_source_probabilities_of_class (example_env Binary32.zero) 0
            example_path_graph (pin_probabilities example_settings) example_block
            (mk_RR_Node SOURCE 1 1 1 1 0 0 [1%nat] []) (mk_Pin_Class DRIVER [0%nat])
            (1 # 2) _ _ _ _ _ _).
  - reflexivity.
  - reflexivity.
  - reflexivity.
  - intros pin Hpin. apply list_elem_of_singleton in Hpin as ->. reflexivity.
  - reflexivity.
  - reflexivity.
Defined.

Lemma analyze_connection_node_types_witness :
  exists source_node sink_node,
    example_path_graph !! 0%nat = Some source_node /\ rr_type source_node = SOURCE
    /\ example_path_graph !! 2%nat = Some sink_node /\ rr_type sink_node = SINK.
Proof.
  apply (analyze_connection_node_types (example_env Binary32.zero) 0 2 example_settings example_arch
           example_path_graph 1 4 ENUMERATE Analysis_Results_init
           (fst example_enumerate_result) (example_world 3) (snd example_enumerate_result)).
  vm_compute. reflexivity.
Defined.


(** A demand of 1 of which the connection itself accounts for 1/2. *)
Lemma adjusted_demand_bounds_witness :
  Binary32.leb Binary32.zero example_half = true
  /\ Binary32.leb example_half (Binary32.max Binary32.zero Binary32.one) = true.
Proof.
  apply (adjusted_demand_bounds Binary32.one example_half example_quarter
           example_path_graph 0 2 (Some example_block) example_half).
  - reflexivity.
  - vm_compute. reflexivity.
Defined.

(** Two threads, three nodes and a maximum path weight of 3: four
    buckets of either kind for every node. *)
Lemma thread_buckets_suffice_witness :
  let buckets := replicate (Z.to_nat (13 * 3 / 10 + 1)) 0%Q in
  alloc_thread_node_topo_inf 2 (max_path_weight_bound 3) 3
  = Done (replicate (Z.to_nat 2)
            (replicate (Z.to_nat 3)
               (mk_Node_Topological_Info buckets buckets UNDEFINED false)))
  /\ example_path_adjusted.1.2 <= 3 < Z.of_nat (length buckets).
Proof.
  refine (thread_buckets_suffice 2 3 3 0 2 example_path_graph (example_clear_distances 3)
            example_path_adjusted.1.1.1 [] example_path_adjusted.1.1.2
            example_path_adjusted.1.2 example_path_adjusted.2 _ _ _ _ _).
  - lia.
  - vm_compute. reflexivity.
  - lia.
  - lia.
  - vm_compute. reflexivity.
Defined.
